(** * Impala built-in aggregate functions: a shallow embedding

    The development follows [be/src/exprs/aggregate-functions.cc]
    function by function.  Machine integers are [Z] with the wrap-around
    written out, byte buffers are lists of bytes, the structs the code
    overlays on a buffer are records, and the services of the
    [FunctionContext] (allocation, release, type descriptors, warnings)
    are threaded through a small state-and-failure monad. *)

From Stdlib Require Import ZArith Lia List String Ascii DecimalString SpecFloat.
From stdpp Require Import base option list gmap.

Local Open Scope Z_scope.

(** ** Machine integers *)

(** Unsigned [bits]-bit wrap-around. *)
Definition wrap (bits z : Z) : Z := z mod 2 ^ bits.

(** Signed two's-complement [bits]-bit wrap-around. *)
Definition swrap (bits z : Z) : Z :=
  (z + 2 ^ (bits - 1)) mod 2 ^ bits - 2 ^ (bits - 1).

Definition to_uint8 : Z → Z := wrap 8.
Definition to_uint32 : Z → Z := wrap 32.
Definition to_uint64 : Z → Z := wrap 64.
Definition to_int32 : Z → Z := swrap 32.
Definition to_int64 : Z → Z := swrap 64.
Definition to_int128 : Z → Z := swrap 128.

Definition INT64_MAX : Z := 2 ^ 63 - 1.

(** ** Floating point: IEEE 754 binary64 and binary32 over [spec_float] *)

Definition double : Type := spec_float.
Definition dadd : double → double → double := SFadd 53 1024.
Definition dsub : double → double → double := SFsub 53 1024.
Definition dmul : double → double → double := SFmul 53 1024.
Definition ddiv : double → double → double := SFdiv 53 1024.
Definition dzero : double := S754_zero false.
(** Conversion of an integer to [double], as the C++ implicit conversion
    does (round to nearest even). *)
Definition double_of_Z (z : Z) : double := binary_normalize 53 1024 z 0 false.
Definition dsqrt : double → double := SFsqrt 53 1024.
Definition dltb : double → double → bool := SFltb.
Definition dleb : double → double → bool := SFleb.
(** Conversion of a [double] to [int64_t]: truncation toward zero.  The
    conversion of a value that does not fit is undefined in C++; it is
    modelled as the x86-64 result, the smallest [int64_t]. *)
Definition int64_of_double (d : double) : Z :=
  match d with
  | S754_zero _ => 0
  | S754_finite s m e =>
      let v := if 0 <=? e then Zpos m * 2 ^ e else Zpos m / 2 ^ (- e) in
      let v := if s then - v else v in
      if (- 2 ^ 63 <=? v) && (v <? 2 ^ 63) then v else - 2 ^ 63
  | _ => - 2 ^ 63
  end.

Definition float : Type := spec_float.
Definition fadd : float → float → float := SFadd 24 128.
Definition fmul : float → float → float := SFmul 24 128.
Definition fdiv : float → float → float := SFdiv 24 128.
Definition float_of_Z (z : Z) : float := binary_normalize 24 128 z 0 false.
(** A decimal literal [n/d] with the suffix [f]: the binary32 value nearest
    to the quotient ([n] and [d] are exactly representable). *)
Definition float_lit (n d : Z) : float := fdiv (float_of_Z n) (float_of_Z d).
(** The promotion of a [float] to [double] is exact. *)
Definition double_of_float (f : float) : double :=
  match f with
  | S754_finite s m e => binary_normalize 53 1024 (if s then Zneg m else Zpos m) e s
  | _ => f
  end.

(** The exponent of a finite number of a format is at least the format's
    least exponent; every encoded binary64 or binary32 value has it so. *)
Definition exponent_ok (prec emax : Z) (x : spec_float) : Prop :=
  match x with
  | S754_finite _ _ e => emin prec emax ≤ e
  | _ => True
  end.

(** ** The value types of the UDF interface *)

(** Modelled from the spec: the typed values ([AnyVal] and the types derived
    from it) are declared outside of this file.  A value is a boolean, an
    8/16/32/64-bit signed integer, a 32/64-bit float, a decimal, a timestamp
    or a byte string, and every value carries a null flag. *)
Class Nullable (T : Type) := is_null : T → bool.

(** Modelled from the spec: [BooleanVal], [TinyIntVal], [SmallIntVal],
    [IntVal], [BigIntVal], [FloatVal] and [DoubleVal] are a null flag and a
    [val] of the base type. *)
Record AnyVal (A : Type) := mkVal { av_is_null : bool; val : A }.
Arguments mkVal {A} _ _.
Arguments av_is_null {A} _.
Arguments val {A} _.

#[global] Instance AnyVal_nullable A : Nullable (AnyVal A) := av_is_null.

Definition BooleanVal := AnyVal bool.
Definition TinyIntVal := AnyVal Z.
Definition SmallIntVal := AnyVal Z.
Definition IntVal := AnyVal Z.
Definition BigIntVal := AnyVal Z.
Definition FloatVal := AnyVal float.
Definition DoubleVal := AnyVal double.

(** Modelled from the spec: a timestamp is a date and a time of day. *)
Record TimestampVal := mkTimestampVal {
  ts_is_null : bool;
  date : Z;
  time_of_day : Z
}.
#[global] Instance TimestampVal_nullable : Nullable TimestampVal := ts_is_null.

(** Modelled from the spec: a byte string is a pointer and a length.
    [NULL] is address [0]. *)
Record StringVal := mkStringVal {
  sv_is_null : bool;
  len : Z;
  ptr : Z
}.
#[global] Instance StringVal_nullable : Nullable StringVal := sv_is_null.

Definition NULL : Z := 0.
(** [StringVal(ptr, len)] *)
Definition StringVal_of (p l : Z) : StringVal := mkStringVal false l p.
(** [StringVal::null()] *)
Definition StringVal_null : StringVal := mkStringVal true 0 NULL.

(** Modelled from the spec: a decimal has a 4-, 8- or 16-byte physical
    width governed by the declared precision.  [DecimalVal] is a null flag
    and a union of [val4], [val8] and [val16] sharing the same 16 bytes.
    The record keeps the 16-byte image as an unsigned number (little
    endian); each sub-field reads its low bytes. *)
Record DecimalVal := mkDecimalVal {
  dv_is_null : bool;
  dv_image : Z
}.
#[global] Instance DecimalVal_nullable : Nullable DecimalVal := dv_is_null.

Definition val4 (d : DecimalVal) : Z := to_int32 (dv_image d).
Definition val8 (d : DecimalVal) : Z := to_int64 (dv_image d).
Definition val16 (d : DecimalVal) : Z := to_int128 (dv_image d).
(** Assignment to [val16] rewrites all 16 bytes. *)
Definition set_val16 (d : DecimalVal) (v : Z) : DecimalVal :=
  mkDecimalVal (dv_is_null d) (wrap 128 v).
(** [DecimalVal(v)] built from a 128-bit value. *)
Definition DecimalVal_of (v : Z) : DecimalVal := mkDecimalVal false (wrap 128 v).
Definition DecimalVal_null : DecimalVal := mkDecimalVal true 0.

(** ** The function context *)

(** Modelled from the spec: the type descriptor [FunctionContext::TypeDesc]
    of an argument or of the result, as far as the aggregates read it. *)
Record TypeDesc := mkTypeDesc { precision : Z; scale : Z }.

(** Modelled from the spec: [ColumnType::GetByteSize] for a decimal type is
    not part of this file; the physical width is derived from the declared
    precision, at most 9 gives 4 bytes, at most 19 gives 8 bytes, else 16. *)
Definition GetByteSize (t : TypeDesc) : Z :=
  if precision t <=? 9 then 4 else if precision t <=? 19 then 8 else 16.

(** Modelled from the spec: the execution context [ctx] lives outside of
    this file.  It provides byte-buffer allocation, reallocation and
    release tied to the operator's lifetime, the declared argument and
    return types, and a warning sink.

    [allocations] are the buffers handed out by [Allocate] and not yet
    given back through [Free]; a buffer is kept as the value of type [S]
    the operator overlays on it (a list of bytes for a raw buffer).
    [local_states] are the buffers of [StringVal(ctx, len)] that an
    operator fills with a copy of its state (serialize); the context owns
    them.  [strings] are the byte strings that are not operator state: the
    bytes of the input values, and the result strings built by
    [StringVal(ctx, len)], which the context owns and releases itself. *)
Record FunctionContext (S : Type) := mkCtx {
  allocations : gmap Z S;
  local_states : gmap Z S;
  strings : gmap Z (list Z);
  next_ptr : Z;
  warnings : list string;
  arg_type : TypeDesc;
  return_type : TypeDesc
}.
Arguments mkCtx {S} _ _ _ _ _ _ _.
Arguments allocations {S} _.
Arguments local_states {S} _.
Arguments strings {S} _.
Arguments next_ptr {S} _.
Arguments warnings {S} _.
Arguments arg_type {S} _.
Arguments return_type {S} _.

Definition set_allocations {S} (a : gmap Z S) (ctx : FunctionContext S) : FunctionContext S :=
  mkCtx a (local_states ctx) (strings ctx) (next_ptr ctx) (warnings ctx)
        (arg_type ctx) (return_type ctx).
Definition set_local_states {S} (a : gmap Z S) (ctx : FunctionContext S) : FunctionContext S :=
  mkCtx (allocations ctx) a (strings ctx) (next_ptr ctx) (warnings ctx)
        (arg_type ctx) (return_type ctx).
Definition set_strings {S} (a : gmap Z (list Z)) (ctx : FunctionContext S) : FunctionContext S :=
  mkCtx (allocations ctx) (local_states ctx) a (next_ptr ctx) (warnings ctx)
        (arg_type ctx) (return_type ctx).
Definition set_next_ptr {S} (p : Z) (ctx : FunctionContext S) : FunctionContext S :=
  mkCtx (allocations ctx) (local_states ctx) (strings ctx) p (warnings ctx)
        (arg_type ctx) (return_type ctx).
Definition set_warnings {S} (w : list string) (ctx : FunctionContext S) : FunctionContext S :=
  mkCtx (allocations ctx) (local_states ctx) (strings ctx) (next_ptr ctx) w
        (arg_type ctx) (return_type ctx).

(** What a buffer of a given length looks like after [memset(ptr, 0, len)]. *)
Class Buffer (S : Type) := zero_image : Z → S.

#[global] Instance bytes_buffer : Buffer (list Z) :=
  λ n, replicate (Z.to_nat n) 0.

(** Computations in a context: the result and the new context, or [None]
    when the code steps outside of defined behaviour (a dangling pointer,
    releasing a buffer the context does not know). *)
Definition M (S A : Type) : Type := FunctionContext S → option (A * FunctionContext S).

#[global] Instance M_ret S : MRet (M S) := λ A a ctx, Some (a, ctx).
#[global] Instance M_bind S : MBind (M S) := λ A B f m ctx,
  match m ctx with
  | Some (a, ctx') => f a ctx'
  | None => None
  end.

Definition get_ctx {S} : M S (FunctionContext S) := λ ctx, Some (ctx, ctx).
Definition undefined {S A} : M S A := λ _, None.

(** Modelled from the spec: [ctx->Allocate(len)] gives a fresh buffer.  Its
    bytes are unspecified until written; the model fills them with zeros. *)
Definition Allocate {S} `{Buffer S} (n : Z) : M S Z := λ ctx,
  let p := next_ptr ctx in
  Some (p, set_next_ptr (p + 1) (set_allocations (<[p := zero_image n]> (allocations ctx)) ctx)).

(** Modelled from the spec: [ctx->Free(ptr)] gives a buffer back.
    Releasing [NULL] does nothing; releasing anything else the context did
    not allocate is an error. *)
Definition Free {S} (p : Z) : M S unit := λ ctx,
  if p =? NULL then Some (tt, ctx)
  else match allocations ctx !! p with
       | Some _ => Some (tt, set_allocations (delete p (allocations ctx)) ctx)
       | None => None
       end.

(** The object behind a state pointer, wherever the buffer lives. *)
Definition state_at {S} (ctx : FunctionContext S) (p : Z) : option S :=
  match allocations ctx !! p with
  | Some s => Some s
  | None => local_states ctx !! p
  end.

(** Reading the object behind a state pointer
    ([reinterpret_cast<State*>(dst->ptr)] followed by reads). *)
Definition load {S} (p : Z) : M S S := λ ctx,
  match state_at ctx p with
  | Some s => Some (s, ctx)
  | None => None
  end.

(** Writing the object behind a state pointer. *)
Definition store {S} (p : Z) (s : S) : M S unit := λ ctx,
  match allocations ctx !! p with
  | Some _ => Some (tt, set_allocations (<[p := s]> (allocations ctx)) ctx)
  | None =>
      match local_states ctx !! p with
      | Some _ => Some (tt, set_local_states (<[p := s]> (local_states ctx)) ctx)
      | None => None
      end
  end.

(** [memset(ptr, 0, len)] *)
Definition memset_zero {S} `{Buffer S} (p n : Z) : M S unit := store p (zero_image n).

(** Modelled from the spec: [ctx->Reallocate(ptr, new_len)] resizes a raw
    buffer.  The old bytes are kept up to the new length; the pointer is
    modelled as unchanged. *)
Definition Reallocate (p new_len : Z) : M (list Z) Z := λ ctx,
  match allocations ctx !! p with
  | Some old =>
      Some (p, set_allocations
                 (<[p := take (Z.to_nat new_len) (old ++ replicate (Z.to_nat new_len) 0)]>
                    (allocations ctx)) ctx)
  | None => None
  end.

(** Modelled from the spec: [StringVal result(ctx, len)] is a result string
    owned by the context. *)
Definition StringVal_local {S} (n : Z) : M S StringVal := λ ctx,
  let p := next_ptr ctx in
  Some (StringVal_of p n,
        set_next_ptr (p + 1)
          (set_strings (<[p := replicate (Z.to_nat n) 0]> (strings ctx)) ctx)).

(** [memcpy(result.ptr, bytes, result.len)] into a result string. *)
Definition memcpy_local {S} (r : StringVal) (bs : list Z) : M S unit := λ ctx,
  match strings ctx !! ptr r with
  | Some old =>
      Some (tt, set_strings
                  (<[ptr r := take (Z.to_nat (len r)) bs ++ drop (Z.to_nat (len r)) old]>
                     (strings ctx)) ctx)
  | None => None
  end.

(** [StringVal result(ctx, len); memcpy(result.ptr, src.ptr, src.len)] where
    the copy is a state of the operator: a buffer owned by the context
    holding a copy of the state behind [src]. *)
Definition StringVal_local_state {S} (src : StringVal) : M S StringVal := λ ctx,
  match state_at ctx (ptr src) with
  | Some s =>
      let p := next_ptr ctx in
      Some (StringVal_of p (len src),
            set_next_ptr (p + 1) (set_local_states (<[p := s]> (local_states ctx)) ctx))
  | None => None
  end.

(** Modelled from the spec: [ctx->AddWarning(msg)], the warning sink. *)
Definition AddWarning {S} (msg : string) : M S unit := λ ctx,
  Some (tt, set_warnings (warnings ctx ++ [msg]) ctx).

(** Modelled from the spec: [ctx->GetArgType(0)] and [ctx->GetReturnType()],
    the declared input and output type descriptors. *)
Definition GetArgType {S} : M S TypeDesc := λ ctx, Some (arg_type ctx, ctx).
Definition GetReturnType {S} : M S TypeDesc := λ ctx, Some (return_type ctx, ctx).

(** A context with nothing allocated. *)
Definition empty_ctx {S} (arg ret : TypeDesc) : FunctionContext S :=
  mkCtx ∅ ∅ ∅ 1 [] arg ret.

(** Delimiter to use if the separator is NULL: the two bytes [", "].
    Static data lives at a fixed address outside of the heap. *)
Definition DEFAULT_STRING_CONCAT_DELIM_ptr : Z := -1.
Definition DEFAULT_STRING_CONCAT_DELIM : StringVal :=
  StringVal_of DEFAULT_STRING_CONCAT_DELIM_ptr 2.
Definition static_data : gmap Z (list Z) :=
  {[ DEFAULT_STRING_CONCAT_DELIM_ptr := [44; 32] ]}.

(** The bytes behind a string value that is not operator state. *)
Definition string_at {S} (ctx : FunctionContext S) (p : Z) : option (list Z) :=
  match strings ctx !! p with
  | Some bs => Some bs
  | None => static_data !! p
  end.

(** The first [len] bytes at [s.ptr], for a [memcpy] out of an input value. *)
Definition read_string {S} (s : StringVal) : M S (list Z) := λ ctx,
  match string_at ctx (ptr s) with
  | Some bs =>
      if len s <=? Z.of_nat (length bs) then Some (take (Z.to_nat (len s)) bs, ctx)
      else None
  | None => None
  end.

(** The same where the value may also be a state buffer of this operator
    (the source of a merge). *)
Definition read_bytes (s : StringVal) : M (list Z) (list Z) := λ ctx,
  match state_at ctx (ptr s) with
  | Some bs =>
      if len s <=? Z.of_nat (length bs) then Some (take (Z.to_nat (len s)) bs, ctx)
      else None
  | None => read_string s ctx
  end.

(** The bytes of a result string. *)
Definition result_bytes {S} (ctx : FunctionContext S) (s : StringVal) : option (list Z) :=
  take (Z.to_nat (len s)) <$> string_at ctx (ptr s).

(** ** Count *)

Definition CountUpdate {T} `{Nullable T} (src : T) (dst : BigIntVal) : BigIntVal :=
  if negb (is_null src) then mkVal (av_is_null dst) (to_int64 (val dst + 1)) else dst.

Definition CountStarUpdate (dst : BigIntVal) : BigIntVal :=
  mkVal (av_is_null dst) (to_int64 (val dst + 1)).

Definition CountMerge (src : BigIntVal) (dst : BigIntVal) : BigIntVal :=
  mkVal (av_is_null dst) (to_int64 (val dst + val src)).

(** ** Average *)

Record AvgState := mkAvgState { avg_sum : double; avg_count : Z }.

#[global] Instance AvgState_buffer : Buffer AvgState := λ _, mkAvgState dzero 0.

Definition sizeof_AvgState : Z := 16.

Definition AvgInit : M AvgState StringVal :=
  p ← Allocate sizeof_AvgState;
  memset_zero p sizeof_AvgState;;
  mret (mkStringVal false sizeof_AvgState p).

(** [AvgUpdate<T>]; [to_double] is the conversion of [T]'s base type in
    [avg->sum += src.val]. *)
Definition AvgUpdate {A} (to_double : A → double) (src : AnyVal A) (dst : StringVal)
  : M AvgState unit :=
  if is_null src then mret tt
  else
    avg ← load (ptr dst);
    store (ptr dst) (mkAvgState (dadd (avg_sum avg) (to_double (val src)))
                                (to_int64 (avg_count avg + 1))).

Definition AvgMerge (src : StringVal) (dst : StringVal) : M AvgState unit :=
  src_struct ← load (ptr src);
  dst_struct ← load (ptr dst);
  store (ptr dst) (mkAvgState (dadd (avg_sum dst_struct) (avg_sum src_struct))
                              (to_int64 (avg_count dst_struct + avg_count src_struct))).

Definition DoubleVal_null : DoubleVal := mkVal true dzero.

Definition AvgGetValue (src : StringVal) : M AvgState DoubleVal :=
  val_struct ← load (ptr src);
  if avg_count val_struct =? 0 then mret DoubleVal_null
  else mret (mkVal false (ddiv (avg_sum val_struct) (double_of_Z (avg_count val_struct)))).

Definition AvgFinalize (src : StringVal) : M AvgState DoubleVal :=
  result ← AvgGetValue src;
  Free (ptr src);;
  mret result.

(** Modelled from the spec: the value-representation library (timestamp
    encoding, decimal arithmetic with overflow detection, printing of a
    [double]) is an external collaborator, specified only by its contracts;
    the aggregates take it as a parameter. *)
Class ValueLibrary := {
  (** [TimestampValue::FromTimestampVal(src)] converted to [double] *)
  FromTimestampVal : TimestampVal → double;
  (** [TimestampValue tv(d); tv.ToTimestampVal(&result)] *)
  ToTimestampVal : double → TimestampVal;
  (** [TimestampValue::DebugString] *)
  DebugString : TimestampVal → list Z;
  (** [Decimal16Value::Divide]: sum, scale of the sum, count, scale of the
      result; returns the quotient, [is_nan] and [overflow] *)
  Divide : Z → Z → Z → Z → Z * bool * bool;
  (** [stringstream << double] *)
  print_double : double → list Z;
  (** [pow(2, x)], [powf(2.0f, -n)] and [log] of [<math.h>] *)
  pow2 : double → double;
  powf2_neg : Z → float;
  log : double → double
}.

Definition TimestampVal_null : TimestampVal := mkTimestampVal true 0 0.

Definition TimestampAvgUpdate `{ValueLibrary} (src : TimestampVal) (dst : StringVal)
  : M AvgState unit :=
  if is_null src then mret tt
  else
    avg ← load (ptr dst);
    let val := FromTimestampVal src in
    store (ptr dst) (mkAvgState (dadd (avg_sum avg) val) (to_int64 (avg_count avg + 1))).

Definition TimestampAvgGetValue `{ValueLibrary} (src : StringVal) : M AvgState TimestampVal :=
  val_struct ← load (ptr src);
  if avg_count val_struct =? 0 then mret TimestampVal_null
  else mret (ToTimestampVal (ddiv (avg_sum val_struct) (double_of_Z (avg_count val_struct)))).

Definition TimestampAvgFinalize `{ValueLibrary} (src : StringVal) : M AvgState TimestampVal :=
  result ← TimestampAvgGetValue src;
  Free (ptr src);;
  mret result.

(** ** Decimal average *)

Record DecimalAvgState := mkDecimalAvgState {
  davg_sum : DecimalVal; (* only using val16 *)
  davg_count : Z
}.

#[global] Instance DecimalAvgState_buffer : Buffer DecimalAvgState :=
  λ _, mkDecimalAvgState (mkDecimalVal false 0) 0.

(** Modelled from the spec: the layout of [DecimalVal] is outside of this
    file; the decimal average state is given as 24 bytes. *)
Definition sizeof_DecimalAvgState : Z := 24.

Definition DecimalAvgInit : M DecimalAvgState StringVal :=
  p ← Allocate sizeof_DecimalAvgState;
  memset_zero p sizeof_DecimalAvgState;;
  mret (mkStringVal false sizeof_DecimalAvgState p).

Definition DecimalAvgUpdate (src : DecimalVal) (dst : StringVal) : M DecimalAvgState unit :=
  if is_null src then mret tt
  else
    avg ← load (ptr dst);
    arg_desc ← GetArgType;
    (* Since the src and dst are guaranteed to be the same scale, we can
       just do a simple add. *)
    let sum :=
      match GetByteSize arg_desc with
      | 4 => set_val16 (davg_sum avg) (val16 (davg_sum avg) + val4 src)
      | 8 => set_val16 (davg_sum avg) (val16 (davg_sum avg) + val8 src)
      | 16 => set_val16 (davg_sum avg) (val16 (davg_sum avg) + val4 src)
      | _ => davg_sum avg (* DCHECK(false): nothing is added in a release build *)
      end in
    store (ptr dst) (mkDecimalAvgState sum (to_int64 (davg_count avg + 1))).

Definition DecimalAvgMerge (src : StringVal) (dst : StringVal) : M DecimalAvgState unit :=
  src_struct ← load (ptr src);
  dst_struct ← load (ptr dst);
  store (ptr dst)
    (mkDecimalAvgState
       (set_val16 (davg_sum dst_struct)
          (val16 (davg_sum dst_struct) + val16 (davg_sum src_struct)))
       (to_int64 (davg_count dst_struct + davg_count src_struct))).

Definition DecimalAvgGetValue `{ValueLibrary} (src : StringVal)
  : M DecimalAvgState DecimalVal :=
  val_struct ← load (ptr src);
  if davg_count val_struct =? 0 then mret DecimalVal_null
  else
    output_desc ← GetReturnType;
    let sum := val16 (davg_sum val_struct) in
    let count := davg_count val_struct in
    let '(result, is_nan, overflow) := Divide sum (scale output_desc) count (scale output_desc) in
    if is_nan then mret DecimalVal_null
    else if overflow then
      AddWarning "Avg computation overflowed, returning NULL";;
      mret DecimalVal_null
    else mret (DecimalVal_of result).

Definition DecimalAvgFinalize `{ValueLibrary} (src : StringVal)
  : M DecimalAvgState DecimalVal :=
  result ← DecimalAvgGetValue src;
  Free (ptr src);;
  mret result.

(** ** Sum *)

(** [InitNull] *)
Definition InitNull {A} (dst : AnyVal A) : AnyVal A := mkVal true (val dst).

(** [InitZero<T>]; [zero] is the [0] of [T]'s base type. *)
Definition InitZero {A} (zero : A) (dst : AnyVal A) : AnyVal A := mkVal false zero.

(** [InitZero<DecimalVal>] *)
Definition InitZero_DecimalVal (dst : DecimalVal) : DecimalVal := mkDecimalVal false 0.

(** [Sum<SRC_VAL, DST_VAL>]; [plus] is [+=] between the two base types. *)
Definition Sum {A B} (plus : B → A → B) (zero : B) (src : AnyVal A) (dst : AnyVal B)
  : AnyVal B :=
  if is_null src then dst
  else
    let dst := if is_null dst then InitZero zero dst else dst in
    mkVal (av_is_null dst) (plus (val dst) (val src)).

(** The instances stamped out at the end of the file. *)
Definition Sum_BigIntVal : AnyVal Z → BigIntVal → BigIntVal :=
  Sum (λ d s, to_int64 (d + s)) 0.
Definition Sum_FloatVal : FloatVal → DoubleVal → DoubleVal :=
  Sum (λ d s, dadd d (double_of_float s)) dzero.
Definition Sum_DoubleVal : DoubleVal → DoubleVal → DoubleVal :=
  Sum dadd dzero.

Definition SumUpdate (arg_desc : TypeDesc) (src : DecimalVal) (dst : DecimalVal) : DecimalVal :=
  if is_null src then dst
  else
    let dst := if is_null dst then InitZero_DecimalVal dst else dst in
    if precision arg_desc <=? 9 then set_val16 dst (val16 dst + val4 src)
    else if precision arg_desc <=? 19 then set_val16 dst (val16 dst + val8 src)
    else set_val16 dst (val16 dst + val16 src).

Definition SumMerge (src : DecimalVal) (dst : DecimalVal) : DecimalVal :=
  if is_null src then dst
  else
    let dst := if is_null dst then InitZero_DecimalVal dst else dst in
    set_val16 dst (val16 dst + val16 src).

(** ** Min and Max *)

(** [Min<T>] and [Max<T>]; [lt] is [<] on [T]'s base type. *)
Definition Min {A} (lt : A → A → bool) (src : AnyVal A) (dst : AnyVal A) : AnyVal A :=
  if is_null src then dst
  else if is_null dst || lt (val src) (val dst) then src else dst.

Definition Max {A} (lt : A → A → bool) (src : AnyVal A) (dst : AnyVal A) : AnyVal A :=
  if is_null src then dst
  else if is_null dst || lt (val dst) (val src) then src else dst.

Definition bool_lt (a b : bool) : bool := negb a && b.

(** [InitNullString] *)
Definition InitNullString : StringVal := mkStringVal true 0 NULL.

(** Modelled from the spec: the comparison of [StringValue] is outside of
    this file; for strings the order is lexicographic on bytes. *)
Fixpoint bytes_lt (a b : list Z) : bool :=
  match a, b with
  | _, [] => false
  | [], _ :: _ => true
  | x :: a', y :: b' =>
      if x <? y then true else if y <? x then false else bytes_lt a' b'
  end.

(** [memcpy(dst + off, bs, |bs|)] into a state buffer; writing past its end
    is undefined. *)
Definition memcpy_to (p off : Z) (bs : list Z) : M (list Z) unit :=
  old ← load p;
  if (0 <=? off) && (off + Z.of_nat (length bs) <=? Z.of_nat (length old)) then
    store p (take (Z.to_nat off) old ++ bs ++ drop (Z.to_nat off + length bs) old)
  else undefined.

(** The body shared by [Min<StringVal>] and [Max<StringVal>] once the
    comparison is made: release the old copy, take a copy of [src]. *)
Definition replace_string (src dst : StringVal) : M (list Z) StringVal :=
  (if negb (is_null dst) then Free (ptr dst) else mret tt);;
  copy ← Allocate (len src);
  bs ← read_bytes src;
  memcpy_to copy 0 bs;;
  mret (StringVal_of copy (len src)).

Definition Min_StringVal (src : StringVal) (dst : StringVal) : M (list Z) StringVal :=
  if is_null src then mret dst
  else
    less ← (if is_null dst then mret true
            else s ← read_bytes src; d ← read_bytes dst; mret (bytes_lt s d));
    if less : bool then replace_string src dst else mret dst.

Definition Max_StringVal (src : StringVal) (dst : StringVal) : M (list Z) StringVal :=
  if is_null src then mret dst
  else
    greater ← (if is_null dst then mret true
               else s ← read_bytes src; d ← read_bytes dst; mret (bytes_lt d s));
    if greater : bool then replace_string src dst else mret dst.

Definition Min_DecimalVal (arg : TypeDesc) (src : DecimalVal) (dst : DecimalVal) : DecimalVal :=
  if is_null src then dst
  else if precision arg <=? 9 then
    if is_null dst || (val4 src <? val4 dst) then src else dst
  else if precision arg <=? 19 then
    if is_null dst || (val8 src <? val8 dst) then src else dst
  else
    if is_null dst || (val16 src <? val16 dst) then src else dst.

Definition Max_DecimalVal (arg : TypeDesc) (src : DecimalVal) (dst : DecimalVal) : DecimalVal :=
  if is_null src then dst
  else if precision arg <=? 9 then
    if is_null dst || (val4 dst <? val4 src) then src else dst
  else if precision arg <=? 19 then
    if is_null dst || (val8 dst <? val8 src) then src else dst
  else
    if is_null dst || (val16 dst <? val16 src) then src else dst.

(** Modelled from the spec: the order of [TimestampValue] is outside of
    this file; timestamps compare as (date, time-of-day), lexicographic. *)
Definition timestamp_lt (a b : TimestampVal) : bool :=
  if date a =? date b then time_of_day a <? time_of_day b else date a <? date b.

Definition Min_TimestampVal (src : TimestampVal) (dst : TimestampVal) : TimestampVal :=
  if is_null src then dst
  else if is_null dst then src
  else if timestamp_lt src dst then src else dst.

Definition Max_TimestampVal (src : TimestampVal) (dst : TimestampVal) : TimestampVal :=
  if is_null src then dst
  else if is_null dst then src
  else if timestamp_lt dst src then src else dst.

(** ** String concatenation *)

(** StringConcat intermediate state starts with the length of the first
    separator, followed by the accumulated string.  The accumulated string
    starts with the separator of the first value that arrived in
    [StringConcatUpdate]. *)
Definition sizeof_StringConcatHeader : Z := 4.

(** An [int] stored in four bytes, little endian, and read back. *)
Definition encode_int (v : Z) : list Z :=
  let u := to_uint32 v in
  [u mod 256; (u / 256) mod 256; (u / 65536) mod 256; (u / 16777216) mod 256].

Definition decode_int (bs : list Z) : Z :=
  to_int32 (bs !!! 0%nat + 256 * bs !!! 1%nat + 65536 * bs !!! 2%nat + 16777216 * bs !!! 3%nat).

(** [*reinterpret_cast<StringConcatHeader*>(p)] as an rvalue *)
Definition read_header (p : Z) : M (list Z) Z :=
  bs ← load p;
  if sizeof_StringConcatHeader <=? Z.of_nat (length bs) then mret (decode_int bs) else undefined.

Definition StringConcatUpdate (src separator result : StringVal) : M (list Z) StringVal :=
  if is_null src then mret result
  else
    let sep := if is_null separator then DEFAULT_STRING_CONCAT_DELIM else separator in
    result ← (if is_null result then
                (* Header of the intermediate state holds the length of the
                   first separator. *)
                let header_len := sizeof_StringConcatHeader in
                p ← Allocate header_len;
                memcpy_to p 0 (encode_int (len sep));;
                mret (StringVal_of p header_len)
              else mret result);
    let new_len := to_int32 (len result + len sep + len src) in
    p ← Reallocate (ptr result) new_len;
    sep_bytes ← read_string sep;
    memcpy_to p (len result) sep_bytes;;
    let result_len := to_int32 (len result + len sep) in
    src_bytes ← read_string src;
    memcpy_to p result_len src_bytes;;
    let result_len := to_int32 (result_len + len src) in
    mret (mkStringVal (sv_is_null result) result_len p).

(** The overload without a separator. *)
Definition StringConcatUpdate_default (src result : StringVal) : M (list Z) StringVal :=
  StringConcatUpdate src DEFAULT_STRING_CONCAT_DELIM result.

Definition StringConcatMerge (src result : StringVal) : M (list Z) StringVal :=
  if is_null src then mret result
  else
    let header_len := sizeof_StringConcatHeader in
    result ← (if is_null result then
                (* Copy the header from the first intermediate value. *)
                p ← Allocate header_len;
                h ← read_header (ptr src);
                memcpy_to p 0 (encode_int h);;
                mret (StringVal_of p header_len)
              else mret result);
    (* Append the string portion of the intermediate src to result (omit
       src's header). *)
    let new_len := to_int32 (len result + len src - header_len) in
    p ← Reallocate (ptr result) new_len;
    src_bytes ← read_bytes src;
    memcpy_to p (len result) (drop (Z.to_nat header_len) src_bytes);;
    mret (mkStringVal (sv_is_null result) (to_int32 (len result + (len src - header_len))) p).

Definition StringConcatFinalize (src : StringVal) : M (list Z) StringVal :=
  if is_null src then mret src
  else
    let header_len := sizeof_StringConcatHeader in
    sep_len ← read_header (ptr src);
    (* Remove the header and the first separator. *)
    result ← StringVal_local (to_int32 (len src - header_len - sep_len));
    src_bytes ← read_bytes src;
    memcpy_local result (drop (Z.to_nat (header_len + sep_len)) src_bytes);;
    Free (ptr src);;
    mret result.

(** [StringValGetValue] and [StringValSerializeOrFinalize], the finalize of
    [Min] and [Max] over strings. *)
Definition StringValGetValue (src : StringVal) : M (list Z) StringVal :=
  if is_null src then mret src
  else
    result ← StringVal_local (len src);
    src_bytes ← read_bytes src;
    memcpy_local result src_bytes;;
    mret result.

Definition StringValSerializeOrFinalize (src : StringVal) : M (list Z) StringVal :=
  result ← StringValGetValue src;
  Free (ptr src);;
  mret result.

(** ** Probabilistic counting: PC and PCSA *)

Definition NUM_PC_BITMAPS : Z := 64. (* number of bitmaps *)
Definition PC_BITMAP_LENGTH : Z := 32. (* the length of each bit map *)
Definition PC_THETA : float := float_lit 77351 100000. (* 0.77351f *)

(** Modelled from the spec: [AnyValUtil::Hash] and [AnyValUtil::Hash64], the
    32-bit and the 64-bit seeded hash of the value library, are outside of
    this file.  The aggregates read their results as [uint32_t] and
    [uint64_t]. *)
Class AnyValHash (T : Type) := {
  Hash : T → TypeDesc → Z → Z;
  Hash64 : T → TypeDesc → Z → Z
}.

Definition FNV64_SEED : Z := 14695981039346656037.

(** A loop [for (int i = start; i < start + n; ++i) body(i)]. *)
Fixpoint for_range {S} (n : nat) (i : Z) (body : Z → M S unit) : M S unit :=
  match n with
  | O => mret tt
  | Datatypes.S n' => body i;; for_range n' (i + 1) body
  end.

Definition PcInit : M (list Z) StringVal :=
  (* The bitmap is a 64bit(1st index) x 32bit(2nd index) matrix.
     So, the string length of 256 byte is enough. *)
  let str_len := NUM_PC_BITMAPS * PC_BITMAP_LENGTH / 8 in
  p ← Allocate str_len;
  memset_zero p str_len;;
  mret (mkStringVal false str_len p).

(** The view [uint32_t* int_bitmap = reinterpret_cast<uint32_t*>(bitmap)]:
    element [i] is made of the bytes [4i .. 4i+3], little endian. *)
Definition int_bitmap_get (bitmap : list Z) (i : Z) : option Z :=
  let k := Z.to_nat (4 * i) in
  if (0 <=? i) && (4 * i + 4 <=? Z.of_nat (length bitmap)) then
    Some (bitmap !!! k + 256 * bitmap !!! (k + 1)%nat + 65536 * bitmap !!! (k + 2)%nat
          + 16777216 * bitmap !!! (k + 3)%nat)
  else None.

Definition int_bitmap_set (bitmap : list Z) (i v : Z) : list Z :=
  let k := Z.to_nat (4 * i) in
  <[(k + 3)%nat := (v / 16777216) mod 256]>
    (<[(k + 2)%nat := (v / 65536) mod 256]>
       (<[(k + 1)%nat := (v / 256) mod 256]>
          (<[k := v mod 256]> bitmap))).

(** [1 << bit_index] on [int], seen as [uint32_t]: defined for a shift count
    below the width of [int] only. *)
Definition one_shl (bit_index : Z) : option Z :=
  if (0 <=? bit_index) && (bit_index <? 32) then Some (to_uint32 (Z.shiftl 1 bit_index))
  else None.

Definition SetDistinctEstimateBit (bitmap : list Z) (row_index bit_index : Z)
  : option (list Z) :=
  mask ← one_shl bit_index;
  w ← int_bitmap_get bitmap row_index;
  Some (int_bitmap_set bitmap row_index (Z.lor w mask)).

Definition GetDistinctEstimateBit (bitmap : list Z) (row_index bit_index : Z)
  : option bool :=
  mask ← one_shl bit_index;
  w ← int_bitmap_get bitmap row_index;
  Some (0 <? Z.land w mask).

(** [__builtin_ctz]: the number of trailing 0-bits, the result being
    undefined if the argument is zero. *)
Fixpoint ctz_pos (p : positive) : Z :=
  match p with
  | xO p' => 1 + ctz_pos p'
  | _ => 0
  end.

Definition __builtin_ctz (x : Z) : option Z :=
  match x with
  | Zpos p => Some (ctz_pos p)
  | _ => None
  end.

(** An assignment of a possibly undefined value to [dst->ptr]'s buffer. *)
Definition store_defined {S} (p : Z) (s : option S) : M S unit :=
  match s with
  | Some s' => store p s'
  | None => undefined
  end.

Definition PcUpdate {T} `{Nullable T} `{AnyValHash T} (input : T) (dst : StringVal)
  : M (list Z) unit :=
  if is_null input then mret tt
  else
    (* For simple averaging, we need to compute hash values NUM_PC_BITMAPS
       times using NUM_PC_BITMAPS different hash functions (by using a
       different seed). *)
    for_range (Z.to_nat NUM_PC_BITMAPS) 0 (λ i,
      arg ← GetArgType;
      let hash_value := to_uint32 (Hash input arg i) in
      let bit_index := __builtin_ctz hash_value in
      let bit_index := if hash_value =? 0 then Some (PC_BITMAP_LENGTH - 1) else bit_index in
      (* Set bitmap[i, bit_index] to 1 *)
      bitmap ← load (ptr dst);
      store_defined (ptr dst) (b ← bit_index; SetDistinctEstimateBit bitmap i b)).

Definition PcsaUpdate {T} `{Nullable T} `{AnyValHash T} (input : T) (dst : StringVal)
  : M (list Z) unit :=
  if is_null input then mret tt
  else
    (* Using stochastic averaging, we only need to the hash value once for
       each row. *)
    arg ← GetArgType;
    let hash_value := to_uint32 (Hash input arg 0) in
    let row_index := hash_value mod NUM_PC_BITMAPS in
    (* We want the zero-based position of the least significant 1-bit in
       binary representation of hash_value. *)
    let bit_index := __builtin_ctz (hash_value / NUM_PC_BITMAPS) in
    let bit_index := if hash_value =? 0 then Some (PC_BITMAP_LENGTH - 1) else bit_index in
    (* Set bitmap[row_index, bit_index] to 1 *)
    bitmap ← load (ptr dst);
    store_defined (ptr dst) (b ← bit_index; SetDistinctEstimateBit bitmap row_index b).

(** The loop of [PcMerge]: [*(dst->ptr + i) |= *(src.ptr + i)]. *)
Fixpoint PcMerge_loop (n i : nat) (src dst : list Z) : list Z :=
  match n with
  | O => dst
  | Datatypes.S n' => PcMerge_loop n' (Datatypes.S i) src (<[i := Z.lor (dst !!! i) (src !!! i)]> dst)
  end.

Definition PcMerge (src : StringVal) (dst : StringVal) : M (list Z) unit :=
  src_bytes ← load (ptr src);
  dst_bytes ← load (ptr dst);
  (* Merge the bits *)
  store (ptr dst)
    (PcMerge_loop (Z.to_nat (NUM_PC_BITMAPS * PC_BITMAP_LENGTH / 8)) 0 src_bytes dst_bytes).

(** The first loop of [DistinceEstimateFinalize]: is any byte set? *)
Fixpoint is_empty_loop (n i : nat) (bytes : list Z) : bool :=
  match n with
  | O => true
  | Datatypes.S n' => if negb (bytes !!! i =? 0) then false else is_empty_loop n' (Datatypes.S i) bytes
  end.

(** The inner loop of [DistinceEstimateFinalize] for row [i],
    [while (GetDistinctEstimateBit(src.ptr, i, row_bit_count) &&
            row_bit_count < PC_BITMAP_LENGTH) ++row_bit_count;]
    The left operand of [&&] is evaluated first.  The loop returns the
    final [row_bit_count], or [None] when an evaluation of
    [GetDistinctEstimateBit] was undefined, together with the bit indices
    at which [GetDistinctEstimateBit] was called, in order. *)
Fixpoint leading_ones_loop (fuel : nat) (bitmap : list Z) (i row_bit_count : Z)
    (evaluated : list Z) : option Z * list Z :=
  match fuel with
  | O => (None, evaluated)
  | Datatypes.S fuel' =>
      let evaluated := evaluated ++ [row_bit_count] in
      match GetDistinctEstimateBit bitmap i row_bit_count with
      | None => (None, evaluated)
      | Some true =>
          if row_bit_count <? PC_BITMAP_LENGTH then
            leading_ones_loop fuel' bitmap i (row_bit_count + 1) evaluated
          else (Some row_bit_count, evaluated)
      | Some false => (Some row_bit_count, evaluated)
      end
  end.

(** One row: [int row_bit_count = 0; while ... ;].  The loop body runs at
    most [PC_BITMAP_LENGTH] times, so the condition is evaluated at most
    [PC_BITMAP_LENGTH + 1] times. *)
Definition row_leading_ones (bitmap : list Z) (i : Z) : option Z * list Z :=
  leading_ones_loop (Z.to_nat (PC_BITMAP_LENGTH + 1)) bitmap i 0 [].

(** The outer loop: [sum += row_bit_count] over the rows. *)
Fixpoint sum_rows_loop (n : nat) (i : Z) (bitmap : list Z) (sum : Z) : option Z :=
  match n with
  | O => Some sum
  | Datatypes.S n' =>
      match fst (row_leading_ones bitmap i) with
      | Some row_bit_count => sum_rows_loop n' (i + 1) bitmap (to_int32 (sum + row_bit_count))
      | None => None
      end
  end.

Definition DistinceEstimateFinalize `{ValueLibrary} (src : StringVal) : M (list Z) double :=
  bitmap ← load (ptr src);
  (* We haven't processed any rows if none of the bits are set. Therefore,
     we have zero distinct rows. *)
  let is_empty :=
    is_empty_loop (Z.to_nat (NUM_PC_BITMAPS * PC_BITMAP_LENGTH / 8)) 0 bitmap in
  if is_empty then mret dzero
  else
    (* Convert the bitmap to a number: we count the average number of
       leading 1s (per row) in the bit map. *)
    match sum_rows_loop (Z.to_nat NUM_PC_BITMAPS) 0 bitmap 0 with
    | Some sum =>
        let avg := ddiv (double_of_Z sum) (double_of_Z NUM_PC_BITMAPS) in
        let result := ddiv (pow2 avg) (double_of_float PC_THETA) in
        mret result
    | None => undefined
    end.

(** [stringstream << result] for an integer: its decimal digits, in ASCII. *)
Fixpoint bytes_of_string (s : string) : list Z :=
  match s with
  | EmptyString => []
  | String c s' => Z.of_N (N_of_ascii c) :: bytes_of_string s'
  end.

Definition print_int (z : Z) : list Z :=
  bytes_of_string (NilZero.string_of_int (Z.to_int z)).

(** [StringVal dst(c, str.length()); memcpy(dst.ptr, str.c_str(), str.length())] *)
Definition StringVal_copy {S} (str : list Z) : M S StringVal :=
  dst ← StringVal_local (Z.of_nat (length str));
  memcpy_local dst str;;
  mret dst.

Definition PcFinalize `{ValueLibrary} (src : StringVal) : M (list Z) StringVal :=
  estimate ← DistinceEstimateFinalize src;
  let result := int64_of_double estimate in
  Free (ptr src);;
  (* TODO: this should return bigint. this is a hack *)
  StringVal_copy (print_int result).

Definition PcsaFinalize `{ValueLibrary} (src : StringVal) : M (list Z) StringVal :=
  (* When using stochastic averaging, the result has to be multiplied by
     NUM_PC_BITMAPS. *)
  e ← DistinceEstimateFinalize src;
  let estimate := dmul e (double_of_Z NUM_PC_BITMAPS) in
  let result := int64_of_double estimate in
  Free (ptr src);;
  StringVal_copy (print_int result).

(** ** HyperLogLog *)

(** Hyperloglog precision. Default taken from paper. *)
Definition HLL_PRECISION : Z := 10.
Definition HLL_LEN : Z := 1024. (* 2^HLL_PRECISION *)

Definition HllInit : M (list Z) StringVal :=
  let str_len := HLL_LEN in
  p ← Allocate str_len;
  memset_zero p str_len;;
  mret (mkStringVal false str_len p).

Definition HllUpdate {T} `{Nullable T} `{AnyValHash T} (src : T) (dst : StringVal)
  : M (list Z) unit :=
  if is_null src then mret tt
  else
    arg ← GetArgType;
    let hash_value := to_uint64 (Hash64 src arg FNV64_SEED) in
    if negb (hash_value =? 0) then
      (* Use the lower bits to index into the number of streams and then
         find the first 1 bit after the index bits. *)
      let idx := Z.to_nat (Z.land hash_value (HLL_LEN - 1)) in
      regs ← load (ptr dst);
      store_defined (ptr dst)
        (c ← __builtin_ctz (Z.shiftr hash_value HLL_PRECISION);
         let first_one_bit := to_uint8 (c + 1) in
         Some (<[idx := Z.max (regs !!! idx) first_one_bit]> regs))
    else mret tt.

(** The loop of [HllMerge]: [dst->ptr[i] = max(dst->ptr[i], src.ptr[i])]. *)
Fixpoint HllMerge_loop (n i : nat) (src dst : list Z) : list Z :=
  match n with
  | O => dst
  | Datatypes.S n' => HllMerge_loop n' (Datatypes.S i) src (<[i := Z.max (dst !!! i) (src !!! i)]> dst)
  end.

Definition HllMerge (src : StringVal) (dst : StringVal) : M (list Z) unit :=
  src_bytes ← load (ptr src);
  dst_bytes ← load (ptr dst);
  store (ptr dst) (HllMerge_loop (Z.to_nat (len src)) 0 src_bytes dst_bytes).

(** The loop of [HllFinalize]: the sum of [2^-register] and the number of
    zero registers. *)
Fixpoint HllFinalize_loop `{ValueLibrary} (n i : nat) (regs : list Z)
    (harmonic_mean : float) (num_zero_registers : Z) : float * Z :=
  match n with
  | O => (harmonic_mean, num_zero_registers)
  | Datatypes.S n' =>
      HllFinalize_loop n' (Datatypes.S i) regs
        (fadd harmonic_mean (powf2_neg (regs !!! i)))
        (if regs !!! i =? 0 then to_int32 (num_zero_registers + 1) else num_zero_registers)
  end.

Definition HllFinalize `{ValueLibrary} (src : StringVal) : M (list Z) StringVal :=
  regs ← load (ptr src);
  let num_streams := HLL_LEN in
  (* Empirical constants for the algorithm. *)
  let alpha :=
    if num_streams =? 16 then float_lit 673 1000
    else if num_streams =? 32 then float_lit 697 1000
    else if num_streams =? 64 then float_lit 709 1000
    else fdiv (float_lit 7213 10000)
              (fadd (float_of_Z 1) (fdiv (float_lit 1079 1000) (float_of_Z num_streams))) in
  let '(harmonic_mean, num_zero_registers) :=
    HllFinalize_loop (Z.to_nat (len src)) 0 regs (S754_zero false) 0 in
  let harmonic_mean := fdiv (float_of_Z 1) harmonic_mean in
  let estimate :=
    int64_of_double
      (double_of_float
         (fmul (fmul (fmul alpha (float_of_Z num_streams)) (float_of_Z num_streams))
               harmonic_mean)) in
  let estimate :=
    if negb (num_zero_registers =? 0) then
      (* Estimated cardinality is too low. Hll is too inaccurate here,
         instead use linear counting. *)
      int64_of_double
        (dmul (double_of_Z num_streams)
              (log (double_of_float
                      (fdiv (float_of_Z num_streams) (float_of_Z num_zero_registers)))))
    else estimate in
  Free (ptr src);;
  (* Output the estimate as ascii string *)
  StringVal_copy (print_int estimate).

(** ** Reservoir sampling, histogram and approximate median *)

(* Histogram constants *)
Definition NUM_BUCKETS : Z := 100.
Definition NUM_SAMPLES_PER_BUCKET : Z := 200.
Definition NUM_SAMPLES : Z := NUM_BUCKETS * NUM_SAMPLES_PER_BUCKET.
Definition MAX_STRING_SAMPLE_LEN : Z := 10.

(** Modelled from the spec: the random number generators are library code
    ([boost::ranlux64_3] with [uniform_int], and [rand] of the C library).
    [GetNext64 max] draws from [[0, max]]. *)
Class RandomSource := {
  rng_state : Type;
  (** the default-constructed generator *)
  rng_default : rng_state;
  (** the generator's bytes after [memset(ptr, 0, len)] *)
  rng_zero_image : rng_state;
  (** [uniform_int<int64_t> dist(0, max); dist(rng)] *)
  uniform_int : rng_state → Z → Z * rng_state;
  uniform_int_range : ∀ g max, 0 ≤ max → 0 ≤ fst (uniform_int g max) ≤ max;
  (** the state behind [rand()] and one call of it *)
  rand_state : Type;
  rand : rand_state → Z * rand_state;
  rand_range : ∀ g, 0 ≤ fst (rand g)
}.

(** What the templates [ReservoirSample<T>], [SampleValLess<T>] and
    [PrintSample<T>] ask of the value type [T]. *)
Class SampleType (T : Type) := {
  T_is_null :: Nullable T;
  (** the value as the sample stores it: [T val], or for a string the
      truncated bytes and their length *)
  sample_val : Type;
  (** the stored value of [ReservoirSample()] *)
  default_val : sample_val;
  (** the stored value after [memset(ptr, 0, len)] *)
  zero_val : sample_val;
  (** the stored value of [ReservoirSample(const T& val)], given the bytes
      behind a pointer *)
  stored_val : (Z → option (list Z)) → T → option sample_val;
  SampleValLess_val : sample_val → sample_val → bool;
  PrintSample_val : ValueLibrary → sample_val → list Z
}.

Record ReservoirSample (V : Type) := mkReservoirSample {
  (* Sample value *)
  rs_val : V;
  (* Key on which the samples are sorted. *)
  key : double
}.
Arguments mkReservoirSample {V} _ _.
Arguments rs_val {V} _.
Arguments key {V} _.

Definition minus_one : double := double_of_Z (-1).

(** [ReservoirSample() : key(-1)] *)
Definition ReservoirSample_default {T} `{SampleType T} : ReservoirSample sample_val :=
  mkReservoirSample default_val minus_one.

(** [ReservoirSample(const T& val) : val(val), key(-1)] *)
Definition ReservoirSample_of {T} `{SampleType T} (mem : Z → option (list Z)) (v : T)
  : option (ReservoirSample sample_val) :=
  sv ← stored_val mem v;
  Some (mkReservoirSample sv minus_one).

(** The numeric value types: the sample stores [val]. *)
#[global] Instance numeric_sample : SampleType (AnyVal Z) := {
  T_is_null := AnyVal_nullable Z;
  sample_val := AnyVal Z;
  default_val := mkVal false 0;
  zero_val := mkVal false 0;
  stored_val := λ _ v, Some v;
  SampleValLess_val := λ i j, val i <? val j;
  PrintSample_val := λ _ v, print_int (val v)
}.

#[global] Instance double_sample : SampleType (AnyVal double) := {
  T_is_null := AnyVal_nullable double;
  sample_val := AnyVal double;
  default_val := mkVal false dzero;
  zero_val := mkVal false dzero;
  stored_val := λ _ v, Some v;
  SampleValLess_val := λ i j, dltb (val i) (val j);
  PrintSample_val := λ L v, @print_double L (val v)
}.

#[global] Instance boolean_sample : SampleType BooleanVal := {
  T_is_null := AnyVal_nullable bool;
  sample_val := BooleanVal;
  default_val := mkVal false false;
  zero_val := mkVal false false;
  stored_val := λ _ v, Some v;
  SampleValLess_val := λ i j, bool_lt (val i) (val j);
  PrintSample_val := λ _ v, print_int (if val v then 1 else 0)
}.

(** Template specialization for StringVal because we do not store the
    StringVal itself.  Instead, we keep fixed size arrays and truncate
    longer strings if necessary. *)
Record StringSample := mkStringSample {
  ss_val : list Z;
  ss_len : Z (* Size of string (up to MAX_STRING_SAMPLE_LEN) *)
}.

(** [memcmp] on the first [n] bytes: negative, zero or positive. *)
Fixpoint memcmp (a b : list Z) (n : nat) : Z :=
  match n with
  | O => 0
  | Datatypes.S n' =>
      let x := hd 0 a in
      let y := hd 0 b in
      if x <? y then -1 else if y <? x then 1 else memcmp (tl a) (tl b) n'
  end.

Definition SampleValLess_StringVal (i j : StringSample) : bool :=
  let n := Z.min (ss_len i) (ss_len j) in
  let result := memcmp (ss_val i) (ss_val j) (Z.to_nat n) in
  if result =? 0 then ss_len i <? ss_len j else result <? 0.

#[global] Instance string_sample : SampleType StringVal := {
  T_is_null := StringVal_nullable;
  sample_val := StringSample;
  default_val := mkStringSample [] 0;
  zero_val := mkStringSample [] 0;
  stored_val := λ mem string_val,
    let len := Z.min (len string_val) MAX_STRING_SAMPLE_LEN in
    bs ← mem (ptr string_val);
    if len <=? Z.of_nat (length bs) then Some (mkStringSample (take (Z.to_nat len) bs) len)
    else None;
  SampleValLess_val := SampleValLess_StringVal;
  PrintSample_val := λ _ v, take (Z.to_nat (ss_len v)) (ss_val v)
}.

#[global] Instance decimal_sample : SampleType DecimalVal := {
  T_is_null := DecimalVal_nullable;
  sample_val := DecimalVal;
  default_val := mkDecimalVal false 0;
  zero_val := mkDecimalVal false 0;
  stored_val := λ _ v, Some v;
  SampleValLess_val := λ i j, val16 i <? val16 j;
  PrintSample_val := λ _ v, print_int (val16 v)
}.

#[global] Instance timestamp_sample : SampleType TimestampVal := {
  T_is_null := TimestampVal_nullable;
  sample_val := TimestampVal;
  default_val := mkTimestampVal false 0 0;
  zero_val := mkTimestampVal false 0 0;
  stored_val := λ _ v, Some v;
  SampleValLess_val := timestamp_lt;
  PrintSample_val := λ L v, @DebugString L v
}.

Record ReservoirSampleState (V : Type) `{RandomSource} := mkReservoirSampleState {
  samples : list (ReservoirSample V);
  (* Number of collected samples. *)
  num_samples : Z;
  (* Number of values over which the samples were collected. *)
  source_size : Z;
  (* Random number generator for generating 64-bit integers *)
  rng : rng_state
}.
Arguments mkReservoirSampleState {V _} _ _ _ _.
Arguments samples {V _} _.
Arguments num_samples {V _} _.
Arguments source_size {V _} _.
Arguments rng {V _} _.

(** [state->GetNext64(max)]: the draw and the state with the generator
    advanced. *)
Definition GetNext64 {V} `{RandomSource} (state : ReservoirSampleState V) (max : Z)
  : Z * ReservoirSampleState V :=
  let '(r, g) := uniform_int (rng state) max in
  (r, mkReservoirSampleState (samples state) (num_samples state) (source_size state) g).

(** [ReservoirSampleState<T>()]: every sample default-constructed, the
    counters zero, the generator default-constructed. *)
Definition ReservoirSampleState_default {T} `{SampleType T} `{RandomSource}
  : ReservoirSampleState sample_val :=
  mkReservoirSampleState (replicate (Z.to_nat NUM_SAMPLES) ReservoirSample_default) 0 0
                         rng_default.

#[global] Instance ReservoirSampleState_buffer {T} `{SampleType T} `{RandomSource}
  : Buffer (ReservoirSampleState sample_val) :=
  λ _, mkReservoirSampleState
         (replicate (Z.to_nat NUM_SAMPLES) (mkReservoirSample zero_val dzero)) 0 0
         rng_zero_image.

(** Modelled from the spec: [sizeof(ReservoirSampleState<T>)] depends on
    declarations outside of this file (the value types and the generator);
    the aggregates only pass it on as the length of the state's string
    value, and no operation of the model reads it. *)
Definition sizeof_ReservoirSampleState : Z := 0.

Definition ReservoirSampleInit {T} `{SampleType T} `{RandomSource}
  : M (ReservoirSampleState sample_val) StringVal :=
  let str_len := sizeof_ReservoirSampleState in
  p ← Allocate str_len;
  memset_zero p str_len;;
  store p ReservoirSampleState_default;;
  mret (mkStringVal false str_len p).

(** [samples[i] = s]; an index outside of the array is undefined. *)
Definition samples_set {V} (l : list (ReservoirSample V)) (i : Z) (s : ReservoirSample V)
  : option (list (ReservoirSample V)) :=
  if (0 <=? i) && (i <? Z.of_nat (length l)) then Some (<[Z.to_nat i := s]> l) else None.

Definition ReservoirSampleUpdate {T} `{SampleType T} `{RandomSource} (src : T)
    (dst : StringVal) : M (ReservoirSampleState sample_val) unit :=
  if is_null src then mret tt
  else
    state ← load (ptr dst);
    ctx ← get_ctx;
    let new_sample := ReservoirSample_of (string_at ctx) src in
    state ← (if num_samples state <? NUM_SAMPLES then
               match new_sample ≫= samples_set (samples state) (num_samples state) with
               | Some l =>
                   mret (mkReservoirSampleState l (to_int32 (num_samples state + 1))
                                                (source_size state) (rng state))
               | None => undefined
               end
             else
               let '(r, state) := GetNext64 state (source_size state) in
               if r <? NUM_SAMPLES then
                 match new_sample ≫= samples_set (samples state) r with
                 | Some l =>
                     mret (mkReservoirSampleState l (num_samples state)
                                                  (source_size state) (rng state))
                 | None => undefined
                 end
               else mret state);
    store (ptr dst)
      (mkReservoirSampleState (samples state) (num_samples state)
                              (to_int64 (source_size state + 1)) (rng state)).

(** The loop of [ReservoirSampleSerialize]: assign keys to the samples that
    haven't been set. *)
Fixpoint assign_keys {V} `{RandomSource} (n i : nat) (l : list (ReservoirSample V))
    (num_samples source_size : Z) (g : rand_state)
  : list (ReservoirSample V) * rand_state :=
  match n with
  | O => (l, g)
  | Datatypes.S n' =>
      match l !! i with
      | Some s =>
          if dleb dzero (key s) then assign_keys n' (Datatypes.S i) l num_samples source_size g
          else
            let '(x, g) := rand g in
            let r := Z.rem x num_samples in
            let k := ddiv (dsub (double_of_Z source_size) (double_of_Z r))
                          (double_of_Z source_size) in
            assign_keys n' (Datatypes.S i) (<[i := mkReservoirSample (rs_val s) k]> l)
                        num_samples source_size g
      | None => (l, g)
      end
  end.

(** [ReservoirSampleSerialize<T>]; the state of [rand()] is passed in and
    handed back. *)
Definition ReservoirSampleSerialize {V} `{RandomSource} (g : rand_state) (src : StringVal)
  : M (ReservoirSampleState V) (StringVal * rand_state) :=
  if is_null src then mret (src, g)
  else
    result ← StringVal_local_state src;
    Free (ptr src);;
    state ← load (ptr result);
    let '(l, g) :=
      assign_keys (Z.to_nat (num_samples state)) 0 (samples state)
                  (num_samples state) (source_size state) g in
    store (ptr result)
      (mkReservoirSampleState l (num_samples state) (source_size state) (rng state));;
    mret (result, g).

(** [SampleKeyGreater<T>] *)
Definition SampleKeyGreater {V} (i j : ReservoirSample V) : bool := dltb (key j) (key i).

(** Modelled from the spec: [std::push_heap], [std::pop_heap] and
    [std::sort] are library code.  [push_heap comp l n] takes the first
    [n] elements of [l], of which the first [n - 1] are a heap, and moves
    element [n - 1] up while its parent compares below it. *)
Fixpoint sift_up {A} (comp : A → A → bool) (fuel : nat) (l : list A) (hole : nat) : list A :=
  match fuel with
  | O => l
  | Datatypes.S fuel' =>
      match hole with
      | O => l
      | Datatypes.S _ =>
          let parent := ((hole - 1) / 2)%nat in
          match l !! parent, l !! hole with
          | Some p, Some v =>
              if comp p v then sift_up comp fuel' (<[parent := v]> (<[hole := p]> l)) parent
              else l
          | _, _ => l
          end
      end
  end.

Definition push_heap {A} (comp : A → A → bool) (l : list A) (n : nat) : list A :=
  sift_up comp n l (n - 1).

(** Moving the element at [hole] down to a leaf of the heap made of the
    first [n] elements, each time towards the child that does not compare
    below its sibling. *)
Fixpoint sift_down {A} (comp : A → A → bool) (fuel : nat) (l : list A) (n hole : nat)
  : list A * nat :=
  match fuel with
  | O => (l, hole)
  | Datatypes.S fuel' =>
      let right := (2 * hole + 2)%nat in
      let left := (2 * hole + 1)%nat in
      if (right <? n)%nat then
        match l !! right, l !! left, l !! hole with
        | Some r, Some c, Some v =>
            let child := if comp r c then left else right in
            let cv := if comp r c then c else r in
            sift_down comp fuel' (<[child := v]> (<[hole := cv]> l)) n child
        | _, _, _ => (l, hole)
        end
      else if (left <? n)%nat then
        match l !! left, l !! hole with
        | Some c, Some v => (<[left := v]> (<[hole := c]> l), left)
        | _, _ => (l, hole)
        end
      else (l, hole)
  end.

(** [pop_heap comp l n]: the first element goes to position [n - 1], the
    element that was there is placed in the heap of the first [n - 1]. *)
Definition pop_heap {A} (comp : A → A → bool) (l : list A) (n : nat) : list A :=
  match l !! O, l !! (n - 1)%nat with
  | Some top, Some last =>
      let l := <[(n - 1)%nat := top]> (<[O := last]> l) in
      let '(l, hole) := sift_down comp n l (n - 1) 0 in
      sift_up comp n l hole
  | _, _ => l
  end.

(** [sort comp l n] sorts the first [n] elements of [l]; the order it gives
    to equivalent elements is unspecified, the model reverses theirs. *)
Fixpoint insert_sorted {A} (less : A → A → bool) (x : A) (l : list A) : list A :=
  match l with
  | [] => [x]
  | y :: l' => if less x y then x :: y :: l' else y :: insert_sorted less x l'
  end.

Definition sort {A} (less : A → A → bool) (l : list A) (n : nat) : list A :=
  foldr (insert_sorted less) [] (take n l) ++ drop n l.

(** The first loop of [ReservoirSampleMerge]: fill up the dst samples if
    they don't already exist.  The samples are now ordered as a min-heap on
    the key.  Returns the samples of dst, [dst->num_samples] and
    [src_idx]. *)
Fixpoint merge_fill_loop {V} (fuel : nat) (src : list (ReservoirSample V)) (src_max : Z)
    (dst : list (ReservoirSample V)) (dst_num_samples src_idx : Z)
  : option (list (ReservoirSample V) * Z * Z) :=
  match fuel with
  | O => Some (dst, dst_num_samples, src_idx)
  | Datatypes.S fuel' =>
      if (dst_num_samples <? NUM_SAMPLES) && (src_idx <? src_max) then
        s ← src !! Z.to_nat src_idx;
        dst ← samples_set dst dst_num_samples s;
        let dst_num_samples := to_int32 (dst_num_samples + 1) in
        let src_idx := to_int32 (src_idx + 1) in
        merge_fill_loop fuel' src src_max
          (push_heap SampleKeyGreater dst (Z.to_nat dst_num_samples)) dst_num_samples src_idx
      else Some (dst, dst_num_samples, src_idx)
  end.

(** The second loop: for every sample from source, take the sample if the
    key is greater than the minimum key in the min-heap. *)
Fixpoint merge_replace_loop {V} (fuel : nat) (src : list (ReservoirSample V)) (src_max : Z)
    (dst : list (ReservoirSample V)) (src_idx : Z) : option (list (ReservoirSample V)) :=
  match fuel with
  | O => Some dst
  | Datatypes.S fuel' =>
      if src_idx <? src_max then
        s ← src !! Z.to_nat src_idx;
        d0 ← dst !! O;
        dst ← (if dltb (key d0) (key s) then
                 let dst := pop_heap SampleKeyGreater dst (Z.to_nat NUM_SAMPLES) in
                 dst ← samples_set dst (NUM_SAMPLES - 1) s;
                 Some (push_heap SampleKeyGreater dst (Z.to_nat NUM_SAMPLES))
               else Some dst);
        merge_replace_loop fuel' src src_max dst (to_int32 (src_idx + 1))
      else Some dst
  end.

Definition ReservoirSampleMerge {V} `{RandomSource} (src_val : StringVal) (dst_val : StringVal)
  : M (ReservoirSampleState V) unit :=
  if is_null src_val then mret tt
  else
    src ← load (ptr src_val);
    dst ← load (ptr dst_val);
    let src_idx := 0 in
    let src_max := num_samples src in
    match merge_fill_loop (Z.to_nat src_max) (samples src) src_max
                          (samples dst) (num_samples dst) src_idx with
    | Some (dst_samples, dst_num_samples, src_idx) =>
        match merge_replace_loop (Z.to_nat src_max) (samples src) src_max
                                 dst_samples src_idx with
        | Some dst_samples =>
            store (ptr dst_val)
              (mkReservoirSampleState dst_samples dst_num_samples
                 (to_int64 (source_size dst + source_size src)) (rng dst))
        | None => undefined
        end
    | None => undefined
    end.

(** [PrintSample<T>(v, os)] *)
Definition PrintSample {T} `{SampleType T} `{L : ValueLibrary} (v : ReservoirSample sample_val)
  : list Z := PrintSample_val L (rs_val v).

(** [SampleValLess<T>] *)
Definition SampleValLess {T} `{SampleType T} (i j : ReservoirSample sample_val) : bool :=
  SampleValLess_val (rs_val i) (rs_val j).

(** The loop of [ReservoirSampleFinalize] writing to [out]. *)
Fixpoint print_samples_loop {T} `{SampleType T} `{ValueLibrary} (n : nat) (i : Z)
    (l : list (ReservoirSample sample_val)) (num_samples : Z) (out : list Z)
  : option (list Z) :=
  match n with
  | O => Some out
  | Datatypes.S n' =>
      s ← l !! Z.to_nat i;
      let out := out ++ PrintSample s in
      let out := if i <? num_samples - 1 then out ++ [44; 32] else out in
      print_samples_loop n' (i + 1) l num_samples out
  end.

Definition ReservoirSampleFinalize {T} `{SampleType T} `{RandomSource} `{ValueLibrary}
    (src_val : StringVal) : M (ReservoirSampleState sample_val) StringVal :=
  src ← load (ptr src_val);
  match print_samples_loop (Z.to_nat (num_samples src)) 0 (samples src) (num_samples src) [] with
  | Some out_str =>
      result_str ← StringVal_copy out_str;
      Free (ptr src_val);;
      mret result_str
  | None => undefined
  end.

(** The loop of [HistogramFinalize] writing to [out]. *)
Fixpoint print_buckets_loop {T} `{SampleType T} `{ValueLibrary} (n : nat) (bucket_idx : Z)
    (l : list (ReservoirSample sample_val)) (num_buckets samples_per_bucket : Z)
    (out : list Z) : option (list Z) :=
  match n with
  | O => Some out
  | Datatypes.S n' =>
      let sample_idx := (bucket_idx + 1) * samples_per_bucket - 1 in
      s ← l !! Z.to_nat sample_idx;
      let out := out ++ PrintSample s in
      let out := if bucket_idx <? num_buckets - 1 then out ++ [44; 32] else out in
      print_buckets_loop n' (bucket_idx + 1) l num_buckets samples_per_bucket out
  end.

(** The state with its first [num_samples] samples sorted by value. *)
Definition sort_samples {T} `{SampleType T} `{RandomSource}
    (src : ReservoirSampleState sample_val) : ReservoirSampleState sample_val :=
  mkReservoirSampleState (sort SampleValLess (samples src) (Z.to_nat (num_samples src)))
                         (num_samples src) (source_size src) (rng src).

Definition HistogramFinalize {T} `{SampleType T} `{RandomSource} `{ValueLibrary}
    (src_val : StringVal) : M (ReservoirSampleState sample_val) StringVal :=
  src ← load (ptr src_val);
  let src := sort_samples src in
  store (ptr src_val) src;;
  let num_buckets := Z.min (num_samples src) NUM_BUCKETS in
  let samples_per_bucket := Z.max (Z.quot (num_samples src) NUM_BUCKETS) 1 in
  match print_buckets_loop (Z.to_nat num_buckets) 0 (samples src)
                           num_buckets samples_per_bucket [] with
  | Some out_str =>
      result_str ← StringVal_copy out_str;
      Free (ptr src_val);;
      mret result_str
  | None => undefined
  end.

Definition AppxMedianFinalize {T} `{SampleType T} `{RandomSource} `{ValueLibrary}
    (src_val : StringVal) : M (ReservoirSampleState sample_val) StringVal :=
  src ← load (ptr src_val);
  let src := sort_samples src in
  store (ptr src_val) src;;
  match samples src !! Z.to_nat (Z.quot (num_samples src) 2) with
  | Some s =>
      let out_str := PrintSample s in
      result_str ← StringVal_copy out_str;
      Free (ptr src_val);;
      mret result_str
  | None => undefined
  end.

(** ** Variance and standard deviation *)

(** An implementation of a simple single pass variance algorithm. *)
Record KnuthVarianceState := mkKnuthVarianceState {
  kv_mean : double;
  kv_m2 : double;
  kv_count : Z
}.

#[global] Instance KnuthVarianceState_buffer : Buffer KnuthVarianceState :=
  λ _, mkKnuthVarianceState dzero dzero 0.

Definition sizeof_KnuthVarianceState : Z := 24.

(** Set pop=true for population variance, false for sample variance *)
Definition ComputeKnuthVariance (state : KnuthVarianceState) (pop : bool) : double :=
  (* Return zero for 1 tuple *)
  if kv_count state =? 1 then dzero
  else if pop then ddiv (kv_m2 state) (double_of_Z (kv_count state))
  else ddiv (kv_m2 state) (double_of_Z (to_int64 (kv_count state - 1))).

Definition KnuthVarInit : M KnuthVarianceState StringVal :=
  let len := sizeof_KnuthVarianceState in
  p ← Allocate len;
  memset_zero p len;;
  mret (mkStringVal false len p).

(** [KnuthVarUpdate<T>]; [to_double] converts [T]'s base type. *)
Definition KnuthVarUpdate {A} (to_double : A → double) (src : AnyVal A) (dst : StringVal)
  : M KnuthVarianceState unit :=
  if is_null src then mret tt
  else
    state ← load (ptr dst);
    let temp := double_of_Z (to_int64 (1 + kv_count state)) in
    let delta := dsub (to_double (val src)) (kv_mean state) in
    let r := ddiv delta temp in
    store (ptr dst)
      (mkKnuthVarianceState
         (dadd (kv_mean state) r)
         (dadd (kv_m2 state) (dmul (dmul (double_of_Z (kv_count state)) delta) r))
         (int64_of_double temp)).

Definition KnuthVarMerge (src : StringVal) (dst : StringVal) : M KnuthVarianceState unit :=
  src_state ← load (ptr src);
  dst_state ← load (ptr dst);
  if kv_count src_state =? 0 then mret tt
  else
    let delta := dsub (kv_mean dst_state) (kv_mean src_state) in
    let sum_count := double_of_Z (to_int64 (kv_count dst_state + kv_count src_state)) in
    store (ptr dst)
      (mkKnuthVarianceState
         (dadd (kv_mean src_state)
               (dmul delta (ddiv (double_of_Z (kv_count dst_state)) sum_count)))
         (dadd (dadd (kv_m2 src_state) (kv_m2 dst_state))
               (dmul (dmul delta delta)
                     (ddiv (double_of_Z (to_int64 (kv_count src_state * kv_count dst_state)))
                           sum_count)))
         (int64_of_double sum_count)).

Definition KnuthVarFinalize (state_sv : StringVal) : M KnuthVarianceState DoubleVal :=
  state ← load (ptr state_sv);
  if kv_count state =? 0 then mret DoubleVal_null
  else
    let variance := ComputeKnuthVariance state false in
    mret (mkVal false variance).

(** [ToStringVal<T>]: the printed form of [val] as a result string. *)
Definition ToStringVal {S} `{ValueLibrary} (val : double) : M S StringVal :=
  StringVal_copy (print_double val).

Definition KnuthVarPopFinalize `{ValueLibrary} (state_sv : StringVal)
  : M KnuthVarianceState StringVal :=
  state ← load (ptr state_sv);
  Free (ptr state_sv);;
  if kv_count state =? 0 then mret StringVal_null
  else
    let variance := ComputeKnuthVariance state true in
    ToStringVal variance.

Definition KnuthStddevFinalize `{ValueLibrary} (state_sv : StringVal)
  : M KnuthVarianceState StringVal :=
  state ← load (ptr state_sv);
  Free (ptr state_sv);;
  if kv_count state =? 0 then mret StringVal_null
  else
    let variance := ComputeKnuthVariance state false in
    ToStringVal (dsqrt variance).

Definition KnuthStddevPopFinalize `{ValueLibrary} (state_sv : StringVal)
  : M KnuthVarianceState StringVal :=
  state ← load (ptr state_sv);
  Free (ptr state_sv);;
  if kv_count state =? 0 then mret StringVal_null
  else
    let variance := ComputeKnuthVariance state true in
    ToStringVal (dsqrt variance).

(** ** Rank and dense rank *)

Record RankState := mkRankState {
  rank : Z;
  rk_count : Z
}.

#[global] Instance RankState_buffer : Buffer RankState := λ _, mkRankState 0 0.

(** [RankState() : rank(1), count(0)] *)
Definition RankState_default : RankState := mkRankState 1 0.

Definition sizeof_RankState : Z := 16.

Definition RankInit : M RankState StringVal :=
  let str_len := sizeof_RankState in
  p ← Allocate str_len;
  store p RankState_default;;
  mret (mkStringVal false str_len p).

Definition RankUpdate (dst : StringVal) : M RankState unit :=
  state ← load (ptr dst);
  store (ptr dst) (mkRankState (rank state) (to_int64 (rk_count state + 1))).

Definition DenseRankUpdate (dst : StringVal) : M RankState unit := mret tt.

Definition RankGetValue (src_val : StringVal) : M RankState BigIntVal :=
  state ← load (ptr src_val);
  let result := rank state in
  (* Prepares future calls for the next rank *)
  store (ptr src_val) (mkRankState (to_int64 (rank state + rk_count state)) 0);;
  mret (mkVal false result).

Definition DenseRankGetValue (src_val : StringVal) : M RankState BigIntVal :=
  state ← load (ptr src_val);
  let result := rank state in
  (* Prepares future calls for the next rank *)
  store (ptr src_val) (mkRankState (to_int64 (rank state + 1)) (rk_count state));;
  mret (mkVal false result).

Definition RankFinalize (src_val : StringVal) : M RankState BigIntVal :=
  state ← load (ptr src_val);
  let result := rank state in
  Free (ptr src_val);;
  mret (mkVal false result).

(** * Scenarios *)

(** A stand-in for the external value library, for running the operators on
    concrete inputs.  The functions it gives are placeholders; no result
    below depends on what they return. *)
Definition sample_library : ValueLibrary := {|
  FromTimestampVal := λ t, double_of_Z (date t);
  ToTimestampVal := λ d, mkTimestampVal false (int64_of_double d) 0;
  DebugString := λ t, print_int (date t);
  Divide := λ sum _ count _, (Z.quot sum count, false, false);
  print_double := λ d, print_int (int64_of_double d);
  pow2 := λ d, double_of_Z (2 ^ int64_of_double d);
  powf2_neg := λ n, fdiv (float_of_Z 1) (float_of_Z (2 ^ n));
  log := λ d, d
|}.

Definition decimal38 : TypeDesc := mkTypeDesc 38 0.

(** A decimal(38,0) column holding 2^32: init, one update, read the state. *)
Definition decimal_avg_wide : M DecimalAvgState DecimalAvgState :=
  dst ← DecimalAvgInit;
  DecimalAvgUpdate (DecimalVal_of (2 ^ 32)) dst;;
  load (ptr dst).

(** Stand-ins for the external hash and random number generators. *)
Definition sample_hash : AnyValHash (AnyVal Z) := {|
  Hash := λ v _ seed, val v + seed;
  Hash64 := λ v _ seed, val v + seed
|}.

Definition sample_random : RandomSource.
Proof.
  refine {| rng_state := unit; rng_default := tt; rng_zero_image := tt;
            uniform_int := λ _ _, (0, tt);
            rand_state := Z; rand := λ g, (Z.abs g, g + 1) |}.
  - intros _ max Hmax. simpl. lia.
  - intros g. simpl. lia.
Defined.

Definition no_type : TypeDesc := mkTypeDesc 0 0.

(** A variance state that is initialized and finalized at once. *)
Definition var_init_finalize : M KnuthVarianceState (StringVal * DoubleVal) :=
  dst ← KnuthVarInit;
  r ← KnuthVarFinalize dst;
  mret (dst, r).

(** The same through the population variance. *)
Definition var_pop_init_finalize `{ValueLibrary} : M KnuthVarianceState (StringVal * StringVal) :=
  dst ← KnuthVarInit;
  r ← KnuthVarPopFinalize dst;
  mret (dst, r).


Definition pc_len : Z := NUM_PC_BITMAPS * PC_BITMAP_LENGTH / 8.

(** A PC bitmap whose row 0 has all of its 32 bits set, the other rows
    being empty, behind pointer 1 of an otherwise empty context. *)
Definition row0_full : list Z := replicate 4 255 ++ replicate 252 0.

Definition row0_full_ctx : FunctionContext (list Z) :=
  mkCtx {[ 1 := row0_full ]} ∅ ∅ 2 [] no_type no_type.

(** A value whose stand-in hash with seed 0 is 1, folded by [PcsaUpdate]
    into a fresh bitmap. *)
Definition pcsa_hash_one : M (list Z) unit :=
  dst ← PcInit;
  PcsaUpdate (H0:=sample_hash) (mkVal false 1) dst.

(** A sequence of update calls on one reservoir state. *)
Fixpoint ReservoirSampleUpdate_all {T} `{SampleType T} `{RandomSource} (xs : list T)
    (dst : StringVal) : M (ReservoirSampleState sample_val) unit :=
  match xs with
  | [] => mret tt
  | x :: xs' => ReservoirSampleUpdate x dst;; ReservoirSampleUpdate_all xs' dst
  end.

(** The approximate median of a fresh reservoir state after the update
    calls for [xs]. *)
Definition appx_median_of {T} `{SampleType T} `{RandomSource} `{ValueLibrary} (xs : list T)
  : M (ReservoirSampleState sample_val) StringVal :=
  dst ← ReservoirSampleInit;
  ReservoirSampleUpdate_all xs dst;;
  AppxMedianFinalize dst.

(** The number of non-null inputs of a sequence. *)
Fixpoint count_non_null {T} `{Nullable T} (xs : list T) : Z :=
  match xs with
  | [] => 0
  | x :: xs' => (if is_null x then 0 else 1) + count_non_null xs'
  end.

(** A fresh reservoir state, the inputs folded into it, and the state read
    back. *)
Definition reservoir_fold {T} `{SampleType T} `{RandomSource} (xs : list T)
  : M (ReservoirSampleState sample_val) (ReservoirSampleState sample_val) :=
  dst ← ReservoirSampleInit;
  ReservoirSampleUpdate_all xs dst;;
  load (ptr dst).

(** The invariant of a reservoir state under updates. *)
Definition reservoir_inv {V} `{RandomSource} (st : ReservoirSampleState V) : Prop :=
  length (samples st) = Z.to_nat NUM_SAMPLES ∧
  0 ≤ source_size st ∧
  num_samples st = Z.min (source_size st) NUM_SAMPLES.

(** The state a non-null update leaves behind, [new] being the sample made
    of the input. *)
Definition update_step {V} `{RandomSource} (st : ReservoirSampleState V)
    (new : ReservoirSample V) : ReservoirSampleState V :=
  if num_samples st <? NUM_SAMPLES then
    mkReservoirSampleState (<[Z.to_nat (num_samples st) := new]> (samples st))
                           (num_samples st + 1) (source_size st + 1) (rng st)
  else
    let r := fst (uniform_int (rng st) (source_size st)) in
    mkReservoirSampleState
      (if r <? NUM_SAMPLES then <[Z.to_nat r := new]> (samples st) else samples st)
      (num_samples st) (source_size st + 1) (snd (uniform_int (rng st) (source_size st))).

(** A string-concat state: a non-null value whose buffer holds the header,
    the length of the first separator, followed by the payload. *)
Definition concat_state (ctx : FunctionContext (list Z)) (sv : StringVal)
    (sep_len : Z) (payload : list Z) : Prop :=
  is_null sv = false ∧
  allocations ctx !! ptr sv = Some (encode_int sep_len ++ payload) ∧
  len sv = sizeof_StringConcatHeader + Z.of_nat (length payload).

(** An input string: a non-null value whose bytes the context can read. *)
Definition input_string {S} (ctx : FunctionContext S) (v : StringVal) (bs : list Z) : Prop :=
  is_null v = false ∧ strings ctx !! ptr v = Some bs ∧ len v = Z.of_nat (length bs).

(** Two partial states, the first folding [va] then [vb] with separator
    [s1], the second folding [vc] with separator [s2]; the second merged
    into the first; the result finalized. *)
Definition concat_merge_scenario (va vb vc s1 s2 : StringVal) : M (list Z) StringVal :=
  st1 ← StringConcatUpdate va s1 InitNullString;
  st1 ← StringConcatUpdate vb s1 st1;
  st2 ← StringConcatUpdate vc s2 InitNullString;
  st1 ← StringConcatMerge st2 st1;
  StringConcatFinalize st1.

(** The strings ["a"], ["b"], ["c"], ["-"] and ["+"] behind the pointers 1
    to 5. *)
Definition abc_ctx : FunctionContext (list Z) :=
  mkCtx ∅ ∅
        {[ 1 := bytes_of_string "a"; 2 := bytes_of_string "b"; 3 := bytes_of_string "c";
           4 := bytes_of_string "-"; 5 := bytes_of_string "+" ]}
        6 [] no_type no_type.

Definition abc_scenario : M (list Z) StringVal :=
  concat_merge_scenario (StringVal_of 1 1) (StringVal_of 2 1) (StringVal_of 3 1)
                        (StringVal_of 4 1) (StringVal_of 5 1).

(** Two PC bitmaps and two HLL register arrays behind the pointers 1 to 4. *)
Definition merge_ctx : FunctionContext (list Z) :=
  mkCtx {[ 1 := replicate 256 1; 2 := replicate 256 2;
           3 := replicate 1024 3; 4 := replicate 1024 4 ]}
        ∅ ∅ 5 [] no_type no_type.

(** Three inputs, the second of them null. *)
Definition three_inputs : list IntVal := [mkVal false 1; mkVal true 0; mkVal false 2].

(** A partial reservoir state over two values: init, two updates,
    serialize (which draws the keys). *)
Definition two_samples : M (@ReservoirSampleState (AnyVal Z) sample_random) StringVal :=
  dst ← ReservoirSampleInit (T:=IntVal) (H0:=sample_random);
  ReservoirSampleUpdate (H0:=sample_random) (mkVal false 10 : IntVal) dst;;
  ReservoirSampleUpdate (H0:=sample_random) (mkVal false 20 : IntVal) dst;;
  r ← ReservoirSampleSerialize (H:=sample_random) (0 : @rand_state sample_random) dst;
  mret (fst r).

(** That state merged into a freshly initialized one; both are read back. *)
Definition merge_into_fresh
  : M (@ReservoirSampleState (AnyVal Z) sample_random)
      (@ReservoirSampleState (AnyVal Z) sample_random *
       @ReservoirSampleState (AnyVal Z) sample_random) :=
  s ← two_samples;
  d ← ReservoirSampleInit (T:=IntVal) (H0:=sample_random);
  ReservoirSampleMerge (V:=AnyVal Z) (H:=sample_random) s d;;
  a ← load (ptr s);
  b ← load (ptr d);
  mret (a, b).

(** A variance state over the single value +infinity, merged into a freshly
    initialized one; both are read back. *)
Definition var_merge_into_fresh : M KnuthVarianceState (KnuthVarianceState * KnuthVarianceState) :=
  s ← KnuthVarInit;
  KnuthVarUpdate id (mkVal false (S754_infinity false)) s;;
  d ← KnuthVarInit;
  KnuthVarMerge s d;;
  a ← load (ptr s);
  b ← load (ptr d);
  mret (a, b).

(** Contexts holding a state behind pointer 1 and a freshly initialized
    state behind pointer 2, for the operators that keep their state in a
    buffer. *)
Definition avg_pair_ctx : FunctionContext AvgState :=
  mkCtx {[ 1 := mkAvgState (double_of_Z 5) 2; 2 := mkAvgState dzero 0 ]}
        ∅ ∅ 3 [] no_type no_type.

Definition decimal_avg_pair_ctx : FunctionContext DecimalAvgState :=
  mkCtx {[ 1 := mkDecimalAvgState (mkDecimalVal false 7) 3;
           2 := mkDecimalAvgState (mkDecimalVal false 0) 0 ]}
        ∅ ∅ 3 [] decimal38 decimal38.

Definition var_pair_ctx : FunctionContext KnuthVarianceState :=
  mkCtx {[ 1 := mkKnuthVarianceState (double_of_Z 3) dzero 1;
           2 := mkKnuthVarianceState dzero dzero 0 ]}
        ∅ ∅ 3 [] no_type no_type.

(** A PC bitmap (1), a fresh one (2), HLL registers (3), fresh ones (4) and
    the string-concat state of ["a"] with separator ["-"] (5). *)
Definition bytes_pair_ctx : FunctionContext (list Z) :=
  mkCtx {[ 1 := replicate 256 1; 2 := replicate 256 0;
           3 := replicate 1024 3; 4 := replicate 1024 0;
           5 := encode_int 1 ++ bytes_of_string "-a" ]}
        ∅ ∅ 6 [] no_type no_type.

(** A reservoir state over 10 and 20 with the keys 1 and 1/2 (1), and a
    fresh one (2). *)
Definition two_keyed_samples : @ReservoirSampleState (AnyVal Z) sample_random :=
  @mkReservoirSampleState (AnyVal Z) sample_random
    (<[1%nat := mkReservoirSample (mkVal false 20) (ddiv (double_of_Z 1) (double_of_Z 2))]>
       (<[0%nat := mkReservoirSample (mkVal false 10) (double_of_Z 1)]>
          (replicate (Z.to_nat NUM_SAMPLES) (ReservoirSample_default (T:=IntVal)))))
    2 2 (@rng_default sample_random).

Definition reservoir_pair_ctx : FunctionContext (@ReservoirSampleState (AnyVal Z) sample_random) :=
  mkCtx {[ 1 := two_keyed_samples;
           2 := ReservoirSampleState_default (T:=IntVal) (H0:=sample_random) ]}
        ∅ ∅ 3 [] no_type no_type.

(** The sums that [AvgInit], [AvgUpdate] and [AvgMerge], and [Sum] over
    doubles, can build: the zero of a fresh state, a sum with one more input
    and the sum of two such sums. *)
Inductive accumulated : double → Prop :=
  | accumulated_init : accumulated dzero
  | accumulated_update (s x : double) :
      accumulated s → exponent_ok 53 1024 x → accumulated (dadd s x)
  | accumulated_merge (s1 s2 : double) :
      accumulated s1 → accumulated s2 → accumulated (dadd s1 s2).

(** ** Folds over the inputs *)

(** [CountUpdate] called for each input of a sequence, and [CountStarUpdate]
    called once per row. *)
Definition count_all {T} `{Nullable T} (xs : list T) (dst : BigIntVal) : BigIntVal :=
  foldl (λ dst x, CountUpdate x dst) dst xs.

Definition count_star_all (rows : nat) (dst : BigIntVal) : BigIntVal :=
  Nat.iter rows CountStarUpdate dst.

(** [Sum<BigIntVal, BigIntVal>], [Min<BigIntVal>] and [Max<BigIntVal>]
    called for each input of a sequence. *)
Definition sum_all (xs : list BigIntVal) (dst : BigIntVal) : BigIntVal :=
  foldl (λ dst x, Sum_BigIntVal x dst) dst xs.

Definition min_all (xs : list BigIntVal) (dst : BigIntVal) : BigIntVal :=
  foldl (λ dst x, Min Z.ltb x dst) dst xs.

Definition max_all (xs : list BigIntVal) (dst : BigIntVal) : BigIntVal :=
  foldl (λ dst x, Max Z.ltb x dst) dst xs.

(** The sum of the non-null inputs of a sequence. *)
Fixpoint sum_non_null (xs : list BigIntVal) : Z :=
  match xs with
  | [] => 0
  | x :: xs' => (if is_null x then 0 else val x) + sum_non_null xs'
  end.

(** Whether every input of a sequence is null. *)
Definition all_null {T} `{Nullable T} (xs : list T) : bool := forallb is_null xs.

(** The least and the greatest of the non-null inputs of a sequence, if it
    has one. *)
Fixpoint least_non_null (xs : list BigIntVal) : option Z :=
  match xs with
  | [] => None
  | x :: xs' =>
      if is_null x then least_non_null xs'
      else Some (match least_non_null xs' with
                 | Some m => Z.min (val x) m
                 | None => val x
                 end)
  end.

Fixpoint greatest_non_null (xs : list BigIntVal) : option Z :=
  match xs with
  | [] => None
  | x :: xs' =>
      if is_null x then greatest_non_null xs'
      else Some (match greatest_non_null xs' with
                 | Some m => Z.max (val x) m
                 | None => val x
                 end)
  end.

(** A sequence of update calls on one variance state, and the four
    finalize functions after them. *)
Fixpoint KnuthVarUpdate_all {A} (to_double : A → double) (xs : list (AnyVal A))
    (dst : StringVal) : M KnuthVarianceState unit :=
  match xs with
  | [] => mret tt
  | x :: xs' => KnuthVarUpdate to_double x dst;; KnuthVarUpdate_all to_double xs' dst
  end.

Definition variance_of {A B} (to_double : A → double)
    (finalize : StringVal → M KnuthVarianceState B) (xs : list (AnyVal A))
  : M KnuthVarianceState B :=
  dst ← KnuthVarInit;
  KnuthVarUpdate_all to_double xs dst;;
  finalize dst.

(** A sequence of update calls on one average state, then finalize. *)
Fixpoint AvgUpdate_all {A} (to_double : A → double) (xs : list (AnyVal A))
    (dst : StringVal) : M AvgState unit :=
  match xs with
  | [] => mret tt
  | x :: xs' => AvgUpdate to_double x dst;; AvgUpdate_all to_double xs' dst
  end.

Definition avg_of {A} (to_double : A → double) (xs : list (AnyVal A)) : M AvgState DoubleVal :=
  dst ← AvgInit;
  AvgUpdate_all to_double xs dst;;
  AvgFinalize dst.

(** The non-null inputs added to [s] one after the other, in [double]. *)
Definition sum_doubles {A} (to_double : A → double) (xs : list (AnyVal A)) (s : double)
  : double :=
  foldl (λ s x, if is_null x then s else dadd s (to_double (val x))) s xs.

(** Ranking the groups of peer rows of a partition: for each group,
    [RankUpdate] once per row and then [RankGetValue]; [RankFinalize] at the
    end.  The values returned, in order. *)
Fixpoint RankUpdate_rows (rows : nat) (dst : StringVal) : M RankState unit :=
  match rows with
  | O => mret tt
  | Datatypes.S n => RankUpdate dst;; RankUpdate_rows n dst
  end.

Fixpoint rank_groups (groups : list nat) (dst : StringVal) : M RankState (list BigIntVal) :=
  match groups with
  | [] => mret []
  | rows :: rest =>
      RankUpdate_rows rows dst;;
      r ← RankGetValue dst;
      rs ← rank_groups rest dst;
      mret (r :: rs)
  end.

Definition rank_of_groups (groups : list nat) : M RankState (list BigIntVal * BigIntVal) :=
  dst ← RankInit;
  rs ← rank_groups groups dst;
  last ← RankFinalize dst;
  mret (rs, last).

(** The same for the dense rank: [DenseRankUpdate] per row, then
    [DenseRankGetValue]. *)
Fixpoint DenseRankUpdate_rows (rows : nat) (dst : StringVal) : M RankState unit :=
  match rows with
  | O => mret tt
  | Datatypes.S n => DenseRankUpdate dst;; DenseRankUpdate_rows n dst
  end.

Fixpoint dense_rank_groups (groups : list nat) (dst : StringVal)
  : M RankState (list BigIntVal) :=
  match groups with
  | [] => mret []
  | rows :: rest =>
      DenseRankUpdate_rows rows dst;;
      r ← DenseRankGetValue dst;
      rs ← dense_rank_groups rest dst;
      mret (r :: rs)
  end.

Definition dense_rank_of_groups (groups : list nat)
  : M RankState (list BigIntVal * BigIntVal) :=
  dst ← RankInit;
  rs ← dense_rank_groups groups dst;
  last ← RankFinalize dst;
  mret (rs, last).

(** The ranks of groups of the given sizes, the first group having rank
    [r]: each group's rank is the previous rank plus the previous group's
    size. *)
Fixpoint ranks_from (r : Z) (groups : list nat) : list Z :=
  match groups with
  | [] => []
  | rows :: rest => r :: ranks_from (r + Z.of_nat rows) rest
  end.

(** The number of rows of a list of groups. *)
Fixpoint rows_of (groups : list nat) : Z :=
  match groups with
  | [] => 0
  | rows :: rest => Z.of_nat rows + rows_of rest
  end.

(** ** Bitmaps and registers *)

(** A buffer of bytes: every element is a [uint8_t]. *)
Definition bytes (l : list Z) : Prop := Forall (λ b, 0 ≤ b < 256) l.

(** The bit index [PcUpdate] and [PcsaUpdate] derive from a nonzero value
    with [__builtin_ctz], and the one they use when the hash is zero. *)
Definition ctz (x : Z) : Z :=
  match x with
  | Zpos p => ctz_pos p
  | _ => 0
  end.

Definition pc_bit_index (hash_value : Z) : Z :=
  if hash_value =? 0 then PC_BITMAP_LENGTH - 1 else ctz hash_value.

Definition pcsa_bit_index (hash_value : Z) : Z :=
  if hash_value =? 0 then PC_BITMAP_LENGTH - 1 else ctz (hash_value / NUM_PC_BITMAPS).

(** Row [r] of a bitmap as a 32-bit word, and the number of its leading
    ones, counted from column 0: the trailing zeros of the word plus one. *)
Definition row_word (bitmap : list Z) (r : Z) : Z := default 0 (int_bitmap_get bitmap r).

Definition leading_ones (bitmap : list Z) (r : Z) : Z := ctz (row_word bitmap r + 1).

Fixpoint sum_leading_ones (n : nat) (i : Z) (bitmap : list Z) : Z :=
  match n with
  | O => 0
  | Datatypes.S n' => leading_ones bitmap i + sum_leading_ones n' (i + 1) bitmap
  end.

(** The estimate of [DistinceEstimateFinalize] for a bitmap that is not
    empty: two to the power of the average number of leading ones, divided
    by [PC_THETA]. *)
Definition pc_estimate `{ValueLibrary} (bitmap : list Z) : double :=
  ddiv (pow2 (ddiv (double_of_Z (sum_leading_ones (Z.to_nat NUM_PC_BITMAPS) 0 bitmap))
                   (double_of_Z NUM_PC_BITMAPS)))
       (double_of_float PC_THETA).

(** A sequence of update calls on one bitmap, and the distinct count of a
    sequence of inputs by either variant. *)
Fixpoint PcUpdate_all {T} `{Nullable T} `{AnyValHash T} (xs : list T) (dst : StringVal)
  : M (list Z) unit :=
  match xs with
  | [] => mret tt
  | x :: xs' => PcUpdate x dst;; PcUpdate_all xs' dst
  end.

Fixpoint PcsaUpdate_all {T} `{Nullable T} `{AnyValHash T} (xs : list T) (dst : StringVal)
  : M (list Z) unit :=
  match xs with
  | [] => mret tt
  | x :: xs' => PcsaUpdate x dst;; PcsaUpdate_all xs' dst
  end.

Definition pc_of {T} `{Nullable T} `{AnyValHash T} `{ValueLibrary} (xs : list T)
  : M (list Z) StringVal :=
  dst ← PcInit;
  PcUpdate_all xs dst;;
  PcFinalize dst.

Definition pcsa_of {T} `{Nullable T} `{AnyValHash T} `{ValueLibrary} (xs : list T)
  : M (list Z) StringVal :=
  dst ← PcInit;
  PcsaUpdate_all xs dst;;
  PcsaFinalize dst.

(** The number of registers that are zero, the sum of [2^-register] in
    single precision, and the estimate [HllFinalize] prints for [HLL_LEN]
    registers: linear counting when a register is zero, the harmonic mean
    otherwise. *)
Definition zero_registers (regs : list Z) : Z :=
  Z.of_nat (length (filter (λ r, r = 0) regs)).

Definition harmonic_sum `{ValueLibrary} (regs : list Z) : float :=
  foldl (λ h r, fadd h (powf2_neg r)) (S754_zero false) regs.

Definition hll_alpha : float :=
  fdiv (float_lit 7213 10000)
       (fadd (float_of_Z 1) (fdiv (float_lit 1079 1000) (float_of_Z HLL_LEN))).

Definition hll_estimate `{ValueLibrary} (regs : list Z) : Z :=
  if zero_registers regs =? 0 then
    int64_of_double
      (double_of_float
         (fmul (fmul (fmul hll_alpha (float_of_Z HLL_LEN)) (float_of_Z HLL_LEN))
               (fdiv (float_of_Z 1) (harmonic_sum regs))))
  else
    int64_of_double
      (dmul (double_of_Z HLL_LEN)
            (log (double_of_float
                    (fdiv (float_of_Z HLL_LEN) (float_of_Z (zero_registers regs)))))).

(** A sequence of update calls on one register array, then finalize. *)
Fixpoint HllUpdate_all {T} `{Nullable T} `{AnyValHash T} (xs : list T) (dst : StringVal)
  : M (list Z) unit :=
  match xs with
  | [] => mret tt
  | x :: xs' => HllUpdate x dst;; HllUpdate_all xs' dst
  end.

Definition hll_of {T} `{Nullable T} `{AnyValHash T} `{ValueLibrary} (xs : list T)
  : M (list Z) StringVal :=
  dst ← HllInit;
  HllUpdate_all xs dst;;
  HllFinalize dst.

(** ** Sequences of strings *)

(** [StringConcatUpdate] for each pair of a value and its separator, from
    the null state of [InitNullString], then [StringConcatFinalize]. *)
Fixpoint StringConcatUpdate_all (xs : list (StringVal * StringVal)) (result : StringVal)
  : M (list Z) StringVal :=
  match xs with
  | [] => mret result
  | (src, separator) :: xs' =>
      result ← StringConcatUpdate src separator result;
      StringConcatUpdate_all xs' result
  end.

Definition string_concat_of (xs : list (StringVal * StringVal)) : M (list Z) StringVal :=
  result ← StringConcatUpdate_all xs InitNullString;
  StringConcatFinalize result.

(** Each value preceded by its separator. *)
Definition with_separators (parts : list (list Z * list Z)) : list Z :=
  concat (map (λ p, snd p ++ fst p) parts).

(** The pairs of values and separators behind [xs] are the byte strings
    [parts]. *)
Definition inputs_read {S} (ctx : FunctionContext S) (xs : list (StringVal * StringVal))
    (parts : list (list Z * list Z)) : Prop :=
  Forall2 (λ x p, input_string ctx (fst x) (fst p) ∧ input_string ctx (snd x) (snd p)) xs parts.

(** ** Reservoirs *)

(** The samples made of the non-null inputs of a sequence, in order. *)
Definition samples_of {T} `{SampleType T} (mem : Z → option (list Z)) (xs : list T)
  : list (ReservoirSample sample_val) :=
  omap (λ x, if is_null x then None else ReservoirSample_of mem x) xs.

(** The samples collected in a state: the first [num_samples] slots. *)
Definition collected {V} `{RandomSource} (st : ReservoirSampleState V)
  : list (ReservoirSample V) :=
  take (Z.to_nat (num_samples st)) (samples st).

(** The text of a list of printed samples: the items with [", "] between
    them. *)
Fixpoint printed_list (ps : list (list Z)) : list Z :=
  match ps with
  | [] => []
  | p :: ps' =>
      match ps' with
      | [] => p
      | _ :: _ => p ++ [44; 32] ++ printed_list ps'
      end
  end.

(** The positions, among [n] sorted samples, of the samples a histogram
    shows: the last one of each bucket. *)
Definition bucket_samples (n : Z) : list Z :=
  (λ bucket_idx, (bucket_idx + 1) * Z.max (n ÷ NUM_BUCKETS) 1 - 1)
    <$> seqZ 0 (Z.min n NUM_BUCKETS).

(** ** Decimal sums *)

(** [SumUpdate] called for each input of a sequence, for inputs of the
    declared type [arg_desc]. *)
Definition SumUpdate_all (arg_desc : TypeDesc) (xs : list DecimalVal) (dst : DecimalVal)
  : DecimalVal :=
  foldl (λ dst src, SumUpdate arg_desc src dst) dst xs.

(** The field of an input that [SumUpdate] reads, and the total of these
    fields over the non-null inputs of a sequence. *)
Definition decimal_field (arg_desc : TypeDesc) (src : DecimalVal) : Z :=
  if precision arg_desc <=? 9 then val4 src
  else if precision arg_desc <=? 19 then val8 src
  else val16 src.

Fixpoint decimal_total (arg_desc : TypeDesc) (xs : list DecimalVal) : Z :=
  match xs with
  | [] => 0
  | x :: xs' =>
      (if is_null x then 0 else decimal_field arg_desc x) + decimal_total arg_desc xs'
  end.

(** ** Order *)

(** A number that is neither an infinity nor a NaN. *)
Definition is_finite (x : double) : bool :=
  match x with
  | S754_zero _ | S754_finite _ _ _ => true
  | _ => false
  end.

(** A sample whose key is a number. *)
Definition key_ok {V} (s : ReservoirSample V) : Prop := key s ≠ S754_nan.

(** [is_heap comp l n]: the first [n] elements of [l] are a heap with
    respect to [comp], as [std::is_heap] has it: [comp] holds for no
    element's parent and the element.  With [SampleKeyGreater], no key is
    below the key of its parent: a min-heap on the key. *)
Definition is_heap {A} (comp : A → A → bool) (l : list A) (n : nat) : Prop :=
  ∀ (i : nat) (p v : A),
    (0 < i < n)%nat → l !! ((i - 1) / 2)%nat = Some p → l !! i = Some v → comp p v = false.

(** The first [n] elements are a heap but for the element at [hole], for
    which [comp] may hold with its parent; [comp] does not hold for the
    parent of [hole] and a child of [hole]. *)
Definition heap_but {A} (comp : A → A → bool) (l : list A) (n hole : nat) : Prop :=
  (∀ (i : nat) (p v : A),
     (0 < i < n)%nat → i ≠ hole →
     l !! ((i - 1) / 2)%nat = Some p → l !! i = Some v → comp p v = false) ∧
  (∀ (c : nat) (g v : A),
     (0 < hole)%nat → (0 < c < n)%nat → ((c - 1) / 2)%nat = hole →
     l !! ((hole - 1) / 2)%nat = Some g → l !! c = Some v → comp g v = false).

(** [ordered less l]: no element of [l] is less than an element before
    it. *)
Fixpoint ordered {A} (less : A → A → bool) (l : list A) : Prop :=
  match l with
  | [] => True
  | x :: l' => Forall (λ y, less y x = false) l' ∧ ordered less l'
  end.

(** A reservoir state whose three samples are not in order, behind
    pointer 1. *)
Definition unordered_samples : @ReservoirSampleState (AnyVal Z) sample_random :=
  @mkReservoirSampleState (AnyVal Z) sample_random
    [mkReservoirSample (mkVal false 30) minus_one;
     mkReservoirSample (mkVal false 10) minus_one;
     mkReservoirSample (mkVal false 20) minus_one]
    3 3 (@rng_default sample_random).

Definition unordered_ctx : FunctionContext (@ReservoirSampleState (AnyVal Z) sample_random) :=
  mkCtx {[ 1 := unordered_samples ]} ∅ ∅ 2 [] no_type no_type.

(** Unfolding the projections of a context that was just updated. *)
Ltac ctx_simpl :=
  cbn [allocations local_states strings next_ptr warnings arg_type return_type
       set_allocations set_local_states set_strings set_next_ptr set_warnings
       ptr len sv_is_null StringVal_of].

(** * Properties *)

(** ** Machine integers *)

Lemma to_int64_small z : - 2 ^ 63 ≤ z < 2 ^ 63 → to_int64 z = z.
Proof.
  intros Hz. unfold to_int64, swrap.
  rewrite Z.mod_small; lia.
Qed.

Lemma to_int32_small z : - 2 ^ 31 ≤ z < 2 ^ 31 → to_int32 z = z.
Proof.
  intros Hz. unfold to_int32, swrap.
  rewrite Z.mod_small; lia.
Qed.

Lemma to_int128_small z : - 2 ^ 127 ≤ z < 2 ^ 127 → to_int128 z = z.
Proof.
  intros Hz. unfold to_int128, swrap.
  rewrite Z.mod_small; lia.
Qed.

Lemma to_int64_range z : - 2 ^ 63 ≤ to_int64 z < 2 ^ 63.
Proof.
  unfold to_int64, swrap.
  pose proof (Z.mod_pos_bound (z + 2 ^ (64 - 1)) (2 ^ 64) ltac:(lia)). lia.
Qed.

Lemma to_int128_range z : - 2 ^ 127 ≤ to_int128 z < 2 ^ 127.
Proof.
  unfold to_int128, swrap.
  pose proof (Z.mod_pos_bound (z + 2 ^ (128 - 1)) (2 ^ 128) ltac:(lia)). lia.
Qed.

Lemma to_uint32_range z : 0 ≤ to_uint32 z < 2 ^ 32.
Proof. unfold to_uint32, wrap. apply Z.mod_pos_bound. lia. Qed.

(** Writing a 128-bit value and reading it back as [val16]. *)
Lemma val16_set_val16 d v : val16 (set_val16 d v) = to_int128 v.
Proof.
  unfold val16, set_val16, to_int128, swrap, wrap. simpl.
  rewrite Zplus_mod_idemp_l. reflexivity.
Qed.

(** ** The context monad *)

Lemma bind_run {S A B} (m : M S A) (f : A → M S B) ctx :
  (m ≫= f) ctx = match m ctx with Some (a, ctx') => f a ctx' | None => None end.
Proof. reflexivity. Qed.

Lemma ret_run {S A} (a : A) (ctx : FunctionContext S) :
  (mret a : M S A) ctx = Some (a, ctx).
Proof. reflexivity. Qed.

Lemma load_run {S} (ctx : FunctionContext S) p s :
  state_at ctx p = Some s → load p ctx = Some (s, ctx).
Proof. unfold load. intros ->. reflexivity. Qed.

Lemma state_at_allocated {S} (ctx : FunctionContext S) p s :
  allocations ctx !! p = Some s → state_at ctx p = Some s.
Proof. unfold state_at. intros ->. reflexivity. Qed.

Lemma store_run {S} (ctx : FunctionContext S) p s s' :
  allocations ctx !! p = Some s →
  store p s' ctx = Some (tt, set_allocations (<[p := s']> (allocations ctx)) ctx).
Proof. unfold store. intros ->. reflexivity. Qed.

Lemma Free_run {S} (ctx : FunctionContext S) p s :
  p ≠ NULL → allocations ctx !! p = Some s →
  Free p ctx = Some (tt, set_allocations (delete p (allocations ctx)) ctx).
Proof.
  intros Hp Hs. unfold Free.
  destruct (Z.eqb_spec p NULL) as [|_]; [contradiction|]. rewrite Hs. reflexivity.
Qed.

(** ** Decimal average *)

(** What [DecimalAvgUpdate] adds for each physical width. *)
Lemma DecimalAvgUpdate_run src dst ctx avg :
  is_null src = false →
  allocations ctx !! ptr dst = Some avg →
  DecimalAvgUpdate src dst ctx =
    Some (tt, set_allocations
                (<[ptr dst :=
                     mkDecimalAvgState
                       (set_val16 (davg_sum avg)
                          (val16 (davg_sum avg) +
                           (if precision (arg_type ctx) <=? 9 then val4 src
                            else if precision (arg_type ctx) <=? 19 then val8 src
                            else val4 src)))
                       (to_int64 (davg_count avg + 1))]> (allocations ctx)) ctx).
Proof.
  intros Hnull Hdst. unfold DecimalAvgUpdate. rewrite Hnull.
  rewrite bind_run, (load_run _ _ avg) by (by apply state_at_allocated).
  rewrite bind_run. unfold GetArgType, GetByteSize.
  destruct (precision (arg_type ctx) <=? 9); [by erewrite store_run|].
  destruct (precision (arg_type ctx) <=? 19); by erewrite store_run.
Qed.

(** C1 (the code departs from the claim).  The claim: a non-null decimal
    input adds its full value to the sum, the 16-byte sub-field for a
    declared precision above 19.  The code: for a decimal(38,0) argument
    holding 2^32 the update reads [val4], the low four bytes, which are
    zero; the sum stays 0 while the count becomes 1. *)
Theorem DecimalAvgUpdate_wide_reads_val4 :
  GetByteSize decimal38 = 16 ∧
  val16 (DecimalVal_of (2 ^ 32)) = 2 ^ 32 ∧
  ∃ st ctx',
    decimal_avg_wide (empty_ctx decimal38 decimal38) = Some (st, ctx') ∧
    val16 (davg_sum st) = 0 ∧
    davg_count st = 1.
Proof.
  split; [reflexivity|]. split; [reflexivity|].
  eexists _, _. split; [vm_compute; reflexivity|]. split; reflexivity.
Qed.

(** The sibling [SumUpdate] adds the 16-byte sub-field for the same input. *)
Lemma SumUpdate_wide_reads_val16 :
  val16 (SumUpdate decimal38 (DecimalVal_of (2 ^ 32)) DecimalVal_null) = 2 ^ 32.
Proof. reflexivity. Qed.

(** ** Null inputs *)

(** C7.  For every operator whose update takes an input value, an update
    with a null input leaves the state as it is: the accumulator handed
    back is the one handed in, and nothing in the context changes. *)
Theorem update_null_skip
    {T : Type} `{Nullable T} `{AnyValHash T} `{ValueLibrary} `{RandomSource}
    {U : Type} `{SampleType U} {A B : Type}
    (src : T) (u : U) (v : AnyVal A) (ts : TimestampVal) (dec : DecimalVal)
    (str : StringVal) :
  is_null src = true → is_null u = true → is_null v = true → is_null ts = true →
  is_null dec = true → is_null str = true →
  (∀ dst, CountUpdate src dst = dst) ∧
  (∀ to_double dst ctx, AvgUpdate to_double v dst ctx = Some (tt, ctx)) ∧
  (∀ dst ctx, TimestampAvgUpdate ts dst ctx = Some (tt, ctx)) ∧
  (∀ dst ctx, DecimalAvgUpdate dec dst ctx = Some (tt, ctx)) ∧
  (∀ (plus : B → A → B) zero dst, Sum plus zero v dst = dst) ∧
  (∀ arg_desc dst, SumUpdate arg_desc dec dst = dst) ∧
  (∀ lt dst, Min lt v dst = dst ∧ Max lt v dst = dst) ∧
  (∀ dst ctx, Min_StringVal str dst ctx = Some (dst, ctx) ∧
              Max_StringVal str dst ctx = Some (dst, ctx)) ∧
  (∀ arg dst, Min_DecimalVal arg dec dst = dst ∧ Max_DecimalVal arg dec dst = dst) ∧
  (∀ dst, Min_TimestampVal ts dst = dst ∧ Max_TimestampVal ts dst = dst) ∧
  (∀ separator result ctx, StringConcatUpdate str separator result ctx = Some (result, ctx)) ∧
  (∀ dst ctx, PcUpdate src dst ctx = Some (tt, ctx)) ∧
  (∀ dst ctx, PcsaUpdate src dst ctx = Some (tt, ctx)) ∧
  (∀ dst ctx, ReservoirSampleUpdate u dst ctx = Some (tt, ctx)) ∧
  (∀ dst ctx, HllUpdate src dst ctx = Some (tt, ctx)) ∧
  (∀ to_double dst ctx, KnuthVarUpdate to_double v dst ctx = Some (tt, ctx)).
Proof.
  intros Hsrc Hu Hv Hts Hdec Hstr.
  repeat split; intros;
    unfold CountUpdate, AvgUpdate, TimestampAvgUpdate, DecimalAvgUpdate, Sum, SumUpdate,
      Min, Max, Min_StringVal, Max_StringVal, Min_DecimalVal, Max_DecimalVal,
      Min_TimestampVal, Max_TimestampVal, StringConcatUpdate, PcUpdate, PcsaUpdate,
      ReservoirSampleUpdate, HllUpdate, KnuthVarUpdate;
    rewrite ?Hsrc, ?Hu, ?Hv, ?Hts, ?Hdec, ?Hstr; reflexivity.
Qed.

(** The null-skip at concrete null inputs. *)
Lemma update_null_skip_witness :
  CountUpdate (mkVal true 7 : IntVal) (mkVal false 3) = mkVal false 3 ∧
  (∀ dst ctx, AvgUpdate double_of_Z (mkVal true 7) dst ctx = Some (tt, ctx)) ∧
  (∀ dst ctx, PcsaUpdate (H0:=sample_hash) (mkVal true 7) dst ctx = Some (tt, ctx)) ∧
  (∀ dst ctx,
     ReservoirSampleUpdate (H0:=sample_random) (mkVal true 7 : IntVal) dst ctx
     = Some (tt, ctx)).
Proof.
  pose proof (update_null_skip (H0:=sample_hash) (H1:=sample_library) (H2:=sample_random)
                (A:=Z) (B:=Z)
                (mkVal true 7 : IntVal) (mkVal true 7 : IntVal) (mkVal true 7)
                TimestampVal_null DecimalVal_null StringVal_null
                eq_refl eq_refl eq_refl eq_refl eq_refl eq_refl) as Hskip.
  split; [apply Hskip|]. split; [apply Hskip|]. split; apply Hskip.
Defined.

(** ** Finalize and the state's buffer *)

Lemma KnuthVarInit_run ctx :
  KnuthVarInit ctx =
    Some (mkStringVal false sizeof_KnuthVarianceState (next_ptr ctx),
          set_next_ptr (next_ptr ctx + 1)
            (set_allocations
               (<[next_ptr ctx := mkKnuthVarianceState dzero dzero 0]> (allocations ctx)) ctx)).
Proof.
  unfold KnuthVarInit, memset_zero. rewrite bind_run. unfold Allocate at 1.
  rewrite bind_run. erewrite store_run by (simpl; apply lookup_insert_eq).
  simpl. unfold set_allocations, set_next_ptr. simpl. rewrite insert_insert_eq.
  reflexivity.
Qed.

(** [KnuthVarFinalize] hands the context back as it got it. *)
Lemma KnuthVarFinalize_frame state_sv ctx r ctx' :
  KnuthVarFinalize state_sv ctx = Some (r, ctx') → ctx' = ctx.
Proof.
  unfold KnuthVarFinalize. rewrite bind_run. unfold load.
  destruct (state_at ctx (ptr state_sv)) as [st|]; [|discriminate].
  destruct (kv_count st =? 0); intros [= _ <-]; reflexivity.
Qed.

(** C3 (the code departs from the claim).  The claim: every finalize
    function releases the state's buffer, the sample-variance finalize
    included.  The code: in any context, a variance state that is
    initialized and then finalized by [KnuthVarFinalize] is still allocated
    afterwards. *)
Theorem KnuthVarFinalize_leaves_state_allocated (ctx : FunctionContext KnuthVarianceState) :
  ∃ dst r ctx',
    var_init_finalize ctx = Some ((dst, r), ctx') ∧
    is_Some (allocations ctx' !! ptr dst).
Proof.
  unfold var_init_finalize. rewrite bind_run, KnuthVarInit_run.
  rewrite bind_run. unfold KnuthVarFinalize. rewrite bind_run.
  erewrite load_run by (apply state_at_allocated; simpl; apply lookup_insert_eq).
  simpl. eexists _, _, _. split; [reflexivity|].
  simpl. rewrite lookup_insert_eq. eauto.
Qed.

(** The sibling [KnuthVarPopFinalize] releases it. *)
Lemma KnuthVarPopFinalize_releases `{ValueLibrary} (ctx : FunctionContext KnuthVarianceState) :
  next_ptr ctx ≠ NULL →
  ∃ dst r ctx',
    var_pop_init_finalize ctx = Some ((dst, r), ctx') ∧
    allocations ctx' !! ptr dst = None ∧
    allocations ctx' = delete (ptr dst) (allocations ctx).
Proof.
  intros Hp. unfold var_pop_init_finalize. rewrite bind_run, KnuthVarInit_run.
  rewrite bind_run. unfold KnuthVarPopFinalize. rewrite bind_run.
  erewrite load_run by (apply state_at_allocated; simpl; apply lookup_insert_eq).
  rewrite bind_run.
  erewrite Free_run; [|exact Hp|simpl; apply lookup_insert_eq].
  simpl. eexists _, _, _. split; [reflexivity|].
  simpl. rewrite delete_insert_eq. split; [apply lookup_delete_eq|reflexivity].
Qed.

(** ** Reservoir sampling *)

Section reservoir.
Context {T : Type} `{SampleType T} `{RandomSource}.

Lemma ReservoirSampleInit_run (ctx : FunctionContext (ReservoirSampleState sample_val)) :
  ReservoirSampleInit ctx =
    Some (mkStringVal false sizeof_ReservoirSampleState (next_ptr ctx),
          set_next_ptr (next_ptr ctx + 1)
            (set_allocations
               (<[next_ptr ctx := ReservoirSampleState_default]> (allocations ctx)) ctx)).
Proof.
  unfold ReservoirSampleInit, memset_zero. rewrite bind_run. unfold Allocate at 1.
  rewrite bind_run.
  erewrite store_run by (cbn [allocations set_next_ptr set_allocations]; apply lookup_insert_eq).
  rewrite bind_run.
  erewrite store_run by (cbn [allocations set_next_ptr set_allocations]; apply lookup_insert_eq).
  unfold set_allocations, set_next_ptr.
  cbn [allocations local_states strings next_ptr warnings arg_type return_type].
  rewrite !insert_insert_eq. reflexivity.
Qed.

Lemma sort_nothing {A} (less : A → A → bool) (l : list A) : sort less l 0 = l.
Proof. unfold sort. rewrite take_0, drop_0. reflexivity. Qed.

Lemma default_samples_lookup (i : nat) :
  (i < Z.to_nat NUM_SAMPLES)%nat →
  replicate (Z.to_nat NUM_SAMPLES) (ReservoirSample_default (T:=T)) !! i
  = Some ReservoirSample_default.
Proof. intros Hi. apply lookup_replicate_2. exact Hi. Qed.

Lemma StringVal_copy_run {S} (str : list Z) (ctx : FunctionContext S) :
  StringVal_copy str ctx =
    Some (StringVal_of (next_ptr ctx) (Z.of_nat (length str)),
          set_next_ptr (next_ptr ctx + 1)
            (set_strings (<[next_ptr ctx := str]> (strings ctx)) ctx)).
Proof.
  unfold StringVal_copy. rewrite bind_run. unfold StringVal_local at 1.
  rewrite bind_run. unfold memcpy_local.
  cbn [strings set_next_ptr set_strings ptr len StringVal_of].
  rewrite lookup_insert_eq, Nat2Z.id.
  rewrite firstn_all, drop_ge by (rewrite length_replicate; lia).
  rewrite app_nil_r. unfold set_strings, set_next_ptr.
  cbn [allocations local_states strings next_ptr warnings arg_type return_type].
  rewrite insert_insert_eq. reflexivity.
Qed.

Lemma ReservoirSampleUpdate_all_null (xs : list T) dst
    (ctx : FunctionContext (ReservoirSampleState sample_val)) :
  (∀ x, x ∈ xs → is_null x = true) →
  ReservoirSampleUpdate_all xs dst ctx = Some (tt, ctx).
Proof.
  intros Hnull. induction xs as [|x xs IH]; [reflexivity|].
  cbn [ReservoirSampleUpdate_all]. rewrite bind_run.
  unfold ReservoirSampleUpdate at 1. rewrite (Hnull x) by left.
  rewrite ret_run. apply IH. intros y Hy. apply Hnull. right. exact Hy.
Qed.

(** C10.  [AppxMedianFinalize] on a freshly initialized reservoir state into
    which no non-null value was ever folded does not return null: it
    returns the printed form of the default-constructed sample at index 0,
    which is ["0"] for the numeric types and the empty string for
    strings. *)
Theorem AppxMedianFinalize_of_nothing `{L : ValueLibrary} (xs : list T)
    (ctx : FunctionContext (ReservoirSampleState sample_val)) :
  (∀ x, x ∈ xs → is_null x = true) →
  (∃ r ctx',
     appx_median_of xs ctx = Some (r, ctx') ∧
     is_null r = false ∧
     result_bytes ctx' r = Some (PrintSample_val L default_val)) ∧
  PrintSample_val L (default_val (T:=AnyVal Z)) = bytes_of_string "0" ∧
  PrintSample_val L (default_val (T:=StringVal)) = bytes_of_string "".
Proof.
  intros Hnull. split; [|split; reflexivity].
  unfold appx_median_of. rewrite bind_run, ReservoirSampleInit_run.
  rewrite bind_run, ReservoirSampleUpdate_all_null by exact Hnull.
  unfold AppxMedianFinalize. cbn [ptr].
  rewrite bind_run.
  erewrite load_run
    by (apply state_at_allocated; cbn [allocations set_next_ptr set_allocations];
        apply lookup_insert_eq).
  rewrite bind_run.
  erewrite store_run by (cbn [allocations set_next_ptr set_allocations]; apply lookup_insert_eq).
  unfold sort_samples, ReservoirSampleState_default.
  cbn [samples num_samples source_size rng]. rewrite sort_nothing.
  change (Z.to_nat (Z.quot 0 2)) with O.
  rewrite default_samples_lookup by (unfold NUM_SAMPLES, NUM_BUCKETS, NUM_SAMPLES_PER_BUCKET; lia).
  rewrite bind_run, StringVal_copy_run. rewrite bind_run.
  unfold Free. cbn [allocations set_next_ptr set_allocations set_strings next_ptr].
  destruct (next_ptr ctx =? NULL).
  - eexists _, _. split; [reflexivity|]. split; [reflexivity|].
    unfold result_bytes, string_at.
    cbn [strings set_next_ptr set_allocations set_strings ptr len StringVal_of].
    rewrite lookup_insert_eq. cbn [fmap option_fmap option_map].
    rewrite Nat2Z.id, firstn_all. reflexivity.
  - rewrite lookup_insert_eq.
    eexists _, _. split; [reflexivity|]. split; [reflexivity|].
    unfold result_bytes, string_at.
    cbn [strings set_next_ptr set_allocations set_strings ptr len StringVal_of].
    rewrite lookup_insert_eq. cbn [fmap option_fmap option_map].
    rewrite Nat2Z.id, firstn_all. reflexivity.
Qed.

End reservoir.

(** The approximate median after two null inputs, for integers. *)
Lemma AppxMedianFinalize_of_nothing_witness :
  ∃ r ctx',
    appx_median_of (H0:=sample_random) (H1:=sample_library)
      [mkVal true 5 : IntVal; mkVal true 6] (empty_ctx no_type no_type) = Some (r, ctx') ∧
    is_null r = false ∧
    result_bytes ctx' r = Some (bytes_of_string "0").
Proof.
  destruct (AppxMedianFinalize_of_nothing (H0:=sample_random) (L:=sample_library)
              [mkVal true 5 : IntVal; mkVal true 6] (empty_ctx no_type no_type))
    as ((r & ctx' & Hrun & Hnull & Hbytes) & _).
  - intros x Hx. apply list_elem_of_In in Hx.
    destruct Hx as [<-|[<-|[]]]; reflexivity.
  - exists r, ctx'. split; [exact Hrun|]. split; [exact Hnull|exact Hbytes].
Defined.

(** ** Probabilistic counting *)

(** A bit access at column 32 or beyond is undefined: the shift count is
    not below the width of [int]. *)
Lemma GetDistinctEstimateBit_column_32 bitmap row_index bit_index :
  PC_BITMAP_LENGTH ≤ bit_index → GetDistinctEstimateBit bitmap row_index bit_index = None.
Proof.
  intros Hb. unfold GetDistinctEstimateBit, one_shl.
  destruct (Z.ltb_spec bit_index 32) as [Hlt|_]; [unfold PC_BITMAP_LENGTH in Hb; lia|].
  rewrite andb_false_r. reflexivity.
Qed.

(** The loop evaluates its bit accesses at consecutive columns, starting
    with the current [row_bit_count]. *)
Lemma leading_ones_loop_evaluated fuel bitmap i c evaluated :
  ∃ k : nat,
    snd (leading_ones_loop fuel bitmap i c evaluated)
    = evaluated ++ map (λ j, c + Z.of_nat j) (seq 0 k) ∧ (k ≤ fuel)%nat.
Proof.
  revert c evaluated. induction fuel as [|fuel IH]; intros c evaluated.
  - exists O. simpl. rewrite app_nil_r. split; [reflexivity|lia].
  - simpl. destruct (GetDistinctEstimateBit bitmap i c) as [[|]|].
    + destruct (c <? PC_BITMAP_LENGTH).
      * destruct (IH (c + 1) (evaluated ++ [c])) as (k & -> & Hk).
        exists (Datatypes.S k). split; [|lia].
        rewrite <- app_assoc. simpl. rewrite Z.add_0_r. do 2 f_equal.
        rewrite <- seq_shift, map_map. apply map_ext. intros j. lia.
      * exists 1%nat. simpl. rewrite Z.add_0_r. split; [reflexivity|lia].
    + exists 1%nat. simpl. rewrite Z.add_0_r. split; [reflexivity|lia].
    + exists 1%nat. simpl. rewrite Z.add_0_r. split; [reflexivity|lia].
Qed.

(** C4 (the code departs from the claim).  The claim: the run-length loop
    of a row never evaluates a bit access at column 32.  The code tests the
    bit before it tests the bound: for a bitmap whose row 0 has all 32 bits
    set, the accesses run over columns 0 to 32, the one at column 32 shifts
    by 32 and is undefined, and so are the row's count and the finalize
    functions built on it. *)
Theorem leading_ones_loop_reads_column_32 `{ValueLibrary} :
  snd (row_leading_ones row0_full 0) = map Z.of_nat (seq 0 33) ∧
  32 ∈ snd (row_leading_ones row0_full 0) ∧
  GetDistinctEstimateBit row0_full 0 32 = None ∧
  fst (row_leading_ones row0_full 0) = None ∧
  DistinceEstimateFinalize (StringVal_of 1 pc_len) row0_full_ctx = None ∧
  PcFinalize (StringVal_of 1 pc_len) row0_full_ctx = None ∧
  PcsaFinalize (StringVal_of 1 pc_len) row0_full_ctx = None.
Proof.
  assert (Hrow : row_leading_ones row0_full 0 = (None, map Z.of_nat (seq 0 33)))
    by (vm_compute; reflexivity).
  assert (Hfin : DistinceEstimateFinalize (StringVal_of 1 pc_len) row0_full_ctx = None).
  { unfold DistinceEstimateFinalize. rewrite bind_run.
    rewrite (load_run _ _ row0_full) by reflexivity.
    replace (is_empty_loop _ _ _) with false by (vm_compute; reflexivity).
    replace (sum_rows_loop _ _ _ _) with (@None Z); [reflexivity|].
    change (Z.to_nat NUM_PC_BITMAPS) with 64%nat. cbn [sum_rows_loop].
    rewrite Hrow. reflexivity. }
  rewrite Hrow. cbn [fst snd].
  split; [reflexivity|]. split.
  { apply list_elem_of_In, in_map_iff. exists 32%nat. split; [reflexivity|].
    apply in_seq. lia. }
  split; [apply GetDistinctEstimateBit_column_32; unfold PC_BITMAP_LENGTH; lia|].
  split; [reflexivity|]. split; [exact Hfin|]. split.
  - unfold PcFinalize. rewrite bind_run, Hfin. reflexivity.
  - unfold PcsaFinalize. rewrite bind_run, Hfin. reflexivity.
Qed.

(** A row with a zero bit among its 32 columns is handled within bounds:
    the loop stops at the first zero bit it meets. *)
Lemma leading_ones_loop_stops_at_zero fuel bitmap i c evaluated :
  GetDistinctEstimateBit bitmap i c = Some false →
  leading_ones_loop (Datatypes.S fuel) bitmap i c evaluated = (Some c, evaluated ++ [c]).
Proof. intros Hget. simpl. rewrite Hget. reflexivity. Qed.

(** A row whose first zero bit is at column [k < 32] is handled within
    bounds: the accesses run over the columns 0 to [k] and the count is
    [k]. *)
Lemma leading_ones_loop_in_bounds bitmap i (k : Z) :
  0 ≤ k < PC_BITMAP_LENGTH →
  (∀ c, 0 ≤ c < k → GetDistinctEstimateBit bitmap i c = Some true) →
  GetDistinctEstimateBit bitmap i k = Some false →
  ∀ (n : nat) (c : Z) fuel evaluated,
    0 ≤ c → c + Z.of_nat n = k → (n < fuel)%nat →
    leading_ones_loop fuel bitmap i c evaluated
    = (Some k, evaluated ++ map (λ j, c + Z.of_nat j) (seq 0 (Datatypes.S n))).
Proof.
  intros Hk Hones Hzero. induction n as [|n IH]; intros c fuel evaluated Hc Hsum Hfuel.
  - destruct fuel as [|fuel]; [lia|]. assert (c = k) as -> by lia.
    rewrite leading_ones_loop_stops_at_zero by exact Hzero.
    cbn [seq map]. rewrite Z.add_0_r. reflexivity.
  - destruct fuel as [|fuel]; [lia|]. cbn [leading_ones_loop].
    rewrite Hones by lia.
    destruct (Z.ltb_spec c PC_BITMAP_LENGTH) as [_|]; [|lia].
    rewrite (IH (c + 1)) by lia.
    rewrite <- app_assoc. do 2 f_equal. cbn [app].
    change (seq 0 (Datatypes.S (Datatypes.S n))) with (0%nat :: seq 1 (Datatypes.S n)).
    cbn [map]. rewrite Z.add_0_r. f_equal.
    rewrite <- seq_shift, map_map. apply map_ext. intros j. lia.
Qed.

(** A row with all of its 32 bits set, in any bitmap: the accesses run over
    the columns 0 to 32 and the count is undefined. *)
Lemma leading_ones_loop_full_row bitmap i :
  (∀ c, 0 ≤ c < PC_BITMAP_LENGTH → GetDistinctEstimateBit bitmap i c = Some true) →
  ∀ (n : nat) (c : Z) fuel evaluated,
    0 ≤ c → c + Z.of_nat n = PC_BITMAP_LENGTH → (n < fuel)%nat →
    leading_ones_loop fuel bitmap i c evaluated
    = (None, evaluated ++ map (λ j, c + Z.of_nat j) (seq 0 (Datatypes.S n))).
Proof.
  intros Hones. induction n as [|n IH]; intros c fuel evaluated Hc Hsum Hfuel.
  - destruct fuel as [|fuel]; [lia|]. cbn [leading_ones_loop].
    rewrite GetDistinctEstimateBit_column_32 by lia.
    cbn [seq map]. rewrite Z.add_0_r. reflexivity.
  - destruct fuel as [|fuel]; [lia|]. cbn [leading_ones_loop].
    rewrite Hones by lia.
    destruct (Z.ltb_spec c PC_BITMAP_LENGTH) as [_|]; [|lia].
    rewrite (IH (c + 1)) by lia.
    rewrite <- app_assoc. do 2 f_equal. cbn [app].
    change (seq 0 (Datatypes.S (Datatypes.S n))) with (0%nat :: seq 1 (Datatypes.S n)).
    cbn [map]. rewrite Z.add_0_r. f_equal.
    rewrite <- seq_shift, map_map. apply map_ext. intros j. lia.
Qed.

Lemma row_leading_ones_full_row bitmap i :
  (∀ c, 0 ≤ c < PC_BITMAP_LENGTH → GetDistinctEstimateBit bitmap i c = Some true) →
  row_leading_ones bitmap i = (None, map Z.of_nat (seq 0 33)).
Proof.
  intros Hones. unfold row_leading_ones.
  rewrite (leading_ones_loop_full_row bitmap i Hones 32 0) by (unfold PC_BITMAP_LENGTH; lia).
  reflexivity.
Qed.

Lemma ctz_of_zero : __builtin_ctz 0 = None.
Proof. reflexivity. Qed.

(** C9 (the code departs from the claim).  The claim: in [PcsaUpdate] the
    argument of the count of trailing zeros is nonzero whenever the hash is
    nonzero.  The code divides the hash by 64 first and guards on the hash
    itself: for a hash from 1 to 63 the argument is zero, the guard does not
    fire, and the bit index, and with it the bit that is set, is undefined. *)
Theorem PcsaUpdate_small_hash {T : Type} `{Nullable T} `{AnyValHash T}
    (input : T) (dst : StringVal) (ctx : FunctionContext (list Z)) (bitmap : list Z) :
  is_null input = false →
  state_at ctx (ptr dst) = Some bitmap →
  0 < to_uint32 (Hash input (arg_type ctx) 0) < NUM_PC_BITMAPS →
  to_uint32 (Hash input (arg_type ctx) 0) ≠ 0 ∧
  to_uint32 (Hash input (arg_type ctx) 0) / NUM_PC_BITMAPS = 0 ∧
  __builtin_ctz (to_uint32 (Hash input (arg_type ctx) 0) / NUM_PC_BITMAPS) = None ∧
  PcsaUpdate input dst ctx = None.
Proof.
  intros Hnull Hdst Hhash.
  assert (Hq : to_uint32 (Hash input (arg_type ctx) 0) / NUM_PC_BITMAPS = 0)
    by (apply Z.div_small; lia).
  split; [lia|]. split; [exact Hq|]. split; [rewrite Hq; reflexivity|].
  unfold PcsaUpdate. rewrite Hnull, bind_run. unfold GetArgType.
  rewrite Hq. cbn [__builtin_ctz].
  destruct (Z.eqb_spec (to_uint32 (Hash input (arg_type ctx) 0)) 0) as [E|_]; [lia|].
  rewrite bind_run, (load_run _ _ _ Hdst). reflexivity.
Qed.

(** A value whose hash is 1, folded into a fresh bitmap. *)
Lemma PcsaUpdate_small_hash_witness :
  to_uint32 (Hash (AnyValHash:=sample_hash) (mkVal false 1) no_type 0) = 1 ∧
  pcsa_hash_one (empty_ctx no_type no_type) = None.
Proof.
  split; [reflexivity|].
  unfold pcsa_hash_one. rewrite bind_run.
  replace (PcInit (empty_ctx no_type no_type))
    with (Some (mkStringVal false 256 1,
                mkCtx ({[ 1 := replicate 256 0 ]} : gmap Z (list Z)) ∅ ∅ 2 [] no_type no_type))
    by (vm_compute; reflexivity).
  eapply (PcsaUpdate_small_hash (H0:=sample_hash) (mkVal false 1) _ _ (replicate 256 0)).
  - reflexivity.
  - vm_compute. reflexivity.
  - vm_compute. split; reflexivity.
Defined.

(** ** Merging bitmaps, registers and counts *)

(** Both merge loops combine the buffers position by position. *)
Lemma PcMerge_loop_length n i src dst : length (PcMerge_loop n i src dst) = length dst.
Proof.
  revert i dst. induction n as [|n IH]; intros i dst; simpl; [reflexivity|].
  rewrite IH, length_insert. reflexivity.
Qed.

Lemma HllMerge_loop_length n i src dst : length (HllMerge_loop n i src dst) = length dst.
Proof.
  revert i dst. induction n as [|n IH]; intros i dst; simpl; [reflexivity|].
  rewrite IH, length_insert. reflexivity.
Qed.

Lemma PcMerge_loop_lookup n i src dst (j : nat) :
  (j < length dst)%nat →
  PcMerge_loop n i src dst !!! j =
    if decide (i ≤ j < i + n)%nat then Z.lor (dst !!! j) (src !!! j) else dst !!! j.
Proof.
  revert i dst. induction n as [|n IH]; intros i dst Hj; simpl.
  - case_decide; [lia|reflexivity].
  - rewrite IH by (rewrite length_insert; exact Hj).
    destruct (decide (j = i)) as [->|Hne].
    + rewrite list_lookup_total_insert_eq by exact Hj.
      repeat case_decide; try lia; reflexivity.
    + rewrite list_lookup_total_insert_ne by (intros E; apply Hne; symmetry; exact E).
      repeat case_decide; try lia; reflexivity.
Qed.

Lemma HllMerge_loop_lookup n i src dst (j : nat) :
  (j < length dst)%nat →
  HllMerge_loop n i src dst !!! j =
    if decide (i ≤ j < i + n)%nat then Z.max (dst !!! j) (src !!! j) else dst !!! j.
Proof.
  revert i dst. induction n as [|n IH]; intros i dst Hj; simpl.
  - case_decide; [lia|reflexivity].
  - rewrite IH by (rewrite length_insert; exact Hj).
    destruct (decide (j = i)) as [->|Hne].
    + rewrite list_lookup_total_insert_eq by exact Hj.
      repeat case_decide; try lia; reflexivity.
    + rewrite list_lookup_total_insert_ne by (intros E; apply Hne; symmetry; exact E).
      repeat case_decide; try lia; reflexivity.
Qed.

Lemma list_eq_total (l1 l2 : list Z) :
  length l1 = length l2 →
  (∀ j : nat, (j < length l1)%nat → l1 !!! j = l2 !!! j) → l1 = l2.
Proof.
  intros Hlen Hlookup. apply list_eq. intros j.
  destruct (decide (j < length l1)%nat) as [Hj|Hj].
  - destruct (lookup_lt_is_Some_2 l1 j Hj) as [x Hx].
    destruct (lookup_lt_is_Some_2 l2 j ltac:(lia)) as [y Hy].
    rewrite Hx, Hy. f_equal.
    rewrite <- (list_lookup_total_correct _ _ _ Hx), <- (list_lookup_total_correct _ _ _ Hy).
    apply Hlookup. exact Hj.
  - rewrite !lookup_ge_None_2 by lia. reflexivity.
Qed.

Lemma PcMerge_loop_comm (a b : list Z) :
  length a = length b →
  PcMerge_loop (length a) 0 b a = PcMerge_loop (length a) 0 a b.
Proof.
  intros Hlen. apply list_eq_total.
  - rewrite !PcMerge_loop_length. exact Hlen.
  - intros j. rewrite PcMerge_loop_length. intros Hj.
    rewrite !PcMerge_loop_lookup by lia.
    case_decide; [apply Z.lor_comm|lia].
Qed.

Lemma HllMerge_loop_comm (a b : list Z) :
  length a = length b →
  HllMerge_loop (length a) 0 b a = HllMerge_loop (length a) 0 a b.
Proof.
  intros Hlen. apply list_eq_total.
  - rewrite !HllMerge_loop_length. exact Hlen.
  - intros j. rewrite HllMerge_loop_length. intros Hj.
    rewrite !HllMerge_loop_lookup by lia.
    case_decide; [apply Z.max_comm|lia].
Qed.

(** Writing through a pointer that holds a state. *)
Lemma store_state_at {S} (ctx : FunctionContext S) p s s' :
  state_at ctx p = Some s →
  ∃ ctx', store p s' ctx = Some (tt, ctx') ∧ state_at ctx' p = Some s' ∧
          (∀ q, q ≠ p → state_at ctx' q = state_at ctx q) ∧
          strings ctx' = strings ctx ∧ next_ptr ctx' = next_ptr ctx.
Proof.
  unfold state_at, store. intros Hs.
  destruct (allocations ctx !! p) as [x|] eqn:Ha.
  - eexists. split; [reflexivity|]. cbn [allocations local_states set_allocations].
    rewrite lookup_insert_eq. split; [reflexivity|]. split; [|split; reflexivity].
    intros q Hq. rewrite lookup_insert_ne by (intros E; apply Hq; symmetry; exact E).
    reflexivity.
  - rewrite Hs. eexists. split; [reflexivity|].
    cbn [allocations local_states set_local_states]. rewrite Ha, lookup_insert_eq.
    split; [reflexivity|]. split; [|split; reflexivity].
    intros q Hq. rewrite lookup_insert_ne by (intros E; apply Hq; symmetry; exact E).
    reflexivity.
Qed.

Lemma PcMerge_run ctx src dst a b :
  state_at ctx (ptr src) = Some b → state_at ctx (ptr dst) = Some a →
  ∃ ctx', PcMerge src dst ctx = Some (tt, ctx') ∧
          state_at ctx' (ptr dst) = Some (PcMerge_loop (Z.to_nat pc_len) 0 b a) ∧
          (∀ q, q ≠ ptr dst → state_at ctx' q = state_at ctx q).
Proof.
  intros Hb Ha. unfold PcMerge.
  rewrite bind_run, (load_run _ _ _ Hb), bind_run, (load_run _ _ _ Ha).
  destruct (store_state_at ctx (ptr dst) a
              (PcMerge_loop (Z.to_nat (NUM_PC_BITMAPS * PC_BITMAP_LENGTH / 8)) 0 b a) Ha)
    as (ctx' & Hrun & Hat & Hframe & _).
  exists ctx'. split; [exact Hrun|]. split; [exact Hat|exact Hframe].
Qed.

Lemma HllMerge_run ctx src dst a b :
  state_at ctx (ptr src) = Some b → state_at ctx (ptr dst) = Some a →
  ∃ ctx', HllMerge src dst ctx = Some (tt, ctx') ∧
          state_at ctx' (ptr dst) = Some (HllMerge_loop (Z.to_nat (len src)) 0 b a) ∧
          (∀ q, q ≠ ptr dst → state_at ctx' q = state_at ctx q).
Proof.
  intros Hb Ha. unfold HllMerge.
  rewrite bind_run, (load_run _ _ _ Hb), bind_run, (load_run _ _ _ Ha).
  destruct (store_state_at ctx (ptr dst) a (HllMerge_loop (Z.to_nat (len src)) 0 b a) Ha)
    as (ctx' & Hrun & Hat & Hframe & _).
  exists ctx'. split; [exact Hrun|]. split; [exact Hat|exact Hframe].
Qed.

(** C6.  For the bitmap, register and integer operators merge is
    commutative bit for bit: for two valid states [a] and [b], merging [b]
    into [a] and merging [a] into [b] leave the same state behind, for
    [PcMerge] (shared by PC and PCSA) on bitmaps of 256 bytes, for
    [HllMerge] on 1024 registers and for [CountMerge] on 64-bit counts. *)
Theorem merge_commutative
    (ctx : FunctionContext (list Z)) (sa sb : StringVal) (a b : list Z)
    (ha hb : StringVal) (ra rb : list Z) (x y : BigIntVal) :
  state_at ctx (ptr sa) = Some a → state_at ctx (ptr sb) = Some b →
  Z.of_nat (length a) = pc_len → Z.of_nat (length b) = pc_len →
  state_at ctx (ptr ha) = Some ra → state_at ctx (ptr hb) = Some rb →
  len ha = HLL_LEN → len hb = HLL_LEN →
  Z.of_nat (length ra) = HLL_LEN → Z.of_nat (length rb) = HLL_LEN →
  is_null x = false → is_null y = false →
  (∃ ctx1 ctx2 merged,
     PcMerge sb sa ctx = Some (tt, ctx1) ∧ PcMerge sa sb ctx = Some (tt, ctx2) ∧
     state_at ctx1 (ptr sa) = Some merged ∧ state_at ctx2 (ptr sb) = Some merged) ∧
  (∃ ctx1 ctx2 merged,
     HllMerge hb ha ctx = Some (tt, ctx1) ∧ HllMerge ha hb ctx = Some (tt, ctx2) ∧
     state_at ctx1 (ptr ha) = Some merged ∧ state_at ctx2 (ptr hb) = Some merged) ∧
  CountMerge y x = CountMerge x y.
Proof.
  intros Ha Hb Hla Hlb Hra Hrb Hha Hhb Hlra Hlrb Hx Hy.
  split; [|split].
  - destruct (PcMerge_run ctx sb sa a b Hb Ha) as (ctx1 & Hrun1 & Hat1 & _).
    destruct (PcMerge_run ctx sa sb b a Ha Hb) as (ctx2 & Hrun2 & Hat2 & _).
    exists ctx1, ctx2, (PcMerge_loop (Z.to_nat pc_len) 0 b a).
    split; [exact Hrun1|]. split; [exact Hrun2|]. split; [exact Hat1|].
    rewrite Hat2. f_equal.
    rewrite <- Hla, Nat2Z.id. rewrite <- (PcMerge_loop_comm a b) by lia.
    reflexivity.
  - destruct (HllMerge_run ctx hb ha ra rb Hrb Hra) as (ctx1 & Hrun1 & Hat1 & _).
    destruct (HllMerge_run ctx ha hb rb ra Hra Hrb) as (ctx2 & Hrun2 & Hat2 & _).
    exists ctx1, ctx2, (HllMerge_loop (Z.to_nat HLL_LEN) 0 rb ra).
    split; [exact Hrun1|]. split; [exact Hrun2|].
    rewrite Hat1, Hat2, Hha, Hhb. split; [reflexivity|]. f_equal.
    rewrite <- Hlra, Nat2Z.id. rewrite <- (HllMerge_loop_comm ra rb) by lia.
    reflexivity.
  - unfold CountMerge. unfold is_null, AnyVal_nullable in Hx, Hy.
    rewrite Hx, Hy, Z.add_comm. reflexivity.
Qed.

(** Commutativity on two bitmaps, two register arrays and two counts. *)
Lemma merge_commutative_witness :
  (∃ ctx1 ctx2 merged,
     PcMerge (StringVal_of 2 256) (StringVal_of 1 256) merge_ctx = Some (tt, ctx1) ∧
     PcMerge (StringVal_of 1 256) (StringVal_of 2 256) merge_ctx = Some (tt, ctx2) ∧
     state_at ctx1 1 = Some merged ∧ state_at ctx2 2 = Some merged) ∧
  (∃ ctx1 ctx2 merged,
     HllMerge (StringVal_of 4 1024) (StringVal_of 3 1024) merge_ctx = Some (tt, ctx1) ∧
     HllMerge (StringVal_of 3 1024) (StringVal_of 4 1024) merge_ctx = Some (tt, ctx2) ∧
     state_at ctx1 3 = Some merged ∧ state_at ctx2 4 = Some merged) ∧
  CountMerge (mkVal false 5) (mkVal false 9) = CountMerge (mkVal false 9) (mkVal false 5).
Proof.
  apply (merge_commutative merge_ctx (StringVal_of 1 256) (StringVal_of 2 256)
           (replicate 256 1) (replicate 256 2)
           (StringVal_of 3 1024) (StringVal_of 4 1024)
           (replicate 1024 3) (replicate 1024 4) (mkVal false 9) (mkVal false 5));
    reflexivity.
Defined.

(** ** The reservoir under updates *)

Section reservoir_updates.
Context {T : Type} `{SampleType T} `{RandomSource}.

Lemma NUM_SAMPLES_value : NUM_SAMPLES = 20000.
Proof. reflexivity. Qed.

Lemma reservoir_inv_default : reservoir_inv (ReservoirSampleState_default (T:=T)).
Proof.
  unfold reservoir_inv, ReservoirSampleState_default. cbn [samples source_size num_samples].
  rewrite length_replicate, NUM_SAMPLES_value. repeat split; lia.
Qed.

Lemma samples_set_in_range {V} (l : list (ReservoirSample V)) i s :
  0 ≤ i < Z.of_nat (length l) → samples_set l i s = Some (<[Z.to_nat i := s]> l).
Proof.
  intros Hi. unfold samples_set.
  destruct (Z.leb_spec 0 i); [|lia]. destruct (Z.ltb_spec i (Z.of_nat (length l))); [|lia].
  reflexivity.
Qed.

Lemma string_at_strings {S S'} (ctx : FunctionContext S) (ctx' : FunctionContext S') :
  strings ctx' = strings ctx → string_at ctx' = string_at ctx.
Proof. unfold string_at. intros ->. reflexivity. Qed.

(** One non-null update: what it does to the state, and that the
    invariant is kept. *)
Lemma ReservoirSampleUpdate_step (ctx : FunctionContext (ReservoirSampleState sample_val))
    (src : T) (dst : StringVal) st v :
  is_null src = false →
  state_at ctx (ptr dst) = Some st →
  stored_val (string_at ctx) src = Some v →
  reservoir_inv st →
  source_size st < INT64_MAX →
  ∃ ctx',
    ReservoirSampleUpdate src dst ctx = Some (tt, ctx') ∧
    state_at ctx' (ptr dst) = Some (update_step st (mkReservoirSample v minus_one)) ∧
    strings ctx' = strings ctx ∧
    reservoir_inv (update_step st (mkReservoirSample v minus_one)).
Proof.
  intros Hnull Hst Hv (Hlen & Hsize & Hnum) Hmax.
  unfold INT64_MAX in Hmax. pose proof NUM_SAMPLES_value as HN.
  unfold ReservoirSampleUpdate. rewrite Hnull, bind_run, (load_run _ _ _ Hst).
  rewrite bind_run. unfold get_ctx. rewrite bind_run.
  unfold ReservoirSample_of. rewrite Hv. cbn [mbind option_bind].
  unfold update_step.
  destruct (Z.ltb_spec (num_samples st) NUM_SAMPLES) as [Hlt|Hge].
  - rewrite samples_set_in_range by lia.
    rewrite ret_run. cbn [samples num_samples source_size rng].
    rewrite to_int32_small, to_int64_small by lia.
    match goal with |- context [store _ ?s ctx] =>
      destruct (store_state_at ctx (ptr dst) st s Hst) as (ctx' & Hrun & Hat & _ & Hstr & _)
    end.
    exists ctx'. split; [exact Hrun|]. split; [exact Hat|]. split; [exact Hstr|].
    unfold reservoir_inv. cbn [samples num_samples source_size].
    rewrite length_insert. repeat split; lia.
  - pose proof (uniform_int_range (rng st) (source_size st) Hsize) as Hr.
    unfold GetNext64.
    destruct (uniform_int (rng st) (source_size st)) as [r g]. cbn [fst snd] in *.
    cbn [samples num_samples source_size rng].
    destruct (Z.ltb_spec r NUM_SAMPLES) as [Hrlt|Hrge].
    + rewrite samples_set_in_range by lia.
      rewrite ret_run. cbn [samples num_samples source_size rng].
      rewrite to_int64_small by lia.
      match goal with |- context [store _ ?s ctx] =>
        destruct (store_state_at ctx (ptr dst) st s Hst) as (ctx' & Hrun & Hat & _ & Hstr & _)
      end.
      exists ctx'. split; [exact Hrun|]. split; [exact Hat|]. split; [exact Hstr|].
      unfold reservoir_inv. cbn [samples num_samples source_size].
      rewrite length_insert. repeat split; lia.
    + rewrite ret_run. cbn [samples num_samples source_size rng].
      rewrite to_int64_small by lia.
      match goal with |- context [store _ ?s ctx] =>
        destruct (store_state_at ctx (ptr dst) st s Hst) as (ctx' & Hrun & Hat & _ & Hstr & _)
      end.
      exists ctx'. split; [exact Hrun|]. split; [exact Hat|]. split; [exact Hstr|].
      unfold reservoir_inv. cbn [samples num_samples source_size].
      repeat split; lia.
Qed.

Lemma update_step_source_size {V} (st : ReservoirSampleState V) new :
  source_size (update_step st new) = source_size st + 1.
Proof. unfold update_step. destruct (num_samples st <? NUM_SAMPLES); reflexivity. Qed.

Lemma count_non_null_nonneg (xs : list T) : 0 ≤ count_non_null xs.
Proof. induction xs as [|x xs IH]; simpl; [lia|]. destruct (is_null x); lia. Qed.

(** A sequence of updates, from any state that satisfies the invariant. *)
Lemma ReservoirSampleUpdate_all_inv (xs : list T) (dst : StringVal) :
  ∀ (ctx : FunctionContext (ReservoirSampleState sample_val)) st,
    state_at ctx (ptr dst) = Some st →
    reservoir_inv st →
    source_size st + count_non_null xs ≤ INT64_MAX →
    (∀ x, x ∈ xs → is_null x = false → is_Some (stored_val (string_at ctx) x)) →
    ∃ st' ctx',
      ReservoirSampleUpdate_all xs dst ctx = Some (tt, ctx') ∧
      state_at ctx' (ptr dst) = Some st' ∧
      reservoir_inv st' ∧
      source_size st' = source_size st + count_non_null xs.
Proof.
  induction xs as [|x xs IH]; intros ctx st Hst Hinv Hmax Hread.
  - exists st, ctx. simpl. rewrite Z.add_0_r.
    split; [reflexivity|]. split; [exact Hst|]. split; [exact Hinv|reflexivity].
  - simpl in Hmax |- *. pose proof (count_non_null_nonneg xs) as Hnn.
    rewrite bind_run.
    destruct (is_null x) eqn:Hnull.
    + unfold ReservoirSampleUpdate at 1. rewrite Hnull, ret_run.
      destruct (IH ctx st Hst Hinv ltac:(lia)) as (st' & ctx' & Hrun & Hat & Hinv' & Hsz).
      { intros y Hy. apply Hread. right. exact Hy. }
      exists st', ctx'. split; [exact Hrun|]. split; [exact Hat|]. split; [exact Hinv'|]. lia.
    + destruct (Hread x ltac:(left) Hnull) as [v Hv].
      destruct (ReservoirSampleUpdate_step ctx x dst st v Hnull Hst Hv Hinv ltac:(lia))
        as (ctx1 & Hrun1 & Hat1 & Hstr1 & Hinv1).
      rewrite Hrun1.
      destruct (IH ctx1 _ Hat1 Hinv1) as (st' & ctx' & Hrun & Hat & Hinv' & Hsz).
      { rewrite update_step_source_size. lia. }
      { intros y Hy Hny. rewrite (string_at_strings ctx ctx1 Hstr1).
        apply Hread; [right; exact Hy|exact Hny]. }
      exists st', ctx'. split; [exact Hrun|]. split; [exact Hat|]. split; [exact Hinv'|].
      rewrite Hsz, update_step_source_size. lia.
Qed.

(** C8.  For every sequence of update calls on a freshly initialized
    reservoir state, [source_size] is the number of non-null inputs folded
    so far and [num_samples] is the smaller of [source_size] and 20000.
    A non-null update appends while [num_samples < 20000], otherwise it
    replaces slot [r] only when the draw [r] from [[0, source_size]] is
    below 20000, and it always increments [source_size].  (The count is
    kept in an [int64_t]; the inputs are readable values.) *)
Theorem reservoir_update_invariant (xs : list T)
    (ctx : FunctionContext (ReservoirSampleState sample_val)) :
  count_non_null xs ≤ INT64_MAX →
  (∀ x, x ∈ xs → is_null x = false → is_Some (stored_val (string_at ctx) x)) →
  (∃ st ctx',
     reservoir_fold xs ctx = Some (st, ctx') ∧
     source_size st = count_non_null xs ∧
     num_samples st = Z.min (source_size st) NUM_SAMPLES) ∧
  (∀ (c : FunctionContext (ReservoirSampleState sample_val)) (src : T) dst st v,
     is_null src = false → state_at c (ptr dst) = Some st →
     stored_val (string_at c) src = Some v →
     reservoir_inv st → source_size st < INT64_MAX →
     ∃ c',
       ReservoirSampleUpdate src dst c = Some (tt, c') ∧
       state_at c' (ptr dst) = Some (update_step st (mkReservoirSample v minus_one)) ∧
       0 ≤ fst (uniform_int (rng st) (source_size st)) ≤ source_size st).
Proof.
  intros Hmax Hread. split.
  - unfold reservoir_fold. rewrite bind_run, ReservoirSampleInit_run. cbn [ptr].
    rewrite bind_run.
    match goal with |- context [ReservoirSampleUpdate_all xs ?d ?c] =>
      destruct (ReservoirSampleUpdate_all_inv xs d c ReservoirSampleState_default)
        as (st & ctx' & Hrun & Hat & Hinv & Hsz)
    end.
    + apply state_at_allocated. cbn [allocations set_next_ptr set_allocations ptr].
      apply lookup_insert_eq.
    + apply reservoir_inv_default.
    + cbn [source_size ReservoirSampleState_default]. lia.
    + intros x Hx Hnx.
      rewrite (string_at_strings ctx) by reflexivity. apply Hread; assumption.
    + rewrite Hrun. cbn [ptr] in Hat. rewrite (load_run _ _ _ Hat).
      exists st, ctx'. split; [reflexivity|]. split; [|apply Hinv].
      rewrite Hsz. cbn [source_size ReservoirSampleState_default]. lia.
  - intros c src dst st v Hnull Hst Hv Hinv Hlt.
    destruct (ReservoirSampleUpdate_step c src dst st v Hnull Hst Hv Hinv Hlt)
      as (c' & Hrun & Hat & _ & _).
    exists c'. split; [exact Hrun|]. split; [exact Hat|].
    apply uniform_int_range. apply Hinv.
Qed.

End reservoir_updates.

(** The invariant after three inputs, one of them null. *)
Lemma reservoir_update_invariant_witness :
  ∃ st ctx',
    reservoir_fold (H0:=sample_random) three_inputs (empty_ctx no_type no_type)
    = Some (st, ctx') ∧
    source_size st = 2 ∧ num_samples st = 2.
Proof.
  destruct (reservoir_update_invariant (H0:=sample_random) three_inputs
              (empty_ctx no_type no_type)) as ((st & ctx' & Hrun & Hsize & Hnum) & _).
  - vm_compute. discriminate.
  - intros x _ _. eexists. reflexivity.
  - exists st, ctx'. split; [exact Hrun|]. rewrite Hnum, Hsize. split; reflexivity.
Defined.

(** ** String concatenation *)

Lemma encode_int_length v : length (encode_int v) = 4%nat.
Proof. reflexivity. Qed.

Lemma decode_encode_int v rest :
  - 2 ^ 31 ≤ v < 2 ^ 31 → decode_int (encode_int v ++ rest) = v.
Proof.
  intros Hv. unfold decode_int, encode_int. cbn [app lookup_total list_lookup_total].
  pose proof (to_uint32_range v) as Hu.
  set (u := to_uint32 v) in *.
  assert (Hsum : u mod 256 + 256 * (u / 256 mod 256) + 65536 * (u / 65536 mod 256)
                 + 16777216 * (u / 16777216 mod 256) = u).
  { assert (E2 : u / 65536 = u / 256 / 256) by (rewrite Z.div_div by lia; reflexivity).
    assert (E3 : u / 16777216 = u / 256 / 256 / 256) by (rewrite !Z.div_div by lia; reflexivity).
    rewrite E2, E3.
    pose proof (Z.div_mod u 256 ltac:(lia)).
    pose proof (Z.div_mod (u / 256) 256 ltac:(lia)).
    pose proof (Z.div_mod (u / 256 / 256) 256 ltac:(lia)).
    assert (0 ≤ u / 256 / 256 / 256 < 256).
    { rewrite <- E3. split; [apply Z.div_pos; lia|apply Z.div_lt_upper_bound; lia]. }
    rewrite (Z.mod_small (u / 256 / 256 / 256)) by lia. lia. }
  rewrite Hsum. subst u. unfold to_int32, to_uint32, swrap, wrap.
  change (2 ^ (32 - 1)) with (2 ^ 31).
  rewrite Zplus_mod_idemp_l. rewrite Z.mod_small; lia.
Qed.

Lemma memcpy_to_run ctx p off bs old :
  allocations ctx !! p = Some old →
  0 ≤ off → off + Z.of_nat (length bs) ≤ Z.of_nat (length old) →
  memcpy_to p off bs ctx =
    Some (tt, set_allocations
                (<[p := take (Z.to_nat off) old ++ bs ++ drop (Z.to_nat off + length bs) old]>
                   (allocations ctx)) ctx).
Proof.
  intros Hold Hoff Hfit. unfold memcpy_to.
  rewrite bind_run, (load_run _ _ old) by (apply state_at_allocated; exact Hold).
  destruct (Z.leb_spec 0 off); [|lia].
  destruct (Z.leb_spec (off + Z.of_nat (length bs)) (Z.of_nat (length old))); [|lia].
  cbn [andb]. erewrite store_run by exact Hold. reflexivity.
Qed.

Lemma Reallocate_run ctx p new_len old :
  allocations ctx !! p = Some old →
  Reallocate p new_len ctx =
    Some (p, set_allocations
               (<[p := take (Z.to_nat new_len) (old ++ replicate (Z.to_nat new_len) 0)]>
                  (allocations ctx)) ctx).
Proof. intros Hold. unfold Reallocate. rewrite Hold. reflexivity. Qed.

Lemma read_string_run {S} (ctx : FunctionContext S) v bs :
  input_string ctx v bs → read_string v ctx = Some (bs, ctx).
Proof.
  intros (_ & Hbs & Hlen). unfold read_string, string_at. rewrite Hbs, Hlen.
  destruct (Z.leb_spec (Z.of_nat (length bs)) (Z.of_nat (length bs))); [|lia].
  rewrite Nat2Z.id, firstn_all. reflexivity.
Qed.

Lemma read_bytes_run ctx v bs :
  allocations ctx !! ptr v = Some bs → len v = Z.of_nat (length bs) →
  read_bytes v ctx = Some (bs, ctx).
Proof.
  intros Hbs Hlen. unfold read_bytes. rewrite (state_at_allocated _ _ _ Hbs), Hlen.
  destruct (Z.leb_spec (Z.of_nat (length bs)) (Z.of_nat (length bs))); [|lia].
  rewrite Nat2Z.id, firstn_all. reflexivity.
Qed.

Lemma read_header_run ctx p h payload :
  allocations ctx !! p = Some (encode_int h ++ payload) →
  - 2 ^ 31 ≤ h < 2 ^ 31 →
  read_header p ctx = Some (h, ctx).
Proof.
  intros Hbs Hh. unfold read_header.
  rewrite bind_run, (load_run _ _ _ (state_at_allocated _ _ _ Hbs)).
  rewrite length_app, encode_int_length. unfold sizeof_StringConcatHeader.
  destruct (Z.leb_spec 4 (Z.of_nat (4 + length payload))); [|lia].
  rewrite decode_encode_int by exact Hh. reflexivity.
Qed.

(** Appending [bs] at the end of a buffer that was grown for it. *)
Lemma grow_and_append (old bs : list Z) (extra : nat) :
  (length bs ≤ extra)%nat →
  let grown := take (length old + extra) (old ++ replicate (length old + extra) 0) in
  take (length old) grown ++ bs ++ drop (length old + length bs) grown
  = old ++ bs ++ replicate (extra - length bs) 0.
Proof.
  intros Hfit grown.
  assert (Hgrown : grown = old ++ replicate extra 0).
  { subst grown. rewrite take_app_ge by lia.
    replace (length old + extra - length old)%nat with extra by lia.
    rewrite take_replicate. f_equal. f_equal. lia. }
  rewrite Hgrown. rewrite take_app_length.
  rewrite drop_app_ge by lia.
  replace (length old + length bs - length old)%nat with (length bs) by lia.
  rewrite drop_replicate. reflexivity.
Qed.

(** An update of an existing state appends the separator and the value. *)
Lemma StringConcatUpdate_append ctx src sep result h payload bs sb :
  concat_state ctx result h payload →
  input_string ctx src bs → input_string ctx sep sb →
  4 + Z.of_nat (length payload) + Z.of_nat (length sb) + Z.of_nat (length bs) < 2 ^ 31 →
  ∃ result' ctx',
    StringConcatUpdate src sep result ctx = Some (result', ctx') ∧
    concat_state ctx' result' h (payload ++ sb ++ bs) ∧
    ptr result' = ptr result ∧
    strings ctx' = strings ctx ∧ next_ptr ctx' = next_ptr ctx ∧
    local_states ctx' = local_states ctx ∧
    (∀ q, q ≠ ptr result → allocations ctx' !! q = allocations ctx !! q).
Proof.
  intros (Hrn & Hra & Hrl) Hsrc Hsep Hfit.
  pose proof Hsrc as (Hsn & _ & Hsl). pose proof Hsep as (Hpn & _ & Hpl).
  unfold StringConcatUpdate. rewrite Hsn, Hpn, Hrn. rewrite bind_run, ret_run.
  unfold sizeof_StringConcatHeader in *.
  rewrite bind_run.
  erewrite Reallocate_run by exact Hra.
  rewrite bind_run.
  erewrite read_string_run by (exact Hsep).
  rewrite bind_run.
  rewrite Hrl, Hpl, Hsl. rewrite !to_int32_small by lia.
  set (old := encode_int h ++ payload) in *.
  assert (Hold : length old = (4 + length payload)%nat)
    by (subst old; rewrite length_app; reflexivity).
  replace (Z.to_nat (4 + Z.of_nat (length payload) + Z.of_nat (length sb) + Z.of_nat (length bs)))
    with (length old + (length sb + length bs))%nat by lia.
  erewrite memcpy_to_run;
    [|ctx_simpl; apply lookup_insert_eq|lia
     |rewrite length_take, length_app, length_replicate; lia].
  replace (Z.to_nat (4 + Z.of_nat (length payload))) with (length old) by lia.
  rewrite grow_and_append by lia.
  rewrite bind_run.
  erewrite read_string_run by (exact Hsrc).
  rewrite bind_run.
  rewrite !to_int32_small by lia.
  erewrite memcpy_to_run;
    [|ctx_simpl; apply lookup_insert_eq|lia
     |rewrite !length_app, length_replicate; lia].
  rewrite ?bind_run, ?ret_run.
  eexists _, _. split; [reflexivity|].
  ctx_simpl. rewrite !insert_insert_eq.
  replace (Z.to_nat (4 + Z.of_nat (length payload) + Z.of_nat (length sb)))
    with (length (old ++ sb)) by (rewrite length_app; lia).
  rewrite (app_assoc old sb), take_app_length.
  rewrite drop_app_ge by lia.
  replace (length (old ++ sb) + length bs - length (old ++ sb))%nat with (length bs) by lia.
  replace (length sb + length bs - length sb)%nat with (length bs) by lia.
  rewrite drop_replicate, Nat.sub_diag. cbn [replicate]. rewrite app_nil_r.
  split.
  { unfold concat_state. ctx_simpl. split; [exact Hrn|]. split.
    - rewrite lookup_insert_eq. subst old. rewrite <- !app_assoc. reflexivity.
    - unfold sizeof_StringConcatHeader. rewrite !length_app. lia. }
  split; [reflexivity|]. split; [reflexivity|]. split; [reflexivity|].
  split; [reflexivity|].
  intros q Hq. rewrite lookup_insert_ne by (intros E; apply Hq; symmetry; exact E).
  reflexivity.
Qed.

Lemma input_string_frame {S} (ctx ctx' : FunctionContext S) v bs :
  strings ctx' = strings ctx → input_string ctx v bs → input_string ctx' v bs.
Proof. unfold input_string. intros ->. tauto. Qed.

Lemma concat_state_frame ctx ctx' sv h payload :
  allocations ctx' !! ptr sv = allocations ctx !! ptr sv →
  concat_state ctx sv h payload → concat_state ctx' sv h payload.
Proof. unfold concat_state. intros ->. tauto. Qed.

(** The first update allocates the header and goes on as any other. *)
Lemma StringConcatUpdate_null_result ctx src sep result :
  is_null src = false → is_null sep = false → is_null result = true →
  StringConcatUpdate src sep result ctx =
    StringConcatUpdate src sep (StringVal_of (next_ptr ctx) sizeof_StringConcatHeader)
      (set_next_ptr (next_ptr ctx + 1)
         (set_allocations (<[next_ptr ctx := encode_int (len sep)]> (allocations ctx)) ctx)).
Proof.
  intros Hsn Hpn Hrn. unfold StringConcatUpdate. rewrite Hsn, Hpn, Hrn.
  change (is_null (StringVal_of (next_ptr ctx) sizeof_StringConcatHeader)) with false.
  cbv iota. rewrite (bind_run (_ ≫= _)). rewrite bind_run. unfold Allocate at 1.
  rewrite bind_run.
  erewrite memcpy_to_run; [|ctx_simpl; apply lookup_insert_eq|lia|vm_compute; discriminate].
  rewrite ret_run. ctx_simpl. rewrite insert_insert_eq.
  rewrite (bind_run (mret _)), ret_run. reflexivity.
Qed.

Lemma StringConcatUpdate_first ctx src sep result bs sb :
  is_null result = true →
  input_string ctx src bs → input_string ctx sep sb →
  4 + Z.of_nat (length sb) + Z.of_nat (length bs) < 2 ^ 31 →
  ∃ result' ctx',
    StringConcatUpdate src sep result ctx = Some (result', ctx') ∧
    concat_state ctx' result' (len sep) (sb ++ bs) ∧
    ptr result' = next_ptr ctx ∧
    strings ctx' = strings ctx ∧ next_ptr ctx' = next_ptr ctx + 1 ∧
    local_states ctx' = local_states ctx ∧
    (∀ q, q ≠ next_ptr ctx → allocations ctx' !! q = allocations ctx !! q).
Proof.
  intros Hrn Hsrc Hsep Hfit.
  rewrite StringConcatUpdate_null_result by (exact Hrn || apply Hsrc || apply Hsep).
  match goal with |- context [StringConcatUpdate _ _ ?r ?c] =>
    destruct (StringConcatUpdate_append c src sep r (len sep) [] bs sb)
      as (result' & ctx' & Hrun & Hst & Hp & Hstr & Hnext & Hloc & Hframe)
  end.
  - unfold concat_state. ctx_simpl. rewrite lookup_insert_eq, app_nil_r.
    split; [reflexivity|]. split; reflexivity.
  - eapply input_string_frame; [|exact Hsrc]. reflexivity.
  - eapply input_string_frame; [|exact Hsep]. reflexivity.
  - cbn [length]. lia.
  - exists result', ctx'. split; [exact Hrun|]. split; [exact Hst|].
    split; [exact Hp|]. split; [exact Hstr|]. split; [exact Hnext|]. split; [exact Hloc|].
    intros q Hq. rewrite Hframe by exact Hq. ctx_simpl.
    rewrite lookup_insert_ne by (intros E; apply Hq; symmetry; exact E). reflexivity.
Qed.

(** A merge appends the payload of the source, the separators it holds
    included, and leaves out its header. *)
Lemma StringConcatMerge_append ctx src result hs ps h payload :
  concat_state ctx src hs ps → concat_state ctx result h payload →
  ptr src ≠ ptr result →
  4 + Z.of_nat (length payload) + Z.of_nat (length ps) < 2 ^ 31 →
  ∃ result' ctx',
    StringConcatMerge src result ctx = Some (result', ctx') ∧
    concat_state ctx' result' h (payload ++ ps) ∧
    ptr result' = ptr result ∧
    strings ctx' = strings ctx ∧ next_ptr ctx' = next_ptr ctx ∧
    local_states ctx' = local_states ctx ∧
    (∀ q, q ≠ ptr result → allocations ctx' !! q = allocations ctx !! q).
Proof.
  intros (Hsn & Hsa & Hsl) (Hrn & Hra & Hrl) Hne Hfit.
  unfold StringConcatMerge. rewrite Hsn, Hrn. rewrite bind_run, ret_run.
  unfold sizeof_StringConcatHeader in *.
  rewrite bind_run. erewrite Reallocate_run by exact Hra.
  rewrite bind_run.
  erewrite read_bytes_run;
    [|ctx_simpl; rewrite lookup_insert_ne by (intros E; apply Hne; symmetry; exact E); exact Hsa
     |rewrite Hsl, length_app, encode_int_length; lia].
  rewrite ?bind_run. rewrite Hrl, Hsl. rewrite !to_int32_small by lia.
  rewrite drop_app_length' by reflexivity.
  set (old := encode_int h ++ payload) in *.
  assert (Hold : length old = (4 + length payload)%nat)
    by (subst old; rewrite length_app; reflexivity).
  replace (Z.to_nat (4 + Z.of_nat (length payload) + (4 + Z.of_nat (length ps)) - 4))
    with (length old + length ps)%nat by lia.
  erewrite memcpy_to_run;
    [|ctx_simpl; apply lookup_insert_eq|lia
     |rewrite length_take, length_app, length_replicate; lia].
  replace (Z.to_nat (4 + Z.of_nat (length payload))) with (length old) by lia.
  rewrite grow_and_append by lia.
  rewrite ?bind_run, ?ret_run.
  eexists _, _. split; [reflexivity|].
  ctx_simpl. rewrite !insert_insert_eq.
  rewrite Nat.sub_diag. cbn [replicate]. rewrite app_nil_r.
  split.
  { unfold concat_state. ctx_simpl. split; [exact Hrn|]. split.
    - rewrite lookup_insert_eq. subst old. rewrite <- !app_assoc. reflexivity.
    - unfold sizeof_StringConcatHeader. rewrite !length_app. lia. }
  split; [reflexivity|]. split; [reflexivity|]. split; [reflexivity|].
  split; [reflexivity|].
  intros q Hq. rewrite lookup_insert_ne by (intros E; apply Hq; symmetry; exact E).
  reflexivity.
Qed.

(** Merging into a null destination copies the header and goes on as any
    other merge. *)
Lemma StringConcatMerge_null_result ctx src result hs ps :
  concat_state ctx src hs ps → - 2 ^ 31 ≤ hs < 2 ^ 31 →
  is_null result = true → ptr src ≠ next_ptr ctx →
  StringConcatMerge src result ctx =
    StringConcatMerge src (StringVal_of (next_ptr ctx) sizeof_StringConcatHeader)
      (set_next_ptr (next_ptr ctx + 1)
         (set_allocations (<[next_ptr ctx := encode_int hs]> (allocations ctx)) ctx)).
Proof.
  intros (Hsn & Hsa & Hsl) Hhs Hrn Hne. unfold StringConcatMerge. rewrite Hsn, Hrn.
  change (is_null (StringVal_of (next_ptr ctx) sizeof_StringConcatHeader)) with false.
  cbv iota. rewrite (bind_run (_ ≫= _)). rewrite bind_run. unfold Allocate at 1.
  rewrite bind_run.
  erewrite read_header_run;
    [|ctx_simpl; rewrite lookup_insert_ne by (intros E; apply Hne; symmetry; exact E);
      exact Hsa|exact Hhs].
  rewrite bind_run.
  erewrite memcpy_to_run; [|ctx_simpl; apply lookup_insert_eq|lia|vm_compute; discriminate].
  rewrite ret_run. ctx_simpl. rewrite insert_insert_eq.
  rewrite (bind_run (mret _)), ret_run. reflexivity.
Qed.

Lemma StringConcatMerge_first ctx src result hs ps :
  concat_state ctx src hs ps → - 2 ^ 31 ≤ hs < 2 ^ 31 →
  is_null result = true → ptr src ≠ next_ptr ctx →
  4 + Z.of_nat (length ps) < 2 ^ 31 →
  ∃ result' ctx',
    StringConcatMerge src result ctx = Some (result', ctx') ∧
    concat_state ctx' result' hs ps ∧
    ptr result' = next_ptr ctx ∧
    (∀ q, q ≠ next_ptr ctx → allocations ctx' !! q = allocations ctx !! q).
Proof.
  intros Hsrc Hhs Hrn Hne Hfit.
  rewrite (StringConcatMerge_null_result ctx src result hs ps) by assumption.
  match goal with |- context [StringConcatMerge _ ?r ?c] =>
    destruct (StringConcatMerge_append c src r hs ps hs [])
      as (result' & ctx' & Hrun & Hst & Hp & _ & _ & _ & Hframe)
  end.
  - eapply concat_state_frame; [|exact Hsrc]. ctx_simpl.
    apply lookup_insert_ne. intros E. apply Hne. symmetry. exact E.
  - unfold concat_state. ctx_simpl. rewrite lookup_insert_eq, app_nil_r.
    split; [reflexivity|]. split; reflexivity.
  - exact Hne.
  - cbn [length]. lia.
  - exists result', ctx'. split; [exact Hrun|]. split; [exact Hst|]. split; [exact Hp|].
    intros q Hq. rewrite Hframe by exact Hq. ctx_simpl.
    rewrite lookup_insert_ne by (intros E; apply Hq; symmetry; exact E). reflexivity.
Qed.

(** Finalize returns the payload without its first separator and releases
    the buffer. *)
Lemma StringConcatFinalize_run ctx src h payload :
  concat_state ctx src h payload →
  0 ≤ h ≤ Z.of_nat (length payload) →
  4 + Z.of_nat (length payload) < 2 ^ 31 →
  ptr src ≠ NULL →
  ∃ r ctx',
    StringConcatFinalize src ctx = Some (r, ctx') ∧
    is_null r = false ∧
    result_bytes ctx' r = Some (drop (Z.to_nat h) payload) ∧
    allocations ctx' = delete (ptr src) (allocations ctx).
Proof.
  intros (Hsn & Hsa & Hsl) Hh Hfit Hp.
  unfold StringConcatFinalize. rewrite Hsn.
  unfold sizeof_StringConcatHeader in *.
  rewrite bind_run. erewrite read_header_run; [|exact Hsa|lia].
  rewrite bind_run. unfold StringVal_local at 1.
  rewrite bind_run.
  erewrite read_bytes_run;
    [|ctx_simpl; exact Hsa|rewrite Hsl, length_app, encode_int_length; lia].
  rewrite bind_run. unfold memcpy_local. ctx_simpl. rewrite lookup_insert_eq.
  rewrite bind_run.
  erewrite Free_run; [|exact Hp|ctx_simpl; exact Hsa].
  rewrite ret_run. eexists _, _. split; [reflexivity|]. split; [reflexivity|].
  split; [|reflexivity].
  unfold result_bytes, string_at. ctx_simpl. rewrite insert_insert_eq, lookup_insert_eq.
  cbn [fmap option_fmap option_map]. f_equal.
  rewrite Hsl, to_int32_small by lia.
  replace (Z.to_nat (4 + h)) with (length (encode_int h) + Z.to_nat h)%nat
    by (rewrite encode_int_length; lia).
  rewrite drop_app_add'  by reflexivity.
  set (n := Z.to_nat (4 + Z.of_nat (length payload) - 4 - h)).
  assert (Hn : length (drop (Z.to_nat h) payload) = n) by (rewrite length_drop; lia).
  rewrite drop_replicate, Nat.sub_diag. cbn [replicate]. rewrite app_nil_r, take_take.
  apply take_ge. lia.
Qed.

(** C2 (amended).  If one partial state is built by folding the values [a]
    then [b] with separator [x], and another by folding [c] with separator
    [y], then merging the second into the first and finalizing returns
    [a x b y c]: the merge appends the source payload without its header but
    with the separator its first value arrived with, and finalize strips
    the destination's header and first separator.  For ["a"], ["b"] with
    ["-"] and ["c"] with ["+"] the result is ["a-b+c"]. *)
Theorem concat_merge_keeps_separators ctx va vb vc s1 s2 a b c x y :
  next_ptr ctx ≠ NULL →
  input_string ctx va a → input_string ctx vb b → input_string ctx vc c →
  input_string ctx s1 x → input_string ctx s2 y →
  4 + 2 * Z.of_nat (length x) + Z.of_nat (length a) + Z.of_nat (length b)
    + Z.of_nat (length y) + Z.of_nat (length c) < 2 ^ 31 →
  ∃ r ctx',
    concat_merge_scenario va vb vc s1 s2 ctx = Some (r, ctx') ∧
    is_null r = false ∧
    result_bytes ctx' r = Some (a ++ x ++ b ++ y ++ c).
Proof.
  intros Hp Ha Hb Hc Hx Hy Hfit. unfold concat_merge_scenario.
  destruct (StringConcatUpdate_first ctx va s1 InitNullString a x)
    as (st1 & ctx1 & Hrun1 & Hst1 & Hp1 & Hstr1 & Hnext1 & _ & _);
    [reflexivity|exact Ha|exact Hx|lia|].
  rewrite bind_run, Hrun1.
  destruct (StringConcatUpdate_append ctx1 vb s1 st1 (len s1) (x ++ a) b x)
    as (st1' & ctx2 & Hrun2 & Hst2 & Hp2 & Hstr2 & Hnext2 & _ & _);
    [exact Hst1|eapply input_string_frame; eassumption
     |eapply input_string_frame; eassumption|rewrite length_app; lia|].
  rewrite bind_run, Hrun2.
  assert (Hstr : strings ctx2 = strings ctx) by congruence.
  destruct (StringConcatUpdate_first ctx2 vc s2 InitNullString c y)
    as (st2 & ctx3 & Hrun3 & Hst3 & Hp3 & Hstr3 & Hnext3 & _ & Hframe3);
    [reflexivity|eapply input_string_frame; eassumption
     |eapply input_string_frame; eassumption|lia|].
  rewrite bind_run, Hrun3.
  assert (Hne : ptr st2 ≠ ptr st1') by lia.
  destruct (StringConcatMerge_append ctx3 st2 st1' (len s2) (y ++ c) (len s1)
              ((x ++ a) ++ x ++ b))
    as (st & ctx4 & Hrun4 & Hst4 & Hp4 & _ & _ & _ & _);
    [exact Hst3|eapply concat_state_frame; [|exact Hst2]; apply Hframe3; lia
     |exact Hne|rewrite !length_app; lia|].
  rewrite bind_run, Hrun4.
  destruct Hx as (_ & _ & Hlx).
  destruct (StringConcatFinalize_run ctx4 st (len s1) (((x ++ a) ++ x ++ b) ++ y ++ c))
    as (r & ctx5 & Hrun5 & Hnull & Hbytes & _);
    [exact Hst4|rewrite !length_app; lia|rewrite !length_app; lia|lia|].
  exists r, ctx5. split; [exact Hrun5|]. split; [exact Hnull|].
  rewrite Hbytes, Hlx, Nat2Z.id. f_equal.
  rewrite <- !app_assoc. rewrite drop_app_length. reflexivity.
Qed.

(** The run on ["a"], ["b"] with ["-"] and ["c"] with ["+"]. *)
Lemma concat_merge_keeps_separators_witness :
  ∃ r ctx',
    abc_scenario abc_ctx = Some (r, ctx') ∧
    is_null r = false ∧
    result_bytes ctx' r = Some (bytes_of_string "a-b+c").
Proof.
  apply (concat_merge_keeps_separators abc_ctx (StringVal_of 1 1) (StringVal_of 2 1)
           (StringVal_of 3 1) (StringVal_of 4 1) (StringVal_of 5 1)
           (bytes_of_string "a") (bytes_of_string "b") (bytes_of_string "c")
           (bytes_of_string "-") (bytes_of_string "+")).
  - discriminate.
  - repeat split.
  - repeat split.
  - repeat split.
  - repeat split.
  - repeat split.
  - reflexivity.
Defined.

(** C2 (as stated).  The same run does not return ["a-b-c"]. *)
Lemma concat_merge_not_a_b_c :
  ¬ ∃ r ctx',
      abc_scenario abc_ctx = Some (r, ctx') ∧
      result_bytes ctx' r = Some (bytes_of_string "a-b-c").
Proof.
  intros (r & ctx' & Hrun & Hbytes).
  vm_compute in Hrun. injection Hrun as <- <-.
  vm_compute in Hbytes. discriminate Hbytes.
Qed.

(** ** Merging with a fresh state *)

Lemma dadd_zero_r (x : double) : x ≠ S754_zero true → dadd x dzero = x.
Proof. intros Hx. destruct x as [[|]| | |]; try reflexivity. contradiction. Qed.

Lemma dadd_zero_l (x : double) : x ≠ S754_zero true → dadd dzero x = x.
Proof. intros Hx. destruct x as [[|]| | |]; try reflexivity. contradiction. Qed.

Lemma wrap_to_int128 x : 0 ≤ x < 2 ^ 128 → wrap 128 (to_int128 x + 0) = x.
Proof.
  intros Hx. unfold wrap, to_int128, swrap. rewrite Z.add_0_r.
  change (2 ^ (128 - 1)) with (2 ^ 127).
  rewrite Zminus_mod_idemp_l.
  replace (x + 2 ^ 127 - 2 ^ 127) with x by lia. apply Z.mod_small. exact Hx.
Qed.

(** The shape shared by the merges that read both states and write the
    destination. *)
Lemma merge_run {S} (ctx : FunctionContext S) (src dst : StringVal) (f : S → S → S) s d :
  state_at ctx (ptr src) = Some s → state_at ctx (ptr dst) = Some d →
  ∃ ctx',
    (src_struct ← load (ptr src); dst_struct ← load (ptr dst);
     store (ptr dst) (f src_struct dst_struct)) ctx = Some (tt, ctx') ∧
    state_at ctx' (ptr dst) = Some (f s d).
Proof.
  intros Hs Hd. rewrite bind_run, (load_run _ _ _ Hs), bind_run, (load_run _ _ _ Hd).
  destruct (store_state_at ctx (ptr dst) d (f s d) Hd) as (ctx' & Hrun & Hat & _).
  exists ctx'. split; assumption.
Qed.

(** *** Sums of doubles and the negative zero *)

Section rounding.
Variables prec emax : Z.
Hypothesis prec_pos : 0 < prec.

Lemma iter_pos_nat {A} (f : A → A) (p : positive) (x : A) :
  SpecFloat.iter_pos f p x = Nat.iter (Pos.to_nat p) f x.
Proof.
  revert x. induction p as [p IH|p IH|]; intros x; cbn [SpecFloat.iter_pos].
  - rewrite !IH. rewrite Pos2Nat.inj_xI.
    replace (Datatypes.S (2 * Pos.to_nat p)) with (Pos.to_nat p + (Pos.to_nat p + 1))%nat by lia.
    rewrite !Nat.iter_add. reflexivity.
  - rewrite !IH. rewrite Pos2Nat.inj_xO.
    replace (2 * Pos.to_nat p)%nat with (Pos.to_nat p + Pos.to_nat p)%nat by lia.
    rewrite Nat.iter_add. reflexivity.
  - reflexivity.
Qed.

(** Halving a mantissa fewer times than it has digits leaves it positive. *)
Lemma shr_1_iter_pos (n : nat) : ∀ (q : positive) r s,
  (n < Pos.to_nat (digits2_pos q))%nat →
  ∃ q' r' s', Nat.iter n shr_1 (Build_shr_record (Zpos q) r s)
              = Build_shr_record (Zpos q') r' s'.
Proof.
  induction n as [|n IH]; intros q r s Hn.
  - exists q, r, s. reflexivity.
  - rewrite Nat.iter_succ_r.
    destruct q as [q|q|]; cbn [digits2_pos] in Hn; rewrite ?Pos2Nat.inj_succ in Hn.
    + cbn [shr_1]. apply IH. lia.
    + cbn [shr_1]. apply IH. lia.
    + change (Pos.to_nat 1) with 1%nat in Hn. lia.
Qed.

Lemma shr_fexp_pos (q : positive) e l :
  emin prec emax ≤ e →
  ∃ q' r s e',
    shr_fexp prec emax (Zpos q) e l = (Build_shr_record (Zpos q') r s, e') ∧
    emin prec emax ≤ e'.
Proof.
  intros He. unfold shr_fexp, shr. cbn [Zdigits2].
  destruct (fexp prec emax (Zpos (digits2_pos q) + e) - e) as [|p|p] eqn:Hn.
  - destruct l as [|[| |]]; eexists _, _, _, _; (split; [reflexivity|exact He]).
  - assert (Hp : (Pos.to_nat p < Pos.to_nat (digits2_pos q))%nat).
    { unfold fexp in Hn. lia. }
    rewrite iter_pos_nat.
    destruct l as [|[| |]]; cbn [shr_record_of_loc];
      match goal with |- context [Nat.iter _ shr_1 (Build_shr_record _ ?r ?s)] =>
        destruct (shr_1_iter_pos (Pos.to_nat p) q r s Hp) as (q' & r' & s' & ->)
      end;
      eexists _, _, _, _; (split; [reflexivity|unfold fexp in Hn; lia]).
  - destruct l as [|[| |]]; eexists _, _, _, _; (split; [reflexivity|exact He]).
Qed.

Lemma round_nearest_even_pos (q : positive) l :
  ∃ q', round_nearest_even (Zpos q) l = Zpos q'.
Proof.
  destruct l as [|[| |]]; cbn [round_nearest_even]; eauto.
  destruct (Z.even (Zpos q)); eauto.
Qed.

(** Rounding a nonzero mantissa whose exponent is not below [emin] gives a
    finite number or an infinity of the same sign. *)
Lemma binary_round_aux_pos sx (q : positive) e l :
  emin prec emax ≤ e →
  (∃ m e', binary_round_aux prec emax sx (Zpos q) e l = S754_finite sx m e' ∧
           emin prec emax ≤ e') ∨
  binary_round_aux prec emax sx (Zpos q) e l = S754_infinity sx.
Proof.
  intros He. unfold binary_round_aux.
  destruct (shr_fexp_pos q e l He) as (q1 & r1 & s1 & e1 & -> & He1).
  cbn [shr_m].
  destruct (round_nearest_even_pos q1 (loc_of_shr_record (Build_shr_record (Zpos q1) r1 s1)))
    as (q2 & ->).
  destruct (shr_fexp_pos q2 e1 loc_Exact He1) as (q3 & r3 & s3 & e3 & -> & He3).
  cbn [shr_m]. destruct (e3 <=? emax - prec); [left; eauto|right; reflexivity].
Qed.

Lemma binary_round_pos sx (q : positive) e :
  emin prec emax ≤ e →
  (∃ m e', binary_round prec emax sx q e = S754_finite sx m e' ∧ emin prec emax ≤ e') ∨
  binary_round prec emax sx q e = S754_infinity sx.
Proof.
  intros He. unfold binary_round, shl_align.
  destruct (fexp prec emax (Zpos (digits2_pos q) + e) - e) as [|d|d] eqn:Hd.
  - apply binary_round_aux_pos. exact He.
  - apply binary_round_aux_pos. exact He.
  - apply binary_round_aux_pos. unfold fexp. lia.
Qed.

Lemma binary_normalize_ok m e :
  emin prec emax ≤ e →
  binary_normalize prec emax m e false ≠ S754_zero true ∧
  exponent_ok prec emax (binary_normalize prec emax m e false).
Proof.
  intros He. destruct m as [|q|q]; cbn [binary_normalize].
  - split; [discriminate|exact I].
  - destruct (binary_round_pos false q e He) as [(m & e' & -> & He')| ->];
      (split; [discriminate|]); [exact He'|exact I].
  - destruct (binary_round_pos true q e He) as [(m & e' & -> & He')| ->];
      (split; [discriminate|]); [exact He'|exact I].
Qed.

(** A sum is the negative zero only if both terms are. *)
Lemma SFadd_ok x y :
  exponent_ok prec emax x → exponent_ok prec emax y →
  x ≠ S754_zero true →
  SFadd prec emax x y ≠ S754_zero true ∧ exponent_ok prec emax (SFadd prec emax x y).
Proof.
  intros Hx Hy Hxz.
  destruct x as [[|]| sx | |sx mx ex], y as [[|]| sy | |sy my ey];
    try (split; [discriminate|exact I]); try contradiction;
    try (split; [discriminate|assumption]);
    try (destruct sx, sy; split; (discriminate || exact I)).
  cbn [SFadd]. apply binary_normalize_ok. cbn [exponent_ok] in Hx, Hy. lia.
Qed.

End rounding.

(** No sum an average or a sum of doubles can hold is the negative zero. *)
Lemma accumulated_ok (s : double) :
  accumulated s → s ≠ S754_zero true ∧ exponent_ok 53 1024 s.
Proof.
  induction 1 as [|s x Hs [IHz IHe] Hx|s1 s2 Hs1 [IHz1 IHe1] Hs2 [IHz2 IHe2]].
  - split; [discriminate|exact I].
  - apply SFadd_ok; [lia|assumption..].
  - apply SFadd_ok; [lia|assumption..].
Qed.

Lemma double_of_Z_exponent_ok (z : Z) : exponent_ok 53 1024 (double_of_Z z).
Proof. apply binary_normalize_ok; [lia|]. vm_compute. discriminate. Qed.

(** [AvgUpdate] and [AvgMerge] keep the sum among the accumulated ones. *)
Lemma AvgUpdate_accumulated {A} (to_double : A → double) (src : AnyVal A)
    (dst : StringVal) ctx s :
  state_at ctx (ptr dst) = Some s → accumulated (avg_sum s) →
  exponent_ok 53 1024 (to_double (val src)) →
  ∃ ctx' s', AvgUpdate to_double src dst ctx = Some (tt, ctx') ∧
             state_at ctx' (ptr dst) = Some s' ∧ accumulated (avg_sum s').
Proof.
  intros Hs Hacc Hx. unfold AvgUpdate. destruct (is_null src).
  - exists ctx, s. rewrite ret_run. auto.
  - rewrite bind_run, (load_run _ _ _ Hs).
    destruct (store_state_at ctx (ptr dst) s
                (mkAvgState (dadd (avg_sum s) (to_double (val src)))
                            (to_int64 (avg_count s + 1))) Hs) as (ctx' & Hrun & Hat & _).
    exists ctx'. eexists. split; [exact Hrun|]. split; [exact Hat|].
    cbn [avg_sum]. apply accumulated_update; assumption.
Qed.

Lemma AvgMerge_accumulated (src dst : StringVal) ctx s d :
  state_at ctx (ptr src) = Some s → state_at ctx (ptr dst) = Some d →
  accumulated (avg_sum s) → accumulated (avg_sum d) →
  ∃ ctx' d', AvgMerge src dst ctx = Some (tt, ctx') ∧
             state_at ctx' (ptr dst) = Some d' ∧ accumulated (avg_sum d').
Proof.
  intros Hs Hd Hsa Hda.
  destruct (merge_run ctx src dst
              (λ src_struct dst_struct,
                 mkAvgState (dadd (avg_sum dst_struct) (avg_sum src_struct))
                            (to_int64 (avg_count dst_struct + avg_count src_struct)))
              _ _ Hs Hd) as (ctx' & Hrun & Hat).
  exists ctx'. eexists. split; [exact Hrun|]. split; [exact Hat|].
  cbn [avg_sum]. apply accumulated_merge; assumption.
Qed.

(** [Sum] over doubles keeps a state that is null or accumulated so. *)
Lemma Sum_DoubleVal_accumulated (src dst : DoubleVal) :
  (is_null dst = true ∨ accumulated (val dst)) →
  (is_null src = true ∨ exponent_ok 53 1024 (val src)) →
  is_null (Sum_DoubleVal src dst) = true ∨ accumulated (val (Sum_DoubleVal src dst)).
Proof.
  intros Hd Hs. unfold Sum_DoubleVal, Sum.
  destruct src as [[|] x], dst as [[|] y]; cbn in Hd, Hs; auto.
  - destruct Hs as [|Hs]; [discriminate|].
    right. change (accumulated (dadd dzero x)).
    apply accumulated_update; [apply accumulated_init|exact Hs].
  - destruct Hs as [|Hs]; [discriminate|]. destruct Hd as [|Hd]; [discriminate|].
    right. change (accumulated (dadd y x)). apply accumulated_update; assumption.
Qed.

Lemma AvgMerge_fresh ctx (a f : StringVal) s :
  state_at ctx (ptr a) = Some s →
  state_at ctx (ptr f) = Some (mkAvgState dzero 0) →
  avg_sum s ≠ S754_zero true → - 2 ^ 63 ≤ avg_count s < 2 ^ 63 →
  (∃ ctx', AvgMerge f a ctx = Some (tt, ctx') ∧ state_at ctx' (ptr a) = Some s) ∧
  (∃ ctx', AvgMerge a f ctx = Some (tt, ctx') ∧ state_at ctx' (ptr f) = Some s).
Proof.
  intros Ha Hf Hsum Hcount. split.
  - destruct (merge_run ctx f a
                (λ src_struct dst_struct,
                   mkAvgState (dadd (avg_sum dst_struct) (avg_sum src_struct))
                              (to_int64 (avg_count dst_struct + avg_count src_struct)))
                _ _ Hf Ha) as (ctx' & Hrun & Hat).
    exists ctx'. split; [exact Hrun|]. rewrite Hat. cbn [avg_sum avg_count].
    rewrite dadd_zero_r, Z.add_0_r, to_int64_small by assumption. destruct s; reflexivity.
  - destruct (merge_run ctx a f
                (λ src_struct dst_struct,
                   mkAvgState (dadd (avg_sum dst_struct) (avg_sum src_struct))
                              (to_int64 (avg_count dst_struct + avg_count src_struct)))
                _ _ Ha Hf) as (ctx' & Hrun & Hat).
    exists ctx'. split; [exact Hrun|]. rewrite Hat. cbn [avg_sum avg_count].
    rewrite dadd_zero_l, Z.add_0_l, to_int64_small by assumption. destruct s; reflexivity.
Qed.

Lemma DecimalAvgMerge_fresh ctx (a f : StringVal) s :
  state_at ctx (ptr a) = Some s →
  state_at ctx (ptr f) = Some (mkDecimalAvgState (mkDecimalVal false 0) 0) →
  dv_is_null (davg_sum s) = false → 0 ≤ dv_image (davg_sum s) < 2 ^ 128 →
  - 2 ^ 63 ≤ davg_count s < 2 ^ 63 →
  (∃ ctx', DecimalAvgMerge f a ctx = Some (tt, ctx') ∧ state_at ctx' (ptr a) = Some s) ∧
  (∃ ctx', DecimalAvgMerge a f ctx = Some (tt, ctx') ∧ state_at ctx' (ptr f) = Some s).
Proof.
  intros Ha Hf Hnull Himage Hcount.
  destruct s as [[sum_null image] count]. cbn [davg_sum davg_count dv_is_null dv_image] in *.
  subst sum_null. split.
  - destruct (merge_run ctx f a
                (λ src_struct dst_struct,
                   mkDecimalAvgState
                     (set_val16 (davg_sum dst_struct)
                        (val16 (davg_sum dst_struct) + val16 (davg_sum src_struct)))
                     (to_int64 (davg_count dst_struct + davg_count src_struct)))
                _ _ Hf Ha) as (ctx' & Hrun & Hat).
    exists ctx'. split; [exact Hrun|]. rewrite Hat. cbn [davg_sum davg_count].
    unfold set_val16, val16. cbn [dv_is_null dv_image].
    change (to_int128 0) with 0.
    rewrite wrap_to_int128, Z.add_0_r, to_int64_small by assumption. reflexivity.
  - destruct (merge_run ctx a f
                (λ src_struct dst_struct,
                   mkDecimalAvgState
                     (set_val16 (davg_sum dst_struct)
                        (val16 (davg_sum dst_struct) + val16 (davg_sum src_struct)))
                     (to_int64 (davg_count dst_struct + davg_count src_struct)))
                _ _ Ha Hf) as (ctx' & Hrun & Hat).
    exists ctx'. split; [exact Hrun|]. rewrite Hat. cbn [davg_sum davg_count].
    unfold set_val16, val16. cbn [dv_is_null dv_image].
    change (to_int128 0) with 0. rewrite Z.add_0_l.
    rewrite <- (Z.add_0_r (to_int128 image)).
    rewrite wrap_to_int128, to_int64_small by assumption. reflexivity.
Qed.

Lemma replicate_lookup_total (n j : nat) : (j < n)%nat → replicate n 0 !!! j = 0.
Proof. intros Hj. apply list_lookup_total_correct, lookup_replicate_2. exact Hj. Qed.

Lemma PcMerge_loop_fresh (s : list Z) :
  PcMerge_loop (length s) 0 (replicate (length s) 0) s = s ∧
  PcMerge_loop (length s) 0 s (replicate (length s) 0) = s.
Proof.
  split; apply list_eq_total.
  - apply PcMerge_loop_length.
  - intros j. rewrite PcMerge_loop_length. intros Hj.
    rewrite PcMerge_loop_lookup by exact Hj.
    case_decide; [|lia]. rewrite replicate_lookup_total by exact Hj. apply Z.lor_0_r.
  - rewrite PcMerge_loop_length. apply length_replicate.
  - intros j. rewrite PcMerge_loop_length, length_replicate. intros Hj.
    rewrite PcMerge_loop_lookup by (rewrite length_replicate; exact Hj).
    case_decide; [|lia]. rewrite replicate_lookup_total by exact Hj. apply Z.lor_0_l.
Qed.

Lemma HllMerge_loop_fresh (s : list Z) :
  Forall (λ b, 0 ≤ b) s →
  HllMerge_loop (length s) 0 (replicate (length s) 0) s = s ∧
  HllMerge_loop (length s) 0 s (replicate (length s) 0) = s.
Proof.
  intros Hbytes.
  assert (Hnonneg : ∀ j : nat, (j < length s)%nat → 0 ≤ s !!! j).
  { intros j Hj. destruct (lookup_lt_is_Some_2 s j Hj) as [b Hb].
    rewrite (list_lookup_total_correct _ _ _ Hb).
    exact (proj1 (Forall_lookup _ s) Hbytes j b Hb). }
  split; apply list_eq_total.
  - apply HllMerge_loop_length.
  - intros j. rewrite HllMerge_loop_length. intros Hj.
    rewrite HllMerge_loop_lookup by exact Hj.
    case_decide; [|lia]. rewrite replicate_lookup_total by exact Hj.
    specialize (Hnonneg j Hj). lia.
  - rewrite HllMerge_loop_length. apply length_replicate.
  - intros j. rewrite HllMerge_loop_length, length_replicate. intros Hj.
    rewrite HllMerge_loop_lookup by (rewrite length_replicate; exact Hj).
    case_decide; [|lia]. rewrite replicate_lookup_total by exact Hj.
    specialize (Hnonneg j Hj). lia.
Qed.

Lemma PcMerge_fresh ctx (a f : StringVal) s :
  state_at ctx (ptr a) = Some s →
  state_at ctx (ptr f) = Some (replicate (Z.to_nat pc_len) 0) →
  Z.of_nat (length s) = pc_len →
  (∃ ctx', PcMerge f a ctx = Some (tt, ctx') ∧ state_at ctx' (ptr a) = Some s) ∧
  (∃ ctx', PcMerge a f ctx = Some (tt, ctx') ∧ state_at ctx' (ptr f) = Some s).
Proof.
  intros Ha Hf Hlen.
  assert (Hn : Z.to_nat pc_len = length s) by lia.
  destruct (PcMerge_loop_fresh s) as (H1 & H2). split.
  - destruct (PcMerge_run ctx f a _ _ Hf Ha) as (ctx' & Hrun & Hat & _).
    exists ctx'. split; [exact Hrun|]. rewrite Hat, Hn, H1. reflexivity.
  - destruct (PcMerge_run ctx a f _ _ Ha Hf) as (ctx' & Hrun & Hat & _).
    exists ctx'. split; [exact Hrun|]. rewrite Hat, Hn, H2. reflexivity.
Qed.

Lemma HllMerge_fresh ctx (a f : StringVal) s :
  state_at ctx (ptr a) = Some s →
  state_at ctx (ptr f) = Some (replicate (Z.to_nat HLL_LEN) 0) →
  len a = HLL_LEN → len f = HLL_LEN →
  Z.of_nat (length s) = HLL_LEN → Forall (λ b, 0 ≤ b) s →
  (∃ ctx', HllMerge f a ctx = Some (tt, ctx') ∧ state_at ctx' (ptr a) = Some s) ∧
  (∃ ctx', HllMerge a f ctx = Some (tt, ctx') ∧ state_at ctx' (ptr f) = Some s).
Proof.
  intros Ha Hf Hla Hlf Hlen Hbytes.
  assert (Hn : Z.to_nat HLL_LEN = length s) by lia.
  destruct (HllMerge_loop_fresh s Hbytes) as (H1 & H2). split.
  - destruct (HllMerge_run ctx f a _ _ Hf Ha) as (ctx' & Hrun & Hat & _).
    exists ctx'. split; [exact Hrun|]. rewrite Hat, Hlf, Hn, H1. reflexivity.
  - destruct (HllMerge_run ctx a f _ _ Ha Hf) as (ctx' & Hrun & Hat & _).
    exists ctx'. split; [exact Hrun|]. rewrite Hat, Hla, Hn, H2. reflexivity.
Qed.

Lemma KnuthVarMerge_fresh_src ctx (a f : StringVal) s :
  state_at ctx (ptr a) = Some s →
  state_at ctx (ptr f) = Some (mkKnuthVarianceState dzero dzero 0) →
  KnuthVarMerge f a ctx = Some (tt, ctx).
Proof.
  intros Ha Hf. unfold KnuthVarMerge.
  rewrite bind_run, (load_run _ _ _ Hf), bind_run, (load_run _ _ _ Ha). reflexivity.
Qed.

(** *** Integers that a double holds exactly *)

Lemma digits2_pos_bounds (p : positive) :
  2 ^ (Zpos (digits2_pos p) - 1) ≤ Zpos p < 2 ^ Zpos (digits2_pos p).
Proof.
  induction p as [p IH|p IH|]; cbn [digits2_pos]; [| |split; reflexivity].
  - rewrite Pos2Z.inj_succ.
    replace (Z.succ (Zpos (digits2_pos p)) - 1) with (Z.succ (Zpos (digits2_pos p) - 1)) by lia.
    rewrite !Z.pow_succ_r by lia. lia.
  - rewrite Pos2Z.inj_succ.
    replace (Z.succ (Zpos (digits2_pos p)) - 1) with (Z.succ (Zpos (digits2_pos p) - 1)) by lia.
    rewrite !Z.pow_succ_r by lia. lia.
Qed.

Lemma iter_xO_spec (d : positive) : ∀ m : positive,
  Zpos (Pos.iter xO m d) = Zpos m * 2 ^ Zpos d ∧
  digits2_pos (Pos.iter xO m d) = (digits2_pos m + d)%positive.
Proof.
  induction d as [|d IH] using Pos.peano_ind; intros m.
  - cbn [Pos.iter digits2_pos]. split; [lia|]. rewrite Pos.add_1_r. reflexivity.
  - rewrite Pos.iter_succ. cbn [digits2_pos]. destruct (IH m) as [Hv Hd].
    rewrite Hd, Pos2Z.inj_succ, Z.pow_succ_r by lia.
    split; [lia|]. rewrite Pos.add_succ_r. reflexivity.
Qed.

(** A mantissa of 53 digits with an exponent in range is kept as it is. *)
Lemma binary_round_aux_canonical (sx : bool) (m : positive) (e : Z) :
  Zpos (digits2_pos m) = 53 → - 1074 ≤ e ≤ 971 →
  binary_round_aux 53 1024 sx (Zpos m) e loc_Exact = S754_finite sx m e.
Proof.
  intros Hd He.
  assert (Hshr : shr_fexp 53 1024 (Zpos m) e loc_Exact
                 = (Build_shr_record (Zpos m) false false, e)).
  { unfold shr_fexp. cbn [Zdigits2]. rewrite Hd.
    replace (fexp 53 1024 (53 + e) - e) with 0 by (unfold fexp, emin; lia).
    reflexivity. }
  unfold binary_round_aux. rewrite Hshr. cbn [shr_m loc_of_shr_record round_nearest_even].
  rewrite Hshr. cbn [shr_m].
  destruct (Z.leb_spec e (1024 - 53)); [reflexivity|lia].
Qed.

(** A positive integer below [2^53] converts to a double with the same
    value: the mantissa is the integer shifted to 53 digits. *)
Lemma double_of_Z_small (p : positive) :
  Zpos p < 2 ^ 53 →
  ∃ m e, double_of_Z (Zpos p) = S754_finite false m e ∧
         - 52 ≤ e ≤ 0 ∧ Zpos m = Zpos p * 2 ^ (- e).
Proof.
  intros Hp. pose proof (digits2_pos_bounds p) as Hb.
  assert (Hd : Zpos (digits2_pos p) ≤ 53).
  { destruct (Z.le_gt_cases (Zpos (digits2_pos p)) 53) as [|Hgt]; [assumption|].
    assert (2 ^ 53 ≤ 2 ^ (Zpos (digits2_pos p) - 1)) by (apply Z.pow_le_mono_r; lia). lia. }
  unfold double_of_Z, binary_normalize, binary_round, shl_align.
  replace (fexp 53 1024 (Zpos (digits2_pos p) + 0) - 0) with (Zpos (digits2_pos p) - 53)
    by (unfold fexp, emin; lia).
  destruct (Zpos (digits2_pos p) - 53) as [|k|k] eqn:Hk; [|lia|].
  - rewrite binary_round_aux_canonical by lia.
    exists p, 0. split; [reflexivity|]. split; [lia|]. change (2 ^ (- 0)) with 1. lia.
  - destruct (iter_xO_spec k p) as [Hv Hdig].
    replace (fexp 53 1024 (Zpos (digits2_pos p) + 0)) with (Zneg k)
      by (unfold fexp, emin; lia).
    rewrite binary_round_aux_canonical by (rewrite ?Hdig; lia).
    exists (Pos.iter xO p k), (Zneg k). split; [reflexivity|]. split; [lia|].
    rewrite Hv. reflexivity.
Qed.

Lemma int64_of_double_of_Z (n : Z) :
  0 ≤ n ≤ 2 ^ 53 → int64_of_double (double_of_Z n) = n.
Proof.
  intros Hn. destruct (Z.eq_dec n (2 ^ 53)) as [->|Hne]; [vm_compute; reflexivity|].
  destruct n as [|p|p]; [reflexivity| |lia].
  destruct (double_of_Z_small p) as (m & e & -> & He & Hm); [lia|].
  unfold int64_of_double.
  assert (Hv : (if 0 <=? e then Zpos m * 2 ^ e else Zpos m / 2 ^ (- e)) = Zpos p).
  { destruct (Z.leb_spec 0 e).
    - replace e with 0 in * by lia. change (2 ^ (- 0)) with 1 in Hm. change (2 ^ 0) with 1. lia.
    - rewrite Hm. apply Z.div_mul. apply Z.pow_nonzero; lia. }
  rewrite Hv.
  destruct (Z.leb_spec (- 2 ^ 63) (Zpos p)); [|lia].
  destruct (Z.ltb_spec (Zpos p) (2 ^ 63)); [reflexivity|lia].
Qed.

(** *** The variance merge into a fresh state *)

(** The sign of a product that is a number. *)
Lemma binary_round_aux_sign prec emax sx mx ex lx :
  match binary_round_aux prec emax sx mx ex lx with
  | S754_zero s | S754_infinity s | S754_finite s _ _ => s = sx
  | S754_nan => True
  end.
Proof.
  unfold binary_round_aux.
  destruct (shr_fexp prec emax mx ex lx) as [mrs' e'].
  destruct (shr_fexp prec emax _ e' loc_Exact) as [mrs'' e''].
  destruct (shr_m mrs''); [reflexivity| |exact I].
  destruct (e'' <=? emax - prec); reflexivity.
Qed.

Lemma dmul_square_zero (x : double) :
  is_finite (dmul x x) = true →
  dmul (dmul (dsub dzero x) (dsub dzero x)) dzero = dzero.
Proof.
  destruct x as [[|]|[|]| |sg m e]; try discriminate; try reflexivity.
  intros Hfin.
  assert (Hsame : dmul (dsub dzero (S754_finite sg m e)) (dsub dzero (S754_finite sg m e))
                  = dmul (S754_finite sg m e) (S754_finite sg m e))
    by (destruct sg; reflexivity).
  rewrite Hsame.
  assert (Hsign := binary_round_aux_sign 53 1024 (xorb sg sg) (Zpos (m * m)) (e + e) loc_Exact).
  change (binary_round_aux 53 1024 (xorb sg sg) (Zpos (m * m)) (e + e) loc_Exact)
    with (dmul (S754_finite sg m e) (S754_finite sg m e)) in Hsign.
  destruct (dmul (S754_finite sg m e) (S754_finite sg m e)) as [s|s| |s m' e'];
    try discriminate; rewrite Hsign; destruct sg; reflexivity.
Qed.

Lemma dadd_own_zero (x : double) :
  is_finite (dmul x x) = true → x ≠ S754_zero true →
  dadd x (dmul (dsub dzero x) dzero) = x.
Proof.
  destruct x as [[|]|[|]| |sg m e]; try discriminate; try reflexivity.
  intros _ Hx. contradiction.
Qed.

Lemma double_of_Z_positive (n : Z) :
  0 < n ≤ 2 ^ 53 → ∃ m e, double_of_Z n = S754_finite false m e.
Proof.
  intros Hn. destruct (Z.eq_dec n (2 ^ 53)) as [->|Hne]; [eexists _, _; vm_compute; reflexivity|].
  destruct n as [|p|p]; [lia| |lia].
  destruct (double_of_Z_small p ltac:(lia)) as (m & e & Heq & _). eauto.
Qed.

(** Merging a state into a fresh one gives the state back, as long as the
    product [delta * delta] of the means' difference stays finite. *)
Lemma KnuthVarMerge_into_fresh ctx (a f : StringVal) s :
  state_at ctx (ptr a) = Some s →
  state_at ctx (ptr f) = Some (mkKnuthVarianceState dzero dzero 0) →
  0 < kv_count s ≤ 2 ^ 53 →
  is_finite (dmul (kv_mean s) (kv_mean s)) = true →
  kv_mean s ≠ S754_zero true → kv_m2 s ≠ S754_zero true →
  ∃ ctx', KnuthVarMerge a f ctx = Some (tt, ctx') ∧ state_at ctx' (ptr f) = Some s.
Proof.
  intros Ha Hf Hcount Hfin Hmean Hm2. unfold KnuthVarMerge.
  rewrite bind_run, (load_run _ _ _ Ha), bind_run, (load_run _ _ _ Hf).
  destruct (Z.eqb_spec (kv_count s) 0) as [|_]; [lia|].
  cbn [kv_mean kv_m2 kv_count].
  rewrite Z.add_0_l, Z.mul_0_r, to_int64_small by lia.
  destruct (double_of_Z_positive (kv_count s) Hcount) as (m & e & Hdouble).
  rewrite (int64_of_double_of_Z (kv_count s)) by lia. rewrite Hdouble.
  change (ddiv (double_of_Z 0) (S754_finite false m e)) with dzero.
  change (ddiv (double_of_Z (to_int64 0)) (S754_finite false m e)) with dzero.
  rewrite (dadd_own_zero _ Hfin Hmean), (dmul_square_zero _ Hfin).
  rewrite !dadd_zero_r by (rewrite ?dadd_zero_r; exact Hm2).
  match goal with |- context [store _ ?s' ctx] =>
    destruct (store_state_at ctx (ptr f) _ s' Hf) as (ctx' & Hstore & Hat & _)
  end.
  exists ctx'. split; [exact Hstore|]. rewrite Hat. destruct s; reflexivity.
Qed.

Lemma scalar_merge_fresh {A : Type} (lt : A → A → bool) (x : BigIntVal) (d : DecimalVal)
    (v : AnyVal A) :
  is_null x = false → - 2 ^ 63 ≤ val x < 2 ^ 63 →
  is_null d = false → 0 ≤ dv_image d < 2 ^ 128 →
  is_null v = false →
  (CountMerge (mkVal false 0) x = x ∧ CountMerge x (mkVal false 0) = x) ∧
  (Sum_BigIntVal (InitNull x) x = x ∧ Sum_BigIntVal x (InitNull x) = x) ∧
  (SumMerge DecimalVal_null d = d ∧ SumMerge d DecimalVal_null = d) ∧
  (Min lt (InitNull v) v = v ∧ Min lt v (InitNull v) = v) ∧
  (Max lt (InitNull v) v = v ∧ Max lt v (InitNull v) = v).
Proof.
  intros Hx Hrange Hd Himage Hv.
  destruct x as [xn xv], d as [dn dv], v as [vn vv].
  unfold is_null, AnyVal_nullable, DecimalVal_nullable in *. cbn in Hx, Hrange, Hd, Himage, Hv.
  subst xn dn vn.
  unfold CountMerge, Sum_BigIntVal, Sum, SumMerge, Min, Max, InitNull, InitZero,
    InitZero_DecimalVal, set_val16, val16, is_null, AnyVal_nullable, DecimalVal_nullable.
  cbn [av_is_null val dv_is_null dv_image DecimalVal_null orb].
  change (to_int128 0) with 0.
  rewrite Z.add_0_r, !Z.add_0_l, !to_int64_small by lia.
  rewrite <- (Z.add_0_r (to_int128 dv)), wrap_to_int128 by lia.
  repeat split; reflexivity.
Qed.

Lemma scalar_merge_fresh_more (arg : TypeDesc) (d : DecimalVal) (ts : TimestampVal)
    (dbl : DoubleVal) :
  is_null d = false → is_null ts = false →
  is_null dbl = false → val dbl ≠ S754_zero true →
  (Sum_DoubleVal (InitNull dbl) dbl = dbl ∧ Sum_DoubleVal dbl (InitNull dbl) = dbl) ∧
  (Min_DecimalVal arg DecimalVal_null d = d ∧ Min_DecimalVal arg d DecimalVal_null = d) ∧
  (Max_DecimalVal arg DecimalVal_null d = d ∧ Max_DecimalVal arg d DecimalVal_null = d) ∧
  (Min_TimestampVal TimestampVal_null ts = ts ∧ Min_TimestampVal ts TimestampVal_null = ts) ∧
  (Max_TimestampVal TimestampVal_null ts = ts ∧ Max_TimestampVal ts TimestampVal_null = ts).
Proof.
  intros Hd Hts Hdbl Hzero.
  destruct d as [dn dv], ts as [tn td tt], dbl as [bn bv].
  unfold is_null, AnyVal_nullable, DecimalVal_nullable, TimestampVal_nullable in *.
  cbn in Hd, Hts, Hdbl, Hzero. subst dn tn bn.
  unfold Sum_DoubleVal, Sum, Min_DecimalVal, Max_DecimalVal, Min_TimestampVal,
    Max_TimestampVal, InitNull, InitZero, is_null, AnyVal_nullable, DecimalVal_nullable,
    TimestampVal_nullable.
  cbn [av_is_null val dv_is_null ts_is_null DecimalVal_null TimestampVal_null orb].
  rewrite dadd_zero_l by exact Hzero.
  repeat split; try reflexivity;
    destruct (precision arg <=? 9); try reflexivity;
    destruct (precision arg <=? 19); reflexivity.
Qed.

(** [Min] and [Max] over strings used as merge: a null source leaves the
    destination alone; a null destination takes a copy of the source. *)
Lemma MinMax_StringVal_fresh ctx (s : StringVal) bs :
  is_null s = false → allocations ctx !! ptr s = Some bs →
  len s = Z.of_nat (length bs) → ptr s ≠ next_ptr ctx →
  Min_StringVal InitNullString s ctx = Some (s, ctx) ∧
  Max_StringVal InitNullString s ctx = Some (s, ctx) ∧
  (∃ r ctx', Min_StringVal s InitNullString ctx = Some (r, ctx') ∧
             is_null r = false ∧ len r = len s ∧ allocations ctx' !! ptr r = Some bs) ∧
  (∃ r ctx', Max_StringVal s InitNullString ctx = Some (r, ctx') ∧
             is_null r = false ∧ len r = len s ∧ allocations ctx' !! ptr r = Some bs).
Proof.
  intros Hnull Hbs Hlen Hne.
  assert (Hcopy : ∃ r ctx', replace_string s InitNullString ctx = Some (r, ctx') ∧
             is_null r = false ∧ len r = len s ∧ allocations ctx' !! ptr r = Some bs).
  { unfold replace_string. cbn [is_null StringVal_nullable InitNullString sv_is_null negb].
    rewrite bind_run, ret_run, bind_run. unfold Allocate at 1. rewrite bind_run.
    erewrite read_bytes_run;
      [|ctx_simpl; rewrite lookup_insert_ne by (intros E; apply Hne; symmetry; exact E);
        exact Hbs|exact Hlen].
    rewrite bind_run.
    erewrite memcpy_to_run;
      [|ctx_simpl; apply lookup_insert_eq|lia
       |unfold zero_image, bytes_buffer; rewrite length_replicate; lia].
    rewrite ret_run. eexists _, _. split; [reflexivity|].
    split; [reflexivity|]. split; [reflexivity|].
    ctx_simpl. rewrite lookup_insert_eq. f_equal.
    unfold zero_image, bytes_buffer. cbn [Z.to_nat take app Nat.add].
    rewrite drop_ge by (rewrite length_replicate; lia). apply app_nil_r. }
  split; [reflexivity|]. split; [reflexivity|].
  unfold Min_StringVal, Max_StringVal. rewrite Hnull.
  cbn [is_null StringVal_nullable InitNullString sv_is_null].
  rewrite !bind_run, !ret_run. split; exact Hcopy.
Qed.

(** ** The heap of the reservoir merge *)

Section heap.
Context {A : Type} (comp : A → A → bool).

Lemma parent_below (hole : nat) : ((Datatypes.S hole - 1) / 2 < Datatypes.S hole)%nat.
Proof. apply Nat.Div0.div_lt_upper_bound. lia. Qed.

Lemma sift_up_spec fuel : ∀ (l : list A) hole,
  sift_up comp fuel l hole ≡ₚ l ∧
  length (sift_up comp fuel l hole) = length l ∧
  ∀ j : nat, (hole < j)%nat → sift_up comp fuel l hole !! j = l !! j.
Proof.
  assert (Hsame : ∀ l : list A, ∀ hole : nat,
             l ≡ₚ l ∧ length l = length l ∧ ∀ j : nat, (hole < j)%nat → l !! j = l !! j)
    by (intros; split; [reflexivity|split; [reflexivity|intros; reflexivity]]).
  induction fuel as [|fuel IH]; intros l hole; cbn [sift_up]; [apply Hsame|].
  destruct hole as [|hole]; [apply Hsame|].
  pose proof (parent_below hole) as Hparent.
  destruct (l !! ((Datatypes.S hole - 1) / 2)%nat) as [p|] eqn:Hp; [|apply Hsame].
  destruct (l !! Datatypes.S hole) as [v|] eqn:Hv; [|apply Hsame].
  destruct (comp p v); [|apply Hsame].
  destruct (IH (<[((Datatypes.S hole - 1) / 2)%nat := v]> (<[Datatypes.S hole := p]> l))
               ((Datatypes.S hole - 1) / 2)%nat) as (Hperm & Hlen & Hframe).
  split; [|split].
  - rewrite Hperm. apply Permutation_insert_swap; assumption.
  - rewrite Hlen, !length_insert. reflexivity.
  - intros j Hj. rewrite Hframe by lia.
    rewrite !list_lookup_insert_ne by lia. reflexivity.
Qed.

Lemma push_heap_spec (l : list A) (n : nat) :
  (0 < n)%nat →
  push_heap comp l n ≡ₚ l ∧
  length (push_heap comp l n) = length l ∧
  drop n (push_heap comp l n) = drop n l.
Proof.
  intros Hn. unfold push_heap.
  destruct (sift_up_spec n l (n - 1)) as (Hperm & Hlen & Hframe).
  split; [exact Hperm|]. split; [exact Hlen|].
  apply list_eq. intros j. rewrite !lookup_drop. apply Hframe. lia.
Qed.

(** A permutation that leaves everything from position [n] on in place
    permutes the first [n] elements. *)
Lemma Permutation_take (l l' : list A) (n : nat) :
  l' ≡ₚ l → drop n l' = drop n l → take n l' ≡ₚ take n l.
Proof.
  intros Hperm Hdrop.
  apply (Permutation_app_inv_r (drop n l)).
  rewrite <- Hdrop at 1. rewrite !take_drop. exact Hperm.
Qed.

End heap.

(** *** The order of doubles *)

(** [<] on doubles is asymmetric, and for numbers its negation is
    transitive. *)
Lemma SFltb_asym (x y : spec_float) : SFltb x y = true → SFltb y x = false.
Proof.
  unfold SFltb, SFcompare.
  destruct x as [[|]|[|]| |[|] mx ex], y as [[|]|[|]| |[|] my ey];
    try discriminate; try reflexivity;
    change (Pos.compare_cont Eq ?a ?b) with (Pos.compare a b);
    destruct (Z.compare_spec ex ey), (Z.compare_spec ey ex); try lia;
    try discriminate; try reflexivity;
    destruct (Pos.compare_spec mx my), (Pos.compare_spec my mx); cbn;
    try lia; try discriminate; try reflexivity.
Qed.

Lemma SFltb_negtrans (x y z : spec_float) :
  y ≠ S754_nan →
  SFltb x y = false → SFltb y z = false → SFltb x z = false.
Proof.
  unfold SFltb, SFcompare. intros Hy.
  destruct x as [[|]|[|]| |[|] mx ex], y as [[|]|[|]| |[|] my ey], z as [[|]|[|]| |[|] mz ez];
    try contradiction; try discriminate; try reflexivity;
    change (Pos.compare_cont Eq ?a ?b) with (Pos.compare a b);
    destruct (Z.compare_spec ex ey), (Z.compare_spec ey ez), (Z.compare_spec ex ez);
    try lia; try discriminate; try reflexivity;
    destruct (Pos.compare_spec mx my), (Pos.compare_spec my mz), (Pos.compare_spec mx mz);
    cbn; try lia; try discriminate; try reflexivity.
Qed.

(** *** Heaps *)

Section heap_order.
Context {A : Type} (comp : A → A → bool) (P : A → Prop).
Hypothesis comp_asym : ∀ x y, comp x y = true → comp y x = false.
Hypothesis comp_negtrans :
  ∀ x y z, P y → comp x y = false → comp y z = false → comp x z = false.

Lemma parent_lt (i : nat) : (0 < i)%nat → ((i - 1) / 2 < i)%nat.
Proof. intros Hi. destruct i as [|i]; [lia|]. apply parent_below. Qed.

Lemma sift_up_heap (n : nat) :
  ∀ (fuel : nat) (l : list A) (hole : nat),
    (hole ≤ fuel)%nat → (hole < n ≤ length l)%nat →
    Forall P l → heap_but comp l n hole →
    is_heap comp (sift_up comp fuel l hole) n.
Proof.
  assert (Hdone : ∀ l hole, (hole < n)%nat → heap_but comp l n hole →
                    (hole = O ∨ ∃ p v, l !! ((hole - 1) / 2)%nat = Some p ∧
                                       l !! hole = Some v ∧ comp p v = false) →
                    is_heap comp l n).
  { intros l hole Hh [Hinv _] Hcase i p v Hi Hp Hv.
    destruct (decide (i = hole)) as [->|Hne]; [|exact (Hinv i p v Hi Hne Hp Hv)].
    destruct Hcase as [->|(p' & v' & Hp' & Hv' & Hcomp)]; [lia|]. congruence. }
  induction fuel as [|fuel IH]; intros l hole Hfuel Hn HP Hinv.
  - apply (Hdone l hole); [lia|exact Hinv|left; lia].
  - cbn [sift_up]. destruct hole as [|h]; [apply (Hdone l O); [lia|exact Hinv|left; reflexivity]|].
    set (hole := Datatypes.S h) in *.
    assert (Hpar : ((hole - 1) / 2 < hole)%nat) by (apply parent_lt; lia).
    set (parent := ((hole - 1) / 2)%nat) in *.
    destruct (lookup_lt_is_Some_2 l parent ltac:(lia)) as [p Hp].
    destruct (lookup_lt_is_Some_2 l hole ltac:(lia)) as [v Hv].
    rewrite Hp, Hv. destruct (comp p v) eqn:Hpv;
      [|apply (Hdone l hole); [lia|exact Hinv|right; exists p, v; auto]].
    assert (HPp : P p) by (eapply Forall_lookup_1; eassumption).
    assert (HPv : P v) by (eapply Forall_lookup_1; eassumption).
    destruct Hinv as [Hinv1 Hinv2].
    apply IH; [lia|rewrite !length_insert; lia| |].
    { apply Forall_insert; [apply Forall_insert; assumption|assumption]. }
    assert (Hlook : ∀ j, <[parent := v]> (<[hole := p]> l) !! j
                         = if decide (j = parent) then Some v
                           else if decide (j = hole) then Some p else l !! j).
    { intros j. destruct (decide (j = parent)) as [->|Hjp].
      - apply list_lookup_insert_eq. rewrite length_insert. lia.
      - rewrite list_lookup_insert_ne by congruence.
        destruct (decide (j = hole)) as [->|Hjh].
        + apply list_lookup_insert_eq. lia.
        + rewrite list_lookup_insert_ne by congruence. reflexivity. }
    split.
    + intros i pi vi Hi Hne. rewrite (Hlook ((i - 1) / 2)%nat), (Hlook i).
      destruct (decide (i = parent)) as [|_]; [contradiction|].
      destruct (decide (i = hole)) as [->|Hih].
      * fold parent. destruct (decide (parent = parent)) as [_|]; [|contradiction].
        intros [= <-] [= <-]. apply comp_asym. exact Hpv.
      * destruct (decide (((i - 1) / 2)%nat = parent)) as [Hsib|Hnsib].
        -- intros [= <-] Hvi. apply (comp_negtrans v p vi HPp).
           ++ apply comp_asym. exact Hpv.
           ++ apply (Hinv1 i p vi Hi Hih); [rewrite Hsib; exact Hp|exact Hvi].
        -- destruct (decide (((i - 1) / 2)%nat = hole)) as [Hchild|Hnchild].
           ++ intros [= <-] Hvi.
              apply (Hinv2 i p vi); [lia|exact Hi|exact Hchild|exact Hp|exact Hvi].
           ++ intros Hpi' Hvi. exact (Hinv1 i pi vi Hi Hih Hpi' Hvi).
    + intros c g vc Hpos Hc Hcp. rewrite (Hlook ((parent - 1) / 2)%nat), (Hlook c).
      pose proof (parent_lt parent Hpos) as Hpp.
      destruct (decide (((parent - 1) / 2)%nat = parent)) as [|_]; [lia|].
      destruct (decide (((parent - 1) / 2)%nat = hole)) as [|_]; [lia|].
      destruct (decide (c = parent)) as [|_]; [pose proof (parent_lt c ltac:(lia)); lia|].
      intros Hg.
      assert (Hgp : comp g p = false)
        by (apply (Hinv1 parent g p); [lia|lia|exact Hg|exact Hp]).
      destruct (decide (c = hole)) as [->|Hch].
      * intros [= <-]. exact Hgp.
      * intros Hvc. apply (comp_negtrans g p vc HPp Hgp).
        apply (Hinv1 c p vc Hc Hch); [rewrite Hcp; exact Hp|exact Hvc].
Qed.

(** [push_heap] makes a heap of [n] elements out of a heap of [n - 1]
    elements and one more. *)
Lemma push_heap_heap (l : list A) (n : nat) :
  (0 < n ≤ length l)%nat → Forall P l →
  is_heap comp l (n - 1) → is_heap comp (push_heap comp l n) n.
Proof.
  intros Hn HP Hheap. unfold push_heap. apply sift_up_heap; [lia|lia|exact HP|].
  split.
  - intros i p v Hi Hne. apply Hheap. lia.
  - intros c g v Hpos Hc Hcp. pose proof (parent_lt c ltac:(lia)). lia.
Qed.

(** A heap of [n] elements does not depend on the elements from position
    [n] on. *)
Lemma is_heap_insert (l : list A) (n i : nat) (x : A) :
  (n ≤ i)%nat → is_heap comp l n → is_heap comp (<[i := x]> l) n.
Proof.
  intros Hi Hheap j p v Hj. pose proof (parent_lt j ltac:(lia)).
  rewrite !list_lookup_insert_ne by lia. apply Hheap. exact Hj.
Qed.

End heap_order.

Section fill.
Context {V : Type}.

Lemma merge_fill_loop_spec (src : list (ReservoirSample V)) (src_max : Z) :
  0 ≤ src_max ≤ NUM_SAMPLES → src_max ≤ Z.of_nat (length src) →
  ∀ fuel (dst : list (ReservoirSample V)) (k : Z),
    Z.of_nat (length dst) = NUM_SAMPLES →
    0 ≤ k ≤ src_max → src_max - k ≤ Z.of_nat fuel →
    ∃ dst',
      merge_fill_loop fuel src src_max dst k k = Some (dst', src_max, src_max) ∧
      length dst' = length dst ∧
      take (Z.to_nat src_max) dst' ≡ₚ
        take (Z.to_nat k) dst ++ take (Z.to_nat (src_max - k)) (drop (Z.to_nat k) src) ∧
      drop (Z.to_nat src_max) dst' = drop (Z.to_nat src_max) dst.
Proof.
  intros Hmax Hsrc. pose proof NUM_SAMPLES_value as HN.
  induction fuel as [|fuel IH]; intros dst k Hlen Hk Hfuel.
  - assert (k = src_max) as -> by lia. exists dst. simpl.
    rewrite Z.sub_diag. simpl. rewrite app_nil_r. done.
  - simpl. destruct (Z.ltb_spec k src_max) as [Hlt|Hge].
    + destruct (Z.ltb_spec k NUM_SAMPLES) as [_|]; [|lia]. cbn [andb].
      destruct (lookup_lt_is_Some_2 src (Z.to_nat k) ltac:(lia)) as [s Hs].
      rewrite Hs. cbn [mbind option_bind].
      rewrite samples_set_in_range by lia. cbn [mbind option_bind].
      rewrite !to_int32_small by lia.
      set (dst1 := <[Z.to_nat k := s]> dst).
      destruct (push_heap_spec SampleKeyGreater dst1 (Z.to_nat (k + 1)) ltac:(lia))
        as (Hperm & Hlen1 & Hdrop1).
      destruct (IH (push_heap SampleKeyGreater dst1 (Z.to_nat (k + 1))) (k + 1))
        as (dst' & Hrun & Hlen' & Hperm' & Hdrop'); [| lia | lia |].
      { rewrite Hlen1. subst dst1. rewrite length_insert. exact Hlen. }
      exists dst'. split; [exact Hrun|]. split.
      { rewrite Hlen', Hlen1. subst dst1. apply length_insert. }
      split.
      * rewrite Hperm'.
        rewrite (Permutation_take _ _ _ Hperm Hdrop1).
        subst dst1.
        replace (Z.to_nat (k + 1)) with (Datatypes.S (Z.to_nat k)) by lia.
        rewrite (take_S_r _ _ s) by (apply list_lookup_insert_eq; lia).
        rewrite take_insert_ge by lia.
        replace (Z.to_nat (src_max - k)) with (Datatypes.S (Z.to_nat (src_max - (k + 1)))) by lia.
        rewrite (drop_S _ _ _ Hs). cbn [take]. rewrite <- app_assoc. reflexivity.
      * rewrite Hdrop'.
        replace (Z.to_nat src_max)
          with (Z.to_nat (k + 1) + (Z.to_nat src_max - Z.to_nat (k + 1)))%nat by lia.
        rewrite <- !drop_drop.
        rewrite Hdrop1. subst dst1. rewrite drop_insert_lt by lia. reflexivity.
    + assert (k = src_max) as -> by lia. rewrite andb_false_r. exists dst.
      rewrite Z.sub_diag. simpl. rewrite app_nil_r. done.
Qed.

End fill.

Lemma SampleKeyGreater_asym {V} (x y : ReservoirSample V) :
  SampleKeyGreater x y = true → SampleKeyGreater y x = false.
Proof. unfold SampleKeyGreater, dltb. apply SFltb_asym. Qed.

Lemma SampleKeyGreater_negtrans {V} (x y z : ReservoirSample V) :
  key_ok y →
  SampleKeyGreater x y = false → SampleKeyGreater y z = false →
  SampleKeyGreater x z = false.
Proof.
  unfold SampleKeyGreater, dltb, key_ok. intros Hy Hxy Hyz.
  exact (SFltb_negtrans (key z) (key y) (key x) Hy Hyz Hxy).
Qed.

(** The first loop of the merge keeps the destination's samples a heap on
    the key. *)
Lemma merge_fill_loop_heap {V} (src : list (ReservoirSample V)) (src_max : Z) :
  src_max ≤ NUM_SAMPLES →
  Forall key_ok (take (Z.to_nat src_max) src) →
  ∀ fuel (dst : list (ReservoirSample V)) (n k : Z) dst' n' k',
    0 ≤ n → 0 ≤ k →
    Forall key_ok dst →
    is_heap SampleKeyGreater dst (Z.to_nat n) →
    merge_fill_loop fuel src src_max dst n k = Some (dst', n', k') →
    is_heap SampleKeyGreater dst' (Z.to_nat n') ∧ Forall key_ok dst'.
Proof.
  intros Hmax Hsrc. pose proof NUM_SAMPLES_value as HN.
  induction fuel as [|fuel IH]; intros dst n k dst' n' k' Hn Hk Hok Hheap;
    cbn [merge_fill_loop].
  - intros [= <- <- <-]. split; assumption.
  - destruct (Z.ltb_spec n NUM_SAMPLES) as [Hroom|_];
      [destruct (Z.ltb_spec k src_max) as [Hlt|_]|]; cbn [andb];
      try (intros [= <- <- <-]; split; assumption).
    destruct (src !! Z.to_nat k) as [s|] eqn:Hs; [|discriminate].
    cbn [mbind option_bind]. unfold samples_set.
    destruct ((0 <=? n) && (n <? Z.of_nat (length dst))) eqn:Hin; [|discriminate].
    apply andb_prop in Hin as [_ Hin%Z.ltb_lt].
    cbn [mbind option_bind]. rewrite !to_int32_small by lia.
    assert (Hs_ok : key_ok s).
    { eapply Forall_lookup_1; [exact Hsrc|]. apply lookup_take_Some.
      split; [exact Hs|lia]. }
    set (dst1 := <[Z.to_nat n := s]> dst).
    assert (Hok1 : Forall key_ok dst1) by (apply Forall_insert; assumption).
    destruct (push_heap_spec SampleKeyGreater dst1 (Z.to_nat (n + 1)) ltac:(lia))
      as (Hperm & _ & _).
    apply IH; [lia|lia|rewrite Hperm; exact Hok1|].
    apply (push_heap_heap SampleKeyGreater key_ok).
    + apply @SampleKeyGreater_asym.
    + apply @SampleKeyGreater_negtrans.
    + subst dst1. rewrite length_insert. lia.
    + exact Hok1.
    + replace (Z.to_nat (n + 1) - 1)%nat with (Z.to_nat n) by lia.
      apply is_heap_insert; [lia|exact Hheap].
Qed.

Lemma StringConcatMerge_fresh ctx (s : StringVal) h payload :
  concat_state ctx s h payload →
  - 2 ^ 31 ≤ h < 2 ^ 31 → ptr s ≠ next_ptr ctx →
  4 + Z.of_nat (length payload) < 2 ^ 31 →
  StringConcatMerge InitNullString s ctx = Some (s, ctx) ∧
  ∃ r ctx',
    StringConcatMerge s InitNullString ctx = Some (r, ctx') ∧
    is_null r = false ∧ len r = len s ∧
    allocations ctx' !! ptr r = allocations ctx !! ptr s.
Proof.
  intros Hs Hh Hne Hfit. split; [reflexivity|].
  destruct (StringConcatMerge_first ctx s InitNullString h payload Hs Hh eq_refl Hne Hfit)
    as (r & ctx' & Hrun & (Hrn & Hra & Hrl) & _ & _).
  destruct Hs as (_ & Hsa & Hsl).
  exists r, ctx'. split; [exact Hrun|]. split; [exact Hrn|].
  split; [congruence|congruence].
Qed.

Section reservoir_merge.
Context {T : Type} `{SampleType T} `{RandomSource}.

Lemma merge_replace_loop_done {V} fuel (src dst : list (ReservoirSample V)) src_max :
  merge_replace_loop fuel src src_max dst src_max = Some dst.
Proof. destruct fuel; simpl; [reflexivity|]. rewrite Z.ltb_irrefl. reflexivity. Qed.

(** Merging a state without samples into [s] leaves [s] as it is. *)
Lemma ReservoirSampleMerge_fresh_src {V}
    (ctx : FunctionContext (ReservoirSampleState V)) (a f : StringVal) s fresh :
  state_at ctx (ptr a) = Some s → state_at ctx (ptr f) = Some fresh →
  is_null f = false →
  num_samples fresh = 0 → source_size fresh = 0 →
  - 2 ^ 63 ≤ source_size s < 2 ^ 63 →
  ∃ ctx', ReservoirSampleMerge f a ctx = Some (tt, ctx') ∧ state_at ctx' (ptr a) = Some s.
Proof.
  intros Ha Hf Hnull Hnum Hsize Hrange. unfold ReservoirSampleMerge.
  rewrite Hnull, bind_run, (load_run _ _ _ Hf), bind_run, (load_run _ _ _ Ha).
  rewrite Hnum, Hsize. change (Z.to_nat 0) with O.
  cbn [merge_fill_loop merge_replace_loop].
  rewrite Z.add_0_r, to_int64_small by exact Hrange.
  match goal with |- context [store _ ?s' ctx] =>
    destruct (store_state_at ctx (ptr a) s s' Ha) as (ctx' & Hrun & Hat & _)
  end.
  exists ctx'. split; [exact Hrun|]. rewrite Hat. destruct s; reflexivity.
Qed.

(** Merging [s] into a fresh state gives the counters of [s] and its
    samples in heap order: a permutation of them, and a heap on the key
    when the keys are numbers. *)
Lemma ReservoirSampleMerge_into_fresh
    (ctx : FunctionContext (ReservoirSampleState sample_val)) (a f : StringVal) s :
  state_at ctx (ptr a) = Some s →
  state_at ctx (ptr f) = Some ReservoirSampleState_default →
  is_null a = false →
  Z.of_nat (length (samples s)) = NUM_SAMPLES →
  0 ≤ num_samples s ≤ NUM_SAMPLES →
  - 2 ^ 63 ≤ source_size s < 2 ^ 63 →
  ∃ ctx' d,
    ReservoirSampleMerge a f ctx = Some (tt, ctx') ∧
    state_at ctx' (ptr f) = Some d ∧
    num_samples d = num_samples s ∧
    source_size d = source_size s ∧
    length (samples d) = length (samples s) ∧
    take (Z.to_nat (num_samples s)) (samples d) ≡ₚ take (Z.to_nat (num_samples s)) (samples s) ∧
    drop (Z.to_nat (num_samples s)) (samples d)
    = drop (Z.to_nat (num_samples s)) (samples (ReservoirSampleState_default (T:=T))) ∧
    rng d = rng_default ∧
    (Forall key_ok (take (Z.to_nat (num_samples s)) (samples s)) →
     is_heap SampleKeyGreater (samples d) (Z.to_nat (num_samples s))).
Proof.
  intros Ha Hf Hnull Hlen Hnum Hrange. pose proof NUM_SAMPLES_value as HN.
  unfold ReservoirSampleMerge.
  rewrite Hnull, bind_run, (load_run _ _ _ Ha), bind_run, (load_run _ _ _ Hf).
  destruct (merge_fill_loop_spec (samples s) (num_samples s) Hnum ltac:(lia)
              (Z.to_nat (num_samples s))
              (samples (ReservoirSampleState_default (T:=T))) 0)
    as (dst' & Hrun & Hlen' & Hperm & Hdrop).
  { cbn [samples ReservoirSampleState_default]. rewrite length_replicate. lia. }
  { lia. }
  { lia. }
  assert (Hheap : Forall key_ok (take (Z.to_nat (num_samples s)) (samples s)) →
                  is_heap SampleKeyGreater dst' (Z.to_nat (num_samples s))).
  { intros Hkeys.
    apply (merge_fill_loop_heap (samples s) (num_samples s) ltac:(lia) Hkeys
             (Z.to_nat (num_samples s))
             (samples (ReservoirSampleState_default (T:=T))) 0 0 dst'
             (num_samples s) (num_samples s)); [lia|lia| | |exact Hrun].
    - cbn [samples ReservoirSampleState_default]. apply Forall_replicate.
      unfold key_ok, ReservoirSample_default. cbn [key]. vm_compute. discriminate.
    - intros i p v Hi. cbn in Hi. lia. }
  cbn [num_samples source_size rng ReservoirSampleState_default] in *.
  rewrite Hrun, merge_replace_loop_done.
  rewrite Z.add_0_l, to_int64_small by exact Hrange.
  match goal with |- context [store _ ?s' ctx] =>
    destruct (store_state_at ctx (ptr f) _ s' Hf) as (ctx' & Hstore & Hat & _)
  end.
  eexists ctx', _. split; [exact Hstore|]. split; [exact Hat|].
  cbn [samples num_samples source_size rng].
  split; [reflexivity|]. split; [reflexivity|]. split.
  { rewrite Hlen'. unfold ReservoirSampleState_default. cbn [samples].
    rewrite length_replicate. lia. }
  split; [|split; [exact Hdrop|split; [reflexivity|exact Hheap]]].
  rewrite Hperm. rewrite Z.sub_0_r. cbn [Z.to_nat take drop app]. reflexivity.
Qed.

End reservoir_merge.

(** ** Merge identity *)

(** What the init functions leave behind the pointer they return. *)
Lemma alloc_zero_run {S} `{Buffer S} (n : Z) (ctx : FunctionContext S) :
  (p ← Allocate n; memset_zero p n;; mret (mkStringVal false n p)) ctx =
    Some (mkStringVal false n (next_ptr ctx),
          set_next_ptr (next_ptr ctx + 1)
            (set_allocations (<[next_ptr ctx := zero_image n]> (allocations ctx)) ctx)).
Proof.
  unfold memset_zero. rewrite bind_run. unfold Allocate at 1.
  rewrite bind_run. erewrite store_run by (ctx_simpl; apply lookup_insert_eq).
  rewrite ret_run. unfold set_allocations, set_next_ptr. ctx_simpl.
  rewrite insert_insert_eq. reflexivity.
Qed.

Lemma init_fresh_states :
  (∀ ctx, ∃ dst ctx', AvgInit ctx = Some (dst, ctx') ∧
                      state_at ctx' (ptr dst) = Some (mkAvgState dzero 0)) ∧
  (∀ ctx, ∃ dst ctx', DecimalAvgInit ctx = Some (dst, ctx') ∧
                      state_at ctx' (ptr dst)
                      = Some (mkDecimalAvgState (mkDecimalVal false 0) 0)) ∧
  (∀ ctx, ∃ dst ctx', PcInit ctx = Some (dst, ctx') ∧
                      state_at ctx' (ptr dst) = Some (replicate (Z.to_nat pc_len) 0)) ∧
  (∀ ctx, ∃ dst ctx', HllInit ctx = Some (dst, ctx') ∧ len dst = HLL_LEN ∧
                      state_at ctx' (ptr dst) = Some (replicate (Z.to_nat HLL_LEN) 0)) ∧
  (∀ ctx, ∃ dst ctx', KnuthVarInit ctx = Some (dst, ctx') ∧
                      state_at ctx' (ptr dst) = Some (mkKnuthVarianceState dzero dzero 0)).
Proof.
  repeat split; intros ctx; eexists _, _;
    (split; [apply alloc_zero_run|]); try (split; [reflexivity|]);
    apply state_at_allocated; ctx_simpl; apply lookup_insert_eq.
Qed.

(** The variance merge into a fresh state recomputes the mean in floating
    point: for a state whose mean is infinite the result is not a number. *)
Lemma KnuthVarMerge_into_fresh_infinite_mean :
  ∃ a b ctx',
    var_merge_into_fresh (empty_ctx no_type no_type) = Some ((a, b), ctx') ∧
    kv_mean a = S754_infinity false ∧ kv_mean b = S754_nan.
Proof. eexists _, _, _. split; [vm_compute; reflexivity|]. split; reflexivity. Qed.

(** C5 (as stated).  A reservoir state over the values 10 and 20, whose
    keys came out as 1 and 1/2 at serialize, is merged into a freshly
    initialized state: the destination is rebuilt as a min-heap on the key
    and starts with 20, the source starts with 10; the two states are not
    equal. *)
Lemma reservoir_merge_into_fresh_differs :
  ¬ ∃ a b ctx',
      merge_into_fresh (empty_ctx no_type no_type) = Some ((a, b), ctx') ∧ b = a.
Proof.
  intros (a & b & ctx' & Hrun & Heq).
  assert (Hfirst :
            match merge_into_fresh (empty_ctx no_type no_type) with
            | Some ((a, b), _) =>
                Some (val ∘ rs_val <$> samples a !! O, val ∘ rs_val <$> samples b !! O)
            | None => None
            end = Some (Some 10, Some 20)) by (vm_compute; reflexivity).
  rewrite Hrun, Heq in Hfirst. injection Hfirst as Ha Hb.
  rewrite Ha in Hb. discriminate Hb.
Qed.

Section merge_identity.
Context {T : Type} `{SampleType T} `{RandomSource} {A : Type}.

(** C5 (amended).  For every operator and every valid state [s], merging a
    freshly initialized state into [s] leaves [s] unchanged.  Merging [s]
    into a freshly initialized state yields a state equal to [s] for Count,
    Sum, Min, Max, the averages (a floating-point sum not being the
    negative zero, which no sum accumulated from a fresh state is:
    [accumulated_ok]), StringConcat, PC/PCSA and HLL, and for the variance
    when the count of [s] is between 1 and [2^53], its mean is finite with
    a square that does not overflow, and neither its mean nor its [m2] is
    the negative zero.  For the reservoir-sample operator it yields a state
    with the [num_samples] and [source_size] of [s] and the generator of
    the fresh state, whose samples are a permutation of those of [s] and,
    when their keys are numbers, a min-heap on the key. *)
Theorem merge_with_fresh_state
    (lt : A → A → bool) (x : BigIntVal) (d : DecimalVal) (v : AnyVal A)
    (arg : TypeDesc) (ts : TimestampVal) (dbl : DoubleVal)
    (ctx_a : FunctionContext AvgState) (avg avg0 : StringVal) (avg_s : AvgState)
    (ctx_d : FunctionContext DecimalAvgState) (davg davg0 : StringVal)
    (davg_s : DecimalAvgState)
    (ctx_b : FunctionContext (list Z)) (pc pc0 hll hll0 cc ms : StringVal)
    (pc_s hll_s payload ms_s : list Z) (sep_len : Z)
    (ctx_r : FunctionContext (ReservoirSampleState sample_val)) (rs rs0 : StringVal)
    (rs_s : ReservoirSampleState sample_val)
    (ctx_k : FunctionContext KnuthVarianceState) (kv kv0 : StringVal)
    (kv_s : KnuthVarianceState) :
  (* scalars *)
  is_null x = false → - 2 ^ 63 ≤ val x < 2 ^ 63 →
  is_null d = false → 0 ≤ dv_image d < 2 ^ 128 →
  is_null v = false →
  is_null ts = false → is_null dbl = false → val dbl ≠ S754_zero true →
  (* average *)
  state_at ctx_a (ptr avg) = Some avg_s →
  state_at ctx_a (ptr avg0) = Some (mkAvgState dzero 0) →
  avg_sum avg_s ≠ S754_zero true → - 2 ^ 63 ≤ avg_count avg_s < 2 ^ 63 →
  (* decimal average *)
  state_at ctx_d (ptr davg) = Some davg_s →
  state_at ctx_d (ptr davg0) = Some (mkDecimalAvgState (mkDecimalVal false 0) 0) →
  dv_is_null (davg_sum davg_s) = false → 0 ≤ dv_image (davg_sum davg_s) < 2 ^ 128 →
  - 2 ^ 63 ≤ davg_count davg_s < 2 ^ 63 →
  (* bitmaps and registers *)
  state_at ctx_b (ptr pc) = Some pc_s →
  state_at ctx_b (ptr pc0) = Some (replicate (Z.to_nat pc_len) 0) →
  Z.of_nat (length pc_s) = pc_len →
  state_at ctx_b (ptr hll) = Some hll_s →
  state_at ctx_b (ptr hll0) = Some (replicate (Z.to_nat HLL_LEN) 0) →
  len hll = HLL_LEN → len hll0 = HLL_LEN →
  Z.of_nat (length hll_s) = HLL_LEN → Forall (λ b, 0 ≤ b) hll_s →
  (* string concatenation *)
  concat_state ctx_b cc sep_len payload →
  - 2 ^ 31 ≤ sep_len < 2 ^ 31 → ptr cc ≠ next_ptr ctx_b →
  4 + Z.of_nat (length payload) < 2 ^ 31 →
  (* minimum and maximum of strings *)
  is_null ms = false → allocations ctx_b !! ptr ms = Some ms_s →
  len ms = Z.of_nat (length ms_s) → ptr ms ≠ next_ptr ctx_b →
  (* reservoir *)
  state_at ctx_r (ptr rs) = Some rs_s →
  state_at ctx_r (ptr rs0) = Some ReservoirSampleState_default →
  is_null rs = false → is_null rs0 = false →
  Z.of_nat (length (samples rs_s)) = NUM_SAMPLES →
  0 ≤ num_samples rs_s ≤ NUM_SAMPLES →
  - 2 ^ 63 ≤ source_size rs_s < 2 ^ 63 →
  (* variance *)
  state_at ctx_k (ptr kv) = Some kv_s →
  state_at ctx_k (ptr kv0) = Some (mkKnuthVarianceState dzero dzero 0) →
  (CountMerge (mkVal false 0) x = x ∧ CountMerge x (mkVal false 0) = x) ∧
  (Sum_BigIntVal (InitNull x) x = x ∧ Sum_BigIntVal x (InitNull x) = x) ∧
  (SumMerge DecimalVal_null d = d ∧ SumMerge d DecimalVal_null = d) ∧
  (Min lt (InitNull v) v = v ∧ Min lt v (InitNull v) = v) ∧
  (Max lt (InitNull v) v = v ∧ Max lt v (InitNull v) = v) ∧
  (Sum_DoubleVal (InitNull dbl) dbl = dbl ∧ Sum_DoubleVal dbl (InitNull dbl) = dbl) ∧
  (Min_DecimalVal arg DecimalVal_null d = d ∧ Min_DecimalVal arg d DecimalVal_null = d) ∧
  (Max_DecimalVal arg DecimalVal_null d = d ∧ Max_DecimalVal arg d DecimalVal_null = d) ∧
  (Min_TimestampVal TimestampVal_null ts = ts ∧ Min_TimestampVal ts TimestampVal_null = ts) ∧
  (Max_TimestampVal TimestampVal_null ts = ts ∧ Max_TimestampVal ts TimestampVal_null = ts) ∧
  (Min_StringVal InitNullString ms ctx_b = Some (ms, ctx_b) ∧
   Max_StringVal InitNullString ms ctx_b = Some (ms, ctx_b) ∧
   (∃ r ctx', Min_StringVal ms InitNullString ctx_b = Some (r, ctx') ∧
              is_null r = false ∧ len r = len ms ∧ allocations ctx' !! ptr r = Some ms_s) ∧
   (∃ r ctx', Max_StringVal ms InitNullString ctx_b = Some (r, ctx') ∧
              is_null r = false ∧ len r = len ms ∧ allocations ctx' !! ptr r = Some ms_s)) ∧
  ((∃ ctx', AvgMerge avg0 avg ctx_a = Some (tt, ctx') ∧
            state_at ctx' (ptr avg) = Some avg_s) ∧
   (∃ ctx', AvgMerge avg avg0 ctx_a = Some (tt, ctx') ∧
            state_at ctx' (ptr avg0) = Some avg_s)) ∧
  ((∃ ctx', DecimalAvgMerge davg0 davg ctx_d = Some (tt, ctx') ∧
            state_at ctx' (ptr davg) = Some davg_s) ∧
   (∃ ctx', DecimalAvgMerge davg davg0 ctx_d = Some (tt, ctx') ∧
            state_at ctx' (ptr davg0) = Some davg_s)) ∧
  ((∃ ctx', PcMerge pc0 pc ctx_b = Some (tt, ctx') ∧ state_at ctx' (ptr pc) = Some pc_s) ∧
   (∃ ctx', PcMerge pc pc0 ctx_b = Some (tt, ctx') ∧ state_at ctx' (ptr pc0) = Some pc_s)) ∧
  ((∃ ctx', HllMerge hll0 hll ctx_b = Some (tt, ctx') ∧
            state_at ctx' (ptr hll) = Some hll_s) ∧
   (∃ ctx', HllMerge hll hll0 ctx_b = Some (tt, ctx') ∧
            state_at ctx' (ptr hll0) = Some hll_s)) ∧
  (StringConcatMerge InitNullString cc ctx_b = Some (cc, ctx_b) ∧
   ∃ r ctx',
     StringConcatMerge cc InitNullString ctx_b = Some (r, ctx') ∧
     is_null r = false ∧ len r = len cc ∧
     allocations ctx' !! ptr r = allocations ctx_b !! ptr cc) ∧
  ((∃ ctx', ReservoirSampleMerge rs0 rs ctx_r = Some (tt, ctx') ∧
            state_at ctx' (ptr rs) = Some rs_s) ∧
   (∃ ctx' merged,
      ReservoirSampleMerge rs rs0 ctx_r = Some (tt, ctx') ∧
      state_at ctx' (ptr rs0) = Some merged ∧
      num_samples merged = num_samples rs_s ∧
      source_size merged = source_size rs_s ∧
      length (samples merged) = length (samples rs_s) ∧
      take (Z.to_nat (num_samples rs_s)) (samples merged)
        ≡ₚ take (Z.to_nat (num_samples rs_s)) (samples rs_s) ∧
      drop (Z.to_nat (num_samples rs_s)) (samples merged)
      = drop (Z.to_nat (num_samples rs_s)) (samples (ReservoirSampleState_default (T:=T))) ∧
      rng merged = rng_default ∧
      (Forall key_ok (take (Z.to_nat (num_samples rs_s)) (samples rs_s)) →
       is_heap SampleKeyGreater (samples merged) (Z.to_nat (num_samples rs_s))))) ∧
  (KnuthVarMerge kv0 kv ctx_k = Some (tt, ctx_k) ∧
   (0 < kv_count kv_s ≤ 2 ^ 53 →
    is_finite (dmul (kv_mean kv_s) (kv_mean kv_s)) = true →
    kv_mean kv_s ≠ S754_zero true → kv_m2 kv_s ≠ S754_zero true →
    ∃ ctx', KnuthVarMerge kv kv0 ctx_k = Some (tt, ctx') ∧
            state_at ctx' (ptr kv0) = Some kv_s)).
Proof.
  intros Hx Hxr Hd Hdr Hv Hts Hdbl Hdblz Havg Havg0 Hsum Hcount Hdavg Hdavg0 Hdnull Hdimage
    Hdcount Hpc Hpc0 Hpclen Hhll Hhll0 Hlhll Hlhll0 Hhlllen Hbytes Hcc Hsep Hccp Hfit
    Hms Hmsa Hmsl Hmsp Hrs Hrs0 Hrsn Hrs0n Hrslen Hrsnum Hrssize Hkv Hkv0.
  destruct (scalar_merge_fresh lt x d v Hx Hxr Hd Hdr Hv) as (Hc1 & Hc2 & Hc3 & Hc4 & Hc5).
  destruct (scalar_merge_fresh_more arg d ts dbl Hd Hts Hdbl Hdblz)
    as (Hm1 & Hm2 & Hm3 & Hm4 & Hm5).
  split; [exact Hc1|]. split; [exact Hc2|]. split; [exact Hc3|].
  split; [exact Hc4|]. split; [exact Hc5|].
  split; [exact Hm1|]. split; [exact Hm2|]. split; [exact Hm3|].
  split; [exact Hm4|]. split; [exact Hm5|].
  split; [exact (MinMax_StringVal_fresh ctx_b ms ms_s Hms Hmsa Hmsl Hmsp)|].
  split; [exact (AvgMerge_fresh ctx_a avg avg0 avg_s Havg Havg0 Hsum Hcount)|].
  split; [exact (DecimalAvgMerge_fresh ctx_d davg davg0 davg_s Hdavg Hdavg0
                   Hdnull Hdimage Hdcount)|].
  split; [exact (PcMerge_fresh ctx_b pc pc0 pc_s Hpc Hpc0 Hpclen)|].
  split; [exact (HllMerge_fresh ctx_b hll hll0 hll_s Hhll Hhll0 Hlhll Hlhll0 Hhlllen Hbytes)|].
  split; [exact (StringConcatMerge_fresh ctx_b cc sep_len payload Hcc Hsep Hccp Hfit)|].
  split; [split|].
  - apply (ReservoirSampleMerge_fresh_src ctx_r rs rs0 rs_s ReservoirSampleState_default);
      try assumption; reflexivity.
  - apply (ReservoirSampleMerge_into_fresh ctx_r rs rs0 rs_s); assumption.
  - split; [exact (KnuthVarMerge_fresh_src ctx_k kv kv0 kv_s Hkv Hkv0)|].
    intros Hkcount Hkfin Hkmean Hkm2.
    exact (KnuthVarMerge_into_fresh ctx_k kv kv0 kv_s Hkv Hkv0 Hkcount Hkfin Hkmean Hkm2).
Qed.

End merge_identity.

(** The merge identities on concrete states. *)
Lemma merge_with_fresh_state_witness :
  CountMerge (mkVal false 0) (mkVal false 5) = mkVal false 5 ∧
  (∃ ctx', AvgMerge (StringVal_of 1 16) (StringVal_of 2 16) avg_pair_ctx = Some (tt, ctx') ∧
           state_at ctx' 2 = Some (mkAvgState (double_of_Z 5) 2)) ∧
  (∃ r ctx',
     StringConcatMerge (StringVal_of 5 6) InitNullString bytes_pair_ctx = Some (r, ctx') ∧
     allocations ctx' !! ptr r = Some (encode_int 1 ++ bytes_of_string "-a")) ∧
  (∃ ctx' merged,
     ReservoirSampleMerge (V:=AnyVal Z) (H:=sample_random)
       (StringVal_of 1 0) (StringVal_of 2 0) reservoir_pair_ctx
     = Some (tt, ctx') ∧
     state_at ctx' 2 = Some merged ∧
     num_samples merged = 2 ∧ source_size merged = 2 ∧
     take 2 (samples merged) ≡ₚ take 2 (samples two_keyed_samples) ∧
     is_heap SampleKeyGreater (samples merged) 2) ∧
  (∃ ctx',
     KnuthVarMerge (StringVal_of 1 24) (StringVal_of 2 24) var_pair_ctx = Some (tt, ctx') ∧
     state_at ctx' 2 = Some (mkKnuthVarianceState (double_of_Z 3) dzero 1)).
Proof.
  destruct (merge_with_fresh_state (T:=IntVal) (H:=numeric_sample) (H0:=sample_random) Z.ltb
              (mkVal false 5) (DecimalVal_of 7) (mkVal false 9)
              decimal38 (mkTimestampVal false 1 2) (mkVal false (double_of_Z 4))
              avg_pair_ctx (StringVal_of 1 16) (StringVal_of 2 16)
              (mkAvgState (double_of_Z 5) 2)
              decimal_avg_pair_ctx (StringVal_of 1 24) (StringVal_of 2 24)
              (mkDecimalAvgState (mkDecimalVal false 7) 3)
              bytes_pair_ctx (StringVal_of 1 256) (StringVal_of 2 256)
              (StringVal_of 3 1024) (StringVal_of 4 1024) (StringVal_of 5 6)
              (StringVal_of 1 256)
              (replicate 256 1) (replicate 1024 3) (bytes_of_string "-a")
              (replicate 256 1) 1
              reservoir_pair_ctx (StringVal_of 1 0) (StringVal_of 2 0) two_keyed_samples
              var_pair_ctx (StringVal_of 1 24) (StringVal_of 2 24)
              (mkKnuthVarianceState (double_of_Z 3) dzero 1))
    as (Hcount & _ & _ & _ & _ & _ & _ & _ & _ & _ & _ & (_ & Havg) & _ & _ & _
        & (_ & Hconcat) & (_ & Hres) & (_ & Hvar));
    try solve [ reflexivity | discriminate | vm_compute; discriminate
              | vm_compute; split; (reflexivity || discriminate)
              | apply Forall_replicate; lia | repeat split ].
  split; [apply Hcount|]. split; [exact Havg|]. split; [|split].
  - destruct Hconcat as (r & ctx' & Hrun & _ & _ & Hbytes).
    exists r, ctx'. split; [exact Hrun|]. rewrite Hbytes. reflexivity.
  - destruct Hres as (ctx' & merged & Hrun & Hat & Hnum & Hsize & _ & Hperm & _ & _ & Hheap).
    exists ctx', merged. split; [exact Hrun|]. split; [exact Hat|].
    split; [exact Hnum|]. split; [exact Hsize|]. split; [exact Hperm|].
    apply Hheap. repeat constructor; vm_compute; discriminate.
  - apply Hvar; [vm_compute; split; (reflexivity || discriminate)|reflexivity| |];
      vm_compute; discriminate.
Defined.

(** ** Finalize: the functions that release the state *)

(** What each step of a finalize does to the set of allocated buffers. *)
Lemma load_inv {S} p (ctx ctx' : FunctionContext S) s :
  load p ctx = Some (s, ctx') → ctx' = ctx.
Proof. unfold load. destruct (state_at ctx p); [|discriminate]. congruence. Qed.

Lemma Free_inv {S} p (ctx ctx' : FunctionContext S) u :
  p ≠ NULL → Free p ctx = Some (u, ctx') →
  allocations ctx' = delete p (allocations ctx).
Proof.
  intros Hp. unfold Free. destruct (Z.eqb_spec p NULL); [contradiction|].
  destruct (allocations ctx !! p); [|discriminate]. intros [= _ <-]. reflexivity.
Qed.

Lemma store_inv {S} p s (ctx ctx' : FunctionContext S) u :
  is_Some (allocations ctx !! p) → store p s ctx = Some (u, ctx') →
  allocations ctx' = <[p := s]> (allocations ctx).
Proof.
  intros [x Hx]. unfold store. rewrite Hx. intros [= _ <-]. reflexivity.
Qed.

Lemma StringVal_copy_inv {S} str (ctx ctx' : FunctionContext S) r :
  StringVal_copy str ctx = Some (r, ctx') → allocations ctx' = allocations ctx.
Proof. rewrite StringVal_copy_run. intros [= _ <-]. reflexivity. Qed.

(** A finalize of the shape: compute a value from the state without
    touching the context, release, hand the value back. *)
Lemma finalize_get_free {S A} (get : M S A) (p : Z) (ctx ctx' : FunctionContext S) r :
  (∀ c a c', get c = Some (a, c') → allocations c' = allocations c) →
  p ≠ NULL →
  (result ← get; Free p;; mret result) ctx = Some (r, ctx') →
  allocations ctx' = delete p (allocations ctx).
Proof.
  intros Hget Hp. rewrite bind_run.
  destruct (get ctx) as [[a c]|] eqn:Hg; [|discriminate].
  apply Hget in Hg. rewrite bind_run.
  destruct (Free p c) as [[u c2]|] eqn:Hf; [|discriminate].
  intros [= _ <-]. rewrite (Free_inv _ _ _ _ Hp Hf), Hg. reflexivity.
Qed.

(** A finalize of the shape: read the state, release, build the result. *)
Lemma finalize_load_free {S A} (k : S → M S A) (p : Z) (ctx ctx' : FunctionContext S) r :
  (∀ s c a c', k s c = Some (a, c') → allocations c' = allocations c) →
  p ≠ NULL →
  (state ← load p; Free p;; k state) ctx = Some (r, ctx') →
  allocations ctx' = delete p (allocations ctx).
Proof.
  intros Hk Hp. rewrite bind_run.
  destruct (load p ctx) as [[s c]|] eqn:Hl; [|discriminate].
  apply load_inv in Hl. subst c. rewrite bind_run.
  destruct (Free p ctx) as [[u c]|] eqn:Hf; [|discriminate].
  intros Hrun. rewrite (Hk _ _ _ _ Hrun). exact (Free_inv _ _ _ _ Hp Hf).
Qed.

Lemma variance_result_inv `{ValueLibrary} (pop : bool) (root : bool) s
    (c c' : FunctionContext KnuthVarianceState) a :
  (if kv_count s =? 0 then mret StringVal_null
   else ToStringVal (if root then dsqrt (ComputeKnuthVariance s pop)
                     else ComputeKnuthVariance s pop)) c = Some (a, c') →
  allocations c' = allocations c.
Proof.
  destruct (kv_count s =? 0).
  - intros [= _ <-]. reflexivity.
  - unfold ToStringVal. apply StringVal_copy_inv.
Qed.

(** Every finalize but [KnuthVarFinalize] releases the buffer of the state
    it is given, and no other. *)
Lemma finalize_releases `{ValueLibrary} :
  (∀ src ctx r ctx', ptr src ≠ NULL → AvgFinalize src ctx = Some (r, ctx') →
     allocations ctx' = delete (ptr src) (allocations ctx)) ∧
  (∀ src ctx r ctx', ptr src ≠ NULL → TimestampAvgFinalize src ctx = Some (r, ctx') →
     allocations ctx' = delete (ptr src) (allocations ctx)) ∧
  (∀ src ctx r ctx', ptr src ≠ NULL → DecimalAvgFinalize src ctx = Some (r, ctx') →
     allocations ctx' = delete (ptr src) (allocations ctx)) ∧
  (∀ src ctx r ctx', ptr src ≠ NULL → KnuthVarPopFinalize src ctx = Some (r, ctx') →
     allocations ctx' = delete (ptr src) (allocations ctx)) ∧
  (∀ src ctx r ctx', ptr src ≠ NULL → KnuthStddevFinalize src ctx = Some (r, ctx') →
     allocations ctx' = delete (ptr src) (allocations ctx)) ∧
  (∀ src ctx r ctx', ptr src ≠ NULL → KnuthStddevPopFinalize src ctx = Some (r, ctx') →
     allocations ctx' = delete (ptr src) (allocations ctx)) ∧
  (∀ src ctx r ctx', ptr src ≠ NULL → RankFinalize src ctx = Some (r, ctx') →
     allocations ctx' = delete (ptr src) (allocations ctx)).
Proof.
  split; [|split; [|split; [|split; [|split; [|split]]]]]; intros src ctx r ctx' Hp.
  - apply finalize_get_free; [|exact Hp].
    intros c a c'. unfold AvgGetValue. rewrite bind_run.
    destruct (load (ptr src) c) as [[s c1]|] eqn:Hl; [|discriminate].
    apply load_inv in Hl. subst c1. destruct (avg_count s =? 0); intros [= _ <-]; reflexivity.
  - apply finalize_get_free; [|exact Hp].
    intros c a c'. unfold TimestampAvgGetValue. rewrite bind_run.
    destruct (load (ptr src) c) as [[s c1]|] eqn:Hl; [|discriminate].
    apply load_inv in Hl. subst c1. destruct (avg_count s =? 0); intros [= _ <-]; reflexivity.
  - apply finalize_get_free; [|exact Hp].
    intros c a c'. unfold DecimalAvgGetValue. rewrite bind_run.
    destruct (load (ptr src) c) as [[s c1]|] eqn:Hl; [|discriminate].
    apply load_inv in Hl. subst c1.
    destruct (davg_count s =? 0); [intros [= _ <-]; reflexivity|].
    rewrite bind_run. unfold GetReturnType.
    destruct (Divide _ _ _ _) as [[q is_nan] overflow].
    destruct is_nan; [intros [= _ <-]; reflexivity|].
    destruct overflow; intros [= _ <-]; reflexivity.
  - apply (finalize_load_free
             (λ state, if kv_count state =? 0 then mret StringVal_null
                       else ToStringVal (ComputeKnuthVariance state true))); [|exact Hp].
    intros s c a c'. apply (variance_result_inv true false).
  - apply (finalize_load_free
             (λ state, if kv_count state =? 0 then mret StringVal_null
                       else ToStringVal (dsqrt (ComputeKnuthVariance state false)))); [|exact Hp].
    intros s c a c'. apply (variance_result_inv false true).
  - apply (finalize_load_free
             (λ state, if kv_count state =? 0 then mret StringVal_null
                       else ToStringVal (dsqrt (ComputeKnuthVariance state true)))); [|exact Hp].
    intros s c a c'. apply (variance_result_inv true true).
  - apply (finalize_load_free (λ state, mret (mkVal false (rank state)))); [|exact Hp].
    intros s c a c'. intros [= _ <-]. reflexivity.
Qed.

Lemma DistinceEstimateFinalize_inv `{ValueLibrary} src (c c' : FunctionContext (list Z)) a :
  DistinceEstimateFinalize src c = Some (a, c') → c' = c.
Proof.
  unfold DistinceEstimateFinalize. rewrite bind_run.
  destruct (load (ptr src) c) as [[s c1]|] eqn:Hl; [|discriminate].
  apply load_inv in Hl. subst c1.
  destruct (is_empty_loop _ _ _); [intros [= _ <-]; reflexivity|].
  destruct (sum_rows_loop _ _ _ _); [|discriminate]. intros [= _ <-]; reflexivity.
Qed.

Lemma free_then_copy_inv {S} p str (ctx ctx' : FunctionContext S) r :
  p ≠ NULL → (Free p;; StringVal_copy str) ctx = Some (r, ctx') →
  allocations ctx' = delete p (allocations ctx).
Proof.
  intros Hp. rewrite bind_run.
  destruct (Free p ctx) as [[u c]|] eqn:Hf; [|discriminate].
  intros Hcopy. rewrite (StringVal_copy_inv _ _ _ _ Hcopy). exact (Free_inv _ _ _ _ Hp Hf).
Qed.

Lemma copy_then_free_inv {S} p str (ctx ctx' : FunctionContext S) r :
  p ≠ NULL →
  (result_str ← StringVal_copy str; Free p;; mret result_str) ctx = Some (r, ctx') →
  allocations ctx' = delete p (allocations ctx).
Proof.
  intros Hp. apply finalize_get_free; [|exact Hp].
  intros c a c'. apply StringVal_copy_inv.
Qed.

(** The same for the operators over raw buffers. *)
Lemma finalize_releases_buffer `{ValueLibrary} :
  (∀ src ctx r ctx', ptr src ≠ NULL → is_null src = false →
     StringConcatFinalize src ctx = Some (r, ctx') →
     allocations ctx' = delete (ptr src) (allocations ctx)) ∧
  (∀ src ctx r ctx', ptr src ≠ NULL →
     StringValSerializeOrFinalize src ctx = Some (r, ctx') →
     allocations ctx' = delete (ptr src) (allocations ctx)) ∧
  (∀ src ctx r ctx', ptr src ≠ NULL → PcFinalize src ctx = Some (r, ctx') →
     allocations ctx' = delete (ptr src) (allocations ctx)) ∧
  (∀ src ctx r ctx', ptr src ≠ NULL → PcsaFinalize src ctx = Some (r, ctx') →
     allocations ctx' = delete (ptr src) (allocations ctx)) ∧
  (∀ src ctx r ctx', ptr src ≠ NULL → HllFinalize src ctx = Some (r, ctx') →
     allocations ctx' = delete (ptr src) (allocations ctx)).
Proof.
  split; [|split; [|split; [|split]]]; intros src ctx r ctx' Hp.
  - intros Hnull. unfold StringConcatFinalize. rewrite Hnull, bind_run.
    destruct (read_header (ptr src) ctx) as [[h c]|] eqn:Hh; [|discriminate].
    assert (c = ctx) as ->.
    { revert Hh. unfold read_header. rewrite bind_run.
      destruct (load (ptr src) ctx) as [[s c1]|] eqn:Hl; [|discriminate].
      apply load_inv in Hl. subst c1.
      destruct (_ <=? _); [|discriminate]. intros [= _ <-]. reflexivity. }
    rewrite bind_run. unfold StringVal_local at 1. rewrite bind_run.
    match goal with |- context [read_bytes src ?c] =>
      destruct (read_bytes src c) as [[bs c1]|] eqn:Hr; [|discriminate];
      assert (c1 = c) as ->
    end.
    { revert Hr. unfold read_bytes, read_string.
      repeat (match goal with |- context [match ?x with _ => _ end] => destruct x end;
              try discriminate); intros [= _ <-]; reflexivity. }
    rewrite bind_run. unfold memcpy_local. ctx_simpl. rewrite lookup_insert_eq.
    rewrite bind_run.
    match goal with |- context [Free (ptr src) ?c] =>
      destruct (Free (ptr src) c) as [[u c2]|] eqn:Hf; [|discriminate]
    end.
    intros [= _ <-]. rewrite (Free_inv _ _ _ _ Hp Hf). reflexivity.
  - apply finalize_get_free; [|exact Hp].
    intros c a c'. unfold StringValGetValue.
    destruct (is_null src); [intros [= _ <-]; reflexivity|].
    rewrite bind_run. unfold StringVal_local at 1. rewrite bind_run.
    match goal with |- context [read_bytes src ?c0] =>
      destruct (read_bytes src c0) as [[bs c1]|] eqn:Hr; [|discriminate];
      assert (c1 = c0) as ->
    end.
    { revert Hr. unfold read_bytes, read_string.
      repeat (match goal with |- context [match ?x with _ => _ end] => destruct x end;
              try discriminate); intros [= _ <-]; reflexivity. }
    rewrite bind_run. unfold memcpy_local. ctx_simpl. rewrite lookup_insert_eq.
    intros [= _ <-]. reflexivity.
  - unfold PcFinalize. rewrite bind_run.
    destruct (DistinceEstimateFinalize src ctx) as [[e c]|] eqn:He; [|discriminate].
    apply DistinceEstimateFinalize_inv in He. subst c.
    apply free_then_copy_inv. exact Hp.
  - unfold PcsaFinalize. rewrite bind_run.
    destruct (DistinceEstimateFinalize src ctx) as [[e c]|] eqn:He; [|discriminate].
    apply DistinceEstimateFinalize_inv in He. subst c.
    apply free_then_copy_inv. exact Hp.
  - unfold HllFinalize. rewrite bind_run.
    destruct (load (ptr src) ctx) as [[s c1]|] eqn:Hl; [|discriminate].
    apply load_inv in Hl. subst c1.
    destruct (HllFinalize_loop _ _ _ _ _) as [harmonic_mean num_zero_registers].
    apply free_then_copy_inv. exact Hp.
Qed.

Section reservoir_finalize.
Context {T : Type} `{SampleType T} `{RandomSource} `{ValueLibrary}.

(** And for the finalize functions of the reservoir. *)
Lemma finalize_releases_reservoir :
  (∀ src ctx r ctx', ptr src ≠ NULL → ReservoirSampleFinalize src ctx = Some (r, ctx') →
     allocations ctx' = delete (ptr src) (allocations ctx)) ∧
  (∀ src ctx r ctx', ptr src ≠ NULL → HistogramFinalize src ctx = Some (r, ctx') →
     allocations ctx' = delete (ptr src) (allocations ctx)) ∧
  (∀ src ctx r ctx', ptr src ≠ NULL → AppxMedianFinalize src ctx = Some (r, ctx') →
     allocations ctx' = delete (ptr src) (allocations ctx)).
Proof.
  assert (Hsorted : ∀ src ctx str r ctx' (s : ReservoirSampleState sample_val),
            ptr src ≠ NULL →
            (store (ptr src) s;;
             result_str ← StringVal_copy str; Free (ptr src);; mret result_str) ctx
            = Some (r, ctx') →
            allocations ctx' = delete (ptr src) (allocations ctx)).
  { intros src ctx str r ctx' s Hp. rewrite bind_run. unfold store.
    destruct (allocations ctx !! ptr src) as [old|] eqn:Hold.
    - intros Hrun. apply copy_then_free_inv in Hrun; [|exact Hp].
      rewrite Hrun. ctx_simpl. apply delete_insert_eq.
    - destruct (local_states ctx !! ptr src); [|discriminate].
      rewrite bind_run, StringVal_copy_run. rewrite bind_run. unfold Free.
      destruct (Z.eqb_spec (ptr src) NULL); [contradiction|].
      ctx_simpl. rewrite Hold. discriminate. }
  split; [|split]; intros src ctx r ctx' Hp.
  - unfold ReservoirSampleFinalize. rewrite bind_run.
    destruct (load (ptr src) ctx) as [[s c1]|] eqn:Hl; [|discriminate].
    apply load_inv in Hl. subst c1.
    destruct (print_samples_loop _ _ _ _ _); [|discriminate].
    apply copy_then_free_inv. exact Hp.
  - unfold HistogramFinalize. rewrite bind_run.
    destruct (load (ptr src) ctx) as [[s c1]|] eqn:Hl; [|discriminate].
    apply load_inv in Hl. subst c1.
    destruct (print_buckets_loop _ _ _ _ _ _) as [out|] eqn:Hout.
    + apply Hsorted. exact Hp.
    + rewrite bind_run. destruct (store _ _ ctx) as [[u c]|]; discriminate.
  - unfold AppxMedianFinalize. rewrite bind_run.
    destruct (load (ptr src) ctx) as [[s c1]|] eqn:Hl; [|discriminate].
    apply load_inv in Hl. subst c1.
    destruct (samples (sort_samples s) !! _) as [m|] eqn:Hm.
    + apply Hsorted. exact Hp.
    + rewrite bind_run. destruct (store _ _ ctx) as [[u c]|]; discriminate.
Qed.

End reservoir_finalize.

(** * Further properties *)

(** ** Count, sum, minimum and maximum over a sequence of inputs *)

Lemma to_int64_add_l a b : to_int64 (to_int64 a + b) = to_int64 (a + b).
Proof.
  unfold to_int64, swrap.
  replace ((a + 2 ^ (64 - 1)) mod 2 ^ 64 - 2 ^ (64 - 1) + b + 2 ^ (64 - 1))
    with ((a + 2 ^ (64 - 1)) mod 2 ^ 64 + b) by lia.
  rewrite Zplus_mod_idemp_l. f_equal. f_equal. lia.
Qed.

Lemma to_int64_add_r a b : to_int64 (a + to_int64 b) = to_int64 (a + b).
Proof. rewrite (Z.add_comm a), to_int64_add_l. f_equal. lia. Qed.

Lemma to_int64_idem a : to_int64 (to_int64 a) = to_int64 a.
Proof. rewrite to_int64_small; [reflexivity|apply to_int64_range]. Qed.

Lemma count_all_from {T} `{Nullable T} (xs : list T) (dst : BigIntVal) :
  - 2 ^ 63 ≤ val dst < 2 ^ 63 →
  count_all xs dst = mkVal (av_is_null dst) (to_int64 (val dst + count_non_null xs)).
Proof.
  revert dst. induction xs as [|x xs IH]; intros dst Hdst.
  - cbn [count_all foldl count_non_null]. rewrite Z.add_0_r, to_int64_small by exact Hdst.
    destruct dst; reflexivity.
  - cbn [count_all foldl count_non_null]. fold (count_all xs (CountUpdate x dst)).
    unfold CountUpdate. destruct (is_null x); cbn [negb].
    + rewrite IH by exact Hdst. reflexivity.
    + rewrite IH by apply to_int64_range. cbn [av_is_null val].
      rewrite to_int64_add_l. f_equal. f_equal. lia.
Qed.

(** X1.  Starting from the zero of [InitZero], [CountUpdate] over a sequence
    of inputs leaves the number of its non-null inputs (as an [int64_t]);
    [CountStarUpdate] counts every row; and merging the counts of two
    sequences gives the count of their concatenation. *)
Theorem count_all_counts {T} `{Nullable T} (xs ys : list T) (rows : nat) (dst : BigIntVal) :
  count_all xs (InitZero 0 dst) = mkVal false (to_int64 (count_non_null xs)) ∧
  count_star_all rows (InitZero 0 dst) = mkVal false (to_int64 (Z.of_nat rows)) ∧
  CountMerge (count_all ys (InitZero 0 dst)) (count_all xs (InitZero 0 dst))
  = count_all (xs ++ ys) (InitZero 0 dst).
Proof.
  assert (Hcount : ∀ zs : list T,
            count_all zs (InitZero 0 dst) = mkVal false (to_int64 (count_non_null zs))).
  { intros zs. rewrite count_all_from by (cbn; lia). reflexivity. }
  split; [apply Hcount|]. split.
  - induction rows as [|n IH]; [reflexivity|].
    change (count_star_all (Datatypes.S n) (InitZero 0 dst))
      with (CountStarUpdate (count_star_all n (InitZero 0 dst))).
    rewrite IH. unfold CountStarUpdate. cbn [av_is_null val]. rewrite to_int64_add_l.
    f_equal. f_equal. lia.
  - rewrite !Hcount. unfold CountMerge. cbn [av_is_null val].
    rewrite to_int64_add_l, to_int64_add_r. f_equal. f_equal.
    clear. induction xs as [|x xs IH]; cbn [app count_non_null]; lia.
Qed.

Lemma sum_non_null_app xs ys : sum_non_null (xs ++ ys) = sum_non_null xs + sum_non_null ys.
Proof. induction xs as [|x xs IH]; cbn [app sum_non_null]; lia. Qed.

Lemma all_null_app {T} `{Nullable T} (xs ys : list T) :
  all_null (xs ++ ys) = all_null xs && all_null ys.
Proof. apply forallb_app. Qed.

Lemma sum_all_app xs ys dst : sum_all (xs ++ ys) dst = sum_all ys (sum_all xs dst).
Proof. apply foldl_app. Qed.

Lemma sum_all_from xs : ∀ dv : Z,
  - 2 ^ 63 ≤ dv < 2 ^ 63 →
  sum_all xs (mkVal false dv) = mkVal false (to_int64 (dv + sum_non_null xs)).
Proof.
  induction xs as [|[xn xv] xs IH]; intros dv Hv.
  - cbn [sum_all foldl sum_non_null]. rewrite Z.add_0_r, to_int64_small by exact Hv.
    reflexivity.
  - cbn [sum_all foldl sum_non_null].
    fold (sum_all xs (Sum_BigIntVal (mkVal xn xv) (mkVal false dv))).
    unfold Sum_BigIntVal, Sum. cbn [is_null AnyVal_nullable av_is_null val]. destruct xn.
    + rewrite IH by exact Hv. reflexivity.
    + rewrite IH by apply to_int64_range. rewrite to_int64_add_l. f_equal. f_equal. lia.
Qed.

Lemma sum_all_from_null xs : ∀ dv : Z,
  sum_all xs (mkVal true dv)
  = if all_null xs then mkVal true dv else mkVal false (to_int64 (sum_non_null xs)).
Proof.
  induction xs as [|[xn xv] xs IH]; intros dv; [reflexivity|].
  cbn [sum_all foldl sum_non_null all_null forallb].
  fold (sum_all xs (Sum_BigIntVal (mkVal xn xv) (mkVal true dv))). fold (all_null xs).
  unfold Sum_BigIntVal, Sum. cbn [is_null AnyVal_nullable av_is_null val InitZero].
  destruct xn; cbn [andb].
  - apply IH.
  - rewrite sum_all_from by apply to_int64_range. rewrite to_int64_add_l. reflexivity.
Qed.

Lemma all_null_sum xs : all_null xs = true → sum_non_null xs = 0.
Proof.
  induction xs as [|[xn xv] xs IH]; [reflexivity|].
  cbn [all_null forallb sum_non_null is_null AnyVal_nullable av_is_null].
  intros [Hx Hxs]%andb_prop. rewrite Hx. rewrite IH by exact Hxs. reflexivity.
Qed.

(** X2.  Starting from the null of [InitNull], [Sum] over 64-bit integers
    stays null while every input is null and is otherwise the sum of the
    non-null inputs, wrapped to an [int64_t]; summing the sum of one
    sequence into the sum of another gives the sum of their
    concatenation. *)
Theorem sum_all_sums (xs ys : list BigIntVal) (dst : BigIntVal) :
  sum_all xs (InitNull dst)
  = (if all_null xs then InitNull dst else mkVal false (to_int64 (sum_non_null xs))) ∧
  Sum_BigIntVal (sum_all ys (InitNull dst)) (sum_all xs (InitNull dst))
  = sum_all (xs ++ ys) (InitNull dst).
Proof.
  unfold InitNull. split; [apply sum_all_from_null|].
  rewrite !sum_all_from_null.
  rewrite all_null_app, sum_non_null_app.
  destruct (all_null xs) eqn:Hx, (all_null ys) eqn:Hy; cbn [andb];
    unfold Sum_BigIntVal, Sum, InitZero;
    cbn [is_null AnyVal_nullable av_is_null val].
  - reflexivity.
  - rewrite (all_null_sum xs Hx). rewrite Z.add_0_l, to_int64_idem. reflexivity.
  - rewrite (all_null_sum ys Hy). rewrite Z.add_0_r. reflexivity.
  - rewrite to_int64_add_l, to_int64_add_r. reflexivity.
Qed.

(** ** Minimum and maximum *)

Lemma min_all_from xs : ∀ d : Z,
  min_all xs (mkVal false d)
  = mkVal false (match least_non_null xs with Some m => Z.min d m | None => d end).
Proof.
  induction xs as [|[xn xv] xs IH]; intros d; [reflexivity|].
  cbn [min_all foldl least_non_null]. fold (min_all xs (Min Z.ltb (mkVal xn xv) (mkVal false d))).
  unfold Min. cbn [is_null AnyVal_nullable av_is_null val orb]. destruct xn.
  - apply IH.
  - destruct (Z.ltb_spec xv d); rewrite IH; f_equal; destruct (least_non_null xs); lia.
Qed.

Lemma max_all_from xs : ∀ d : Z,
  max_all xs (mkVal false d)
  = mkVal false (match greatest_non_null xs with Some m => Z.max d m | None => d end).
Proof.
  induction xs as [|[xn xv] xs IH]; intros d; [reflexivity|].
  cbn [max_all foldl greatest_non_null]. fold (max_all xs (Max Z.ltb (mkVal xn xv) (mkVal false d))).
  unfold Max. cbn [is_null AnyVal_nullable av_is_null val orb]. destruct xn.
  - apply IH.
  - destruct (Z.ltb_spec d xv); rewrite IH; f_equal; destruct (greatest_non_null xs); lia.
Qed.

Lemma min_all_from_null xs : ∀ dst,
  is_null dst = true →
  min_all xs dst = match least_non_null xs with Some m => mkVal false m | None => dst end.
Proof.
  induction xs as [|[xn xv] xs IH]; intros [dn dv] Hn; cbn in Hn; subst dn; [reflexivity|].
  cbn [min_all foldl least_non_null]. fold (min_all xs (Min Z.ltb (mkVal xn xv) (mkVal true dv))).
  unfold Min. cbn [is_null AnyVal_nullable av_is_null val orb]. destruct xn.
  - apply IH. reflexivity.
  - rewrite min_all_from. reflexivity.
Qed.

Lemma max_all_from_null xs : ∀ dst,
  is_null dst = true →
  max_all xs dst = match greatest_non_null xs with Some m => mkVal false m | None => dst end.
Proof.
  induction xs as [|[xn xv] xs IH]; intros [dn dv] Hn; cbn in Hn; subst dn; [reflexivity|].
  cbn [max_all foldl greatest_non_null]. fold (max_all xs (Max Z.ltb (mkVal xn xv) (mkVal true dv))).
  unfold Max. cbn [is_null AnyVal_nullable av_is_null val orb]. destruct xn.
  - apply IH. reflexivity.
  - rewrite max_all_from. reflexivity.
Qed.

Lemma least_non_null_spec xs m :
  least_non_null xs = Some m →
  (∃ x, x ∈ xs ∧ is_null x = false ∧ val x = m) ∧
  (∀ x, x ∈ xs → is_null x = false → m ≤ val x).
Proof.
  revert m. induction xs as [|[xn xv] xs IH]; intros m; [discriminate|].
  cbn [least_non_null is_null AnyVal_nullable av_is_null val]. destruct xn.
  - intros Hm. destruct (IH m Hm) as [(x & Hin & Hx) Hle]. split.
    + exists x. split; [right; exact Hin|exact Hx].
    + intros y [->|Hy]%elem_of_cons Hnull; [discriminate|]. apply Hle; assumption.
  - destruct (least_non_null xs) as [m'|] eqn:Hrest; intros [= <-].
    + destruct (IH m' eq_refl) as [(x & Hin & Hx & Hv) Hle]. split.
      * destruct (Z.le_ge_cases xv m').
        -- exists (mkVal false xv). rewrite Z.min_l by assumption.
           split; [left|split; reflexivity].
        -- exists x. rewrite Z.min_r by assumption. split; [right; exact Hin|split; assumption].
      * intros y [->|Hy]%elem_of_cons Hnull; cbn [val]; [lia|].
        specialize (Hle y Hy Hnull). lia.
    + split.
      * exists (mkVal false xv). split; [left|split; reflexivity].
      * intros y [->|Hy]%elem_of_cons Hnull; cbn [val]; [lia|].
        exfalso. clear IH. induction xs as [|[zn zv] xs IHxs]; [inversion Hy|].
        cbn [least_non_null is_null AnyVal_nullable av_is_null] in Hrest.
        destruct zn; [|discriminate].
        apply elem_of_cons in Hy as [->|Hy]; [discriminate|]. apply IHxs; assumption.
Qed.

Lemma greatest_non_null_spec xs m :
  greatest_non_null xs = Some m →
  (∃ x, x ∈ xs ∧ is_null x = false ∧ val x = m) ∧
  (∀ x, x ∈ xs → is_null x = false → val x ≤ m).
Proof.
  revert m. induction xs as [|[xn xv] xs IH]; intros m; [discriminate|].
  cbn [greatest_non_null is_null AnyVal_nullable av_is_null val]. destruct xn.
  - intros Hm. destruct (IH m Hm) as [(x & Hin & Hx) Hle]. split.
    + exists x. split; [right; exact Hin|exact Hx].
    + intros y [->|Hy]%elem_of_cons Hnull; [discriminate|]. apply Hle; assumption.
  - destruct (greatest_non_null xs) as [m'|] eqn:Hrest; intros [= <-].
    + destruct (IH m' eq_refl) as [(x & Hin & Hx & Hv) Hle]. split.
      * destruct (Z.le_ge_cases m' xv).
        -- exists (mkVal false xv). rewrite Z.max_l by assumption.
           split; [left|split; reflexivity].
        -- exists x. rewrite Z.max_r by assumption. split; [right; exact Hin|split; assumption].
      * intros y [->|Hy]%elem_of_cons Hnull; cbn [val]; [lia|].
        specialize (Hle y Hy Hnull). lia.
    + split.
      * exists (mkVal false xv). split; [left|split; reflexivity].
      * intros y [->|Hy]%elem_of_cons Hnull; cbn [val]; [lia|].
        exfalso. clear IH. induction xs as [|[zn zv] xs IHxs]; [inversion Hy|].
        cbn [greatest_non_null is_null AnyVal_nullable av_is_null] in Hrest.
        destruct zn; [|discriminate].
        apply elem_of_cons in Hy as [->|Hy]; [discriminate|]. apply IHxs; assumption.
Qed.

Lemma least_non_null_app xs ys :
  least_non_null (xs ++ ys)
  = match least_non_null xs, least_non_null ys with
    | Some a, Some b => Some (Z.min a b)
    | Some a, None => Some a
    | None, r => r
    end.
Proof.
  induction xs as [|[xn xv] xs IH]; cbn [app least_non_null is_null AnyVal_nullable av_is_null val].
  - destruct (least_non_null ys); reflexivity.
  - destruct xn; [exact IH|]. rewrite IH.
    destruct (least_non_null xs), (least_non_null ys); f_equal; lia.
Qed.

Lemma greatest_non_null_app xs ys :
  greatest_non_null (xs ++ ys)
  = match greatest_non_null xs, greatest_non_null ys with
    | Some a, Some b => Some (Z.max a b)
    | Some a, None => Some a
    | None, r => r
    end.
Proof.
  induction xs as [|[xn xv] xs IH];
    cbn [app greatest_non_null is_null AnyVal_nullable av_is_null val].
  - destruct (greatest_non_null ys); reflexivity.
  - destruct xn; [exact IH|]. rewrite IH.
    destruct (greatest_non_null xs), (greatest_non_null ys); f_equal; lia.
Qed.

(** X3.  Starting from the null of [InitNull], [Min] over 64-bit integers
    stays null while every input is null; otherwise it is non-null, one of
    the non-null inputs, and no non-null input is below it.  Taking the
    minimum of two partial minima gives the minimum of the concatenated
    inputs. *)
Theorem min_all_least (xs ys : list BigIntVal) (dst : BigIntVal) :
  (all_null xs = true → min_all xs (InitNull dst) = InitNull dst) ∧
  (all_null xs = false →
     is_null (min_all xs (InitNull dst)) = false ∧
     min_all xs (InitNull dst) ∈ xs ∧
     ∀ x, x ∈ xs → is_null x = false → val (min_all xs (InitNull dst)) ≤ val x) ∧
  Min Z.ltb (min_all ys (InitNull dst)) (min_all xs (InitNull dst))
  = min_all (xs ++ ys) (InitNull dst).
Proof.
  assert (Hnone : ∀ zs : list BigIntVal, all_null zs = true ↔ least_non_null zs = None).
  { induction zs as [|[zn zv] zs IH]; [split; reflexivity|].
    cbn [all_null forallb least_non_null is_null AnyVal_nullable av_is_null].
    destruct zn; cbn [andb]; [exact IH|split; discriminate]. }
  rewrite !min_all_from_null by reflexivity. split; [|split].
  - intros Hx. apply Hnone in Hx. rewrite Hx. reflexivity.
  - intros Hx. destruct (least_non_null xs) as [m|] eqn:Hm.
    + destruct (least_non_null_spec xs m Hm) as [(x & Hin & Hnull & Hv) Hle].
      split; [reflexivity|]. split; [|exact Hle].
      destruct x as [xn xv]. cbn in Hnull, Hv. subst. exact Hin.
    + apply Hnone in Hm. congruence.
  - rewrite least_non_null_app.
    destruct (least_non_null xs) as [a|], (least_non_null ys) as [b|];
      unfold Min, InitNull; cbn [is_null AnyVal_nullable av_is_null val orb]; try reflexivity.
    destruct (Z.ltb_spec b a); f_equal; lia.
Qed.

(** X4.  The same for [Max]: null while every input is null, otherwise a
    non-null input that no non-null input exceeds; the maximum of two
    partial maxima is the maximum of the concatenated inputs. *)
Theorem max_all_greatest (xs ys : list BigIntVal) (dst : BigIntVal) :
  (all_null xs = true → max_all xs (InitNull dst) = InitNull dst) ∧
  (all_null xs = false →
     is_null (max_all xs (InitNull dst)) = false ∧
     max_all xs (InitNull dst) ∈ xs ∧
     ∀ x, x ∈ xs → is_null x = false → val x ≤ val (max_all xs (InitNull dst))) ∧
  Max Z.ltb (max_all ys (InitNull dst)) (max_all xs (InitNull dst))
  = max_all (xs ++ ys) (InitNull dst).
Proof.
  assert (Hnone : ∀ zs : list BigIntVal, all_null zs = true ↔ greatest_non_null zs = None).
  { induction zs as [|[zn zv] zs IH]; [split; reflexivity|].
    cbn [all_null forallb greatest_non_null is_null AnyVal_nullable av_is_null].
    destruct zn; cbn [andb]; [exact IH|split; discriminate]. }
  rewrite !max_all_from_null by reflexivity. split; [|split].
  - intros Hx. apply Hnone in Hx. rewrite Hx. reflexivity.
  - intros Hx. destruct (greatest_non_null xs) as [m|] eqn:Hm.
    + destruct (greatest_non_null_spec xs m Hm) as [(x & Hin & Hnull & Hv) Hle].
      split; [reflexivity|]. split; [|exact Hle].
      destruct x as [xn xv]. cbn in Hnull, Hv. subst. exact Hin.
    + apply Hnone in Hm. congruence.
  - rewrite greatest_non_null_app.
    destruct (greatest_non_null xs) as [a|], (greatest_non_null ys) as [b|];
      unfold Max, InitNull; cbn [is_null AnyVal_nullable av_is_null val orb]; try reflexivity.
    destruct (Z.ltb_spec a b); f_equal; lia.
Qed.

(** X5.  With doubles, [Min] and [Max] compare with [<] and [>], which a NaN
    never satisfies: a state holding NaN is never replaced, and a NaN input
    replaces nothing but a null state.  The result depends on the order of
    the inputs. *)
Theorem min_max_nan (src dst : DoubleVal) (x : double) :
  Min dltb src (mkVal false S754_nan) = mkVal false S754_nan ∧
  Max dltb src (mkVal false S754_nan) = mkVal false S754_nan ∧
  Min dltb (mkVal false S754_nan) (mkVal false x) = mkVal false x ∧
  Max dltb (mkVal false S754_nan) (mkVal false x) = mkVal false x ∧
  Min dltb (mkVal false S754_nan) (InitNull dst) = mkVal false S754_nan ∧
  Max dltb (mkVal false S754_nan) (InitNull dst) = mkVal false S754_nan.
Proof.
  assert (Hl : ∀ y : double, dltb y S754_nan = false).
  { intros y. destruct y as [[|]|[|]| |[|] m e]; reflexivity. }
  assert (Hr : ∀ y : double, dltb S754_nan y = false).
  { intros y. destruct y as [[|]|[|]| |[|] m e]; reflexivity. }
  destruct src as [[|] sv]; unfold Min, Max, InitNull;
    cbn [is_null AnyVal_nullable av_is_null val]; rewrite ?Hl, ?Hr; cbn [orb]; repeat split.
Qed.

(** ** States behind a pointer *)

Lemma set_allocations_twice {S} (ctx : FunctionContext S) p (s1 s2 : S) :
  set_allocations
    (<[p := s2]> (allocations (set_allocations (<[p := s1]> (allocations ctx)) ctx)))
    (set_allocations (<[p := s1]> (allocations ctx)) ctx)
  = set_allocations (<[p := s2]> (allocations ctx)) ctx.
Proof. unfold set_allocations. ctx_simpl. rewrite insert_insert_eq. reflexivity. Qed.

Lemma set_allocations_same {S} (ctx : FunctionContext S) p (s : S) :
  allocations ctx !! p = Some s →
  set_allocations (<[p := s]> (allocations ctx)) ctx = ctx.
Proof. intros Hs. unfold set_allocations. rewrite insert_id by exact Hs. destruct ctx; reflexivity. Qed.

Lemma update_run {S} (ctx : FunctionContext S) p (f : S → S) s :
  allocations ctx !! p = Some s →
  (st ← load p; store p (f st)) ctx
  = Some (tt, set_allocations (<[p := f s]> (allocations ctx)) ctx).
Proof.
  intros Hs. rewrite bind_run, (load_run _ _ s) by (apply state_at_allocated; exact Hs).
  apply (store_run _ _ s). exact Hs.
Qed.

Lemma allocated_after_store {S} (ctx : FunctionContext S) p (s : S) :
  allocations (set_allocations (<[p := s]> (allocations ctx)) ctx) !! p = Some s.
Proof. unfold set_allocations. ctx_simpl. apply lookup_insert_eq. Qed.

(** ** Variance: the count of the inputs *)

Lemma count_non_null_ge0 {T} `{Nullable T} (xs : list T) : 0 ≤ count_non_null xs.
Proof. induction xs as [|x xs IH]; cbn [count_non_null]; [lia|]. destruct (is_null x); lia. Qed.

Lemma KnuthVarUpdate_run {A} (to_double : A → double) (src : AnyVal A) dst ctx st :
  is_null src = false → allocations ctx !! ptr dst = Some st →
  ∃ mean m2,
    KnuthVarUpdate to_double src dst ctx
    = Some (tt, set_allocations
                  (<[ptr dst :=
                       mkKnuthVarianceState mean m2
                         (int64_of_double (double_of_Z (to_int64 (1 + kv_count st))))]>
                     (allocations ctx)) ctx).
Proof.
  intros Hnull Hst. unfold KnuthVarUpdate. rewrite Hnull.
  eexists _, _. apply (update_run ctx (ptr dst)
    (λ state, mkKnuthVarianceState _ _ (int64_of_double (double_of_Z (to_int64 (1 + kv_count state)))))).
  exact Hst.
Qed.

Lemma KnuthVarUpdate_all_count {A} (to_double : A → double) (xs : list (AnyVal A)) dst :
  ∀ ctx st,
    allocations ctx !! ptr dst = Some st →
    0 ≤ kv_count st → kv_count st + count_non_null xs ≤ 2 ^ 53 →
    ∃ st',
      KnuthVarUpdate_all to_double xs dst ctx
      = Some (tt, set_allocations (<[ptr dst := st']> (allocations ctx)) ctx) ∧
      kv_count st' = kv_count st + count_non_null xs.
Proof.
  induction xs as [|x xs IH]; intros ctx st Hst Hc Hle.
  - exists st. cbn [KnuthVarUpdate_all count_non_null].
    rewrite ret_run, set_allocations_same by exact Hst. split; [reflexivity|lia].
  - cbn [KnuthVarUpdate_all count_non_null] in *.
    pose proof (count_non_null_ge0 xs) as Hnn.
    destruct (is_null x) eqn:Hnull.
    + rewrite bind_run. unfold KnuthVarUpdate at 1. rewrite Hnull, ret_run.
      destruct (IH ctx st Hst Hc) as (st' & Hrun & Hcount); [lia|].
      exists st'. split; [exact Hrun|lia].
    + destruct (KnuthVarUpdate_run to_double x dst ctx st Hnull Hst) as (mean & m2 & Hrun).
      rewrite bind_run, Hrun.
      rewrite to_int64_small, int64_of_double_of_Z by lia.
      match goal with |- context [set_allocations (<[ptr dst := ?s]> _) ctx] => set (s1 := s) end.
      destruct (IH (set_allocations (<[ptr dst := s1]> (allocations ctx)) ctx) s1)
        as (st' & Hrun' & Hcount).
      * apply allocated_after_store.
      * subst s1. cbn [kv_count]. lia.
      * subst s1. cbn [kv_count]. lia.
      * exists st'. rewrite Hrun', set_allocations_twice. split; [reflexivity|].
        rewrite Hcount. subst s1. cbn [kv_count]. lia.
Qed.

(** X6.  [KnuthVarUpdate] keeps the count through a [double]
    ([double temp = 1 + state->count; state->count = temp]).  Up to [2^53]
    non-null inputs the count is exact: after the updates for a sequence of
    inputs it has grown by the number of non-null inputs.  At [2^53] it stops
    advancing: one more non-null input leaves the count at [2^53]. *)
Theorem KnuthVarUpdate_counts {A} (to_double : A → double) (xs : list (AnyVal A))
    (x : AnyVal A) (dst : StringVal) (ctx : FunctionContext KnuthVarianceState)
    (st : KnuthVarianceState) :
  allocations ctx !! ptr dst = Some st →
  0 ≤ kv_count st → kv_count st + count_non_null xs ≤ 2 ^ 53 →
  is_null x = false →
  (∃ st' ctx',
     KnuthVarUpdate_all to_double xs dst ctx = Some (tt, ctx') ∧
     state_at ctx' (ptr dst) = Some st' ∧
     kv_count st' = kv_count st + count_non_null xs) ∧
  (kv_count st = 2 ^ 53 →
   ∃ st' ctx',
     KnuthVarUpdate to_double x dst ctx = Some (tt, ctx') ∧
     state_at ctx' (ptr dst) = Some st' ∧
     kv_count st' = 2 ^ 53).
Proof.
  intros Hst Hc Hle Hx. split.
  - destruct (KnuthVarUpdate_all_count to_double xs dst ctx st Hst Hc Hle) as (st' & Hrun & Hcount).
    eexists st', _. split; [exact Hrun|]. split; [|exact Hcount].
    apply state_at_allocated, allocated_after_store.
  - intros Hfull.
    destruct (KnuthVarUpdate_run to_double x dst ctx st Hx Hst) as (mean & m2 & Hrun).
    eexists _, _. split; [exact Hrun|]. split.
    + apply state_at_allocated, allocated_after_store.
    + cbn [kv_count]. rewrite Hfull. vm_compute. reflexivity.
Qed.

(** Three updates, one of them with a null input, on a state that has seen one value. *)
Lemma KnuthVarUpdate_counts_witness :
  ∃ st' ctx',
    KnuthVarUpdate_all id [mkVal false dzero; mkVal true dzero; mkVal false dzero]
                       (StringVal_of 1 24) var_pair_ctx = Some (tt, ctx') ∧
    state_at ctx' 1 = Some st' ∧ kv_count st' = 3.
Proof.
  destruct (KnuthVarUpdate_counts id [mkVal false dzero; mkVal true dzero; mkVal false dzero]
              (mkVal false dzero) (StringVal_of 1 24) var_pair_ctx
              (mkKnuthVarianceState (double_of_Z 3) dzero 1))
    as [(st' & ctx' & Hrun & Hat & Hcount) _].
  - reflexivity.
  - simpl. lia.
  - vm_compute. discriminate.
  - reflexivity.
  - exists st', ctx'. split; [exact Hrun|]. split; [exact Hat|]. exact Hcount.
Defined.

Lemma Free_allocated {S} (ctx : FunctionContext S) p s :
  allocations ctx !! p = Some s →
  ∃ ctx', Free p ctx = Some (tt, ctx') ∧
          strings ctx' = strings ctx ∧ next_ptr ctx' = next_ptr ctx ∧
          (p ≠ NULL → allocations ctx' = delete p (allocations ctx)).
Proof.
  intros Hs. unfold Free. destruct (Z.eqb_spec p NULL) as [Hp|Hp].
  - exists ctx. repeat split; try reflexivity. intros Hne. contradiction.
  - rewrite Hs. eexists. split; [reflexivity|]. unfold set_allocations. ctx_simpl.
    repeat split; reflexivity.
Qed.

Lemma StringVal_copy_result {S} (str : list Z) (ctx : FunctionContext S) :
  ∃ r ctx', StringVal_copy str ctx = Some (r, ctx') ∧
            is_null r = false ∧ result_bytes ctx' r = Some str ∧
            allocations ctx' = allocations ctx.
Proof.
  rewrite StringVal_copy_run. eexists _, _. split; [reflexivity|]. split; [reflexivity|].
  split; [|reflexivity].
  unfold result_bytes, string_at, set_next_ptr, set_strings. ctx_simpl.
  rewrite lookup_insert_eq. cbn [fmap option_fmap option_map].
  rewrite Nat2Z.id, firstn_all. reflexivity.
Qed.

(** The three finalize functions that print: read the state, release it,
    print. *)
Lemma printed_variance_run `{ValueLibrary} (pop root : bool) state_sv ctx st :
  allocations ctx !! ptr state_sv = Some st →
  ∃ r ctx',
    (state ← load (ptr state_sv);
     Free (ptr state_sv);;
     if kv_count state =? 0 then mret StringVal_null
     else ToStringVal (if root then dsqrt (ComputeKnuthVariance state pop)
                       else ComputeKnuthVariance state pop)) ctx = Some (r, ctx') ∧
    if kv_count st =? 0 then r = StringVal_null
    else is_null r = false ∧
         result_bytes ctx' r
         = Some (print_double (if root then dsqrt (ComputeKnuthVariance st pop)
                               else ComputeKnuthVariance st pop)).
Proof.
  intros Hst. rewrite bind_run, (load_run _ _ st) by (apply state_at_allocated; exact Hst).
  destruct (Free_allocated ctx _ _ Hst) as (ctx1 & Hfree & _).
  rewrite bind_run, Hfree. destruct (kv_count st =? 0).
  - eexists _, _. split; reflexivity.
  - unfold ToStringVal.
    match goal with |- context [StringVal_copy ?s ctx1] =>
      destruct (StringVal_copy_result s ctx1) as (r & ctx' & Hcopy & Hnull & Hbytes & _)
    end.
    exists r, ctx'. split; [exact Hcopy|]. split; assumption.
Qed.

(** X7.  The variance and the standard deviation of no non-null input are
    NULL; those of exactly one non-null input are zero, whatever the input
    is (also an infinity or a NaN): [KnuthVarFinalize] returns [0.0] and the
    three printing finalize functions return the printed form of [0.0]. *)
Theorem variance_of_few `{ValueLibrary} {A} (to_double : A → double)
    (xs : list (AnyVal A)) (ctx : FunctionContext KnuthVarianceState) :
  count_non_null xs ≤ 1 →
  (∃ ctx',
     variance_of to_double KnuthVarFinalize xs ctx
     = Some (if count_non_null xs =? 0 then DoubleVal_null else mkVal false dzero, ctx')) ∧
  (∀ finalize,
     finalize ∈ [KnuthVarPopFinalize; KnuthStddevFinalize; KnuthStddevPopFinalize] →
     ∃ r ctx',
       variance_of to_double finalize xs ctx = Some (r, ctx') ∧
       if count_non_null xs =? 0 then r = StringVal_null
       else is_null r = false ∧ result_bytes ctx' r = Some (print_double dzero)).
Proof.
  intros Hle. pose proof (count_non_null_ge0 xs) as Hge.
  unfold variance_of.
  set (ctx1 := set_next_ptr (next_ptr ctx + 1)
                 (set_allocations
                    (<[next_ptr ctx := mkKnuthVarianceState dzero dzero 0]> (allocations ctx))
                    ctx)).
  set (dst := mkStringVal false sizeof_KnuthVarianceState (next_ptr ctx)).
  assert (Hinit : allocations ctx1 !! ptr dst = Some (mkKnuthVarianceState dzero dzero 0)).
  { subst ctx1 dst. unfold set_next_ptr, set_allocations. ctx_simpl. apply lookup_insert_eq. }
  destruct (KnuthVarUpdate_all_count to_double xs dst ctx1 _ Hinit) as (st & Hrun & Hcount);
    cbn [kv_count]; [lia|lia|].
  cbn [kv_count] in Hcount. rewrite Z.add_0_l in Hcount.
  set (ctx2 := set_allocations (<[ptr dst := st]> (allocations ctx1)) ctx1) in Hrun.
  assert (Hst : allocations ctx2 !! ptr dst = Some st) by apply allocated_after_store.
  assert (Hvar : ∀ pop, kv_count st ≠ 0 → ComputeKnuthVariance st pop = dzero).
  { intros pop Hne. unfold ComputeKnuthVariance.
    replace (kv_count st) with 1 by lia. reflexivity. }
  split.
  - rewrite bind_run, KnuthVarInit_run. fold ctx1 dst. rewrite bind_run, Hrun.
    unfold KnuthVarFinalize.
    rewrite bind_run, (load_run _ _ st) by (apply state_at_allocated; exact Hst).
    rewrite Hcount. destruct (Z.eqb_spec (count_non_null xs) 0) as [Hz|Hnz].
    + eexists. reflexivity.
    + rewrite Hvar by lia. eexists. reflexivity.
  - intros finalize Hin.
    rewrite bind_run, KnuthVarInit_run. fold ctx1 dst. rewrite bind_run, Hrun. fold ctx2.
    assert (Hprinted : ∀ pop root : bool,
              ∃ r ctx',
                (state ← load (ptr dst);
                 Free (ptr dst);;
                 if kv_count state =? 0 then mret StringVal_null
                 else ToStringVal (if root then dsqrt (ComputeKnuthVariance state pop)
                                   else ComputeKnuthVariance state pop)) ctx2 = Some (r, ctx') ∧
                if count_non_null xs =? 0 then r = StringVal_null
                else is_null r = false ∧ result_bytes ctx' r = Some (print_double dzero)).
    { intros pop root.
      destruct (printed_variance_run pop root dst ctx2 st Hst) as (r & ctx' & Hfin & Hres).
      exists r, ctx'. split; [exact Hfin|]. rewrite Hcount in Hres.
      destruct (Z.eqb_spec (count_non_null xs) 0) as [Hz|Hnz]; [exact Hres|].
      rewrite Hvar in Hres by lia. destruct root; exact Hres. }
    apply elem_of_cons in Hin as [->|Hin]; [exact (Hprinted true false)|].
    apply elem_of_cons in Hin as [->|Hin]; [exact (Hprinted false true)|].
    apply elem_of_cons in Hin as [->|Hin]; [exact (Hprinted true true)|].
    inversion Hin.
Qed.

(** The variance of a null input and one infinity. *)
Lemma variance_of_few_witness :
  ∃ ctx',
    variance_of id KnuthVarFinalize [mkVal true dzero; mkVal false (S754_infinity false)]
                (empty_ctx no_type no_type)
    = Some (mkVal false dzero, ctx').
Proof.
  destruct (variance_of_few (H:=sample_library) id
              [mkVal true dzero; mkVal false (S754_infinity false)]
              (empty_ctx no_type no_type)) as [(ctx' & Hrun) _].
  - vm_compute. discriminate.
  - exists ctx'. exact Hrun.
Defined.

(** ** Average *)

Lemma AvgUpdate_all_run {A} (to_double : A → double) (xs : list (AnyVal A)) dst :
  ∀ ctx st,
    allocations ctx !! ptr dst = Some st →
    0 ≤ avg_count st → avg_count st + count_non_null xs ≤ INT64_MAX →
    AvgUpdate_all to_double xs dst ctx
    = Some (tt, set_allocations
                  (<[ptr dst := mkAvgState (sum_doubles to_double xs (avg_sum st))
                                           (avg_count st + count_non_null xs)]>
                     (allocations ctx)) ctx).
Proof.
  induction xs as [|x xs IH]; intros ctx st Hst Hc Hle.
  - cbn [AvgUpdate_all count_non_null sum_doubles foldl].
    rewrite ret_run, Z.add_0_r, set_allocations_same; [reflexivity|].
    rewrite Hst. destruct st; reflexivity.
  - cbn [AvgUpdate_all count_non_null sum_doubles foldl] in *.
    fold (sum_doubles to_double xs
            (if is_null x then avg_sum st else dadd (avg_sum st) (to_double (val x)))).
    pose proof (count_non_null_ge0 xs) as Hnn.
    rewrite bind_run. unfold AvgUpdate at 1. destruct (is_null x) eqn:Hnull.
    + rewrite ret_run, (IH ctx st Hst Hc) by lia. reflexivity.
    + rewrite (update_run ctx (ptr dst)
                 (λ avg, mkAvgState (dadd (avg_sum avg) (to_double (val x)))
                                    (to_int64 (avg_count avg + 1))) st Hst).
      rewrite (IH _ _ (allocated_after_store _ _ _)); cbn [avg_sum avg_count];
        rewrite ?to_int64_small by (unfold INT64_MAX in *; lia);
        [|lia|unfold INT64_MAX in *; lia].
      rewrite set_allocations_twice. repeat (f_equal; try lia).
Qed.

(** X8.  The average of a sequence of inputs: NULL when no input is
    non-null; otherwise the non-null inputs added one after the other to
    [0.0] in double precision, divided by their number.  [AvgFinalize]
    releases the state that [AvgInit] allocated. *)
Theorem avg_of_inputs {A} (to_double : A → double) (xs : list (AnyVal A))
    (ctx : FunctionContext AvgState) :
  count_non_null xs ≤ INT64_MAX →
  ∃ ctx',
    avg_of to_double xs ctx
    = Some (if count_non_null xs =? 0 then DoubleVal_null
            else mkVal false (ddiv (sum_doubles to_double xs dzero)
                                   (double_of_Z (count_non_null xs))),
            ctx') ∧
    (next_ptr ctx ≠ NULL → allocations ctx' = delete (next_ptr ctx) (allocations ctx)).
Proof.
  intros Hle. unfold avg_of, AvgInit. rewrite bind_run, alloc_zero_run.
  set (ctx1 := set_next_ptr (next_ptr ctx + 1)
                 (set_allocations (<[next_ptr ctx := zero_image sizeof_AvgState]>
                                     (allocations ctx)) ctx)).
  set (dst := mkStringVal false sizeof_AvgState (next_ptr ctx)).
  assert (Hinit : allocations ctx1 !! ptr dst = Some (mkAvgState dzero 0)).
  { subst ctx1 dst. unfold set_next_ptr, set_allocations. ctx_simpl. apply lookup_insert_eq. }
  rewrite bind_run, (AvgUpdate_all_run to_double xs dst ctx1 _ Hinit);
    cbn [avg_sum avg_count]; [|lia|lia].
  rewrite Z.add_0_l.
  set (st := mkAvgState (sum_doubles to_double xs dzero) (count_non_null xs)).
  set (ctx2 := set_allocations (<[ptr dst := st]> (allocations ctx1)) ctx1).
  assert (Hst : allocations ctx2 !! ptr dst = Some st) by apply allocated_after_store.
  unfold AvgFinalize, AvgGetValue.
  rewrite !bind_run, (load_run _ _ st) by (apply state_at_allocated; exact Hst).
  destruct (Free_allocated ctx2 _ _ Hst) as (ctx3 & Hfree & _ & _ & Halloc).
  assert (Hdel : next_ptr ctx ≠ NULL → allocations ctx3 = delete (next_ptr ctx) (allocations ctx)).
  { intros Hp. rewrite (Halloc Hp). subst ctx2 ctx1 dst.
    unfold set_next_ptr, set_allocations. ctx_simpl.
    rewrite insert_insert_eq, delete_insert_eq. reflexivity. }
  subst st. cbn [avg_count avg_sum].
  destruct (count_non_null xs =? 0); rewrite ret_run, bind_run, Hfree, ret_run;
    exists ctx3; (split; [reflexivity|exact Hdel]).
Qed.

(** The average of 1, a null input and 2. *)
Lemma avg_of_inputs_witness :
  ∃ ctx',
    avg_of double_of_Z [mkVal false 1; mkVal true 0; mkVal false 2] (empty_ctx no_type no_type)
    = Some (mkVal false (ddiv (dadd (dadd dzero (double_of_Z 1)) (double_of_Z 2))
                              (double_of_Z 2)), ctx') ∧
    allocations ctx' = ∅.
Proof.
  destruct (avg_of_inputs double_of_Z [mkVal false 1; mkVal true 0; mkVal false 2]
              (empty_ctx no_type no_type)) as (ctx' & Hrun & Hfree).
  - vm_compute. discriminate.
  - exists ctx'. split; [exact Hrun|]. rewrite Hfree by discriminate. reflexivity.
Defined.

(** ** Rank and dense rank *)

Lemma RankInit_run (ctx : FunctionContext RankState) :
  RankInit ctx =
    Some (mkStringVal false sizeof_RankState (next_ptr ctx),
          set_next_ptr (next_ptr ctx + 1)
            (set_allocations (<[next_ptr ctx := RankState_default]> (allocations ctx)) ctx)).
Proof.
  unfold RankInit. rewrite bind_run. unfold Allocate at 1. rewrite bind_run.
  erewrite store_run by (cbn [allocations set_next_ptr set_allocations]; apply lookup_insert_eq).
  unfold set_allocations, set_next_ptr.
  cbn [allocations local_states strings next_ptr warnings arg_type return_type].
  rewrite !insert_insert_eq. reflexivity.
Qed.

Lemma RankUpdate_rows_run (rows : nat) dst : ∀ ctx r c,
  allocations ctx !! ptr dst = Some (mkRankState r c) →
  0 ≤ c → c + Z.of_nat rows ≤ INT64_MAX →
  RankUpdate_rows rows dst ctx
  = Some (tt, set_allocations
                (<[ptr dst := mkRankState r (c + Z.of_nat rows)]> (allocations ctx)) ctx).
Proof.
  induction rows as [|n IH]; intros ctx r c Hst Hc Hle.
  - cbn [RankUpdate_rows]. rewrite ret_run, Z.add_0_r, set_allocations_same by exact Hst.
    reflexivity.
  - cbn [RankUpdate_rows]. rewrite bind_run. unfold RankUpdate.
    rewrite (update_run ctx (ptr dst)
               (λ state, mkRankState (rank state) (to_int64 (rk_count state + 1))) _ Hst).
    cbn [rank rk_count]. rewrite to_int64_small by (unfold INT64_MAX in *; lia).
    rewrite (IH _ r (c + 1) (allocated_after_store _ _ _)) by lia.
    rewrite set_allocations_twice. repeat (f_equal; try lia).
Qed.

Lemma rows_of_cons (rows : nat) (rest : list nat) :
  rows_of (rows :: rest) = Z.of_nat rows + rows_of rest.
Proof. reflexivity. Qed.

Lemma rows_of_nonneg (groups : list nat) : 0 ≤ rows_of groups.
Proof. induction groups as [|rows rest IH]; cbn [rows_of]; lia. Qed.

Lemma rank_groups_run (groups : list nat) dst : ∀ ctx r,
  allocations ctx !! ptr dst = Some (mkRankState r 0) →
  0 ≤ r → r + rows_of groups ≤ INT64_MAX →
  rank_groups groups dst ctx
  = Some (map (mkVal false) (ranks_from r groups),
          set_allocations
            (<[ptr dst := mkRankState (r + rows_of groups) 0]> (allocations ctx)) ctx).
Proof.
  induction groups as [|rows rest IH]; intros ctx r Hst Hr Hle.
  - cbn [rank_groups ranks_from map rows_of].
    rewrite ret_run, Z.add_0_r, set_allocations_same by exact Hst. reflexivity.
  - rewrite rows_of_cons in *. pose proof (rows_of_nonneg rest) as Hnn.
    unfold INT64_MAX in *.
    cbn [rank_groups ranks_from map].
    rewrite bind_run, (RankUpdate_rows_run rows dst ctx r 0 Hst)
      by (unfold INT64_MAX; lia).
    rewrite Z.add_0_l, bind_run. unfold RankGetValue.
    rewrite bind_run, (load_run _ _ (mkRankState r (Z.of_nat rows)))
      by (apply state_at_allocated, allocated_after_store).
    rewrite bind_run, (store_run _ _ _ _ (allocated_after_store _ _ _)).
    rewrite set_allocations_twice, ret_run. cbn [rank rk_count].
    rewrite to_int64_small by lia.
    rewrite bind_run, (IH _ (r + Z.of_nat rows) (allocated_after_store _ _ _))
      by (unfold INT64_MAX; lia).
    rewrite set_allocations_twice, ret_run. repeat (f_equal; try lia).
Qed.

(** X9.  Ranking the groups of peer rows of a partition: the first group
    has rank 1 and each later group the rank of the group before it plus
    the number of rows of that group; [RankFinalize] returns the rank the
    next group would have. *)
Theorem rank_of_groups_ranks (groups : list nat) (ctx : FunctionContext RankState) :
  rows_of groups < INT64_MAX →
  ∃ ctx',
    rank_of_groups groups ctx
    = Some ((map (mkVal false) (ranks_from 1 groups), mkVal false (1 + rows_of groups)), ctx').
Proof.
  intros Hle. unfold rank_of_groups. rewrite bind_run, RankInit_run, bind_run.
  match goal with |- context [rank_groups groups ?d ?c] => set (dst := d); set (ctx1 := c) end.
  assert (Hinit : allocations ctx1 !! ptr dst = Some (mkRankState 1 0)).
  { subst ctx1 dst. unfold set_next_ptr, set_allocations. ctx_simpl. apply lookup_insert_eq. }
  rewrite (rank_groups_run groups dst ctx1 1 Hinit) by (unfold INT64_MAX in *; lia).
  unfold RankFinalize.
  rewrite !bind_run, (load_run _ _ (mkRankState (1 + rows_of groups) 0))
    by (apply state_at_allocated, allocated_after_store).
  destruct (Free_allocated _ _ _ (allocated_after_store ctx1 (ptr dst)
                                    (mkRankState (1 + rows_of groups) 0)))
    as (ctx3 & Hfree & _).
  rewrite bind_run, Hfree, !ret_run. exists ctx3. reflexivity.
Qed.

(** Groups of two, one and three rows. *)
Lemma rank_of_groups_ranks_witness :
  ∃ ctx',
    rank_of_groups [2; 1; 3]%nat (empty_ctx no_type no_type)
    = Some ([mkVal false 1; mkVal false 3; mkVal false 4], mkVal false 7, ctx').
Proof.
  apply (rank_of_groups_ranks [2; 1; 3]%nat (empty_ctx no_type no_type)).
  vm_compute. reflexivity.
Defined.

Lemma DenseRankUpdate_rows_run (rows : nat) dst (ctx : FunctionContext RankState) :
  DenseRankUpdate_rows rows dst ctx = Some (tt, ctx).
Proof. induction rows as [|n IH]; [reflexivity|]. cbn [DenseRankUpdate_rows]. exact IH. Qed.

Lemma dense_rank_groups_run (groups : list nat) dst : ∀ ctx r c,
  allocations ctx !! ptr dst = Some (mkRankState r c) →
  - 2 ^ 63 ≤ r → r + Z.of_nat (length groups) ≤ INT64_MAX →
  dense_rank_groups groups dst ctx
  = Some (map (mkVal false) (seqZ r (Z.of_nat (length groups))),
          set_allocations
            (<[ptr dst := mkRankState (r + Z.of_nat (length groups)) c]> (allocations ctx))
            ctx).
Proof.
  induction groups as [|rows rest IH]; intros ctx r c Hst Hr Hle.
  - cbn [dense_rank_groups length]. change (Z.of_nat 0) with 0.
    rewrite ret_run, Z.add_0_r, set_allocations_same by exact Hst. reflexivity.
  - cbn [dense_rank_groups length] in *.
    rewrite bind_run, DenseRankUpdate_rows_run, bind_run. unfold DenseRankGetValue.
    rewrite bind_run, (load_run _ _ (mkRankState r c)) by (apply state_at_allocated; exact Hst).
    rewrite bind_run, (store_run _ _ _ _ Hst), ret_run. cbn [rank rk_count].
    rewrite to_int64_small by (unfold INT64_MAX in *; lia).
    rewrite bind_run, (IH _ (r + 1) c (allocated_after_store _ _ _))
      by (unfold INT64_MAX in *; lia).
    rewrite set_allocations_twice, ret_run.
    rewrite Nat2Z.inj_succ, (seqZ_cons r) by lia. cbn [map].
    replace (Z.succ r) with (r + 1) by lia.
    replace (Z.pred (Z.succ (Z.of_nat (length rest)))) with (Z.of_nat (length rest)) by lia.
    repeat (f_equal; try lia).
Qed.

(** X10.  The dense rank of the groups of peer rows of a partition counts
    the groups: the groups have the ranks 1, 2, 3, ... whatever their
    sizes, [DenseRankUpdate] leaving the state alone. *)
Theorem dense_rank_of_groups_ranks (groups : list nat) (ctx : FunctionContext RankState) :
  Z.of_nat (length groups) < INT64_MAX →
  ∃ ctx',
    dense_rank_of_groups groups ctx
    = Some ((map (mkVal false) (seqZ 1 (Z.of_nat (length groups))),
             mkVal false (1 + Z.of_nat (length groups))), ctx').
Proof.
  intros Hle. unfold dense_rank_of_groups. rewrite bind_run, RankInit_run, bind_run.
  match goal with |- context [dense_rank_groups groups ?d ?c] =>
    set (dst := d); set (ctx1 := c) end.
  assert (Hinit : allocations ctx1 !! ptr dst = Some (mkRankState 1 0)).
  { subst ctx1 dst. unfold set_next_ptr, set_allocations. ctx_simpl. apply lookup_insert_eq. }
  rewrite (dense_rank_groups_run groups dst ctx1 1 0 Hinit)
    by (unfold INT64_MAX in *; lia).
  unfold RankFinalize.
  rewrite !bind_run, (load_run _ _ (mkRankState (1 + Z.of_nat (length groups)) 0))
    by (apply state_at_allocated, allocated_after_store).
  destruct (Free_allocated _ _ _ (allocated_after_store ctx1 (ptr dst)
                                    (mkRankState (1 + Z.of_nat (length groups)) 0)))
    as (ctx3 & Hfree & _).
  rewrite bind_run, Hfree, !ret_run. exists ctx3. reflexivity.
Qed.

(** The same groups, densely ranked. *)
Lemma dense_rank_of_groups_ranks_witness :
  ∃ ctx',
    dense_rank_of_groups [2; 1; 3]%nat (empty_ctx no_type no_type)
    = Some ([mkVal false 1; mkVal false 2; mkVal false 3], mkVal false 4, ctx').
Proof.
  apply (dense_rank_of_groups_ranks [2; 1; 3]%nat (empty_ctx no_type no_type)).
  vm_compute. reflexivity.
Defined.

(** ** The bits of a bitmap *)

Lemma testbit_add_pow2 (k x y n : Z) :
  0 ≤ k → 0 ≤ x < 2 ^ k → 0 ≤ n →
  Z.testbit (x + 2 ^ k * y) n = if n <? k then Z.testbit x n else Z.testbit y (n - k).
Proof.
  intros Hk Hx Hn.
  assert (Hpos : 0 < 2 ^ k) by (apply Z.pow_pos_nonneg; lia).
  assert (Hdiv : (x + 2 ^ k * y) / 2 ^ k = y).
  { replace (x + 2 ^ k * y) with (x + y * 2 ^ k) by lia.
    rewrite Z.div_add by lia. rewrite Z.div_small by exact Hx. lia. }
  assert (Hmod : (x + 2 ^ k * y) mod 2 ^ k = x).
  { replace (x + 2 ^ k * y) with (x + y * 2 ^ k) by lia.
    rewrite Z.mod_add by lia. apply Z.mod_small. exact Hx. }
  destruct (Z.ltb_spec n k).
  - rewrite <- Hmod at 2. rewrite Z.mod_pow2_bits_low by lia. reflexivity.
  - rewrite <- Hdiv at 2. rewrite Z.div_pow2_bits by lia. f_equal. lia.
Qed.

Lemma byte_testbit_high (b n : Z) : 0 ≤ b < 256 → 8 ≤ n → Z.testbit b n = false.
Proof.
  intros Hb Hn. destruct (Z.eq_dec b 0) as [->|Hne]; [apply Z.bits_0|].
  apply Z.bits_above_log2; [lia|].
  assert (Z.log2 b < 8); [|lia]. apply Z.log2_lt_pow2; lia.
Qed.

(** The bit [c] of the word made of four bytes is bit [c mod 8] of byte
    [c / 8]. *)
Lemma word_testbit (b0 b1 b2 b3 c : Z) :
  0 ≤ b0 < 256 → 0 ≤ b1 < 256 → 0 ≤ b2 < 256 → 0 ≤ b3 < 256 → 0 ≤ c < 32 →
  Z.testbit (b0 + 256 * b1 + 65536 * b2 + 16777216 * b3) c
  = Z.testbit (if c <? 8 then b0 else if c <? 16 then b1 else if c <? 24 then b2 else b3)
              (c mod 8).
Proof.
  intros H0 H1 H2 H3 Hc.
  replace (b0 + 256 * b1 + 65536 * b2 + 16777216 * b3)
    with (b0 + 2 ^ 8 * (b1 + 2 ^ 8 * (b2 + 2 ^ 8 * b3))) by lia.
  rewrite testbit_add_pow2 by lia.
  destruct (Z.ltb_spec c 8); [rewrite Z.mod_small by lia; reflexivity|].
  rewrite testbit_add_pow2 by lia.
  replace (c - 8 <? 8) with (c <? 16) by (destruct (Z.ltb_spec c 16), (Z.ltb_spec (c - 8) 8); lia).
  destruct (Z.ltb_spec c 16).
  { f_equal. rewrite <- (Z.mod_unique_pos c 8 1 (c - 8)); lia. }
  rewrite testbit_add_pow2 by lia.
  replace (c - 8 - 8 <? 8) with (c <? 24)
    by (destruct (Z.ltb_spec c 24), (Z.ltb_spec (c - 8 - 8) 8); lia).
  destruct (Z.ltb_spec c 24).
  - f_equal. rewrite <- (Z.mod_unique_pos c 8 2 (c - 16)); lia.
  - f_equal. rewrite <- (Z.mod_unique_pos c 8 3 (c - 24)); lia.
Qed.

Lemma land_pow2_testbit (w c : Z) :
  0 ≤ c → (0 <? Z.land w (2 ^ c)) = Z.testbit w c.
Proof.
  intros Hc.
  assert (Hland : Z.land w (2 ^ c) = if Z.testbit w c then 2 ^ c else 0).
  { apply Z.bits_inj'. intros n Hn. rewrite Z.land_spec, Z.pow2_bits_eqb by lia.
    destruct (Z.eqb_spec c n) as [->|Hne].
    - destruct (Z.testbit w n); [rewrite Z.pow2_bits_true by lia; reflexivity|].
      rewrite Z.bits_0. reflexivity.
    - rewrite andb_false_r. destruct (Z.testbit w c).
      + rewrite Z.pow2_bits_false by lia. reflexivity.
      + rewrite Z.bits_0. reflexivity. }
  rewrite Hland. destruct (Z.testbit w c); [|reflexivity].
  apply Z.ltb_lt. apply Z.pow_pos_nonneg; lia.
Qed.

Lemma one_shl_in_range (c : Z) : 0 ≤ c < 32 → one_shl c = Some (2 ^ c).
Proof.
  intros Hc. unfold one_shl.
  destruct (Z.leb_spec 0 c); [|lia]. destruct (Z.ltb_spec c 32); [|lia]. cbn [andb].
  rewrite Z.shiftl_1_l. unfold to_uint32, wrap. rewrite Z.mod_small; [reflexivity|].
  split; [apply Z.pow_nonneg; lia|apply Z.pow_lt_mono_r; lia].
Qed.

Lemma bytes_lookup (l : list Z) (k : nat) :
  bytes l → (k < length l)%nat → 0 ≤ l !!! k < 256.
Proof.
  intros Hl Hk. unfold bytes in Hl. rewrite Forall_lookup in Hl.
  destruct (lookup_lt_is_Some_2 l k Hk) as [b Hb].
  rewrite (list_lookup_total_correct _ _ _ Hb). exact (Hl k b Hb).
Qed.

(** Row [r], column [c] of a bitmap is bit [c mod 8] of byte [4r + c/8]. *)
Lemma GetDistinctEstimateBit_byte (bitmap : list Z) (r c : Z) :
  bytes bitmap → 0 ≤ r → 4 * r + 4 ≤ Z.of_nat (length bitmap) → 0 ≤ c < 32 →
  GetDistinctEstimateBit bitmap r c
  = Some (Z.testbit (bitmap !!! Z.to_nat (4 * r + c / 8)) (c mod 8)).
Proof.
  intros Hb Hr Hlen Hc. unfold GetDistinctEstimateBit.
  rewrite one_shl_in_range by exact Hc. cbn [mbind option_bind].
  unfold int_bitmap_get.
  destruct (Z.leb_spec 0 r); [|lia].
  destruct (Z.leb_spec (4 * r + 4) (Z.of_nat (length bitmap))); [|lia]. cbn [andb mbind option_bind].
  rewrite land_pow2_testbit by lia. f_equal.
  rewrite word_testbit by (try apply bytes_lookup; try assumption; lia).
  f_equal.
  destruct (Z.ltb_spec c 8); [|destruct (Z.ltb_spec c 16); [|destruct (Z.ltb_spec c 24)]];
    f_equal.
  - rewrite Z.div_small by lia. lia.
  - replace (c / 8) with 1 by (apply (Z.div_unique_pos c 8 1 (c - 8)); lia). lia.
  - replace (c / 8) with 2 by (apply (Z.div_unique_pos c 8 2 (c - 16)); lia). lia.
  - replace (c / 8) with 3 by (apply (Z.div_unique_pos c 8 3 (c - 24)); lia). lia.
Qed.

Lemma GetDistinctEstimateBit_word (bitmap : list Z) (r c w : Z) :
  int_bitmap_get bitmap r = Some w → 0 ≤ c < 32 →
  GetDistinctEstimateBit bitmap r c = Some (Z.testbit w c).
Proof.
  intros Hw Hc. unfold GetDistinctEstimateBit.
  rewrite one_shl_in_range, Hw by exact Hc. cbn [mbind option_bind].
  rewrite land_pow2_testbit by lia. reflexivity.
Qed.

Lemma int_bitmap_get_in_range (bitmap : list Z) (i : Z) :
  bytes bitmap → 0 ≤ i → 4 * i + 4 ≤ Z.of_nat (length bitmap) →
  ∃ w, int_bitmap_get bitmap i = Some w ∧ 0 ≤ w < 2 ^ 32.
Proof.
  intros Hb Hi Hlen. unfold int_bitmap_get.
  destruct (Z.leb_spec 0 i); [|lia].
  destruct (Z.leb_spec (4 * i + 4) (Z.of_nat (length bitmap))); [|lia]. cbn [andb].
  eexists. split; [reflexivity|].
  pose proof (bytes_lookup bitmap (Z.to_nat (4 * i)) Hb ltac:(lia)).
  pose proof (bytes_lookup bitmap (Z.to_nat (4 * i) + 1) Hb ltac:(lia)).
  pose proof (bytes_lookup bitmap (Z.to_nat (4 * i) + 2) Hb ltac:(lia)).
  pose proof (bytes_lookup bitmap (Z.to_nat (4 * i) + 3) Hb ltac:(lia)).
  lia.
Qed.

Lemma int_bitmap_set_length (bitmap : list Z) (i v : Z) :
  length (int_bitmap_set bitmap i v) = length bitmap.
Proof. unfold int_bitmap_set. rewrite !length_insert. reflexivity. Qed.

Lemma int_bitmap_set_bytes (bitmap : list Z) (i v : Z) :
  bytes bitmap → bytes (int_bitmap_set bitmap i v).
Proof.
  intros Hb. unfold int_bitmap_set, bytes.
  repeat (apply Forall_insert; [|apply Z.mod_pos_bound; lia]). exact Hb.
Qed.

Lemma int_bitmap_get_set_same (bitmap : list Z) (i v : Z) :
  0 ≤ i → 4 * i + 4 ≤ Z.of_nat (length bitmap) → 0 ≤ v < 2 ^ 32 →
  int_bitmap_get (int_bitmap_set bitmap i v) i = Some v.
Proof.
  intros Hi Hlen Hv. unfold int_bitmap_get. rewrite int_bitmap_set_length.
  destruct (Z.leb_spec 0 i); [|lia].
  destruct (Z.leb_spec (4 * i + 4) (Z.of_nat (length bitmap))); [|lia]. cbn [andb].
  f_equal. unfold int_bitmap_set.
  remember (Z.to_nat (4 * i)) as k eqn:Hk.
  rewrite (list_lookup_total_insert_eq _ (k + 3)) by (rewrite !length_insert; lia).
  rewrite (list_lookup_total_insert_ne _ (k + 3) (k + 2)) by lia.
  rewrite (list_lookup_total_insert_eq _ (k + 2)) by (rewrite !length_insert; lia).
  rewrite (list_lookup_total_insert_ne _ (k + 3) (k + 1)) by lia.
  rewrite (list_lookup_total_insert_ne _ (k + 2) (k + 1)) by lia.
  rewrite (list_lookup_total_insert_eq _ (k + 1)) by (rewrite !length_insert; lia).
  rewrite (list_lookup_total_insert_ne _ (k + 3) k) by lia.
  rewrite (list_lookup_total_insert_ne _ (k + 2) k) by lia.
  rewrite (list_lookup_total_insert_ne _ (k + 1) k) by lia.
  rewrite (list_lookup_total_insert_eq _ k) by lia.
  change (2 ^ 32) with 4294967296 in Hv.
  assert (H16 : v / 65536 = v / 256 / 256) by (rewrite Z.div_div by lia; reflexivity).
  assert (H24 : v / 16777216 = v / 256 / 256 / 256) by (rewrite !Z.div_div by lia; reflexivity).
  rewrite H16, H24. clear H16 H24 Hk k Hlen Hi. Z.div_mod_to_equations. lia.
Qed.

Lemma int_bitmap_set_lookup_other (bitmap : list Z) (i v : Z) (j : nat) :
  0 ≤ i → (j < Z.to_nat (4 * i) ∨ Z.to_nat (4 * i) + 3 < j)%nat →
  int_bitmap_set bitmap i v !!! j = bitmap !!! j.
Proof.
  intros Hi Hj. unfold int_bitmap_set.
  rewrite !list_lookup_total_insert_ne by lia. reflexivity.
Qed.

Lemma int_bitmap_get_set_other (bitmap : list Z) (i j v : Z) :
  0 ≤ i → 0 ≤ j → i ≠ j →
  int_bitmap_get (int_bitmap_set bitmap i v) j = int_bitmap_get bitmap j.
Proof.
  intros Hi Hj Hne. unfold int_bitmap_get. rewrite int_bitmap_set_length.
  destruct ((0 <=? j) && (4 * j + 4 <=? Z.of_nat (length bitmap))); [|reflexivity].
  rewrite !int_bitmap_set_lookup_other by lia. reflexivity.
Qed.

Lemma lor_pow2_range (w c : Z) : 0 ≤ w < 2 ^ 32 → 0 ≤ c < 32 → 0 ≤ Z.lor w (2 ^ c) < 2 ^ 32.
Proof.
  intros Hw Hc.
  assert (Hp : 0 < 2 ^ c) by (apply Z.pow_pos_nonneg; lia).
  assert (Hnn : 0 ≤ Z.lor w (2 ^ c)) by (apply Z.lor_nonneg; lia).
  split; [exact Hnn|].
  apply Z.log2_lt_pow2.
  - assert (Z.lor w (2 ^ c) ≠ 0); [|lia].
    intros Hz. apply Z.lor_eq_0_iff in Hz. lia.
  - rewrite Z.log2_lor by lia. rewrite Z.log2_pow2 by lia.
    destruct (Z.eq_dec w 0) as [->|Hne]; [cbn; lia|].
    assert (Z.log2 w < 32) by (apply Z.log2_lt_pow2; lia). lia.
Qed.

(** Setting one bit, and what every bit of the bitmap reads as
    afterwards. *)
Lemma SetDistinctEstimateBit_bits (bitmap : list Z) (r c : Z) :
  bytes bitmap → 0 ≤ r → 4 * r + 4 ≤ Z.of_nat (length bitmap) → 0 ≤ c < PC_BITMAP_LENGTH →
  ∃ bitmap',
    SetDistinctEstimateBit bitmap r c = Some bitmap' ∧
    length bitmap' = length bitmap ∧ bytes bitmap' ∧
    ∀ r' c', 0 ≤ r' → 4 * r' + 4 ≤ Z.of_nat (length bitmap) → 0 ≤ c' < PC_BITMAP_LENGTH →
      ∃ old : bool,
        GetDistinctEstimateBit bitmap r' c' = Some old ∧
        GetDistinctEstimateBit bitmap' r' c' = Some (old || (r' =? r) && (c' =? c)).
Proof.
  intros Hb Hr Hlen Hc. change PC_BITMAP_LENGTH with 32 in *.
  destruct (int_bitmap_get_in_range bitmap r Hb Hr Hlen) as (w & Hw & Hwr).
  exists (int_bitmap_set bitmap r (Z.lor w (2 ^ c))).
  split; [|split; [|split]].
  - unfold SetDistinctEstimateBit. rewrite one_shl_in_range, Hw by exact Hc. reflexivity.
  - apply int_bitmap_set_length.
  - apply int_bitmap_set_bytes. exact Hb.
  - intros r' c' Hr' Hlen' Hc'.
    destruct (int_bitmap_get_in_range bitmap r' Hb Hr' Hlen') as (w' & Hw' & _).
    exists (Z.testbit w' c'). split; [apply GetDistinctEstimateBit_word; assumption|].
    destruct (Z.eqb_spec r' r) as [->|Hne].
    + rewrite (GetDistinctEstimateBit_word _ _ _ (Z.lor w (2 ^ c)))
        by (try apply int_bitmap_get_set_same; try apply lor_pow2_range; assumption).
      rewrite Z.lor_spec, Z.pow2_bits_eqb by lia.
      replace w' with w by congruence. rewrite (Z.eqb_sym c c'). reflexivity.
    + rewrite (GetDistinctEstimateBit_word _ _ _ w')
        by (try rewrite int_bitmap_get_set_other; assumption || lia).
      rewrite andb_false_l, orb_false_r. reflexivity.
Qed.

(** X11.  [SetDistinctEstimateBit] followed by [GetDistinctEstimateBit]: on
    a bitmap of bytes, setting the bit at a row and a column inside the
    bitmap is defined and keeps the length; reading a bit inside the bitmap
    afterwards gives the bit that was set as set, and any other bit as it
    was before. *)
Theorem SetDistinctEstimateBit_then_get (bitmap : list Z) (r c r' c' : Z) :
  bytes bitmap →
  0 ≤ r → 4 * r + 4 ≤ Z.of_nat (length bitmap) → 0 ≤ c < PC_BITMAP_LENGTH →
  0 ≤ r' → 4 * r' + 4 ≤ Z.of_nat (length bitmap) → 0 ≤ c' < PC_BITMAP_LENGTH →
  ∃ (bitmap' : list Z) (old : bool),
    SetDistinctEstimateBit bitmap r c = Some bitmap' ∧
    length bitmap' = length bitmap ∧ bytes bitmap' ∧
    GetDistinctEstimateBit bitmap r' c' = Some old ∧
    GetDistinctEstimateBit bitmap' r' c' = Some (old || (r' =? r) && (c' =? c)).
Proof.
  intros Hb Hr Hlen Hc Hr' Hlen' Hc'.
  destruct (SetDistinctEstimateBit_bits bitmap r c Hb Hr Hlen Hc)
    as (bitmap' & Hset & Hsame & Hbytes & Hget).
  destruct (Hget r' c' Hr' Hlen' Hc') as (old & Hold & Hnew).
  exists bitmap', old. split; [exact Hset|]. split; [exact Hsame|].
  split; [exact Hbytes|]. split; [exact Hold|exact Hnew].
Qed.

(** Bit 5 of row 1 in a bitmap of two empty rows. *)
Lemma SetDistinctEstimateBit_then_get_witness :
  ∃ bitmap',
    SetDistinctEstimateBit (replicate 8 0) 1 5 = Some bitmap' ∧
    GetDistinctEstimateBit (replicate 8 0) 1 5 = Some false ∧
    GetDistinctEstimateBit bitmap' 1 5 = Some true.
Proof.
  destruct (SetDistinctEstimateBit_then_get (replicate 8 0) 1 5 1 5)
    as (bitmap' & old & Hset & _ & _ & Hold & Hnew).
  - apply Forall_replicate. lia.
  - lia.
  - simpl. lia.
  - unfold PC_BITMAP_LENGTH. lia.
  - lia.
  - simpl. lia.
  - unfold PC_BITMAP_LENGTH. lia.
  - exists bitmap'. split; [exact Hset|]. split; [reflexivity|].
    rewrite Hnew. f_equal. apply orb_true_r.
Defined.

(** ** Trailing zeros *)

Lemma ctz_pos_bounds (p : positive) : 0 ≤ ctz_pos p ∧ 2 ^ ctz_pos p ≤ Zpos p.
Proof.
  induction p as [p IH|p IH|]; cbn [ctz_pos]; [split; [lia|change (2 ^ 0) with 1; lia]| |
    split; [lia|change (2 ^ 0) with 1; lia]].
  destruct IH as [Hnn Hle]. split; [lia|].
  replace (1 + ctz_pos p) with (Z.succ (ctz_pos p)) by lia.
  rewrite Z.pow_succ_r by exact Hnn. lia.
Qed.

Lemma builtin_ctz_in_range (x n : Z) :
  0 < x < 2 ^ n → __builtin_ctz x = Some (ctz x) ∧ 0 ≤ ctz x < n.
Proof.
  intros Hx. destruct x as [|p|p]; [lia| |lia]. cbn [__builtin_ctz ctz].
  destruct (ctz_pos_bounds p) as [Hnn Hle]. split; [reflexivity|]. split; [exact Hnn|].
  destruct (Z.lt_ge_cases (ctz_pos p) n) as [|Hge]; [assumption|].
  assert (0 ≤ n).
  { destruct (Z.lt_ge_cases n 0) as [Hneg|]; [|assumption].
    rewrite Z.pow_neg_r in Hx by exact Hneg. lia. }
  assert (2 ^ n ≤ 2 ^ ctz_pos p) by (apply Z.pow_le_mono_r; lia). lia.
Qed.

Lemma store_state_at_full {S} (ctx : FunctionContext S) p s s' :
  state_at ctx p = Some s →
  ∃ ctx', store p s' ctx = Some (tt, ctx') ∧ state_at ctx' p = Some s' ∧
          arg_type ctx' = arg_type ctx ∧
          (∀ q, q ≠ p → state_at ctx' q = state_at ctx q).
Proof.
  unfold state_at, store. intros Hs.
  destruct (allocations ctx !! p) as [x|] eqn:Ha.
  - eexists. split; [reflexivity|]. unfold set_allocations. ctx_simpl.
    rewrite lookup_insert_eq. split; [reflexivity|]. split; [reflexivity|].
    intros q Hq. rewrite lookup_insert_ne by congruence. reflexivity.
  - rewrite Hs. eexists. split; [reflexivity|]. unfold set_local_states. ctx_simpl.
    rewrite Ha, lookup_insert_eq. split; [reflexivity|]. split; [reflexivity|].
    intros q Hq. rewrite lookup_insert_ne by congruence. reflexivity.
Qed.

(** ** Probabilistic counting: the updates *)

(** X12.  [PcsaUpdate] on a non-null input whose 32-bit hash is zero or at
    least [NUM_PC_BITMAPS]: on a 256-byte bitmap the update is defined and
    sets, in row [hash % 64], the bit [ctz(hash / 64)] (bit 31 for a zero
    hash); every other bit reads as before. *)
Theorem PcsaUpdate_sets_bit {T : Type} `{Nullable T} `{AnyValHash T}
    (input : T) (dst : StringVal) (ctx : FunctionContext (list Z)) (bitmap : list Z) :
  is_null input = false →
  state_at ctx (ptr dst) = Some bitmap →
  bytes bitmap → Z.of_nat (length bitmap) = pc_len →
  to_uint32 (Hash input (arg_type ctx) 0) = 0
  ∨ NUM_PC_BITMAPS ≤ to_uint32 (Hash input (arg_type ctx) 0) →
  ∃ bitmap' ctx',
    PcsaUpdate input dst ctx = Some (tt, ctx') ∧
    state_at ctx' (ptr dst) = Some bitmap' ∧
    length bitmap' = length bitmap ∧ bytes bitmap' ∧
    ∀ r c, 0 ≤ r < NUM_PC_BITMAPS → 0 ≤ c < PC_BITMAP_LENGTH →
      ∃ old : bool,
        GetDistinctEstimateBit bitmap r c = Some old ∧
        GetDistinctEstimateBit bitmap' r c
        = Some (old || (r =? to_uint32 (Hash input (arg_type ctx) 0) mod NUM_PC_BITMAPS)
                       && (c =? pcsa_bit_index (to_uint32 (Hash input (arg_type ctx) 0)))).
Proof.
  intros Hnull Hst Hb Hlen Hhash.
  change pc_len with 256 in Hlen. change NUM_PC_BITMAPS with 64 in *.
  set (h := to_uint32 (Hash input (arg_type ctx) 0)) in *.
  pose proof (to_uint32_range (Hash input (arg_type ctx) 0)) as Hh. fold h in Hh.
  assert (Hrow : 0 ≤ h mod 64 < 64) by (apply Z.mod_pos_bound; lia).
  assert (Hbit : (if h =? 0 then Some (PC_BITMAP_LENGTH - 1) else __builtin_ctz (h / 64))
                 = Some (pcsa_bit_index h) ∧ 0 ≤ pcsa_bit_index h < PC_BITMAP_LENGTH).
  { unfold pcsa_bit_index. change NUM_PC_BITMAPS with 64. change PC_BITMAP_LENGTH with 32.
    destruct (Z.eqb_spec h 0) as [Hz|Hnz]; [split; [reflexivity|lia]|].
    assert (0 < h / 64 < 2 ^ 26).
    { change (2 ^ 32) with 4294967296 in Hh. change (2 ^ 26) with 67108864.
      Z.div_mod_to_equations. lia. }
    destruct (builtin_ctz_in_range (h / 64) 26) as [Hctz Hrange]; [assumption|].
    split; [exact Hctz|lia]. }
  destruct Hbit as [Hbit Hrange].
  destruct (SetDistinctEstimateBit_bits bitmap (h mod 64) (pcsa_bit_index h))
    as (bitmap' & Hset & Hlen' & Hb' & Hbits); [assumption|lia|lia|assumption|].
  destruct (store_state_at_full ctx (ptr dst) bitmap bitmap' Hst) as (ctx' & Hstore & Hat & _).
  exists bitmap', ctx'. split; [|split; [exact Hat|split; [exact Hlen'|split; [exact Hb'|]]]].
  - unfold PcsaUpdate. rewrite Hnull. unfold GetArgType. rewrite bind_run.
    change NUM_PC_BITMAPS with 64. fold h. rewrite Hbit.
    rewrite bind_run, (load_run _ _ _ Hst). cbn [mbind option_bind]. rewrite Hset.
    exact Hstore.
  - intros r c Hr Hc. apply Hbits; lia.
Qed.

(** A value whose hash is 64, folded into an empty bitmap. *)
Lemma PcsaUpdate_sets_bit_witness :
  ∃ bitmap' ctx',
    PcsaUpdate (H0:=sample_hash) (mkVal false 64) (StringVal_of 2 256) bytes_pair_ctx
    = Some (tt, ctx') ∧
    state_at ctx' 2 = Some bitmap' ∧
    GetDistinctEstimateBit bitmap' 0 0 = Some true.
Proof.
  destruct (PcsaUpdate_sets_bit (H0:=sample_hash) (mkVal false 64) (StringVal_of 2 256)
              bytes_pair_ctx (replicate 256 0))
    as (bitmap' & ctx' & Hrun & Hat & _ & _ & Hbits).
  - reflexivity.
  - reflexivity.
  - apply Forall_replicate. lia.
  - reflexivity.
  - right. vm_compute. discriminate.
  - exists bitmap', ctx'. split; [exact Hrun|]. split; [exact Hat|].
    destruct (Hbits 0 0) as (old & _ & Hnew);
      [unfold NUM_PC_BITMAPS; lia|unfold PC_BITMAP_LENGTH; lia|].
    rewrite Hnew. f_equal. apply orb_true_r.
Defined.

(** The loop of [PcUpdate], from row [i] on. *)
Lemma PcUpdate_loop {T : Type} `{Nullable T} `{AnyValHash T} (input : T) (dst : StringVal)
    (arg : TypeDesc) (n : nat) :
  ∀ (i : Z) (ctx : FunctionContext (list Z)) (bitmap : list Z),
    0 ≤ i → i + Z.of_nat n ≤ NUM_PC_BITMAPS →
    arg_type ctx = arg →
    state_at ctx (ptr dst) = Some bitmap →
    bytes bitmap → Z.of_nat (length bitmap) = pc_len →
    ∃ bitmap' ctx',
      for_range n i (λ i,
        arg ← GetArgType;
        let hash_value := to_uint32 (Hash input arg i) in
        let bit_index := __builtin_ctz hash_value in
        let bit_index :=
          if hash_value =? 0 then Some (PC_BITMAP_LENGTH - 1) else bit_index in
        bitmap ← load (ptr dst);
        store_defined (ptr dst) (b ← bit_index; SetDistinctEstimateBit bitmap i b)) ctx
      = Some (tt, ctx') ∧
      state_at ctx' (ptr dst) = Some bitmap' ∧
      length bitmap' = length bitmap ∧ bytes bitmap' ∧
      ∀ r c, 0 ≤ r < NUM_PC_BITMAPS → 0 ≤ c < PC_BITMAP_LENGTH →
        ∃ old : bool,
          GetDistinctEstimateBit bitmap r c = Some old ∧
          GetDistinctEstimateBit bitmap' r c
          = Some (old || (i <=? r) && (r <? i + Z.of_nat n)
                         && (c =? pc_bit_index (to_uint32 (Hash input arg r)))).
Proof.
  change pc_len with 256. change NUM_PC_BITMAPS with 64.
  induction n as [|n IH]; intros i ctx bitmap Hi Hle Harg Hst Hb Hlen.
  - exists bitmap, ctx. split; [reflexivity|]. split; [exact Hst|]. split; [reflexivity|].
    split; [exact Hb|]. intros r c Hr Hc.
    destruct (GetDistinctEstimateBit bitmap r c) as [old|] eqn:Hget.
    + exists old. split; [reflexivity|].
      replace ((i <=? r) && (r <? i + Z.of_nat 0)) with false
        by (destruct (Z.leb_spec i r), (Z.ltb_spec r (i + Z.of_nat 0)); cbn; lia).
      rewrite orb_false_r. reflexivity.
    + rewrite GetDistinctEstimateBit_byte in Hget by (assumption || lia). discriminate.
  - cbn [for_range]. rewrite bind_run.
    set (h := to_uint32 (Hash input arg i)).
    pose proof (to_uint32_range (Hash input arg i)) as Hh. fold h in Hh.
    assert (Hbit : (if h =? 0 then Some (PC_BITMAP_LENGTH - 1) else __builtin_ctz h)
                   = Some (pc_bit_index h) ∧ 0 ≤ pc_bit_index h < PC_BITMAP_LENGTH).
    { unfold pc_bit_index. change PC_BITMAP_LENGTH with 32.
      destruct (Z.eqb_spec h 0) as [Hz|Hnz]; [split; [reflexivity|lia]|].
      destruct (builtin_ctz_in_range h 32) as [Hctz Hrange]; [lia|].
      split; [exact Hctz|lia]. }
    destruct Hbit as [Hbit Hrange].
    destruct (SetDistinctEstimateBit_bits bitmap i (pc_bit_index h))
      as (bitmap1 & Hset & Hlen1 & Hb1 & Hbits1); [assumption|lia|lia|assumption|].
    destruct (store_state_at_full ctx (ptr dst) bitmap bitmap1 Hst)
      as (ctx1 & Hstore & Hat1 & Harg1 & _).
    destruct (IH (i + 1) ctx1 bitmap1) as (bitmap' & ctx' & Hrun & Hat & Hlen' & Hb' & Hbits);
      [lia|lia|congruence|exact Hat1|exact Hb1|lia|].
    exists bitmap', ctx'. split; [|split; [exact Hat|split; [lia|split; [exact Hb'|]]]].
    + unfold GetArgType at 1. rewrite bind_run, Harg. fold h. rewrite Hbit.
      rewrite bind_run, (load_run _ _ _ Hst). cbn [mbind option_bind]. rewrite Hset.
      unfold store_defined. rewrite Hstore. exact Hrun.
    + intros r c Hr Hc.
      destruct (Hbits1 r c) as (old & Hold & Hnew1); [lia|lia|exact Hc|].
      destruct (Hbits r c Hr Hc) as (old1 & Hold1 & Hnew).
      exists old. split; [exact Hold|]. rewrite Hnew. f_equal.
      assert (old1 = old || (r =? i) && (c =? pc_bit_index h)) as -> by congruence.
      destruct (Z.eqb_spec r i) as [->|Hne].
      * fold h. destruct (Z.leb_spec (i + 1) i); [lia|].
        destruct (Z.leb_spec i i); [|lia].
        destruct (Z.ltb_spec i (i + Z.of_nat (Datatypes.S n))); [|lia].
        cbn [andb]. rewrite orb_false_r. reflexivity.
      * cbn [andb]. rewrite orb_false_r. f_equal. f_equal.
        destruct (Z.leb_spec (i + 1) r), (Z.leb_spec i r),
          (Z.ltb_spec r (i + 1 + Z.of_nat n)),
          (Z.ltb_spec r (i + Z.of_nat (Datatypes.S n))); cbn [andb]; lia || reflexivity.
Qed.

(** X13.  [PcUpdate] on a non-null input stays inside the bitmap whatever
    the hash function returns: on a 256-byte bitmap it is defined, and
    afterwards every row [r] has the bit [ctz(hash_r)] set ([hash_r] being
    the 32-bit hash with seed [r]; bit 31 for a zero hash), every other bit
    reading as before. *)
Theorem PcUpdate_sets_bits {T : Type} `{Nullable T} `{AnyValHash T}
    (input : T) (dst : StringVal) (ctx : FunctionContext (list Z)) (bitmap : list Z) :
  is_null input = false →
  state_at ctx (ptr dst) = Some bitmap →
  bytes bitmap → Z.of_nat (length bitmap) = pc_len →
  ∃ bitmap' ctx',
    PcUpdate input dst ctx = Some (tt, ctx') ∧
    state_at ctx' (ptr dst) = Some bitmap' ∧
    length bitmap' = length bitmap ∧ bytes bitmap' ∧
    ∀ r c, 0 ≤ r < NUM_PC_BITMAPS → 0 ≤ c < PC_BITMAP_LENGTH →
      ∃ old : bool,
        GetDistinctEstimateBit bitmap r c = Some old ∧
        GetDistinctEstimateBit bitmap' r c
        = Some (old || (c =? pc_bit_index (to_uint32 (Hash input (arg_type ctx) r)))).
Proof.
  intros Hnull Hst Hb Hlen.
  destruct (PcUpdate_loop input dst (arg_type ctx) (Z.to_nat NUM_PC_BITMAPS) 0 ctx bitmap)
    as (bitmap' & ctx' & Hrun & Hat & Hlen' & Hb' & Hbits);
    [lia|change NUM_PC_BITMAPS with 64; lia|reflexivity|assumption..|].
  exists bitmap', ctx'. split; [|split; [exact Hat|split; [exact Hlen'|split; [exact Hb'|]]]].
  - unfold PcUpdate. rewrite Hnull. exact Hrun.
  - intros r c Hr Hc. destruct (Hbits r c Hr Hc) as (old & Hold & Hnew).
    exists old. split; [exact Hold|]. rewrite Hnew.
    change NUM_PC_BITMAPS with 64 in *.
    destruct (Z.leb_spec 0 r); [|lia].
    destruct (Z.ltb_spec r (0 + Z.of_nat (Z.to_nat 64))); [|lia]. reflexivity.
Qed.

(** A value whose hash with seed [r] is [4 + r], folded into an empty bitmap. *)
Lemma PcUpdate_sets_bits_witness :
  ∃ bitmap' ctx',
    PcUpdate (H0:=sample_hash) (mkVal false 4) (StringVal_of 2 256) bytes_pair_ctx
    = Some (tt, ctx') ∧
    state_at ctx' 2 = Some bitmap' ∧
    GetDistinctEstimateBit bitmap' 0 2 = Some true ∧
    GetDistinctEstimateBit bitmap' 1 0 = Some true.
Proof.
  destruct (PcUpdate_sets_bits (H0:=sample_hash) (mkVal false 4) (StringVal_of 2 256)
              bytes_pair_ctx (replicate 256 0))
    as (bitmap' & ctx' & Hrun & Hat & _ & _ & Hbits).
  - reflexivity.
  - reflexivity.
  - apply Forall_replicate. lia.
  - reflexivity.
  - exists bitmap', ctx'. split; [exact Hrun|]. split; [exact Hat|]. split.
    + destruct (Hbits 0 2) as (old & _ & Hnew);
        [unfold NUM_PC_BITMAPS; lia|unfold PC_BITMAP_LENGTH; lia|].
      rewrite Hnew. f_equal. apply orb_true_r.
    + destruct (Hbits 1 0) as (old & _ & Hnew);
        [unfold NUM_PC_BITMAPS; lia|unfold PC_BITMAP_LENGTH; lia|].
      rewrite Hnew. f_equal. apply orb_true_r.
Defined.

(** ** Probabilistic counting: the merge *)

Lemma lor_range (n x y : Z) :
  0 ≤ n → 0 ≤ x < 2 ^ n → 0 ≤ y < 2 ^ n → 0 ≤ Z.lor x y < 2 ^ n.
Proof.
  intros Hn Hx Hy.
  assert (Hnn : 0 ≤ Z.lor x y) by (apply Z.lor_nonneg; lia).
  split; [exact Hnn|].
  destruct (Z.eq_dec (Z.lor x y) 0) as [->|Hne]; [lia|].
  assert (0 < n).
  { destruct (Z.eq_dec n 0) as [->|]; [|lia]. change (2 ^ 0) with 1 in *.
    replace x with 0 in Hne by lia. replace y with 0 in Hne by lia. contradiction. }
  apply Z.log2_lt_pow2; [lia|]. rewrite Z.log2_lor by lia.
  assert (Z.log2 x < n).
  { destruct (Z.eq_dec x 0) as [->|Hx0]; [cbn; lia|]. apply Z.log2_lt_pow2; lia. }
  assert (Z.log2 y < n).
  { destruct (Z.eq_dec y 0) as [->|Hy0]; [cbn; lia|]. apply Z.log2_lt_pow2; lia. }
  lia.
Qed.

Lemma bytes_from_lookup (l : list Z) :
  (∀ j : nat, (j < length l)%nat → 0 ≤ l !!! j < 256) → bytes l.
Proof.
  intros Hl. unfold bytes. apply Forall_lookup. intros i x Hx.
  pose proof (lookup_lt_Some _ _ _ Hx) as Hi.
  rewrite <- (list_lookup_total_correct _ _ _ Hx). apply Hl. exact Hi.
Qed.

(** X14.  [PcMerge] unites two bitmaps: it is defined on two 256-byte
    bitmaps, and a bit of the merged destination is set exactly when it was
    set in the destination or in the source.  No bit is ever cleared, and
    merging a bitmap with an equal one leaves it unchanged. *)
Theorem PcMerge_unites (ctx : FunctionContext (list Z)) (src dst : StringVal) (a b : list Z) :
  state_at ctx (ptr src) = Some b → state_at ctx (ptr dst) = Some a →
  bytes a → bytes b →
  Z.of_nat (length a) = pc_len → Z.of_nat (length b) = pc_len →
  ∃ merged ctx',
    PcMerge src dst ctx = Some (tt, ctx') ∧
    state_at ctx' (ptr dst) = Some merged ∧
    length merged = length a ∧ bytes merged ∧
    (∀ r c, 0 ≤ r < NUM_PC_BITMAPS → 0 ≤ c < PC_BITMAP_LENGTH →
       ∃ x y : bool,
         GetDistinctEstimateBit a r c = Some x ∧
         GetDistinctEstimateBit b r c = Some y ∧
         GetDistinctEstimateBit merged r c = Some (x || y)) ∧
    (a = b → merged = a).
Proof.
  intros Hsrc Hdst Ha Hb Hla Hlb.
  destruct (PcMerge_run ctx src dst a b Hsrc Hdst) as (ctx' & Hrun & Hat & _).
  set (merged := PcMerge_loop (Z.to_nat pc_len) 0 b a) in *.
  change pc_len with 256 in *. change NUM_PC_BITMAPS with 64. change PC_BITMAP_LENGTH with 32.
  assert (Hlen : length merged = length a) by apply PcMerge_loop_length.
  assert (Hlook : ∀ j : nat, (j < length a)%nat →
                    merged !!! j = Z.lor (a !!! j) (b !!! j)).
  { intros j Hj. subst merged. rewrite PcMerge_loop_lookup by exact Hj.
    destruct (decide (0 ≤ j < 0 + Z.to_nat 256)%nat); [reflexivity|lia]. }
  assert (Hbytes : bytes merged).
  { apply bytes_from_lookup. intros j Hj. rewrite Hlook by lia.
    apply (lor_range 8); [lia|apply bytes_lookup; [assumption|lia]..]. }
  exists merged, ctx'. split; [exact Hrun|]. split; [exact Hat|]. split; [exact Hlen|].
  split; [exact Hbytes|]. split.
  - intros r c Hr Hc.
    assert (Hidx : 0 ≤ c / 8 < 4) by (Z.div_mod_to_equations; lia).
    eexists _, _.
    rewrite !GetDistinctEstimateBit_byte by (assumption || lia).
    split; [reflexivity|]. split; [reflexivity|].
    rewrite Hlook by lia. rewrite Z.lor_spec. reflexivity.
  - intros <-. apply list_eq_total; [exact Hlen|].
    intros j Hj. rewrite Hlook by lia. apply Z.lor_diag.
Qed.

(** A bitmap with bit 0 of every byte merged with one with bit 1 of every byte. *)
Lemma PcMerge_unites_witness :
  ∃ merged ctx',
    PcMerge (StringVal_of 2 256) (StringVal_of 1 256) merge_ctx = Some (tt, ctx') ∧
    state_at ctx' 1 = Some merged ∧
    GetDistinctEstimateBit merged 0 0 = Some true ∧
    GetDistinctEstimateBit merged 0 1 = Some true ∧
    GetDistinctEstimateBit merged 0 2 = Some false.
Proof.
  destruct (PcMerge_unites merge_ctx (StringVal_of 2 256) (StringVal_of 1 256)
              (replicate 256 1) (replicate 256 2))
    as (merged & ctx' & Hrun & Hat & _ & _ & Hbits & _).
  - reflexivity.
  - reflexivity.
  - apply Forall_replicate. lia.
  - apply Forall_replicate. lia.
  - reflexivity.
  - reflexivity.
  - exists merged, ctx'. split; [exact Hrun|]. split; [exact Hat|].
    assert (Hbit : ∀ c v, 0 ≤ c < 32 →
              (∀ x y, GetDistinctEstimateBit (replicate 256 1) 0 c = Some x →
                      GetDistinctEstimateBit (replicate 256 2) 0 c = Some y → x || y = v) →
              GetDistinctEstimateBit merged 0 c = Some v).
    { intros c v Hc Hv.
      destruct (Hbits 0 c) as (x & y & Hx & Hy & Hm);
        [unfold NUM_PC_BITMAPS; lia|unfold PC_BITMAP_LENGTH; lia|].
      rewrite Hm. f_equal. apply Hv; assumption. }
    split; [|split]; apply Hbit; try lia; intros x y Hx Hy;
      vm_compute in Hx, Hy; injection Hx as <-; injection Hy as <-; reflexivity.
Defined.

(** ** Probabilistic counting: the estimate *)

(** The bits of [w] below the trailing zeros of [w + 1] are ones, and the
    bit at that position is a zero. *)
Lemma trailing_ones (p : positive) :
  (∀ c, 0 ≤ c < ctz_pos p → Z.testbit (Zpos p - 1) c = true) ∧
  Z.testbit (Zpos p - 1) (ctz_pos p) = false.
Proof.
  induction p as [p IH|p IH|]; cbn [ctz_pos].
  - split; [intros c Hc; lia|].
    replace (Zpos p~1 - 1) with (2 * Zpos p) by lia. apply Z.testbit_even_0.
  - destruct IH as [Hones Hzero]. destruct (ctz_pos_bounds p) as [Hnn _].
    replace (Zpos p~0 - 1) with (2 * (Zpos p - 1) + 1) by lia. split.
    + intros c Hc. destruct (Z.eq_dec c 0) as [->|Hne]; [apply Z.testbit_odd_0|].
      replace c with (Z.succ (c - 1)) by lia.
      rewrite Z.testbit_odd_succ by lia. apply Hones. lia.
    + replace (1 + ctz_pos p) with (Z.succ (ctz_pos p)) by lia.
      rewrite Z.testbit_odd_succ by lia. exact Hzero.
  - split; [intros c Hc; lia|reflexivity].
Qed.

Lemma row_word_in_range (bitmap : list Z) (r : Z) :
  bytes bitmap → 0 ≤ r → 4 * r + 4 ≤ Z.of_nat (length bitmap) →
  int_bitmap_get bitmap r = Some (row_word bitmap r) ∧ 0 ≤ row_word bitmap r < 2 ^ 32.
Proof.
  intros Hb Hr Hlen. unfold row_word.
  destruct (int_bitmap_get_in_range bitmap r Hb Hr Hlen) as (w & -> & Hw).
  split; [reflexivity|exact Hw].
Qed.

(** A row that is not full: the loop stops at its first zero, inside the
    row. *)
Lemma row_leading_ones_not_full (bitmap : list Z) (r : Z) :
  bytes bitmap → 0 ≤ r → 4 * r + 4 ≤ Z.of_nat (length bitmap) →
  row_word bitmap r ≠ 2 ^ 32 - 1 →
  fst (row_leading_ones bitmap r) = Some (leading_ones bitmap r) ∧
  0 ≤ leading_ones bitmap r < PC_BITMAP_LENGTH.
Proof.
  intros Hb Hr Hlen Hfull.
  destruct (row_word_in_range bitmap r Hb Hr Hlen) as [Hw Hrange].
  unfold leading_ones. set (w := row_word bitmap r) in *.
  assert (Hp : 0 < w + 1 < 2 ^ 32) by lia.
  destruct (builtin_ctz_in_range (w + 1) 32 Hp) as [_ Hk].
  destruct (w + 1) as [|p|p] eqn:Hw1; [lia| |lia]. cbn [ctz] in *.
  destruct (trailing_ones p) as [Hones Hzero].
  replace (Zpos p - 1) with w in * by lia.
  change PC_BITMAP_LENGTH with 32. split; [|exact Hk].
  unfold row_leading_ones.
  rewrite (leading_ones_loop_in_bounds bitmap r (ctz_pos p) Hk) with (n := Z.to_nat (ctz_pos p));
    [reflexivity| | |lia|lia|change PC_BITMAP_LENGTH with 32; lia].
  - intros c Hc. rewrite (GetDistinctEstimateBit_word _ _ _ w) by (assumption || lia).
    rewrite Hones by exact Hc. reflexivity.
  - rewrite (GetDistinctEstimateBit_word _ _ _ w) by (assumption || lia).
    rewrite Hzero. reflexivity.
Qed.

Lemma row_leading_ones_full (bitmap : list Z) (r : Z) :
  bytes bitmap → 0 ≤ r → 4 * r + 4 ≤ Z.of_nat (length bitmap) →
  row_word bitmap r = 2 ^ 32 - 1 →
  fst (row_leading_ones bitmap r) = None.
Proof.
  intros Hb Hr Hlen Hfull.
  destruct (row_word_in_range bitmap r Hb Hr Hlen) as [Hw _].
  rewrite row_leading_ones_full_row; [reflexivity|].
  intros c Hc. change PC_BITMAP_LENGTH with 32 in Hc.
  rewrite (GetDistinctEstimateBit_word _ _ _ (row_word bitmap r)) by (assumption || lia).
  rewrite Hfull. change (2 ^ 32 - 1) with (Z.ones 32).
  rewrite Z.ones_spec_low by lia. reflexivity.
Qed.

Lemma sum_leading_ones_bounds (bitmap : list Z) (n : nat) : ∀ i,
  bytes bitmap → 0 ≤ i → 4 * (i + Z.of_nat n) ≤ Z.of_nat (length bitmap) →
  0 ≤ sum_leading_ones n i bitmap ≤ 32 * Z.of_nat n.
Proof.
  induction n as [|n IH]; intros i Hb Hi Hlen; cbn [sum_leading_ones]; [lia|].
  specialize (IH (i + 1) Hb ltac:(lia) ltac:(lia)).
  assert (0 ≤ leading_ones bitmap i ≤ 32); [|lia].
  unfold leading_ones.
  destruct (row_word_in_range bitmap i Hb Hi ltac:(lia)) as [_ Hrange].
  destruct (Z.eq_dec (row_word bitmap i + 1) (2 ^ 32)) as [->|Hne]; [vm_compute; split; discriminate|].
  destruct (builtin_ctz_in_range (row_word bitmap i + 1) 32) as [_ Hk]; lia.
Qed.

Lemma sum_rows_loop_spec (bitmap : list Z) (n : nat) : ∀ i sum,
  bytes bitmap → 0 ≤ i → 4 * (i + Z.of_nat n) ≤ Z.of_nat (length bitmap) →
  Z.of_nat n ≤ 64 → 0 ≤ sum ≤ 32 * (64 - Z.of_nat n) →
  (∀ r, i ≤ r < i + Z.of_nat n → row_word bitmap r ≠ 2 ^ 32 - 1) →
  sum_rows_loop n i bitmap sum = Some (sum + sum_leading_ones n i bitmap).
Proof.
  induction n as [|n IH]; intros i sum Hb Hi Hlen Hn Hsum Hrows;
    cbn [sum_rows_loop sum_leading_ones]; [f_equal; lia|].
  destruct (row_leading_ones_not_full bitmap i Hb Hi ltac:(lia) (Hrows i ltac:(lia)))
    as [-> Hk]. change PC_BITMAP_LENGTH with 32 in Hk.
  rewrite to_int32_small by (change (2 ^ 31) with 2147483648; lia).
  rewrite IH by (try assumption; try lia; intros r Hrr; apply Hrows; lia).
  f_equal. lia.
Qed.

Lemma sum_rows_loop_full (bitmap : list Z) (n : nat) : ∀ i sum r,
  bytes bitmap → 0 ≤ i → 4 * (i + Z.of_nat n) ≤ Z.of_nat (length bitmap) →
  i ≤ r < i + Z.of_nat n → row_word bitmap r = 2 ^ 32 - 1 →
  sum_rows_loop n i bitmap sum = None.
Proof.
  induction n as [|n IH]; intros i sum r Hb Hi Hlen Hr Hfull; [lia|].
  cbn [sum_rows_loop].
  destruct (Z.eq_dec r i) as [->|Hne].
  - rewrite row_leading_ones_full by (assumption || lia). reflexivity.
  - destruct (fst (row_leading_ones bitmap i)); [|reflexivity].
    apply (IH _ _ r); try assumption; lia.
Qed.

Lemma is_empty_loop_spec (l : list Z) (n : nat) : ∀ i : nat,
  (i + n ≤ length l)%nat →
  is_empty_loop n i l = forallb (Z.eqb 0) (take n (drop i l)).
Proof.
  induction n as [|n IH]; intros i Hi; [reflexivity|].
  cbn [is_empty_loop].
  destruct (lookup_lt_is_Some_2 l i ltac:(lia)) as [x Hx].
  rewrite (list_lookup_total_correct _ _ _ Hx), (drop_S _ _ _ Hx).
  cbn [take forallb]. rewrite (Z.eqb_sym 0 x).
  destruct (x =? 0); cbn [negb andb]; [apply IH; lia|reflexivity].
Qed.

(** X15.  The estimator [DistinceEstimateFinalize] on a 256-byte bitmap: it
    returns zero for a bitmap with no bit set; for any other bitmap in which
    no row has all of its 32 bits set it returns two to the power of the
    average number of leading ones of the 64 rows, divided by [PC_THETA],
    leaving the context as it is; and it is undefined as soon as one row
    has all of its 32 bits set. *)
Theorem DistinceEstimateFinalize_estimate `{ValueLibrary} (src : StringVal)
    (ctx : FunctionContext (list Z)) (bitmap : list Z) :
  state_at ctx (ptr src) = Some bitmap →
  bytes bitmap → Z.of_nat (length bitmap) = pc_len →
  ((∀ r, 0 ≤ r < NUM_PC_BITMAPS → row_word bitmap r ≠ 2 ^ 32 - 1) →
   DistinceEstimateFinalize src ctx
   = Some (if forallb (Z.eqb 0) bitmap then dzero else pc_estimate bitmap, ctx)) ∧
  (∀ r, 0 ≤ r < NUM_PC_BITMAPS → row_word bitmap r = 2 ^ 32 - 1 →
   DistinceEstimateFinalize src ctx = None).
Proof.
  intros Hst Hb Hlen. change pc_len with 256 in Hlen. change NUM_PC_BITMAPS with 64.
  assert (Hempty : is_empty_loop (Z.to_nat (NUM_PC_BITMAPS * PC_BITMAP_LENGTH / 8)) 0 bitmap
                   = forallb (Z.eqb 0) bitmap).
  { rewrite is_empty_loop_spec by (change (Z.to_nat (NUM_PC_BITMAPS * PC_BITMAP_LENGTH / 8))
                                     with 256%nat; lia).
    rewrite drop_0, take_ge; [reflexivity|].
    change (Z.to_nat (NUM_PC_BITMAPS * PC_BITMAP_LENGTH / 8)) with 256%nat. lia. }
  unfold DistinceEstimateFinalize. rewrite bind_run, (load_run _ _ _ Hst), Hempty. split.
  - intros Hrows. destruct (forallb (Z.eqb 0) bitmap); [reflexivity|].
    change (Z.to_nat NUM_PC_BITMAPS) with 64%nat.
    rewrite (sum_rows_loop_spec bitmap 64 0 0) by (assumption || lia).
    rewrite Z.add_0_l. reflexivity.
  - intros r Hr Hfull.
    assert (Hnonempty : forallb (Z.eqb 0) bitmap = false).
    { apply not_true_is_false. intros Hall. rewrite forallb_forall in Hall.
      assert (Hzero : ∀ j : nat, (j < length bitmap)%nat → bitmap !!! j = 0).
      { intros j Hj. destruct (lookup_lt_is_Some_2 bitmap j Hj) as [x Hx].
        rewrite (list_lookup_total_correct _ _ _ Hx).
        symmetry. apply Z.eqb_eq, Hall. apply list_elem_of_In.
        apply (list_elem_of_lookup_2 _ _ _ Hx). }
      unfold row_word, int_bitmap_get in Hfull.
      destruct (Z.leb_spec 0 r); [|lia].
      destruct (Z.leb_spec (4 * r + 4) (Z.of_nat (length bitmap))); [|lia].
      cbn [andb default] in Hfull. rewrite !Hzero in Hfull by lia. discriminate. }
    rewrite Hnonempty. change (Z.to_nat NUM_PC_BITMAPS) with 64%nat.
    rewrite (sum_rows_loop_full bitmap 64 0 0 r) by (assumption || lia). reflexivity.
Qed.

(** A bitmap whose row 0 is full, and an empty bitmap. *)
Lemma DistinceEstimateFinalize_estimate_witness :
  DistinceEstimateFinalize (H:=sample_library) (StringVal_of 1 256) row0_full_ctx = None ∧
  DistinceEstimateFinalize (H:=sample_library) (StringVal_of 2 256) bytes_pair_ctx
  = Some (dzero, bytes_pair_ctx).
Proof.
  split.
  - apply (DistinceEstimateFinalize_estimate (H:=sample_library) (StringVal_of 1 256)
             row0_full_ctx row0_full) with (r := 0).
    + reflexivity.
    + unfold row0_full. apply Forall_app. split; apply Forall_replicate; lia.
    + reflexivity.
    + unfold NUM_PC_BITMAPS. lia.
    + reflexivity.
  - apply (DistinceEstimateFinalize_estimate (H:=sample_library) (StringVal_of 2 256)
             bytes_pair_ctx (replicate 256 0)).
    + reflexivity.
    + apply Forall_replicate. lia.
    + reflexivity.
    + intros r Hr. unfold row_word, int_bitmap_get.
      unfold NUM_PC_BITMAPS in Hr.
      destruct (Z.leb_spec 0 r) as [_|]; [|lia].
      destruct (Z.leb_spec (4 * r + 4) (Z.of_nat (length (replicate 256 0)))) as [_|Hlen];
        [|rewrite length_replicate in Hlen; lia].
      cbn [andb default]. rewrite !(list_lookup_total_correct _ _ 0) by (apply lookup_replicate_2; lia).
      discriminate.
Defined.

Lemma PcUpdate_all_null {T : Type} `{Nullable T} `{AnyValHash T} (xs : list T) dst
    (ctx : FunctionContext (list Z)) :
  (∀ x, x ∈ xs → is_null x = true) →
  PcUpdate_all xs dst ctx = Some (tt, ctx) ∧ PcsaUpdate_all xs dst ctx = Some (tt, ctx).
Proof.
  induction xs as [|x xs IH]; intros Hnull; [split; reflexivity|].
  destruct IH as [IHpc IHpcsa]; [intros y Hy; apply Hnull; right; exact Hy|].
  cbn [PcUpdate_all PcsaUpdate_all]. rewrite !bind_run.
  unfold PcUpdate at 1, PcsaUpdate at 1. rewrite (Hnull x) by left.
  rewrite !ret_run. split; assumption.
Qed.

Lemma PcInit_run (ctx : FunctionContext (list Z)) :
  PcInit ctx =
    Some (mkStringVal false pc_len (next_ptr ctx),
          set_next_ptr (next_ptr ctx + 1)
            (set_allocations (<[next_ptr ctx := replicate (Z.to_nat pc_len) 0]>
                                (allocations ctx)) ctx)).
Proof. exact (alloc_zero_run pc_len ctx). Qed.

(** X16.  The distinct count of no input: after [PcInit] and updates with
    null inputs only, [PcFinalize] and [PcsaFinalize] both return the
    string ["0"], the estimator answering zero for a bitmap with no bit
    set. *)
Theorem distinct_count_of_nothing {T : Type} `{Nullable T} `{AnyValHash T} `{ValueLibrary}
    (xs : list T) (ctx : FunctionContext (list Z)) :
  (∀ x, x ∈ xs → is_null x = true) →
  (∃ r ctx', pc_of xs ctx = Some (r, ctx') ∧
             is_null r = false ∧ result_bytes ctx' r = Some (bytes_of_string "0")) ∧
  (∃ r ctx', pcsa_of xs ctx = Some (r, ctx') ∧
             is_null r = false ∧ result_bytes ctx' r = Some (bytes_of_string "0")).
Proof.
  intros Hnull. unfold pc_of, pcsa_of.
  rewrite !bind_run, PcInit_run, !bind_run.
  match goal with |- context [PcUpdate_all xs ?d ?c] => set (dst := d); set (ctx1 := c) end.
  destruct (PcUpdate_all_null xs dst ctx1 Hnull) as [Hpc Hpcsa].
  rewrite Hpc, Hpcsa.
  assert (Hst : allocations ctx1 !! ptr dst = Some (replicate (Z.to_nat pc_len) 0)).
  { subst ctx1 dst. unfold set_next_ptr, set_allocations. ctx_simpl. apply lookup_insert_eq. }
  assert (Hest : DistinceEstimateFinalize dst ctx1 = Some (dzero, ctx1)).
  { unfold DistinceEstimateFinalize.
    rewrite bind_run, (load_run _ _ _ (state_at_allocated _ _ _ Hst)). reflexivity. }
  destruct (Free_allocated ctx1 _ _ Hst) as (ctx2 & Hfree & _).
  destruct (StringVal_copy_result (print_int 0) ctx2) as (r & ctx' & Hcopy & Hr & Hbytes & _).
  split; exists r, ctx'.
  - unfold PcFinalize. rewrite bind_run, Hest, bind_run, Hfree.
    split; [exact Hcopy|]. split; [exact Hr|exact Hbytes].
  - unfold PcsaFinalize. rewrite bind_run, Hest, bind_run, Hfree.
    split; [exact Hcopy|]. split; [exact Hr|exact Hbytes].
Qed.

(** The distinct count of two null inputs. *)
Lemma distinct_count_of_nothing_witness :
  ∃ r ctx',
    pc_of (H0:=sample_hash) (H1:=sample_library) [mkVal true 5; mkVal true 6]
          (empty_ctx no_type no_type) = Some (r, ctx') ∧
    is_null r = false ∧ result_bytes ctx' r = Some (bytes_of_string "0").
Proof.
  destruct (distinct_count_of_nothing (H0:=sample_hash) (H1:=sample_library)
              [mkVal true 5; mkVal true 6] (empty_ctx no_type no_type))
    as ((r & ctx' & Hrun & Hnull & Hbytes) & _).
  - intros x Hx. apply list_elem_of_In in Hx.
    destruct Hx as [<-|[<-|[]]]; reflexivity.
  - exists r, ctx'. split; [exact Hrun|]. split; [exact Hnull|exact Hbytes].
Defined.

(** ** HyperLogLog *)

Lemma to_uint64_range z : 0 ≤ to_uint64 z < 2 ^ 64.
Proof. unfold to_uint64, wrap. apply Z.mod_pos_bound. lia. Qed.

(** X17.  [HllUpdate] on a non-null input whose 64-bit hash is at least
    [HLL_LEN]: the register [hash % 1024] becomes the maximum of its old
    value and one plus the trailing zeros of [hash >> 10], a number
    between 1 and 54; the other registers and the length are unchanged, and
    no register decreases.  A zero hash leaves the context as it is. *)
Theorem HllUpdate_register {T : Type} `{Nullable T} `{AnyValHash T}
    (src : T) (dst : StringVal) (ctx : FunctionContext (list Z)) (regs : list Z) :
  is_null src = false →
  state_at ctx (ptr dst) = Some regs →
  Z.of_nat (length regs) = HLL_LEN →
  (to_uint64 (Hash64 src (arg_type ctx) FNV64_SEED) = 0 →
   HllUpdate src dst ctx = Some (tt, ctx)) ∧
  (HLL_LEN ≤ to_uint64 (Hash64 src (arg_type ctx) FNV64_SEED) →
   ∃ ctx',
     HllUpdate src dst ctx = Some (tt, ctx') ∧
     state_at ctx' (ptr dst)
     = Some (<[Z.to_nat (to_uint64 (Hash64 src (arg_type ctx) FNV64_SEED) mod HLL_LEN) :=
                 Z.max (regs !!! Z.to_nat (to_uint64 (Hash64 src (arg_type ctx) FNV64_SEED)
                                           mod HLL_LEN))
                       (ctz (to_uint64 (Hash64 src (arg_type ctx) FNV64_SEED) / 2 ^ HLL_PRECISION)
                        + 1)]> regs) ∧
     1 ≤ ctz (to_uint64 (Hash64 src (arg_type ctx) FNV64_SEED) / 2 ^ HLL_PRECISION) + 1 ≤ 54).
Proof.
  intros Hnull Hst Hlen.
  set (h := to_uint64 (Hash64 src (arg_type ctx) FNV64_SEED)).
  pose proof (to_uint64_range (Hash64 src (arg_type ctx) FNV64_SEED)) as Hh. fold h in Hh.
  unfold HllUpdate. rewrite Hnull. unfold GetArgType. rewrite bind_run. fold h.
  change HLL_LEN with 1024 in *. change HLL_PRECISION with 10. split.
  - intros ->. reflexivity.
  - intros Hge. destruct (Z.eqb_spec h 0) as [|Hnz]; [lia|]. cbn [negb].
    rewrite bind_run, (load_run _ _ _ Hst).
    assert (Hshift : 0 < h / 2 ^ 10 < 2 ^ 54).
    { change (2 ^ 10) with 1024. change (2 ^ 54) with 18014398509481984.
      change (2 ^ 64) with 18446744073709551616 in Hh. Z.div_mod_to_equations. lia. }
    destruct (builtin_ctz_in_range (h / 2 ^ 10) 54 Hshift) as [Hctz Hc].
    rewrite Z.shiftr_div_pow2 by lia. rewrite Hctz.
    cbn [mbind option_bind].
    replace (Z.land h (1024 - 1)) with (h mod 1024)
      by (change (1024 - 1) with (Z.ones 10); rewrite Z.land_ones by lia; reflexivity).
    unfold to_uint8, wrap. rewrite (Z.mod_small (ctz (h / 2 ^ 10) + 1)) by (change (2 ^ 8) with 256; lia).
    destruct (store_state_at_full ctx (ptr dst) regs
                (<[Z.to_nat (h mod 1024) :=
                     Z.max (regs !!! Z.to_nat (h mod 1024)) (ctz (h / 2 ^ 10) + 1)]> regs) Hst)
      as (ctx' & Hstore & Hat & _).
    exists ctx'. split; [exact Hstore|]. split; [exact Hat|lia].
Qed.

(** A value whose hash is [FNV64_SEED + 2048], folded into registers that are all zero. *)
Lemma HllUpdate_register_witness :
  ∃ ctx' regs',
    HllUpdate (H0:=sample_hash) (mkVal false 2048) (StringVal_of 4 1024) bytes_pair_ctx
    = Some (tt, ctx') ∧
    state_at ctx' 4 = Some regs' ∧
    regs' !!! Z.to_nat ((FNV64_SEED + 2048) mod 1024) = 2.
Proof.
  destruct (HllUpdate_register (H0:=sample_hash) (mkVal false 2048) (StringVal_of 4 1024)
              bytes_pair_ctx (replicate 1024 0)) as [_ Hupdate].
  - reflexivity.
  - reflexivity.
  - reflexivity.
  - destruct Hupdate as (ctx' & Hrun & Hat & _); [vm_compute; discriminate|].
    eexists ctx', _. split; [exact Hrun|]. split; [exact Hat|].
    vm_compute. reflexivity.
Defined.

(** X18.  [HllUpdate] guards [__builtin_ctzl] with [hash_value != 0] but
    passes it [hash_value >> HLL_PRECISION]: for a non-null input whose
    64-bit hash lies between 1 and 1023 the argument is zero, and the
    update is undefined. *)
Theorem HllUpdate_small_hash {T : Type} `{Nullable T} `{AnyValHash T}
    (src : T) (dst : StringVal) (ctx : FunctionContext (list Z)) (regs : list Z) :
  is_null src = false →
  state_at ctx (ptr dst) = Some regs →
  0 < to_uint64 (Hash64 src (arg_type ctx) FNV64_SEED) < HLL_LEN →
  Z.shiftr (to_uint64 (Hash64 src (arg_type ctx) FNV64_SEED)) HLL_PRECISION = 0 ∧
  __builtin_ctz (Z.shiftr (to_uint64 (Hash64 src (arg_type ctx) FNV64_SEED)) HLL_PRECISION)
  = None ∧
  HllUpdate src dst ctx = None.
Proof.
  intros Hnull Hst Hh. change HLL_LEN with 1024 in Hh.
  set (h := to_uint64 (Hash64 src (arg_type ctx) FNV64_SEED)) in *.
  assert (Hshift : Z.shiftr h HLL_PRECISION = 0).
  { change HLL_PRECISION with 10. rewrite Z.shiftr_div_pow2 by lia.
    apply Z.div_small. change (2 ^ 10) with 1024. lia. }
  split; [exact Hshift|]. rewrite Hshift. split; [reflexivity|].
  unfold HllUpdate. rewrite Hnull. unfold GetArgType. rewrite bind_run. fold h.
  destruct (Z.eqb_spec h 0) as [|Hnz]; [lia|]. cbn [negb].
  rewrite bind_run, (load_run _ _ _ Hst), Hshift. reflexivity.
Qed.

(** A value whose hash is 1. *)
Lemma HllUpdate_small_hash_witness :
  HllUpdate (H0:=sample_hash) (mkVal false (1 - FNV64_SEED)) (StringVal_of 4 1024)
            bytes_pair_ctx = None.
Proof.
  apply (HllUpdate_small_hash (H0:=sample_hash) (mkVal false (1 - FNV64_SEED))
           (StringVal_of 4 1024) bytes_pair_ctx (replicate 1024 0)).
  - reflexivity.
  - reflexivity.
  - vm_compute. split; reflexivity.
Defined.

(** X19.  [HllMerge] takes the maximum register by register: on two arrays
    of [HLL_LEN] registers it is defined, each register of the merged
    destination is the maximum of the two registers at that position, so no
    register decreases, and merging an array with an equal one leaves it
    unchanged. *)
Theorem HllMerge_max (ctx : FunctionContext (list Z)) (src dst : StringVal) (a b : list Z) :
  state_at ctx (ptr src) = Some b → state_at ctx (ptr dst) = Some a →
  len src = HLL_LEN →
  Z.of_nat (length a) = HLL_LEN → Z.of_nat (length b) = HLL_LEN →
  ∃ merged ctx',
    HllMerge src dst ctx = Some (tt, ctx') ∧
    state_at ctx' (ptr dst) = Some merged ∧
    length merged = length a ∧
    (∀ j : nat, (j < length a)%nat → merged !!! j = Z.max (a !!! j) (b !!! j)) ∧
    (a = b → merged = a).
Proof.
  intros Hsrc Hdst Hlen Hla Hlb.
  destruct (HllMerge_run ctx src dst a b Hsrc Hdst) as (ctx' & Hrun & Hat & _).
  rewrite Hlen in Hat. set (merged := HllMerge_loop (Z.to_nat HLL_LEN) 0 b a) in *.
  assert (Hlm : length merged = length a) by apply HllMerge_loop_length.
  assert (Hlook : ∀ j : nat, (j < length a)%nat → merged !!! j = Z.max (a !!! j) (b !!! j)).
  { intros j Hj. subst merged. rewrite HllMerge_loop_lookup by exact Hj.
    destruct (decide (0 ≤ j < 0 + Z.to_nat HLL_LEN)%nat); [reflexivity|lia]. }
  exists merged, ctx'. split; [exact Hrun|]. split; [exact Hat|]. split; [exact Hlm|].
  split; [exact Hlook|].
  intros <-. apply list_eq_total; [exact Hlm|].
  intros j Hj. rewrite Hlook by lia. apply Z.max_id.
Qed.

(** Registers that are all 4 merged into registers that are all 3. *)
Lemma HllMerge_max_witness :
  ∃ merged ctx',
    HllMerge (StringVal_of 4 1024) (StringVal_of 3 1024) merge_ctx = Some (tt, ctx') ∧
    state_at ctx' 3 = Some merged ∧
    merged !!! 0%nat = 4.
Proof.
  destruct (HllMerge_max merge_ctx (StringVal_of 4 1024) (StringVal_of 3 1024)
              (replicate 1024 3) (replicate 1024 4))
    as (merged & ctx' & Hrun & Hat & _ & Hmax & _); try reflexivity.
  exists merged, ctx'. split; [exact Hrun|]. split; [exact Hat|].
  rewrite Hmax by (rewrite length_replicate; lia). reflexivity.
Defined.

Lemma zero_registers_cons (x : Z) (l : list Z) :
  zero_registers (x :: l) = (if x =? 0 then 1 else 0) + zero_registers l.
Proof.
  unfold zero_registers. rewrite filter_cons.
  destruct (decide (x = 0)) as [->|Hne].
  - cbn [length Z.eqb]. lia.
  - destruct (Z.eqb_spec x 0); [contradiction|]. lia.
Qed.

Lemma zero_registers_bounds (l : list Z) : 0 ≤ zero_registers l ≤ Z.of_nat (length l).
Proof.
  induction l as [|x l IH]; [unfold zero_registers; cbn; lia|].
  rewrite zero_registers_cons. cbn [length]. destruct (x =? 0); lia.
Qed.

Lemma HllFinalize_loop_spec `{ValueLibrary} (regs : list Z) (n : nat) :
  ∀ (i : nat) (h : float) (z : Z),
    (i + n ≤ length regs)%nat → 0 ≤ z → z + Z.of_nat n < 2 ^ 31 →
    HllFinalize_loop n i regs h z
    = (foldl (λ h r, fadd h (powf2_neg r)) h (take n (drop i regs)),
       z + zero_registers (take n (drop i regs))).
Proof.
  induction n as [|n IH]; intros i h z Hi Hz Hlt.
  - rewrite take_0. cbn [HllFinalize_loop foldl]. change (zero_registers []) with 0.
    rewrite Z.add_0_r. reflexivity.
  - cbn [HllFinalize_loop].
    destruct (lookup_lt_is_Some_2 regs i ltac:(lia)) as [x Hx].
    rewrite (list_lookup_total_correct _ _ _ Hx), (drop_S _ _ _ Hx).
    cbn [take foldl]. rewrite zero_registers_cons.
    rewrite IH by (destruct (x =? 0); rewrite ?to_int32_small by lia; lia).
    f_equal. destruct (x =? 0); rewrite ?to_int32_small by lia; lia.
Qed.

(** X20.  [HllFinalize] on an array of [HLL_LEN] registers: it is defined,
    releases the array and returns the decimal digits of the estimate,
    which is the linear count [1024 * log(1024 / zeros)] as soon as one
    register is zero, and the harmonic-mean estimate
    [alpha * 1024 * 1024 / sum(2^-register)] otherwise. *)
Theorem HllFinalize_estimate `{ValueLibrary} (src : StringVal)
    (ctx : FunctionContext (list Z)) (regs : list Z) :
  allocations ctx !! ptr src = Some regs →
  len src = HLL_LEN → Z.of_nat (length regs) = HLL_LEN →
  ∃ r ctx',
    HllFinalize src ctx = Some (r, ctx') ∧
    is_null r = false ∧
    result_bytes ctx' r = Some (print_int (hll_estimate regs)) ∧
    (ptr src ≠ NULL → allocations ctx' = delete (ptr src) (allocations ctx)).
Proof.
  intros Hst Hlen Hregs. unfold HllFinalize.
  rewrite bind_run, (load_run _ _ _ (state_at_allocated _ _ _ Hst)), Hlen.
  change HLL_LEN with 1024 in *.
  rewrite (HllFinalize_loop_spec regs (Z.to_nat 1024) 0) by lia.
  rewrite drop_0, take_ge by lia. rewrite Z.add_0_l.
  destruct (Free_allocated ctx _ _ Hst) as (ctx1 & Hfree & _ & _ & Halloc).
  rewrite bind_run, Hfree.
  match goal with |- context [StringVal_copy ?s ctx1] =>
    destruct (StringVal_copy_result s ctx1) as (r & ctx' & Hcopy & Hnull & Hbytes & Hsame)
  end.
  exists r, ctx'. split; [exact Hcopy|]. split; [exact Hnull|]. split.
  - rewrite Hbytes. unfold hll_estimate, harmonic_sum, hll_alpha. change HLL_LEN with 1024.
    destruct (zero_registers regs =? 0); reflexivity.
  - intros Hp. rewrite Hsame. apply Halloc. exact Hp.
Qed.

(** Registers that are all 3. *)
Lemma HllFinalize_estimate_witness :
  ∃ r ctx',
    HllFinalize (H:=sample_library) (StringVal_of 3 1024) bytes_pair_ctx = Some (r, ctx') ∧
    is_null r = false ∧
    result_bytes ctx' r
    = Some (print_int (hll_estimate (H:=sample_library) (replicate 1024 3))) ∧
    allocations ctx' !! 3 = None.
Proof.
  destruct (HllFinalize_estimate (H:=sample_library) (StringVal_of 3 1024) bytes_pair_ctx
              (replicate 1024 3)) as (r & ctx' & Hrun & Hnull & Hbytes & Hfree);
    try reflexivity.
  exists r, ctx'. split; [exact Hrun|]. split; [exact Hnull|]. split; [exact Hbytes|].
  rewrite Hfree by discriminate. apply lookup_delete_eq.
Defined.

Lemma HllUpdate_all_null {T : Type} `{Nullable T} `{AnyValHash T} (xs : list T) dst
    (ctx : FunctionContext (list Z)) :
  (∀ x, x ∈ xs → is_null x = true) → HllUpdate_all xs dst ctx = Some (tt, ctx).
Proof.
  induction xs as [|x xs IH]; intros Hnull; [reflexivity|].
  cbn [HllUpdate_all]. rewrite bind_run. unfold HllUpdate at 1.
  rewrite (Hnull x) by left. rewrite ret_run. apply IH.
  intros y Hy. apply Hnull. right. exact Hy.
Qed.

Lemma HllInit_run (ctx : FunctionContext (list Z)) :
  HllInit ctx =
    Some (mkStringVal false HLL_LEN (next_ptr ctx),
          set_next_ptr (next_ptr ctx + 1)
            (set_allocations (<[next_ptr ctx := replicate (Z.to_nat HLL_LEN) 0]>
                                (allocations ctx)) ctx)).
Proof. exact (alloc_zero_run HLL_LEN ctx). Qed.

(** X21.  The HyperLogLog estimate of no input: after [HllInit] and updates
    with null inputs only every register is zero, so [HllFinalize] takes the
    linear-counting branch and returns the digits of
    [1024 * log(1024 / 1024)], the [log] of the C library applied to one. *)
Theorem hll_of_nothing {T : Type} `{Nullable T} `{AnyValHash T} `{ValueLibrary}
    (xs : list T) (ctx : FunctionContext (list Z)) :
  (∀ x, x ∈ xs → is_null x = true) →
  ∃ r ctx',
    hll_of xs ctx = Some (r, ctx') ∧
    is_null r = false ∧
    result_bytes ctx' r
    = Some (print_int (int64_of_double (dmul (double_of_Z 1024) (log (double_of_Z 1))))).
Proof.
  intros Hnull. unfold hll_of. rewrite bind_run, HllInit_run, bind_run.
  rewrite HllUpdate_all_null by exact Hnull.
  match goal with |- context [HllFinalize ?d ?c] => set (dst := d); set (ctx1 := c) end.
  assert (Hst : allocations ctx1 !! ptr dst = Some (replicate (Z.to_nat HLL_LEN) 0)).
  { subst ctx1 dst. unfold set_next_ptr, set_allocations. ctx_simpl. apply lookup_insert_eq. }
  unfold HllFinalize.
  rewrite bind_run, (load_run _ _ _ (state_at_allocated _ _ _ Hst)).
  change (len dst) with HLL_LEN.
  rewrite (HllFinalize_loop_spec _ (Z.to_nat HLL_LEN) 0)
    by (rewrite ?length_replicate; change HLL_LEN with 1024; lia).
  rewrite drop_0, take_ge by (rewrite length_replicate; lia). rewrite Z.add_0_l.
  assert (Hzeros : zero_registers (replicate (Z.to_nat HLL_LEN) 0) = 1024)
    by (vm_compute; reflexivity).
  rewrite Hzeros. cbn [Z.eqb negb].
  assert (Hone : double_of_float (fdiv (float_of_Z HLL_LEN) (float_of_Z 1024)) = double_of_Z 1)
    by (vm_compute; reflexivity).
  rewrite Hone.
  destruct (Free_allocated ctx1 _ _ Hst) as (ctx2 & Hfree & _).
  rewrite bind_run, Hfree.
  match goal with |- context [StringVal_copy ?s ctx2] =>
    destruct (StringVal_copy_result s ctx2) as (r & ctx' & Hcopy & Hr & Hbytes & _)
  end.
  exists r, ctx'. split; [exact Hcopy|]. split; [exact Hr|exact Hbytes].
Qed.

(** The estimate of two null inputs. *)
Lemma hll_of_nothing_witness :
  ∃ r ctx',
    hll_of (H0:=sample_hash) (H1:=sample_library) [mkVal true 5; mkVal true 6]
           (empty_ctx no_type no_type) = Some (r, ctx') ∧
    is_null r = false.
Proof.
  destruct (hll_of_nothing (H0:=sample_hash) (H1:=sample_library)
              [mkVal true 5; mkVal true 6] (empty_ctx no_type no_type))
    as (r & ctx' & Hrun & Hnull & _).
  - intros x Hx. apply list_elem_of_In in Hx.
    destruct Hx as [<-|[<-|[]]]; reflexivity.
  - exists r, ctx'. split; [exact Hrun|exact Hnull].
Defined.

(** ** String concatenation over a sequence *)

Lemma with_separators_cons (v s : list Z) (parts : list (list Z * list Z)) :
  with_separators ((v, s) :: parts) = s ++ v ++ with_separators parts.
Proof. unfold with_separators. cbn [map concat fst snd]. rewrite <- app_assoc. reflexivity. Qed.

Lemma inputs_read_frame {S} (ctx ctx' : FunctionContext S) xs parts :
  strings ctx' = strings ctx → inputs_read ctx xs parts → inputs_read ctx' xs parts.
Proof.
  intros Hs Hread. unfold inputs_read in *.
  eapply Forall2_impl; [exact Hread|].
  intros x p [Hv Hsep]. split; apply (input_string_frame ctx); assumption.
Qed.

Lemma StringConcatUpdate_all_append (xs : list (StringVal * StringVal)) :
  ∀ parts ctx result h payload,
    concat_state ctx result h payload →
    inputs_read ctx xs parts →
    4 + Z.of_nat (length payload) + Z.of_nat (length (with_separators parts)) < 2 ^ 31 →
    ∃ result' ctx',
      StringConcatUpdate_all xs result ctx = Some (result', ctx') ∧
      concat_state ctx' result' h (payload ++ with_separators parts) ∧
      ptr result' = ptr result.
Proof.
  induction xs as [|[src sep] xs IH]; intros parts ctx result h payload Hstate Hread Hlen.
  - apply Forall2_nil_inv_l in Hread as ->.
    exists result, ctx. cbn [StringConcatUpdate_all]. unfold with_separators. cbn [map concat].
    rewrite app_nil_r. split; [reflexivity|]. split; [exact Hstate|reflexivity].
  - apply Forall2_cons_inv_l in Hread as ([v s] & parts' & [Hv Hs] & Hrest & ->).
    cbn [fst snd] in Hv, Hs. rewrite with_separators_cons in *.
    rewrite !length_app in Hlen.
    destruct (StringConcatUpdate_append ctx src sep result h payload v s Hstate Hv Hs)
      as (result1 & ctx1 & Hrun1 & Hstate1 & Hptr1 & Hstr1 & _); [lia|].
    destruct (IH parts' ctx1 result1 h (payload ++ s ++ v) Hstate1) as
      (result' & ctx' & Hrun & Hstate' & Hptr').
    + apply (inputs_read_frame ctx); assumption.
    + rewrite !length_app. lia.
    + exists result', ctx'. cbn [StringConcatUpdate_all]. rewrite bind_run, Hrun1.
      split; [exact Hrun|]. split; [|congruence].
      rewrite <- !app_assoc in Hstate'. exact Hstate'.
Qed.

(** X22.  Concatenating a sequence of non-null strings, each with its own
    non-null separator: [StringConcatFinalize] after the updates returns
    the first value followed by every later value preceded by its
    separator.  The separator passed with the first value only sets the
    number of bytes that finalize strips, and appears nowhere in the
    result. *)
Theorem string_concat_of_values (src sep : StringVal) (xs : list (StringVal * StringVal))
    (v s : list Z) (parts : list (list Z * list Z)) (ctx : FunctionContext (list Z)) :
  next_ptr ctx ≠ NULL →
  inputs_read ctx ((src, sep) :: xs) ((v, s) :: parts) →
  4 + Z.of_nat (length (with_separators ((v, s) :: parts))) < 2 ^ 31 →
  ∃ r ctx',
    string_concat_of ((src, sep) :: xs) ctx = Some (r, ctx') ∧
    is_null r = false ∧
    result_bytes ctx' r = Some (v ++ with_separators parts).
Proof.
  intros Hptr Hread Hlen.
  apply Forall2_cons_1 in Hread as [[Hv Hs] Hrest]. cbn [fst snd] in Hv, Hs.
  rewrite with_separators_cons, !length_app in Hlen.
  destruct (StringConcatUpdate_first ctx src sep InitNullString v s eq_refl Hv Hs)
    as (result1 & ctx1 & Hrun1 & Hstate1 & Hptr1 & Hstr1 & _); [lia|].
  destruct (StringConcatUpdate_all_append xs parts ctx1 result1 (len sep) (s ++ v) Hstate1)
    as (result' & ctx' & Hrun & Hstate' & Hptr').
  - apply (inputs_read_frame ctx); assumption.
  - rewrite length_app. lia.
  - assert (Hsep : len sep = Z.of_nat (length s)) by apply Hs.
    destruct (StringConcatFinalize_run ctx' result' (len sep) ((s ++ v) ++ with_separators parts)
                Hstate') as (r & ctx'' & Hfin & Hnull & Hbytes & _).
    + rewrite Hsep, !length_app. lia.
    + rewrite !length_app. lia.
    + congruence.
    + exists r, ctx''. unfold string_concat_of. cbn [StringConcatUpdate_all].
      rewrite !bind_run, Hrun1, Hrun. split; [exact Hfin|]. split; [exact Hnull|].
      rewrite Hbytes, Hsep, Nat2Z.id, <- !app_assoc, drop_app_length. reflexivity.
Qed.

(** The values ["a"] with separator ["-"] and ["b"] with separator ["+"]. *)
Lemma string_concat_of_values_witness :
  ∃ r ctx',
    string_concat_of [(StringVal_of 1 1, StringVal_of 4 1); (StringVal_of 2 1, StringVal_of 5 1)]
                     abc_ctx = Some (r, ctx') ∧
    is_null r = false ∧
    result_bytes ctx' r = Some (bytes_of_string "a+b").
Proof.
  apply (string_concat_of_values (StringVal_of 1 1) (StringVal_of 4 1)
           [(StringVal_of 2 1, StringVal_of 5 1)]
           (bytes_of_string "a") (bytes_of_string "-")
           [(bytes_of_string "b", bytes_of_string "+")] abc_ctx).
  - discriminate.
  - repeat constructor.
  - vm_compute. reflexivity.
Defined.

(** ** The samples of a reservoir *)

Section reservoir_samples.
Context {T : Type} `{SampleType T} `{RandomSource}.

Lemma samples_of_cons_null mem (x : T) (xs : list T) :
  is_null x = true → samples_of mem (x :: xs) = samples_of mem xs.
Proof. intros Hx. unfold samples_of. cbn [omap list_omap]. rewrite Hx. reflexivity. Qed.

Lemma samples_of_cons mem (x : T) (xs : list T) v :
  is_null x = false → stored_val mem x = Some v →
  samples_of mem (x :: xs) = mkReservoirSample v minus_one :: samples_of mem xs.
Proof.
  intros Hx Hv. unfold samples_of, ReservoirSample_of. cbn [omap list_omap].
  rewrite Hx, Hv. reflexivity.
Qed.

(** One update: the collected samples afterwards are the old ones with the
    new sample appended, while there is room, and in any case old samples
    or the new one. *)
Lemma update_step_collected (st : ReservoirSampleState sample_val)
    (new : ReservoirSample sample_val) :
  reservoir_inv st →
  (∀ s, s ∈ collected (update_step st new) → s ∈ collected st ∨ s = new) ∧
  (source_size st < NUM_SAMPLES → collected (update_step st new) = collected st ++ [new]).
Proof.
  intros (Hlen & Hss & Hnum). unfold collected, update_step.
  rewrite NUM_SAMPLES_value in *.
  destruct (Z.ltb_spec (num_samples st) 20000) as [Hlt|Hge]; cbn [samples num_samples].
  - assert (Happend : take (Z.to_nat (num_samples st + 1))
                        (<[Z.to_nat (num_samples st) := new]> (samples st))
                      = take (Z.to_nat (num_samples st)) (samples st) ++ [new]).
    { replace (Z.to_nat (num_samples st + 1)) with (Datatypes.S (Z.to_nat (num_samples st)))
        by lia.
      rewrite (take_S_r _ _ new) by (apply list_lookup_insert_eq; lia).
      rewrite take_insert_ge by lia. reflexivity. }
    rewrite Happend. split; [|intros _; reflexivity].
    intros s [Hs|Hs]%elem_of_app; [left; exact Hs|right].
    apply list_elem_of_singleton in Hs. exact Hs.
  - split; [|lia].
    intros s Hs. destruct (fst (uniform_int (rng st) (source_size st)) <? 20000);
      [|left; exact Hs].
    apply list_elem_of_lookup in Hs as [i Hi].
    apply lookup_take_Some in Hi as [Hi Hlt].
    apply list_lookup_insert_Some in Hi as [(_ & -> & _)|[Hne Hi]]; [right; reflexivity|].
    left. apply (list_elem_of_lookup_2 _ i). apply lookup_take_Some. split; assumption.
Qed.

Lemma ReservoirSampleUpdate_all_collected (xs : list T) (dst : StringVal) :
  ∀ (ctx : FunctionContext (ReservoirSampleState sample_val)) st,
    state_at ctx (ptr dst) = Some st →
    reservoir_inv st →
    source_size st + count_non_null xs ≤ INT64_MAX →
    (∀ x, x ∈ xs → is_null x = false → is_Some (stored_val (string_at ctx) x)) →
    ∃ st' ctx',
      ReservoirSampleUpdate_all xs dst ctx = Some (tt, ctx') ∧
      state_at ctx' (ptr dst) = Some st' ∧
      (∀ s, s ∈ collected st' → s ∈ collected st ∨ s ∈ samples_of (string_at ctx) xs) ∧
      (source_size st + count_non_null xs ≤ NUM_SAMPLES →
       collected st' = collected st ++ samples_of (string_at ctx) xs).
Proof.
  induction xs as [|x xs IH]; intros ctx st Hst Hinv Hmax Hread.
  - exists st, ctx. cbn [ReservoirSampleUpdate_all]. split; [reflexivity|].
    split; [exact Hst|]. split; [intros s Hs; left; exact Hs|].
    intros _. unfold samples_of. cbn [omap list_omap]. rewrite app_nil_r. reflexivity.
  - cbn [ReservoirSampleUpdate_all count_non_null] in Hmax |- *.
    pose proof (count_non_null_nonneg xs) as Hnn. rewrite bind_run.
    destruct (is_null x) eqn:Hnull.
    + unfold ReservoirSampleUpdate at 1. rewrite Hnull, ret_run.
      destruct (IH ctx st Hst Hinv ltac:(lia)) as (st' & ctx' & Hrun & Hat & Hin & Heq).
      { intros y Hy. apply Hread. right. exact Hy. }
      exists st', ctx'. rewrite samples_of_cons_null by exact Hnull.
      split; [exact Hrun|]. split; [exact Hat|]. split; [exact Hin|].
      intros Hle. apply Heq. lia.
    + destruct (Hread x ltac:(left) Hnull) as [v Hv].
      destruct (ReservoirSampleUpdate_step ctx x dst st v Hnull Hst Hv Hinv ltac:(lia))
        as (ctx1 & Hrun1 & Hat1 & Hstr1 & Hinv1).
      rewrite Hrun1.
      destruct (update_step_collected st (mkReservoirSample v minus_one) Hinv)
        as [Hin1 Heq1].
      destruct (IH ctx1 _ Hat1 Hinv1) as (st' & ctx' & Hrun & Hat & Hin & Heq).
      { rewrite update_step_source_size. lia. }
      { intros y Hy Hny. rewrite (string_at_strings ctx ctx1 Hstr1).
        apply Hread; [right; exact Hy|exact Hny]. }
      rewrite (string_at_strings ctx ctx1 Hstr1) in Hin, Heq.
      exists st', ctx'. rewrite (samples_of_cons _ x xs v Hnull Hv).
      split; [exact Hrun|]. split; [exact Hat|]. split.
      * intros s Hs. destruct (Hin s Hs) as [Hold|Hnew]; [|right; right; exact Hnew].
        destruct (Hin1 s Hold) as [Hold'| ->]; [left; exact Hold'|right; left].
      * intros Hle. rewrite Heq by (rewrite update_step_source_size; lia).
        rewrite Heq1 by lia. rewrite <- app_assoc. reflexivity.
Qed.

(** X23.  Up to [NUM_SAMPLES] non-null inputs a reservoir holds them all:
    after the updates for a sequence with at most 20000 non-null inputs on
    a fresh state, the collected samples are the non-null inputs in their
    order of arrival, each with the key [-1] of a sample that has no key
    yet. *)
Theorem reservoir_keeps_first_inputs (xs : list T)
    (ctx : FunctionContext (ReservoirSampleState sample_val)) :
  count_non_null xs ≤ NUM_SAMPLES →
  (∀ x, x ∈ xs → is_null x = false → is_Some (stored_val (string_at ctx) x)) →
  ∃ st ctx',
    reservoir_fold xs ctx = Some (st, ctx') ∧
    collected st = samples_of (string_at ctx) xs ∧
    Forall (λ s, key s = minus_one) (collected st).
Proof.
  intros Hle Hread. unfold reservoir_fold.
  rewrite bind_run, ReservoirSampleInit_run. cbn [ptr]. rewrite bind_run.
  match goal with |- context [ReservoirSampleUpdate_all xs ?d ?c] =>
    destruct (ReservoirSampleUpdate_all_collected xs d c ReservoirSampleState_default)
      as (st & ctx' & Hrun & Hat & _ & Heq)
  end.
  - apply state_at_allocated. cbn [allocations set_next_ptr set_allocations ptr].
    apply lookup_insert_eq.
  - apply reservoir_inv_default.
  - cbn [source_size ReservoirSampleState_default]. rewrite NUM_SAMPLES_value in Hle.
    unfold INT64_MAX. lia.
  - intros x Hx Hnx. rewrite (string_at_strings ctx) by reflexivity. apply Hread; assumption.
  - rewrite Hrun. cbn [ptr] in Hat. rewrite (load_run _ _ _ Hat).
    rewrite (string_at_strings ctx) in Heq by reflexivity.
    exists st, ctx'. split; [reflexivity|].
    rewrite Heq by (cbn [source_size ReservoirSampleState_default]; lia).
    split; [reflexivity|].
    unfold collected at 1. cbn [num_samples ReservoirSampleState_default].
    change (Z.to_nat 0) with O. rewrite take_0, app_nil_l.
    apply Forall_forall. intros s Hs. unfold samples_of in Hs.
    apply list_elem_of_omap in Hs as (x & _ & Hx).
    destruct (is_null x); [discriminate|]. unfold ReservoirSample_of in Hx.
    destruct (stored_val (string_at ctx) x); [|discriminate].
    cbn in Hx. injection Hx as <-. reflexivity.
Qed.

(** X24.  A reservoir never holds anything but its inputs: after the
    updates for any sequence of inputs on a fresh state, whatever the
    random draws, every collected sample is the sample made of one of the
    non-null inputs. *)
Theorem reservoir_samples_are_inputs (xs : list T)
    (ctx : FunctionContext (ReservoirSampleState sample_val)) :
  count_non_null xs ≤ INT64_MAX →
  (∀ x, x ∈ xs → is_null x = false → is_Some (stored_val (string_at ctx) x)) →
  ∃ st ctx',
    reservoir_fold xs ctx = Some (st, ctx') ∧
    ∀ s, s ∈ collected st →
      ∃ x v, x ∈ xs ∧ is_null x = false ∧ stored_val (string_at ctx) x = Some v ∧
             s = mkReservoirSample v minus_one.
Proof.
  intros Hle Hread. unfold reservoir_fold.
  rewrite bind_run, ReservoirSampleInit_run. cbn [ptr]. rewrite bind_run.
  match goal with |- context [ReservoirSampleUpdate_all xs ?d ?c] =>
    destruct (ReservoirSampleUpdate_all_collected xs d c ReservoirSampleState_default)
      as (st & ctx' & Hrun & Hat & Hin & _)
  end.
  - apply state_at_allocated. cbn [allocations set_next_ptr set_allocations ptr].
    apply lookup_insert_eq.
  - apply reservoir_inv_default.
  - cbn [source_size ReservoirSampleState_default]. lia.
  - intros x Hx Hnx. rewrite (string_at_strings ctx) by reflexivity. apply Hread; assumption.
  - rewrite Hrun. cbn [ptr] in Hat. rewrite (load_run _ _ _ Hat).
    rewrite (string_at_strings ctx) in Hin by reflexivity.
    exists st, ctx'. split; [reflexivity|].
    intros s Hs. destruct (Hin s Hs) as [Hold|Hnew].
    + unfold collected in Hold. cbn [num_samples ReservoirSampleState_default] in Hold.
      change (Z.to_nat 0) with O in Hold. rewrite take_0 in Hold. inversion Hold.
    + unfold samples_of in Hnew. apply list_elem_of_omap in Hnew as (x & Hx & Hsx).
      destruct (is_null x) eqn:Hnull; [discriminate|]. unfold ReservoirSample_of in Hsx.
      destruct (stored_val (string_at ctx) x) as [v|] eqn:Hv; [|discriminate].
      cbn in Hsx. injection Hsx as <-.
      exists x, v. repeat split; assumption.
Qed.

End reservoir_samples.

(** The inputs 1, null and 2. *)
Lemma reservoir_keeps_first_inputs_witness :
  ∃ st ctx',
    reservoir_fold (H0:=sample_random) three_inputs (empty_ctx no_type no_type)
    = Some (st, ctx') ∧
    collected st = [mkReservoirSample (mkVal false 1) minus_one;
                    mkReservoirSample (mkVal false 2) minus_one].
Proof.
  destruct (reservoir_keeps_first_inputs (H0:=sample_random) three_inputs
              (empty_ctx no_type no_type)) as (st & ctx' & Hrun & Hcollected & _).
  - vm_compute. discriminate.
  - intros x _ _. eexists. reflexivity.
  - exists st, ctx'. split; [exact Hrun|]. rewrite Hcollected. reflexivity.
Defined.

(** The same inputs: every sample is 1 or 2. *)
Lemma reservoir_samples_are_inputs_witness :
  ∃ st ctx',
    reservoir_fold (H0:=sample_random) three_inputs (empty_ctx no_type no_type)
    = Some (st, ctx') ∧
    ∀ s, s ∈ collected st → rs_val s = mkVal false 1 ∨ rs_val s = mkVal false 2.
Proof.
  destruct (reservoir_samples_are_inputs (H0:=sample_random) three_inputs
              (empty_ctx no_type no_type)) as (st & ctx' & Hrun & Hin).
  - vm_compute. discriminate.
  - intros x _ _. eexists. reflexivity.
  - exists st, ctx'. split; [exact Hrun|]. intros s Hs.
    destruct (Hin s Hs) as (x & v & Hx & Hnull & Hv & ->).
    injection Hv as <-. apply list_elem_of_In in Hx.
    destruct Hx as [<-|[<-|[<-|[]]]]; [left; reflexivity|discriminate|right; reflexivity].
Defined.

(** ** Merging two reservoirs *)

Section heap_pop.
Context {A : Type} (comp : A → A → bool).

Lemma sift_down_spec fuel : ∀ (l : list A) (n hole : nat),
  fst (sift_down comp fuel l n hole) ≡ₚ l ∧
  length (fst (sift_down comp fuel l n hole)) = length l.
Proof.
  induction fuel as [|fuel IH]; intros l n hole; cbn [sift_down]; [split; reflexivity|].
  destruct (2 * hole + 2 <? n)%nat.
  - destruct (l !! (2 * hole + 2)%nat) as [r|] eqn:Hr; [|split; reflexivity].
    destruct (l !! (2 * hole + 1)%nat) as [c|] eqn:Hc; [|split; reflexivity].
    destruct (l !! hole) as [v|] eqn:Hv; [|split; reflexivity].
    destruct (comp r c).
    + destruct (IH (<[(2 * hole + 1)%nat := v]> (<[hole := c]> l)) n (2 * hole + 1)%nat)
        as [Hperm Hlen].
      split; [rewrite Hperm; apply Permutation_insert_swap; assumption|].
      rewrite Hlen, !length_insert. reflexivity.
    + destruct (IH (<[(2 * hole + 2)%nat := v]> (<[hole := r]> l)) n (2 * hole + 2)%nat)
        as [Hperm Hlen].
      split; [rewrite Hperm; apply Permutation_insert_swap; assumption|].
      rewrite Hlen, !length_insert. reflexivity.
  - destruct (2 * hole + 1 <? n)%nat; [|split; reflexivity].
    destruct (l !! (2 * hole + 1)%nat) as [c|] eqn:Hc; [|split; reflexivity].
    destruct (l !! hole) as [v|] eqn:Hv; [|split; reflexivity].
    cbn [fst]. split; [apply Permutation_insert_swap; assumption|].
    rewrite !length_insert. reflexivity.
Qed.

Lemma pop_heap_spec (l : list A) (n : nat) :
  pop_heap comp l n ≡ₚ l ∧ length (pop_heap comp l n) = length l.
Proof.
  unfold pop_heap.
  destruct (l !! O) as [top|] eqn:Htop; [|split; reflexivity].
  destruct (l !! (n - 1)%nat) as [last|] eqn:Hlast; [|split; reflexivity].
  pose proof (sift_down_spec n (<[(n - 1)%nat := top]> (<[O := last]> l)) (n - 1) 0)
    as [Hperm Hlen].
  destruct (sift_down comp n (<[(n - 1)%nat := top]> (<[O := last]> l)) (n - 1) 0)
    as [l1 hole]. cbn [fst] in Hperm, Hlen.
  destruct (sift_up_spec comp n l1 hole) as (Hperm' & Hlen' & _).
  split.
  - rewrite Hperm', Hperm. apply Permutation_insert_swap; assumption.
  - rewrite Hlen', Hlen, !length_insert. reflexivity.
Qed.

End heap_pop.

Section merge_general.
Context {V : Type}.

Lemma elem_of_take_insert {A} (l : list A) (n : nat) (s x : A) :
  x ∈ take (Datatypes.S n) (<[n := s]> l) → x ∈ take n l ∨ x = s.
Proof.
  intros Hx. apply list_elem_of_lookup in Hx as [j Hj].
  apply lookup_take_Some in Hj as [Hj Hlt].
  apply list_lookup_insert_Some in Hj as [(_ & -> & _)|[Hne Hj]]; [right; reflexivity|].
  left. apply (list_elem_of_lookup_2 _ j). apply lookup_take_Some. split; [assumption|lia].
Qed.

Lemma merge_fill_loop_general (src : list (ReservoirSample V)) (src_max : Z) :
  0 ≤ src_max ≤ NUM_SAMPLES → src_max ≤ Z.of_nat (length src) →
  ∀ fuel (dst : list (ReservoirSample V)) (n k : Z),
    Z.of_nat (length dst) = NUM_SAMPLES →
    0 ≤ n ≤ NUM_SAMPLES → 0 ≤ k ≤ src_max → src_max - k ≤ Z.of_nat fuel →
    ∃ dst' n' k',
      merge_fill_loop fuel src src_max dst n k = Some (dst', n', k') ∧
      length dst' = length dst ∧
      n' - n = k' - k ∧ k ≤ k' ≤ src_max ∧ n' ≤ NUM_SAMPLES ∧
      (n' = NUM_SAMPLES ∨ k' = src_max) ∧
      ∀ x, x ∈ take (Z.to_nat n') dst' →
           x ∈ take (Z.to_nat n) dst ∨ x ∈ take (Z.to_nat src_max) src.
Proof.
  intros Hmax Hsrc. pose proof NUM_SAMPLES_value as HN.
  induction fuel as [|fuel IH]; intros dst n k Hlen Hn Hk Hfuel.
  - assert (k = src_max) as -> by lia. exists dst, n, src_max. cbn [merge_fill_loop].
    split; [reflexivity|]. split; [reflexivity|]. split; [lia|]. split; [lia|].
    split; [lia|]. split; [right; reflexivity|]. intros x Hx. left. exact Hx.
  - cbn [merge_fill_loop].
    destruct (Z.ltb_spec n NUM_SAMPLES) as [Hroom|Hfull];
      [destruct (Z.ltb_spec k src_max) as [Hlt|Hge]|]; cbn [andb].
    + destruct (lookup_lt_is_Some_2 src (Z.to_nat k) ltac:(lia)) as [s Hs].
      rewrite Hs. cbn [mbind option_bind].
      rewrite samples_set_in_range by lia. cbn [mbind option_bind].
      rewrite !to_int32_small by lia.
      set (dst1 := <[Z.to_nat n := s]> dst).
      destruct (push_heap_spec SampleKeyGreater dst1 (Z.to_nat (n + 1)) ltac:(lia))
        as (Hperm & Hlen1 & Hdrop1).
      destruct (IH (push_heap SampleKeyGreater dst1 (Z.to_nat (n + 1))) (n + 1) (k + 1))
        as (dst' & n' & k' & Hrun & Hlen' & Hdiff & Hk' & Hn' & Hstop & Hin);
        [|lia|lia|lia|].
      { rewrite Hlen1. subst dst1. rewrite length_insert. exact Hlen. }
      exists dst', n', k'. split; [exact Hrun|]. split.
      { rewrite Hlen', Hlen1. subst dst1. apply length_insert. }
      split; [lia|]. split; [lia|]. split; [exact Hn'|]. split; [exact Hstop|].
      intros x Hx. destruct (Hin x Hx) as [Hold|Hsrc']; [|right; exact Hsrc'].
      rewrite (Permutation_take _ _ _ Hperm Hdrop1) in Hold. subst dst1.
      replace (Z.to_nat (n + 1)) with (Datatypes.S (Z.to_nat n)) in Hold by lia.
      apply elem_of_take_insert in Hold as [Hold| ->]; [left; exact Hold|].
      right. apply (list_elem_of_lookup_2 _ (Z.to_nat k)).
      apply lookup_take_Some. split; [exact Hs|lia].
    + exists dst, n, k. split; [reflexivity|]. split; [reflexivity|]. split; [lia|].
      split; [lia|]. split; [lia|]. split; [right; lia|]. intros x Hx. left. exact Hx.
    + exists dst, n, k. split; [reflexivity|]. split; [reflexivity|]. split; [lia|].
      split; [lia|]. split; [lia|]. split; [left; lia|]. intros x Hx. left. exact Hx.
Qed.

Lemma merge_replace_loop_general (src : list (ReservoirSample V)) (src_max : Z) :
  0 ≤ src_max ≤ NUM_SAMPLES → src_max ≤ Z.of_nat (length src) →
  ∀ fuel (dst : list (ReservoirSample V)) (k : Z),
    Z.of_nat (length dst) = NUM_SAMPLES →
    0 ≤ k ≤ src_max → src_max - k ≤ Z.of_nat fuel →
    ∃ dst',
      merge_replace_loop fuel src src_max dst k = Some dst' ∧
      length dst' = length dst ∧
      ∀ x, x ∈ dst' → x ∈ dst ∨ x ∈ take (Z.to_nat src_max) src.
Proof.
  intros Hmax Hsrc. pose proof NUM_SAMPLES_value as HN.
  induction fuel as [|fuel IH]; intros dst k Hlen Hk Hfuel.
  - exists dst. cbn [merge_replace_loop]. split; [reflexivity|]. split; [reflexivity|].
    intros x Hx. left. exact Hx.
  - cbn [merge_replace_loop]. destruct (Z.ltb_spec k src_max) as [Hlt|Hge].
    + destruct (lookup_lt_is_Some_2 src (Z.to_nat k) ltac:(lia)) as [s Hs].
      destruct (lookup_lt_is_Some_2 dst 0 ltac:(lia)) as [d0 Hd0].
      rewrite Hs, Hd0. cbn [mbind option_bind].
      rewrite to_int32_small by lia.
      assert (Hs_in : s ∈ take (Z.to_nat src_max) src).
      { apply (list_elem_of_lookup_2 _ (Z.to_nat k)).
        apply lookup_take_Some. split; [exact Hs|lia]. }
      destruct (dltb (key d0) (key s)).
      * destruct (pop_heap_spec SampleKeyGreater dst (Z.to_nat NUM_SAMPLES))
          as [Hpop Hpop_len].
        rewrite samples_set_in_range by (rewrite Hpop_len; lia).
        cbn [mbind option_bind].
        set (dst1 := <[Z.to_nat (NUM_SAMPLES - 1) := s]>
                       (pop_heap SampleKeyGreater dst (Z.to_nat NUM_SAMPLES))).
        destruct (push_heap_spec SampleKeyGreater dst1 (Z.to_nat NUM_SAMPLES) ltac:(lia))
          as (Hperm & Hlen1 & _).
        assert (Hlen_dst1 : length dst1 = length dst)
          by (subst dst1; rewrite length_insert; exact Hpop_len).
        destruct (IH (push_heap SampleKeyGreater dst1 (Z.to_nat NUM_SAMPLES)) (k + 1))
          as (dst' & Hrun & Hlen' & Hin); [rewrite Hlen1, Hlen_dst1; exact Hlen|lia|lia|].
        exists dst'. split; [exact Hrun|]. split; [rewrite Hlen', Hlen1; exact Hlen_dst1|].
        intros x Hx. destruct (Hin x Hx) as [Hold|Hsrc']; [|right; exact Hsrc'].
        rewrite Hperm in Hold. subst dst1.
        apply list_elem_of_lookup in Hold as [j Hj].
        apply list_lookup_insert_Some in Hj as [(_ & -> & _)|[_ Hj]]; [right; exact Hs_in|].
        left. rewrite <- Hpop. apply (list_elem_of_lookup_2 _ j). exact Hj.
      * cbn [mbind option_bind].
        destruct (IH dst (k + 1)) as (dst' & Hrun & Hlen' & Hin); [exact Hlen|lia|lia|].
        exists dst'. split; [exact Hrun|]. split; [exact Hlen'|]. exact Hin.
    + exists dst. split; [reflexivity|]. split; [reflexivity|].
      intros x Hx. left. exact Hx.
Qed.

End merge_general.

Section reservoir_merge_general.
Context {V : Type} `{RandomSource}.

(** X25.  Merging a reservoir [s] into a reservoir [d], for states whose
    sample arrays have [NUM_SAMPLES] slots and whose counts lie within
    them: the merge is defined and changes the destination state only;
    afterwards the destination holds [min (NUM_SAMPLES, d + s)] samples,
    each of them a sample that [d] or [s] had collected, its source size
    is the sum of the two (as an [int64_t]) and its random generator is the
    one of [d]. *)
Theorem ReservoirSampleMerge_collects
    (ctx : FunctionContext (ReservoirSampleState V)) (src dst : StringVal)
    (s d : ReservoirSampleState V) :
  is_null src = false →
  state_at ctx (ptr src) = Some s →
  state_at ctx (ptr dst) = Some d →
  Z.of_nat (length (samples s)) = NUM_SAMPLES →
  Z.of_nat (length (samples d)) = NUM_SAMPLES →
  0 ≤ num_samples s ≤ NUM_SAMPLES →
  0 ≤ num_samples d ≤ NUM_SAMPLES →
  ∃ ctx' d',
    ReservoirSampleMerge src dst ctx = Some (tt, ctx') ∧
    state_at ctx' (ptr dst) = Some d' ∧
    (∀ q, q ≠ ptr dst → state_at ctx' q = state_at ctx q) ∧
    num_samples d' = Z.min NUM_SAMPLES (num_samples d + num_samples s) ∧
    source_size d' = to_int64 (source_size d + source_size s) ∧
    rng d' = rng d ∧
    length (samples d') = length (samples d) ∧
    ∀ x, x ∈ collected d' → x ∈ collected d ∨ x ∈ collected s.
Proof.
  intros Hnull Hs Hd Hlen_s Hlen_d Hnum_s Hnum_d. pose proof NUM_SAMPLES_value as HN.
  destruct (merge_fill_loop_general (samples s) (num_samples s) Hnum_s ltac:(lia)
              (Z.to_nat (num_samples s)) (samples d) (num_samples d) 0
              Hlen_d Hnum_d ltac:(lia) ltac:(lia))
    as (dst1 & n' & k' & Hfill & Hlen1 & Hdiff & Hk' & Hn' & Hstop & Hin1).
  destruct (merge_replace_loop_general (samples s) (num_samples s) Hnum_s ltac:(lia)
              (Z.to_nat (num_samples s)) dst1 k'
              ltac:(rewrite Hlen1; exact Hlen_d) ltac:(lia) ltac:(lia))
    as (dst2 & Hrepl & Hlen2 & Hin2).
  destruct (store_state_at ctx (ptr dst) d
              (mkReservoirSampleState dst2 n'
                 (to_int64 (source_size d + source_size s)) (rng d)) Hd)
    as (ctx' & Hstore & Hat & Hframe & _).
  eexists ctx', _. split; [|split; [exact Hat|split; [exact Hframe|]]].
  { unfold ReservoirSampleMerge. rewrite Hnull.
    rewrite bind_run, (load_run _ _ _ Hs). rewrite bind_run, (load_run _ _ _ Hd).
    rewrite Hfill, Hrepl. exact Hstore. }
  cbn [num_samples source_size rng samples].
  split; [lia|]. split; [reflexivity|]. split; [reflexivity|].
  split; [rewrite Hlen2; exact Hlen1|].
  unfold collected. cbn [num_samples samples]. intros x Hx.
  destruct Hstop as [Hfull| ->].
  - rewrite take_ge in Hx by lia.
    destruct (Hin2 x Hx) as [Hx1|Hsrc]; [|right; exact Hsrc].
    apply Hin1. rewrite take_ge by lia. exact Hx1.
  - (* the source was used up by the first loop: the second one does nothing *)
    rewrite merge_replace_loop_done in Hrepl. injection Hrepl as <-.
    apply Hin1. exact Hx.
Qed.

End reservoir_merge_general.

(** The reservoir of 10 and 20 merged into a fresh one. *)
Lemma ReservoirSampleMerge_collects_witness :
  ∃ ctx' d',
    ReservoirSampleMerge (StringVal_of 1 0) (StringVal_of 2 0) reservoir_pair_ctx
    = Some (tt, ctx') ∧
    state_at ctx' 2 = Some d' ∧
    num_samples d' = 2 ∧ source_size d' = 2.
Proof.
  destruct (ReservoirSampleMerge_collects (V:=AnyVal Z) (H:=sample_random) reservoir_pair_ctx
              (StringVal_of 1 0) (StringVal_of 2 0) two_keyed_samples
              (ReservoirSampleState_default (T:=IntVal) (H:=numeric_sample) (H0:=sample_random)
               : @ReservoirSampleState (AnyVal Z) sample_random))
    as (ctx' & d' & Hrun & Hat & _ & Hnum & Hsize & _).
  - reflexivity.
  - reflexivity.
  - reflexivity.
  - vm_compute. reflexivity.
  - vm_compute. reflexivity.
  - vm_compute. split; discriminate.
  - vm_compute. split; discriminate.
  - exists ctx', d'. split; [exact Hrun|]. split; [exact Hat|].
    rewrite Hnum, Hsize. split; reflexivity.
Defined.


(** ** The results of a reservoir *)

Lemma insert_sorted_perm {A} (less : A → A → bool) (x : A) (l : list A) :
  insert_sorted less x l ≡ₚ x :: l.
Proof.
  induction l as [|y l IH]; cbn [insert_sorted]; [reflexivity|].
  destruct (less x y); [reflexivity|]. rewrite IH. apply Permutation_swap.
Qed.

Lemma sorted_prefix_perm {A} (less : A → A → bool) (l : list A) :
  foldr (insert_sorted less) [] l ≡ₚ l.
Proof.
  induction l as [|x l IH]; cbn [foldr]; [reflexivity|].
  rewrite insert_sorted_perm, IH. reflexivity.
Qed.

Section sorting.
Context {A : Type} (less : A → A → bool).
Hypothesis less_asym : ∀ x y, less x y = true → less y x = false.
Hypothesis less_negtrans :
  ∀ x y z, less x y = false → less y z = false → less x z = false.

Lemma insert_sorted_ordered (x : A) (l : list A) :
  ordered less l → ordered less (insert_sorted less x l).
Proof.
  induction l as [|y l IH]; cbn [insert_sorted ordered].
  - intros _. split; [constructor|exact I].
  - intros [Hy Hl]. destruct (less x y) eqn:Hxy; cbn [ordered].
    + split; [|split; assumption]. constructor; [apply less_asym; exact Hxy|].
      eapply Forall_impl; [exact Hy|]. intros z Hz. cbn beta in *.
      apply (less_negtrans z y x Hz). apply less_asym. exact Hxy.
    + split; [|apply IH; exact Hl].
      rewrite insert_sorted_perm. constructor; assumption.
Qed.

Lemma sorted_prefix_ordered (l : list A) :
  ordered less (foldr (insert_sorted less) [] l).
Proof.
  induction l as [|x l IH]; cbn [foldr]; [exact I|].
  apply insert_sorted_ordered. exact IH.
Qed.

(** What [sort] leaves in the first [n] positions: the first [n] elements,
    in order. *)
Lemma sort_sorts (l : list A) (n : nat) :
  (n ≤ length l)%nat →
  take n (sort less l n) ≡ₚ take n l ∧ ordered less (take n (sort less l n)).
Proof.
  intros Hn. unfold sort.
  pose proof (sorted_prefix_perm less (take n l)) as Hperm.
  rewrite take_app_length' by (rewrite (Permutation_length Hperm), length_take; lia).
  split; [exact Hperm|apply sorted_prefix_ordered].
Qed.

End sorting.

Section reservoir_results.
Context {T : Type} `{SampleType T} `{RandomSource} `{L : ValueLibrary}.

(** Sorting the first [n] elements keeps the length, and each of the first
    [n] positions holds one of the first [n] elements. *)
Lemma sort_lookup {A} (less : A → A → bool) (l : list A) (n i : nat) :
  (n ≤ length l)%nat → (i < n)%nat →
  ∃ s, sort less l n !! i = Some s ∧ s ∈ take n l.
Proof.
  intros Hn Hi. unfold sort.
  pose proof (sorted_prefix_perm less (take n l)) as Hperm.
  assert (Hlen : length (foldr (insert_sorted less) [] (take n l)) = n).
  { rewrite (Permutation_length Hperm), length_take. lia. }
  destruct (lookup_lt_is_Some_2 (foldr (insert_sorted less) [] (take n l)) i ltac:(lia))
    as [s Hs].
  exists s. split.
  - rewrite lookup_app_l by lia. exact Hs.
  - rewrite <- Hperm. apply (list_elem_of_lookup_2 _ i). exact Hs.
Qed.

Lemma printed_list_cons (p : list Z) (ps : list (list Z)) :
  printed_list (p :: ps) = p ++ (if ps is [] then [] else [44; 32] ++ printed_list ps).
Proof. destruct ps; cbn [printed_list]; [rewrite app_nil_r|]; reflexivity. Qed.

Lemma print_samples_loop_spec (l : list (ReservoirSample sample_val)) (num : Z) :
  num ≤ Z.of_nat (length l) →
  ∀ (n : nat) (i : Z) (out : list Z),
    0 ≤ i → i + Z.of_nat n = num →
    print_samples_loop n i l num out
    = Some (out ++ printed_list (PrintSample <$> take n (drop (Z.to_nat i) l))).
Proof.
  intros Hnum. induction n as [|n IH]; intros i out Hi Hn.
  - cbn [print_samples_loop take fmap list_fmap printed_list]. rewrite app_nil_r. reflexivity.
  - cbn [print_samples_loop].
    destruct (lookup_lt_is_Some_2 l (Z.to_nat i) ltac:(lia)) as [s Hs].
    rewrite Hs. cbn [mbind option_bind].
    rewrite IH by lia.
    rewrite (drop_S _ _ _ Hs). cbn [take]. rewrite fmap_cons, printed_list_cons.
    replace (Z.to_nat (i + 1)) with (Datatypes.S (Z.to_nat i)) by lia.
    destruct (Z.ltb_spec i (num - 1)) as [Hmore|Hlast].
    + destruct n as [|n]; [lia|].
      destruct (lookup_lt_is_Some_2 l (Datatypes.S (Z.to_nat i)) ltac:(lia)) as [s' Hs'].
      rewrite (drop_S _ _ _ Hs'). cbn [take]. rewrite fmap_cons.
      rewrite <- !app_assoc. reflexivity.
    + destruct n as [|n]; [|lia]. cbn [take fmap list_fmap printed_list].
      rewrite !app_nil_r. reflexivity.
Qed.

Lemma print_buckets_loop_spec (l : list (ReservoirSample sample_val))
    (num_buckets samples_per_bucket : Z) :
  (∀ b, 0 ≤ b < num_buckets →
        0 ≤ (b + 1) * samples_per_bucket - 1 < Z.of_nat (length l)) →
  ∀ (n : nat) (bucket_idx : Z) (out : list Z),
    0 ≤ bucket_idx → bucket_idx + Z.of_nat n = num_buckets →
    ∃ picks,
      print_buckets_loop n bucket_idx l num_buckets samples_per_bucket out
      = Some (out ++ printed_list (PrintSample <$> picks)) ∧
      Forall2 (λ b s, 0 ≤ b < num_buckets ∧
                      l !! Z.to_nat ((b + 1) * samples_per_bucket - 1) = Some s)
              (seqZ bucket_idx (Z.of_nat n)) picks.
Proof.
  intros Hidx. induction n as [|n IH]; intros b out Hb Hn.
  - exists []. cbn [print_buckets_loop fmap list_fmap printed_list]. rewrite app_nil_r.
    split; [reflexivity|]. constructor.
  - cbn [print_buckets_loop].
    destruct (lookup_lt_is_Some_2 l (Z.to_nat ((b + 1) * samples_per_bucket - 1)))
      as [s Hs]; [pose proof (Hidx b ltac:(lia)); lia|].
    rewrite Hs. cbn [mbind option_bind].
    match goal with |- context [print_buckets_loop n (b + 1) l _ _ ?o] =>
      destruct (IH (b + 1) o ltac:(lia) ltac:(lia)) as (picks & Hrun & Hpicks)
    end.
    exists (s :: picks). split.
    + rewrite Hrun, fmap_cons, printed_list_cons.
      destruct (Z.ltb_spec b (num_buckets - 1)) as [Hmore|Hlast].
      * destruct n as [|n]; [lia|].
        rewrite seqZ_cons in Hpicks by lia.
        apply Forall2_cons_inv_l in Hpicks as (s' & picks' & _ & _ & ->).
        rewrite fmap_cons, <- !app_assoc. reflexivity.
      * destruct n as [|n]; [|lia]. apply Forall2_nil_inv_l in Hpicks as ->.
        cbn [fmap list_fmap printed_list]. rewrite !app_nil_r. reflexivity.
    + rewrite seqZ_cons by lia. constructor; [split; [lia|exact Hs]|].
      replace (Z.succ b) with (b + 1) by lia.
      replace (Z.pred (Z.of_nat (Datatypes.S n))) with (Z.of_nat n) by lia. exact Hpicks.
Qed.

(** The tail shared by the three finalize functions: copy the text out,
    release the state. *)
Lemma copy_and_free (ctx : FunctionContext (ReservoirSampleState sample_val)) p st
    (out_str : list Z) :
  allocations ctx !! p = Some st →
  ∃ r ctx',
    (result_str ← StringVal_copy out_str; Free p;; mret result_str) ctx = Some (r, ctx') ∧
    is_null r = false ∧
    result_bytes ctx' r = Some out_str ∧
    (p ≠ NULL → allocations ctx' = delete p (allocations ctx)).
Proof.
  intros Hst.
  destruct (StringVal_copy_result out_str ctx) as (r & ctx1 & Hcopy & Hnull & Hbytes & Halloc).
  destruct (Free_allocated ctx1 p st ltac:(rewrite Halloc; exact Hst))
    as (ctx' & Hfree & Hstr & Hnext & Hdel).
  exists r, ctx'. rewrite bind_run, Hcopy, bind_run, Hfree, ret_run.
  split; [reflexivity|]. split; [exact Hnull|]. split.
  - unfold result_bytes, string_at in *. rewrite Hstr. exact Hbytes.
  - intros Hp. rewrite (Hdel Hp), Halloc. reflexivity.
Qed.

(** X26.  [ReservoirSampleFinalize] on a state whose count of samples lies
    within its array returns, as a non-null string, the printed forms of
    the collected samples in their order, with [", "] between them, and
    releases the state. *)
Theorem ReservoirSampleFinalize_prints
    (ctx : FunctionContext (ReservoirSampleState sample_val)) (src : StringVal) st :
  allocations ctx !! ptr src = Some st →
  0 ≤ num_samples st ≤ Z.of_nat (length (samples st)) →
  ∃ r ctx',
    ReservoirSampleFinalize src ctx = Some (r, ctx') ∧
    is_null r = false ∧
    result_bytes ctx' r = Some (printed_list (PrintSample <$> collected st)) ∧
    (ptr src ≠ NULL → allocations ctx' = delete (ptr src) (allocations ctx)).
Proof.
  intros Hst Hnum. unfold ReservoirSampleFinalize.
  rewrite bind_run, (load_run _ _ _ (state_at_allocated _ _ _ Hst)).
  rewrite (print_samples_loop_spec (samples st) (num_samples st) ltac:(lia)) by lia.
  cbn [app Z.to_nat drop]. apply (copy_and_free ctx (ptr src) st). exact Hst.
Qed.

(** X27.  [HistogramFinalize], for a comparison of values that is a strict
    weak ordering (as [std::sort] asks), on a state whose count [n] of
    samples lies within its array.  The collected samples are put in order
    of their values: after the sort they are a permutation of the collected
    samples in which no sample is less than one before it.  The function
    shows [min n NUM_BUCKETS] of them, the ones at the positions
    [(b + 1) * max (n / NUM_BUCKETS) 1 - 1], each of which lies below [n]:
    the result is their printed forms with [", "] between them, and the
    state is released. *)
Theorem HistogramFinalize_buckets
    (ctx : FunctionContext (ReservoirSampleState sample_val)) (src : StringVal) st :
  (∀ x y, SampleValLess_val x y = true → SampleValLess_val y x = false) →
  (∀ x y z, SampleValLess_val x y = false → SampleValLess_val y z = false →
            SampleValLess_val x z = false) →
  allocations ctx !! ptr src = Some st →
  0 ≤ num_samples st ≤ Z.of_nat (length (samples st)) →
  ∃ r ctx' picks,
    HistogramFinalize src ctx = Some (r, ctx') ∧
    is_null r = false ∧
    result_bytes ctx' r = Some (printed_list (PrintSample <$> picks)) ∧
    Z.of_nat (length picks) = Z.min (num_samples st) NUM_BUCKETS ∧
    collected (sort_samples st) ≡ₚ collected st ∧
    ordered SampleValLess (collected (sort_samples st)) ∧
    Forall2 (λ i s, 0 ≤ i < num_samples st ∧
                    collected (sort_samples st) !! Z.to_nat i = Some s ∧
                    s ∈ collected st)
            (bucket_samples (num_samples st)) picks ∧
    (ptr src ≠ NULL → allocations ctx' = delete (ptr src) (allocations ctx)).
Proof.
  intros Hasym Hnegtrans Hst Hnum. unfold HistogramFinalize.
  rewrite bind_run, (load_run _ _ _ (state_at_allocated _ _ _ Hst)).
  rewrite bind_run, (store_run _ _ _ _ Hst).
  set (ctx1 := set_allocations _ ctx).
  assert (Hst1 : allocations ctx1 !! ptr src = Some (sort_samples st))
    by apply allocated_after_store.
  assert (Hlen : length (samples (sort_samples st)) = length (samples st)).
  { unfold sort_samples, sort. cbn [samples].
    rewrite length_app, (Permutation_length (sorted_prefix_perm _ _)).
    rewrite <- length_app, take_drop. reflexivity. }
  destruct (sort_sorts SampleValLess
              ltac:(intros x y; apply Hasym) ltac:(intros x y z; apply Hnegtrans)
              (samples st) (Z.to_nat (num_samples st)) ltac:(lia)) as [Hperm Hordered].
  assert (HB : NUM_BUCKETS = 100) by reflexivity.
  assert (Hidx : ∀ b, 0 ≤ b < Z.min (num_samples st) NUM_BUCKETS →
                      0 ≤ (b + 1) * Z.max (num_samples st ÷ NUM_BUCKETS) 1 - 1
                      < num_samples st).
  { intros b Hb. rewrite HB in *. rewrite Z.quot_div_nonneg by lia.
    pose proof (Z.div_mod (num_samples st) 100 ltac:(lia)) as Hdm.
    pose proof (Z.mod_pos_bound (num_samples st) 100 ltac:(lia)) as Hmod.
    destruct (Z.max_spec (num_samples st / 100) 1) as [[Hlt ->]|[Hge ->]]; [lia|nia]. }
  cbn [num_samples sort_samples].
  destruct (print_buckets_loop_spec (samples (sort_samples st))
              (Z.min (num_samples st) NUM_BUCKETS)
              (Z.max (num_samples st ÷ NUM_BUCKETS) 1)
              ltac:(intros b Hb; rewrite Hlen; pose proof (Hidx b Hb); lia)
              (Z.to_nat (Z.min (num_samples st) NUM_BUCKETS)) 0 []
              ltac:(lia) ltac:(lia))
    as (picks & Hrun & Hpicks).
  rewrite Hrun. cbn [app].
  destruct (copy_and_free ctx1 (ptr src) _ (printed_list (PrintSample <$> picks)) Hst1)
    as (r & ctx' & Hfin & Hnull & Hbytes & Hfree).
  exists r, ctx', picks. split; [exact Hfin|]. split; [exact Hnull|].
  split; [exact Hbytes|]. split; [|split; [exact Hperm|split; [exact Hordered|split]]].
  - rewrite <- (Forall2_length _ _ _ Hpicks), length_seqZ. lia.
  - unfold bucket_samples. apply Forall2_fmap_l.
    rewrite Z2Nat.id in Hpicks by lia.
    eapply Forall2_impl; [exact Hpicks|]. intros b s [Hb Hs]. cbn beta.
    pose proof (Hidx b ltac:(lia)) as Hi. split; [exact Hi|].
    assert (Hs' : collected (sort_samples st)
                  !! Z.to_nat ((b + 1) * Z.max (num_samples st ÷ NUM_BUCKETS) 1 - 1)
                  = Some s).
    { unfold collected. apply lookup_take_Some. split; [exact Hs|].
      change (num_samples (sort_samples st)) with (num_samples st). lia. }
    split; [exact Hs'|].
    rewrite <- Hperm. apply (list_elem_of_lookup_2 _ _ _ Hs').
  - intros Hp. rewrite (Hfree Hp). subst ctx1. unfold set_allocations. ctx_simpl.
    apply delete_insert_eq.
Qed.

(** X28.  [AppxMedianFinalize], for a comparison of values that is a strict
    weak ordering, on a state with at least one sample whose count [n] lies
    within its array: the collected samples are put in order of their
    values (a permutation of them in which no sample is less than one
    before it), and the result is the printed form of the sample at
    position [n / 2] of that order.  The state is released. *)
Theorem AppxMedianFinalize_sample
    (ctx : FunctionContext (ReservoirSampleState sample_val)) (src : StringVal) st :
  (∀ x y, SampleValLess_val x y = true → SampleValLess_val y x = false) →
  (∀ x y z, SampleValLess_val x y = false → SampleValLess_val y z = false →
            SampleValLess_val x z = false) →
  allocations ctx !! ptr src = Some st →
  1 ≤ num_samples st ≤ Z.of_nat (length (samples st)) →
  ∃ r ctx' s,
    AppxMedianFinalize src ctx = Some (r, ctx') ∧
    is_null r = false ∧
    result_bytes ctx' r = Some (PrintSample s) ∧
    collected (sort_samples st) ≡ₚ collected st ∧
    ordered SampleValLess (collected (sort_samples st)) ∧
    collected (sort_samples st) !! Z.to_nat (num_samples st / 2) = Some s ∧
    s ∈ collected st ∧
    (ptr src ≠ NULL → allocations ctx' = delete (ptr src) (allocations ctx)).
Proof.
  intros Hasym Hnegtrans Hst Hnum. unfold AppxMedianFinalize.
  rewrite bind_run, (load_run _ _ _ (state_at_allocated _ _ _ Hst)).
  rewrite bind_run, (store_run _ _ _ _ Hst).
  set (ctx1 := set_allocations _ ctx).
  assert (Hst1 : allocations ctx1 !! ptr src = Some (sort_samples st))
    by apply allocated_after_store.
  destruct (sort_sorts SampleValLess
              ltac:(intros x y; apply Hasym) ltac:(intros x y z; apply Hnegtrans)
              (samples st) (Z.to_nat (num_samples st)) ltac:(lia)) as [Hperm Hordered].
  change (num_samples (sort_samples st)) with (num_samples st).
  rewrite Z.quot_div_nonneg by lia.
  assert (Hhalf : (Z.to_nat (num_samples st / 2) < Z.to_nat (num_samples st))%nat).
  { apply Z2Nat.inj_lt; [apply Z.div_pos; lia|lia|]. apply Z.div_lt; lia. }
  destruct (sort_lookup SampleValLess (samples st) (Z.to_nat (num_samples st))
              (Z.to_nat (num_samples st / 2)) ltac:(lia) Hhalf) as (s & Hs & Hin).
  assert (Hs' : collected (sort_samples st) !! Z.to_nat (num_samples st / 2) = Some s).
  { unfold collected. apply lookup_take_Some. split; [exact Hs|exact Hhalf]. }
  cbn [num_samples sort_samples samples]. rewrite Hs.
  destruct (copy_and_free ctx1 (ptr src) _ (PrintSample s) Hst1)
    as (r & ctx' & Hfin & Hnull & Hbytes & Hfree).
  exists r, ctx', s. split; [exact Hfin|]. split; [exact Hnull|].
  split; [exact Hbytes|]. split; [exact Hperm|]. split; [exact Hordered|].
  split; [exact Hs'|]. split; [exact Hin|].
  intros Hp. rewrite (Hfree Hp). subst ctx1. unfold set_allocations. ctx_simpl.
  apply delete_insert_eq.
Qed.

End reservoir_results.

(** The reservoir of 10 and 20. *)
Lemma ReservoirSampleFinalize_prints_witness :
  ∃ r ctx',
    ReservoirSampleFinalize (T:=IntVal) (H:=numeric_sample) (H0:=sample_random) (H1:=sample_library)
      (StringVal_of 1 0) reservoir_pair_ctx = Some (r, ctx') ∧
    is_null r = false ∧
    result_bytes ctx' r = Some (bytes_of_string "10, 20") ∧
    allocations ctx' !! 1 = None.
Proof.
  destruct (ReservoirSampleFinalize_prints (T:=IntVal) (H:=numeric_sample) (H0:=sample_random)
              (L:=sample_library)
              reservoir_pair_ctx (StringVal_of 1 0) two_keyed_samples)
    as (r & ctx' & Hrun & Hnull & Hbytes & Hfree).
  - reflexivity.
  - vm_compute. split; discriminate.
  - exists r, ctx'. split; [exact Hrun|]. split; [exact Hnull|]. split; [exact Hbytes|].
    rewrite Hfree by discriminate. apply lookup_delete_eq.
Defined.

(** The histogram of the samples 30, 10 and 20. *)
Lemma HistogramFinalize_buckets_witness :
  ∃ r ctx',
    HistogramFinalize (T:=IntVal) (H:=numeric_sample) (H0:=sample_random) (H1:=sample_library)
      (StringVal_of 1 0) unordered_ctx = Some (r, ctx') ∧
    is_null r = false ∧
    result_bytes ctx' r = Some (bytes_of_string "10, 20, 30") ∧
    allocations ctx' !! 1 = None.
Proof.
  destruct (HistogramFinalize_buckets (T:=IntVal) (H:=numeric_sample) (H0:=sample_random)
              (L:=sample_library) unordered_ctx (StringVal_of 1 0) unordered_samples)
    as (r & ctx' & picks & Hrun & Hnull & Hbytes & _ & _ & _ & Hpicks & Hfree).
  - intros x y Hxy. apply Z.ltb_ge. apply Z.ltb_lt in Hxy. lia.
  - intros x y z Hxy Hyz. apply Z.ltb_ge. apply Z.ltb_ge in Hxy, Hyz. lia.
  - reflexivity.
  - vm_compute. split; discriminate.
  - exists r, ctx'. split; [exact Hrun|]. split; [exact Hnull|]. split.
    + change (bucket_samples (num_samples unordered_samples)) with [0; 1; 2] in Hpicks.
      apply Forall2_cons_inv_l in Hpicks as (s0 & picks0 & (_ & Hs0 & _) & Hpicks & ->).
      apply Forall2_cons_inv_l in Hpicks as (s1 & picks1 & (_ & Hs1 & _) & Hpicks & ->).
      apply Forall2_cons_inv_l in Hpicks as (s2 & picks2 & (_ & Hs2 & _) & Hpicks & ->).
      apply Forall2_nil_inv_l in Hpicks as ->.
      vm_compute in Hs0, Hs1, Hs2.
      injection Hs0 as <-. injection Hs1 as <-. injection Hs2 as <-.
      rewrite Hbytes. reflexivity.
    + rewrite Hfree by discriminate. apply lookup_delete_eq.
Defined.

(** The approximate median of the samples 30, 10 and 20. *)
Lemma AppxMedianFinalize_sample_witness :
  ∃ r ctx',
    AppxMedianFinalize (T:=IntVal) (H:=numeric_sample) (H0:=sample_random) (H1:=sample_library)
      (StringVal_of 1 0) unordered_ctx = Some (r, ctx') ∧
    is_null r = false ∧
    result_bytes ctx' r = Some (bytes_of_string "20").
Proof.
  destruct (AppxMedianFinalize_sample (T:=IntVal) (H:=numeric_sample) (H0:=sample_random)
              (L:=sample_library) unordered_ctx (StringVal_of 1 0) unordered_samples)
    as (r & ctx' & s & Hrun & Hnull & Hbytes & _ & _ & Hs & _).
  - intros x y Hxy. apply Z.ltb_ge. apply Z.ltb_lt in Hxy. lia.
  - intros x y z Hxy Hyz. apply Z.ltb_ge. apply Z.ltb_ge in Hxy, Hyz. lia.
  - reflexivity.
  - vm_compute. split; discriminate.
  - exists r, ctx'. split; [exact Hrun|]. split; [exact Hnull|].
    rewrite Hbytes. vm_compute in Hs. injection Hs as <-. reflexivity.
Defined.


(** ** Serializing a reservoir *)

Section reservoir_serialize.
Context {V : Type} `{RandomSource}.

(** The loop over the samples [i], ..., [i + n - 1] rewrites keys only:
    the values stay, and so does every sample outside of that range or
    with a key that is set. *)
Lemma assign_keys_spec (num source : Z) :
  ∀ (n i : nat) (l : list (ReservoirSample V)) (g : rand_state),
    length (assign_keys n i l num source g).1 = length l ∧
    rs_val <$> (assign_keys n i l num source g).1 = rs_val <$> l ∧
    ∀ (j : nat) (s : ReservoirSample V),
      l !! j = Some s →
      dleb dzero (key s) = true ∨ (j < i)%nat ∨ (i + n ≤ j)%nat →
      (assign_keys n i l num source g).1 !! j = Some s.
Proof.
  induction n as [|n IH]; intros i l g; cbn [assign_keys].
  - cbn [fst]. split; [reflexivity|]. split; [reflexivity|]. intros j s Hj _. exact Hj.
  - destruct (l !! i) as [s|] eqn:Hs;
      [|cbn [fst]; split; [reflexivity|]; split; [reflexivity|]; intros j s' Hj _; exact Hj].
    destruct (dleb dzero (key s)) eqn:Hkey.
    + destruct (IH (Datatypes.S i) l g) as (Hlen & Hval & Hkeep).
      split; [exact Hlen|]. split; [exact Hval|].
      intros j s' Hj Hcase. apply Hkeep; [exact Hj|].
      destruct Hcase as [Hk|[Hlt|Hge]]; [left; exact Hk|right; left; lia|right; right; lia].
    + destruct (rand g) as [x g1].
      match goal with |- context [assign_keys n _ ?l1 _ _ _] =>
        destruct (IH (Datatypes.S i) l1 g1) as (Hlen & Hval & Hkeep)
      end.
      split; [rewrite Hlen; apply length_insert|]. split.
      * rewrite Hval, list_fmap_insert. cbn [rs_val].
        apply list_insert_id. rewrite list_lookup_fmap, Hs. reflexivity.
      * intros j s' Hj Hcase. destruct (decide (j = i)) as [->|Hne].
        -- rewrite Hs in Hj. injection Hj as <-. rewrite Hkey in Hcase.
           destruct Hcase as [Hcase|Hcase]; [discriminate|lia].
        -- apply Hkeep; [rewrite list_lookup_insert_ne by congruence; exact Hj|].
           destruct Hcase as [Hk|[Hlt|Hge]];
             [left; exact Hk|right; left; lia|right; right; lia].
Qed.

(** X29.  [ReservoirSampleSerialize] of a non-null state moves the state
    into a new buffer and releases the old one.  The new state has the
    same counts and generator and the same sample values at the same
    positions: only keys are written, and a sample that already has a key,
    or that lies beyond the collected ones, is kept as it is. *)
Theorem ReservoirSampleSerialize_keeps_values
    (ctx : FunctionContext (ReservoirSampleState V)) (g : rand_state) (src : StringVal) st :
  is_null src = false →
  allocations ctx !! ptr src = Some st →
  allocations ctx !! next_ptr ctx = None →
  ∃ r g' ctx' st',
    ReservoirSampleSerialize g src ctx = Some ((r, g'), ctx') ∧
    is_null r = false ∧
    state_at ctx' (ptr r) = Some st' ∧
    (ptr src ≠ NULL → allocations ctx' = delete (ptr src) (allocations ctx)) ∧
    num_samples st' = num_samples st ∧
    source_size st' = source_size st ∧
    rng st' = rng st ∧
    rs_val <$> samples st' = rs_val <$> samples st ∧
    ∀ (j : nat) (s : ReservoirSample V),
      samples st !! j = Some s →
      dleb dzero (key s) = true ∨ num_samples st ≤ Z.of_nat j →
      samples st' !! j = Some s.
Proof.
  intros Hnull Hst Hfresh. unfold ReservoirSampleSerialize. rewrite Hnull.
  rewrite bind_run. unfold StringVal_local_state at 1.
  rewrite (state_at_allocated _ _ _ Hst).
  set (p := next_ptr ctx) in *.
  set (ctx1 := set_next_ptr (p + 1) (set_local_states (<[p := st]> (local_states ctx)) ctx)).
  assert (Hst1 : allocations ctx1 !! ptr src = Some st) by exact Hst.
  destruct (Free_allocated ctx1 (ptr src) st Hst1) as (ctx2 & Hfree & _ & _ & Hdel).
  rewrite bind_run, Hfree. cbn [ptr StringVal_of].
  assert (Hlocal : local_states ctx2 !! p = Some st ∧ allocations ctx2 !! p = None).
  { revert Hfree. unfold Free. destruct (ptr src =? NULL).
    - intros [= <-]. subst ctx1. ctx_simpl. split; [apply lookup_insert_eq|exact Hfresh].
    - rewrite Hst1. intros [= <-]. subst ctx1. ctx_simpl.
      split; [apply lookup_insert_eq|]. apply lookup_delete_None. right. exact Hfresh. }
  destruct Hlocal as [Hlocal Hnone].
  assert (Hat : state_at ctx2 p = Some st) by (unfold state_at; rewrite Hnone; exact Hlocal).
  rewrite bind_run, (load_run _ _ _ Hat).
  pose proof (assign_keys_spec (num_samples st) (source_size st)
                (Z.to_nat (num_samples st)) 0 (samples st) g) as (Hlen & Hval & Hkeep).
  destruct (assign_keys (Z.to_nat (num_samples st)) 0 (samples st)
              (num_samples st) (source_size st) g) as [l g'].
  cbn [fst] in Hlen, Hval, Hkeep.
  rewrite bind_run. unfold store at 1. rewrite Hnone, Hlocal. rewrite ret_run.
  eexists _, g', _, _. split; [reflexivity|]. split; [reflexivity|]. split.
  { unfold state_at. ctx_simpl. rewrite Hnone. apply lookup_insert_eq. }
  split.
  { intros Hp. ctx_simpl. rewrite (Hdel Hp). reflexivity. }
  cbn [num_samples source_size rng samples].
  split; [reflexivity|]. split; [reflexivity|]. split; [reflexivity|].
  split; [exact Hval|].
  intros j s Hj Hcase. apply Hkeep; [exact Hj|]. destruct Hcase as [Hk|Hj']; [left; exact Hk|].
  right. right. lia.
Qed.

End reservoir_serialize.

(** Serializing the reservoir of 10 and 20, whose keys are set. *)
Lemma ReservoirSampleSerialize_keeps_values_witness :
  ∃ r g' ctx' st',
    ReservoirSampleSerialize (H:=sample_random) (0 : @rand_state sample_random)
      (StringVal_of 1 0) reservoir_pair_ctx = Some ((r, g'), ctx') ∧
    state_at ctx' (ptr r) = Some st' ∧
    num_samples st' = 2 ∧
    samples st' !! 0%nat = Some (mkReservoirSample (mkVal false 10) (double_of_Z 1)) ∧
    allocations ctx' !! 1 = None.
Proof.
  destruct (ReservoirSampleSerialize_keeps_values (V:=AnyVal Z) (H:=sample_random)
              reservoir_pair_ctx
              (0 : @rand_state sample_random) (StringVal_of 1 0) two_keyed_samples)
    as (r & g' & ctx' & st' & Hrun & _ & Hat & Hfree & Hnum & _ & _ & _ & Hkeep).
  - reflexivity.
  - reflexivity.
  - reflexivity.
  - exists r, g', ctx', st'. split; [exact Hrun|]. split; [exact Hat|].
    split; [rewrite Hnum; reflexivity|]. split.
    + apply Hkeep; [reflexivity|]. left. reflexivity.
    + rewrite Hfree by discriminate. apply lookup_delete_eq.
Defined.


(** ** Decimal sums: partial sums and their merge *)

Lemma wrap128_to_int128_l a b : wrap 128 (to_int128 a + b) = wrap 128 (a + b).
Proof.
  unfold wrap, to_int128, swrap. change (128 - 1) with 127.
  change (2 ^ 128) with 340282366920938463463374607431768211456.
  change (2 ^ 127) with 170141183460469231731687303715884105728.
  Z.div_mod_to_equations. lia.
Qed.

Lemma wrap128_to_int128_r a b : wrap 128 (a + to_int128 b) = wrap 128 (a + b).
Proof. rewrite (Z.add_comm a), wrap128_to_int128_l, Z.add_comm. reflexivity. Qed.

Lemma wrap128_add_l a b : wrap 128 (wrap 128 a + b) = wrap 128 (a + b).
Proof. unfold wrap. rewrite Zplus_mod_idemp_l. reflexivity. Qed.

Lemma wrap128_add_r a b : wrap 128 (a + wrap 128 b) = wrap 128 (a + b).
Proof. unfold wrap. rewrite Zplus_mod_idemp_r. reflexivity. Qed.

Lemma SumUpdate_non_null t (x d : DecimalVal) :
  is_null x = false →
  SumUpdate t x d
  = mkDecimalVal false
      (wrap 128 ((if is_null d then 0 else dv_image d) + decimal_field t x)).
Proof.
  intros Hx. unfold SumUpdate, decimal_field. rewrite Hx.
  destruct d as [[|] img]; cbn [is_null DecimalVal_nullable dv_is_null dv_image];
    destruct (precision t <=? 9); [| destruct (precision t <=? 19) | | destruct (precision t <=? 19)];
    unfold set_val16, InitZero_DecimalVal, val16;
    cbn [dv_is_null dv_image]; rewrite wrap128_to_int128_l; reflexivity.
Qed.

Lemma SumUpdate_all_skips t (xs : list DecimalVal) d :
  all_null xs = true → SumUpdate_all t xs d = d.
Proof.
  revert d. induction xs as [|x xs IH]; intros d Hnull; [reflexivity|].
  cbn [all_null forallb] in Hnull. apply andb_prop in Hnull as [Hx Hxs].
  unfold SumUpdate_all. cbn [foldl]. unfold SumUpdate at 2. rewrite Hx. apply IH. exact Hxs.
Qed.

Lemma SumUpdate_all_from t (xs : list DecimalVal) d :
  is_null d = false →
  SumUpdate_all t xs d
  = if all_null xs then d
    else mkDecimalVal false (wrap 128 (dv_image d + decimal_total t xs)).
Proof.
  revert d. induction xs as [|x xs IH]; intros d Hd; [reflexivity|].
  unfold SumUpdate_all. cbn [foldl all_null forallb decimal_total].
  destruct (is_null x) eqn:Hx; cbn [andb].
  - unfold SumUpdate at 2. rewrite Hx. rewrite Z.add_0_l. apply IH. exact Hd.
  - rewrite (SumUpdate_non_null _ _ _ Hx), Hd.
    change (foldl (λ dst src, SumUpdate t src dst) ?d xs) with (SumUpdate_all t xs d).
    rewrite IH by reflexivity. cbn [dv_image].
    destruct (all_null xs) eqn:Hxs.
    + f_equal.
      assert (decimal_total t xs = 0) as ->; [|rewrite Z.add_0_r; reflexivity].
      clear -Hxs. induction xs as [|y ys IH]; [reflexivity|].
      cbn [all_null forallb] in Hxs. apply andb_prop in Hxs as [Hy Hys].
      cbn [decimal_total]. rewrite Hy, (IH Hys). reflexivity.
    + f_equal. rewrite wrap128_add_l, Z.add_assoc. reflexivity.
Qed.

Lemma SumUpdate_all_from_null t (xs : list DecimalVal) d :
  is_null d = true →
  SumUpdate_all t xs d
  = if all_null xs then d else mkDecimalVal false (wrap 128 (decimal_total t xs)).
Proof.
  revert d. induction xs as [|x xs IH]; intros d Hd; [reflexivity|].
  unfold SumUpdate_all. cbn [foldl all_null forallb decimal_total].
  destruct (is_null x) eqn:Hx; cbn [andb].
  - unfold SumUpdate at 2. rewrite Hx. rewrite Z.add_0_l. apply IH. exact Hd.
  - rewrite (SumUpdate_non_null _ _ _ Hx), Hd.
    change (foldl (λ dst src, SumUpdate t src dst) ?d xs) with (SumUpdate_all t xs d).
    rewrite SumUpdate_all_from by reflexivity. cbn [dv_image]. rewrite Z.add_0_l.
    destruct (all_null xs) eqn:Hxs.
    + f_equal.
      assert (decimal_total t xs = 0) as ->; [|rewrite Z.add_0_r; reflexivity].
      clear -Hxs. induction xs as [|y ys IH]; [reflexivity|].
      cbn [all_null forallb] in Hxs. apply andb_prop in Hxs as [Hy Hys].
      cbn [decimal_total]. rewrite Hy, (IH Hys). reflexivity.
    + f_equal. rewrite wrap128_add_l. reflexivity.
Qed.

(** X30.  Decimal sums can be computed in parts: with [SumUpdate] folded
    over [xs] and over [ys], each from a null sum, [SumMerge] of the second
    partial sum into the first gives what [SumUpdate] folded over
    [xs ++ ys] gives, whichever field the declared precision selects and
    with the 128-bit wrap-around of the additions included. *)
Theorem SumMerge_of_partial_sums (arg_desc : TypeDesc) (xs ys : list DecimalVal)
    (d1 d2 : DecimalVal) :
  is_null d1 = true → is_null d2 = true →
  SumMerge (SumUpdate_all arg_desc ys d2) (SumUpdate_all arg_desc xs d1)
  = SumUpdate_all arg_desc (xs ++ ys) d1.
Proof.
  intros Hd1 Hd2.
  assert (Happ : SumUpdate_all arg_desc (xs ++ ys) d1
                 = SumUpdate_all arg_desc ys (SumUpdate_all arg_desc xs d1))
    by apply foldl_app.
  rewrite Happ, (SumUpdate_all_from_null _ ys d2 Hd2).
  destruct (all_null ys) eqn:Hys.
  - rewrite (SumUpdate_all_skips _ ys _ Hys). unfold SumMerge. rewrite Hd2. reflexivity.
  - rewrite (SumUpdate_all_from_null _ xs d1 Hd1).
    destruct (all_null xs) eqn:Hxs.
    + rewrite (SumUpdate_all_from_null _ ys d1 Hd1), Hys.
      unfold SumMerge. cbn [is_null DecimalVal_nullable dv_is_null]. rewrite Hd1.
      unfold set_val16, InitZero_DecimalVal, val16. cbn [dv_is_null dv_image].
      rewrite wrap128_to_int128_l, wrap128_to_int128_r, wrap128_add_r. reflexivity.
    + rewrite SumUpdate_all_from by reflexivity. rewrite Hys.
      unfold SumMerge. cbn [is_null DecimalVal_nullable dv_is_null].
      unfold set_val16, val16. cbn [dv_is_null dv_image].
      rewrite wrap128_to_int128_l, wrap128_to_int128_r, wrap128_add_l, wrap128_add_r.
      rewrite wrap128_add_l. reflexivity.
Qed.

(** The partial sums of 5 and of 7 and a null input. *)
Lemma SumMerge_of_partial_sums_witness :
  SumMerge (SumUpdate_all decimal38 [DecimalVal_of 7; DecimalVal_null] DecimalVal_null)
           (SumUpdate_all decimal38 [DecimalVal_of 5] DecimalVal_null)
  = DecimalVal_of 12.
Proof.
  rewrite (SumMerge_of_partial_sums decimal38 [DecimalVal_of 5]
             [DecimalVal_of 7; DecimalVal_null] DecimalVal_null DecimalVal_null)
    by reflexivity.
  reflexivity.
Defined.
